(** * MINT format: a shallow embedding of [packages/mint/src/index.ts]

    The encoder, the decoder and the validator of the MINT text format are
    translated to Rocq functions, and the properties the specification states
    about them are proved or refuted on these functions.

    JavaScript strings are sequences of UTF-16 code units; they are modelled
    as lists of code units, so that [length], [trim] and the symbol tables
    behave as in the source.

    The argument parser and the mode detection of the command-line tool,
    [packages/cli/src/index.ts], are embedded in the module [Cli]. *)

From Stdlib Require Import List NArith ZArith Bool Arith Lia.
From Stdlib Require String Ascii.
Import String.StringSyntax.
From Stdlib Require Import Permutation.
From Stdlib Require Import Sorted.
Import ListNotations.

(** ** JavaScript strings and the string methods the program calls *)

Module JS.

Abbreviation char := N (only parsing).
Abbreviation jsstring := (list N) (only parsing).

(** An ASCII literal of the source, as a list of code units. *)
Definition lit (s : String.string) : jsstring :=
  map Ascii.N_of_ascii (String.list_ascii_of_string s).

Arguments lit s%_string_scope : simpl never.

Definition SPACE : char := 32%N.
Definition PIPE : char := 124%N.
Definition COLON : char := 58%N.
Definition COMMA : char := 44%N.
Definition QUOTE : char := 34%N.
Definition BACKSLASH : char := 92%N.
Definition NEWLINE : char := 10%N.
Definition CR : char := 13%N.
Definition TAB : char := 9%N.
Definition HASH : char := 35%N.
Definition MINUS : char := 45%N.
Definition PLUS : char := 43%N.
Definition DOT : char := 46%N.
Definition SLASH : char := 47%N.

(** [===] on strings. *)
Fixpoint eqb (a b : jsstring) : bool :=
  match a, b with
  | [], [] => true
  | x :: a', y :: b' => (x =? y)%N && eqb a' b'
  | _, _ => false
  end.

(** [s.startsWith(p)] *)
Fixpoint startsWith (p s : jsstring) : bool :=
  match p, s with
  | [], _ => true
  | x :: p', y :: s' => (x =? y)%N && startsWith p' s'
  | _ :: _, [] => false
  end.

(** [s.endsWith(p)] *)
Definition endsWith (p s : jsstring) : bool := startsWith (rev p) (rev s).

(** [s.includes(p)] *)
Fixpoint includes (p s : jsstring) : bool :=
  startsWith p s ||
  match s with
  | [] => false
  | _ :: s' => includes p s'
  end.

(** [s.indexOf(p)], with [-1] when [p] does not occur. *)
Fixpoint indexOf_from (p s : jsstring) (i : Z) : Z :=
  if startsWith p s then i
  else match s with
       | [] => (-1)%Z
       | _ :: s' => indexOf_from p s' (i + 1)%Z
       end.

Definition indexOf (p s : jsstring) : Z := indexOf_from p s 0%Z.

(** The relative index of [slice]: a negative index counts from the end. *)
Definition slice_index (len k : Z) : Z :=
  if (k <? 0)%Z then Z.max (len + k) 0 else Z.min k len.

(** [l.slice(b, e)], for strings and for arrays. *)
Definition slice {A} (l : list A) (b e : Z) : list A :=
  let len := Z.of_nat (length l) in
  let from := slice_index len b in
  let to := slice_index len e in
  firstn (Z.to_nat (to - from)) (skipn (Z.to_nat from) l).

(** [l.slice(b)] *)
Definition slice_from {A} (l : list A) (b : Z) : list A :=
  slice l b (Z.of_nat (length l)).

(** White space and line terminators, the code units [trim] removes. *)
Definition isWhiteSpace (c : char) : bool :=
  ((9 <=? c) && (c <=? 13) || (c =? 32) || (c =? 160) || (c =? 5760)
   || (8192 <=? c) && (c <=? 8202) || (c =? 8232) || (c =? 8233)
   || (c =? 8239) || (c =? 8287) || (c =? 12288) || (c =? 65279))%N.

Fixpoint trimStart (s : jsstring) : jsstring :=
  match s with
  | [] => []
  | c :: s' => if isWhiteSpace c then trimStart s' else s
  end.

Definition trimEnd (s : jsstring) : jsstring := rev (trimStart (rev s)).

Definition trim (s : jsstring) : jsstring := trimEnd (trimStart s).

(** [s.repeat(n)] *)
Fixpoint repeat_str (s : jsstring) (n : nat) : jsstring :=
  match n with
  | O => []
  | S n' => s ++ repeat_str s n'
  end.

(** [l.join(sep)] *)
Fixpoint join (sep : jsstring) (l : list jsstring) : jsstring :=
  match l with
  | [] => []
  | [x] => x
  | x :: r => x ++ sep ++ join sep r
  end.

(** [s.split(sep)] for a non-empty separator: the pieces between the
    successive, non-overlapping occurrences of [sep], scanned from the left.
    [skip] counts the code units of a separator that was just matched and is
    still to be passed over; the result is the first piece and the others. *)
Fixpoint split_aux (sep : jsstring) (skip : nat) (s : jsstring)
  : jsstring * list jsstring :=
  match s with
  | [] => ([], [])
  | c :: s' =>
      match skip with
      | S k => split_aux sep k s'
      | O =>
          if startsWith sep s
          then ([], let (p, ps) := split_aux sep (length sep - 1) s' in p :: ps)
          else let (p, ps) := split_aux sep 0 s' in (c :: p, ps)
      end
  end.

Definition split (sep s : jsstring) : list jsstring :=
  let (p, ps) := split_aux sep 0 s in p :: ps.

(** [s.replace(/pat/g, rep)] for a pattern that is a literal, non-empty
    string: every non-overlapping occurrence, scanned from the left. *)
Fixpoint replaceAll_aux (pat rep : jsstring) (skip : nat) (s : jsstring)
  : jsstring :=
  match s with
  | [] => []
  | c :: s' =>
      match skip with
      | S k => replaceAll_aux pat rep k s'
      | O =>
          if startsWith pat s
          then rep ++ replaceAll_aux pat rep (length pat - 1) s'
          else c :: replaceAll_aux pat rep 0 s'
      end
  end.

Definition replaceAll (pat rep s : jsstring) : jsstring :=
  replaceAll_aux pat rep 0 s.

(** [s.toLowerCase()].  The program compares the result only with ASCII
    words; the code units mapped here are all those whose lower case
    contains an ASCII letter (A-Z, the Kelvin sign, and the dotted capital
    I, which becomes [i] followed by a combining dot).  Other letters are
    left as they are, which no comparison of the program can observe. *)
Definition lowerChar (c : char) : jsstring :=
  if ((65 <=? c) && (c <=? 90))%N then [(c + 32)%N]
  else if (c =? 8490)%N then [107%N]
  else if (c =? 304)%N then [105%N; 775%N]
  else [c].

Definition toLowerCase (s : jsstring) : jsstring := flat_map lowerChar s.

Definition isDigit (c : char) : bool := ((48 <=? c) && (c <=? 57))%N.

(** The default comparison of [Array.prototype.sort]: strings by code units. *)
Fixpoint str_leb (a b : jsstring) : bool :=
  match a, b with
  | [], _ => true
  | _ :: _, [] => false
  | x :: a', y :: b' => (x <? y)%N || ((x =? y)%N && str_leb a' b')
  end.

Fixpoint insert_sorted (x : jsstring) (l : list jsstring) : list jsstring :=
  match l with
  | [] => [x]
  | y :: r => if str_leb x y then x :: l else y :: insert_sorted x r
  end.

(** [l.sort()] on an array of strings. *)
Definition sort (l : list jsstring) : list jsstring :=
  fold_right insert_sorted [] l.

(** Decimal text of a natural number, as a template literal prints it. *)
Fixpoint uint_chars (u : Decimal.uint) : jsstring :=
  match u with
  | Decimal.Nil => []
  | Decimal.D0 u' => 48%N :: uint_chars u'
  | Decimal.D1 u' => 49%N :: uint_chars u'
  | Decimal.D2 u' => 50%N :: uint_chars u'
  | Decimal.D3 u' => 51%N :: uint_chars u'
  | Decimal.D4 u' => 52%N :: uint_chars u'
  | Decimal.D5 u' => 53%N :: uint_chars u'
  | Decimal.D6 u' => 54%N :: uint_chars u'
  | Decimal.D7 u' => 55%N :: uint_chars u'
  | Decimal.D8 u' => 56%N :: uint_chars u'
  | Decimal.D9 u' => 57%N :: uint_chars u'
  end.

Definition nat_to_string (n : nat) : jsstring := uint_chars (Nat.to_uint n).

Definition int_to_string (z : Z) : jsstring :=
  match Z.to_int z with
  | Decimal.Pos u => uint_chars u
  | Decimal.Neg u => MINUS :: uint_chars u
  end.

(** The first, the last code unit is not white space. *)
Definition startsNonWs (s : jsstring) : bool :=
  match s with
  | [] => false
  | c :: _ => negb (isWhiteSpace c)
  end.

Definition endsNonWs (s : jsstring) : bool := startsNonWs (rev s).

End JS.

Import JS.

(** ** The host: JavaScript numbers and inherited members

    A [number] is an IEEE double; the program only prints one ([String(n)]),
    reads one ([Number(s)]) and tests [isFinite].  These three primitives are
    taken from the host, together with the text [String] gives for a member
    inherited from [Object.prototype] (a native function). *)

Class JSHost : Type := {
  number : Type;
  Number_toString : number -> jsstring;
  Number_ofString : jsstring -> number;
  Number_isFinite : number -> bool;
  Inherited_toString : jsstring -> jsstring
}.

Section Mint.

Context {host : JSHost}.

(** ** Values

    [JsonValue] of the source.  An object is the list of its own properties
    in the order in which [Object.keys] lists them, and its prototype is
    [Object.prototype].  [JInherited name] is the one value outside the
    declared type that the program can produce at run time: the member
    [name] which a plain object (here, a lookup table) inherits from
    [Object.prototype]. *)

#[local] Unset Elimination Schemes.

Inductive JsonValue : Type :=
| JNull
| JBool (b : bool)
| JNum (n : number)
| JStr (s : jsstring)
| JArr (items : list JsonValue)
| JObj (fields : list (jsstring * JsonValue))
| JInherited (name : jsstring).

#[local] Set Elimination Schemes.

Record EncodeOptions : Type := {
  enc_indent : option nat;
  compact : option bool;
  sortKeys : option bool
}.

Record DecodeOptions : Type := {
  strict : option bool;
  dec_indent : option nat
}.

Record ValidationError : Type := {
  line : nat;
  column : nat;
  message : jsstring;
  context : jsstring
}.

Record ValidationResult : Type := {
  valid : bool;
  errors : list ValidationError
}.

(** The names every plain object inherits from [Object.prototype]. *)
Definition prototype_members : list jsstring :=
  [lit "constructor"; lit "__defineGetter__"; lit "__defineSetter__";
   lit "hasOwnProperty"; lit "__lookupGetter__"; lit "__lookupSetter__";
   lit "isPrototypeOf"; lit "propertyIsEnumerable"; lit "toString";
   lit "valueOf"; lit "__proto__"; lit "toLocaleString"].

Fixpoint own_property (fields : list (jsstring * JsonValue)) (key : jsstring)
  : option JsonValue :=
  match fields with
  | [] => None
  | (k, v) :: r => if eqb k key then Some v else own_property r key
  end.

(** [obj[key]] on a plain object: the own property, else the inherited
    member, else [undefined] ([None]). *)
Definition get_property (fields : list (jsstring * JsonValue)) (key : jsstring)
  : option JsonValue :=
  match own_property fields key with
  | Some v => Some v
  | None =>
      if existsb (eqb key) prototype_members then Some (JInherited key)
      else None
  end.

(** The own properties after [obj[key] = v] for a key other than
    [__proto__]: the value of an own key is replaced where it is, a new key
    is put after the others.  That is where [Object.keys] lists a new key,
    unless the key is integer-like (such as [1]): the integer-like keys come
    first in [Object.keys], in ascending order.  So for an integer-like key
    that is created after a key which [Object.keys] lists after it, the
    fields are those of the object, in another order. *)
Fixpoint set_own_property (key : jsstring) (v : JsonValue)
  (fields : list (jsstring * JsonValue)) : list (jsstring * JsonValue) :=
  match fields with
  | [] => [(key, v)]
  | (k, w) :: r =>
      if eqb k key then (k, v) :: r else (k, w) :: set_own_property key v r
  end.

(** The values that the setter of [__proto__] takes for a new prototype:
    [null] and every object (arrays and functions are objects), apart from
    [Object.prototype], which is the prototype already. *)
Definition replacesPrototype (v : JsonValue) : bool :=
  match v with
  | JNull | JArr _ | JObj _ => true
  | JInherited name => negb (eqb name (lit "__proto__"))
  | _ => false
  end.

(** [obj[key] = v] on an object created by [{}], as long as its prototype is
    [Object.prototype].  The key [__proto__] reaches the setter of
    [Object.prototype] and creates no own property: the setter does nothing
    for a primitive value, and replaces the prototype of the object for
    [null] and for an object.  An object with another prototype is no value
    of this embedding (on it a later assignment can create an own property
    [__proto__], or throw a [TypeError] for a property that is read-only in
    the new prototype): the result is [None] then, and the functions that
    assign stop with [None].  So [None] as the result of [parseTable],
    [parseDocument] or [decode] says that the source goes on with an object
    this embedding does not describe, not that it fails. *)
Definition set_property (key : jsstring) (v : JsonValue)
  (fields : list (jsstring * JsonValue))
  : option (list (jsstring * JsonValue)) :=
  if eqb key (lit "__proto__")
  then if replacesPrototype v then None else Some fields
  else Some (set_own_property key v fields).

(** Status symbols for compact mode. *)
Definition CHECK : jsstring := [10003%N].
Definition CROSS : jsstring := [10007%N].
Definition HOURGLASS : jsstring := [9203%N].
Definition WARNING : jsstring := [9888%N].
Definition QUESTION : jsstring := lit "?".

Definition STATUS_SYMBOLS : list (jsstring * JsonValue) :=
  [(lit "completed", JStr CHECK); (lit "complete", JStr CHECK);
   (lit "success", JStr CHECK); (lit "done", JStr CHECK);
   (lit "passed", JStr CHECK); (lit "true", JStr CHECK);
   (lit "yes", JStr CHECK);
   (lit "failed", JStr CROSS); (lit "failure", JStr CROSS);
   (lit "error", JStr CROSS); (lit "rejected", JStr CROSS);
   (lit "false", JStr CROSS); (lit "no", JStr CROSS);
   (lit "pending", JStr HOURGLASS); (lit "waiting", JStr HOURGLASS);
   (lit "in_progress", JStr HOURGLASS); (lit "running", JStr HOURGLASS);
   (lit "warning", JStr WARNING); (lit "warn", JStr WARNING);
   (lit "review", JStr QUESTION); (lit "unknown", JStr QUESTION)].

Definition REVERSE_SYMBOLS : list (jsstring * JsonValue) :=
  [(CHECK, JStr (lit "true")); (CROSS, JStr (lit "false"));
   (HOURGLASS, JStr (lit "pending")); (WARNING, JStr (lit "warning"));
   (QUESTION, JStr (lit "unknown"))].

(** ** Quoting and escaping *)

Fixpoint skip_digits (s : jsstring) : jsstring :=
  match s with
  | [] => []
  | c :: s' => if isDigit c then skip_digits s' else s
  end.

Definition starts_with_digit (s : jsstring) : bool :=
  match s with
  | [] => false
  | c :: _ => isDigit c
  end.

Definition skip_minus (s : jsstring) : jsstring :=
  match s with
  | [] => []
  | c :: s' => if (c =? MINUS)%N then s' else s
  end.

Definition skip_sign (s : jsstring) : jsstring :=
  match s with
  | [] => []
  | c :: s' => if ((c =? MINUS) || (c =? PLUS))%N then s' else s
  end.

(** [/^-?\d+\.?\d*$/.test(s)] *)
Definition plain_number_re (s : jsstring) : bool :=
  let s1 := skip_minus s in
  starts_with_digit s1 &&
  let s2 := skip_digits s1 in
  let s3 := match s2 with
            | [] => []
            | c :: r => if (c =? DOT)%N then r else s2
            end in
  eqb (skip_digits s3) [].

(** [/^-?\d+(\.\d+)?([eE][+-]?\d+)?$/.test(s)] *)
Definition number_re (s : jsstring) : bool :=
  let s1 := skip_minus s in
  starts_with_digit s1 &&
  let s2 := skip_digits s1 in
  let s3 := match s2 with
            | [] => []
            | c :: r =>
                if (c =? DOT)%N && starts_with_digit r then skip_digits r
                else s2
            end in
  let s4 := match s3 with
            | [] => []
            | c :: r =>
                if ((c =? 101) || (c =? 69))%N && starts_with_digit (skip_sign r)
                then skip_digits (skip_sign r)
                else s3
            end in
  eqb s4 [].

(** Check if a value needs quoting. *)
Definition needsQuoting (value : jsstring) : bool :=
  if eqb value (lit "") then true
  else if startsWith (lit " ") value || endsWith (lit " ") value then true
  else if includes (lit "|") value || includes [NEWLINE] value
          || includes [CR] value then true
  else if includes (lit ",") value then true
  else if plain_number_re value then true
  else if existsb (eqb (toLowerCase value)) [lit "true"; lit "false"; lit "null"]
       then true
  else if includes (lit ":") value && negb (includes (lit "://") value) then true
  else if includes [QUOTE] value then true
  else false.

Definition escapeString (value : jsstring) : jsstring :=
  replaceAll [TAB] [BACKSLASH; 116%N]
    (replaceAll [CR] [BACKSLASH; 114%N]
       (replaceAll [NEWLINE] [BACKSLASH; 110%N]
          (replaceAll [QUOTE] [BACKSLASH; QUOTE]
             (replaceAll [BACKSLASH] [BACKSLASH; BACKSLASH] value)))).

Definition unescapeString (value : jsstring) : jsstring :=
  replaceAll [BACKSLASH; BACKSLASH] [BACKSLASH]
    (replaceAll [BACKSLASH; QUOTE] [QUOTE]
       (replaceAll [BACKSLASH; 116%N] [TAB]
          (replaceAll [BACKSLASH; 114%N] [CR]
             (replaceAll [BACKSLASH; 110%N] [NEWLINE] value)))).

(** [String(value)], the last line of [formatPrimitive]. *)
Fixpoint String_of (value : JsonValue) : jsstring :=
  match value with
  | JNull => lit "null"
  | JBool b => if b then lit "true" else lit "false"
  | JNum n => Number_toString n
  | JStr s => s
  | JArr items =>
      join (lit ",")
        (map (fun x => match x with JNull => [] | _ => String_of x end) items)
  | JObj _ => lit "[object Object]"
  | JInherited name => Inherited_toString name
  end.

Definition is_true (o : option bool) : bool :=
  match o with
  | Some b => b
  | None => false
  end.

(** Format a primitive value.  The result is the text of what the source
    returns.  The two differ for one kind of argument only: in compact mode,
    for a string whose lower case is [constructor] or [__proto__], the
    source returns the member of [Object.prototype] that the lookup in
    [STATUS_SYMBOLS] finds, and not a string; the template strings and
    [join] of the callers make the text of it, but the [length] that
    [getColumnWidths] and [padCell] read of it is not the length of that
    text. *)
Definition formatPrimitive (value : JsonValue) (options : EncodeOptions)
  (inTable : bool) : jsstring :=
  match value with
  | JNull => if inTable then lit "-" else lit "null"
  | JBool b => if b then lit "true" else lit "false"
  | JNum n => if Number_isFinite n then Number_toString n else lit "null"
  | JStr s =>
      (* a truthy [STATUS_SYMBOLS[...]] is returned as it is *)
      match (if is_true (compact options)
             then get_property STATUS_SYMBOLS (toLowerCase s)
             else None) with
      | Some symbol => String_of symbol
      | None =>
          if eqb s (lit "") && inTable then lit "-"
          else if needsQuoting s
               then [QUOTE] ++ escapeString s ++ [QUOTE]
               else s
      end
  | _ => String_of value
  end.

(** [formatPrimitive(obj[h], options, true)], where [obj[h]] may be
    [undefined]. *)
Definition formatCell (value : option JsonValue) (options : EncodeOptions)
  : jsstring :=
  match value with
  | Some v => formatPrimitive v options true
  | None => lit "-"
  end.

(** ** Encoder *)

(** Check if a value is a primitive (not an object or array). *)
Definition isPrimitive (value : JsonValue) : bool :=
  match value with
  | JNull | JBool _ | JNum _ | JStr _ => true
  | _ => false
  end.

(** [item !== null && typeof item === 'object' && !Array.isArray(item)];
    among the inherited members only [__proto__], which is
    [Object.prototype] itself, is an object, the others are functions. *)
Definition isPlainObject (value : JsonValue) : bool :=
  match value with
  | JObj _ => true
  | JInherited name => eqb name (lit "__proto__")
  | _ => false
  end.

(** [value === null || typeof value !== 'object'] *)
Definition notObjectType (value : JsonValue) : bool :=
  match value with
  | JArr _ | JObj _ => false
  | JInherited name => negb (eqb name (lit "__proto__"))
  | _ => true
  end.

Definition ObjectKeys (value : JsonValue) : list jsstring :=
  match value with
  | JObj fields => map fst fields
  | _ => []
  end.

Definition ObjectValues (value : JsonValue) : list JsonValue :=
  match value with
  | JObj fields => map snd fields
  | _ => []
  end.

(** [obj[h]] for an element of a table array. *)
Definition ObjectGet (value : JsonValue) (key : jsstring) : option JsonValue :=
  match value with
  | JObj fields => get_property fields key
  | _ => get_property [] key
  end.

(** Check if array can be a table. *)
Definition isTableArray (arr : list JsonValue) : bool :=
  match arr with
  | [] => false
  | first :: _ =>
      if negb (forallb isPlainObject arr) then false
      else
        let firstKeys := join (lit ",") (sort (ObjectKeys first)) in
        let sameKeys :=
          forallb (fun item =>
                     eqb (join (lit ",") (sort (ObjectKeys item))) firstKeys)
                  arr in
        if negb sameKeys then false
        else forallb (fun item => forallb isPrimitive (ObjectValues item)) arr
  end.

(** Check if array contains only primitives. *)
Definition isPrimitiveArray (arr : list JsonValue) : bool :=
  forallb isPrimitive arr.

(** One pass of the inner loop of [getColumnWidths]; an index past the end
    of [widths] reads [undefined || 0] and extends the array. *)
Fixpoint widen (widths : list nat) (row : list jsstring) : list nat :=
  match widths, row with
  | ws, [] => ws
  | [], c :: cs => Nat.max 0 (length c) :: widen [] cs
  | w :: ws, c :: cs => Nat.max w (length c) :: widen ws cs
  end.

(** Get column widths for table alignment. *)
Definition getColumnWidths (headers : list jsstring) (rows : list (list jsstring))
  : list nat :=
  fold_left widen rows (map (@length char) headers).

(** Pad cell to width. *)
Definition padCell (value : jsstring) (width : nat) : jsstring :=
  value ++ repeat_str (lit " ") (Nat.max 0 (width - length value)).

(** [cells.map((cell, i) => padCell(cell, widths[i]))]; a missing width
    makes the padding empty. *)
Fixpoint padCells (cells : list jsstring) (widths : list nat) : list jsstring :=
  match cells with
  | [] => []
  | c :: cs => padCell c (hd 0 widths) :: padCells cs (tl widths)
  end.

(** [options.indent || 2] *)
Definition indent_unit (options : EncodeOptions) : nat :=
  match enc_indent options with
  | Some (S n) => S n
  | _ => 2
  end.

Definition tableLine (baseIndent : jsstring) (cells : list jsstring) : jsstring :=
  baseIndent ++ lit "| " ++ join (lit " | ") cells ++ lit " |".

(** Encode array as table. *)
Definition encodeTable (arr : list JsonValue) (options : EncodeOptions)
  (indentLevel : nat) : jsstring :=
  match arr with
  | [] => lit "| |"
  | first :: _ =>
      let indent := repeat_str (lit " ") (indent_unit options) in
      let baseIndent := repeat_str indent indentLevel in
      let headers := ObjectKeys first in
      let rows :=
        map (fun obj => map (fun h => formatCell (ObjectGet obj h) options) headers)
            arr in
      let widths := getColumnWidths headers rows in
      let headerCells := padCells headers widths in
      join [NEWLINE]
        (tableLine baseIndent headerCells
           :: map (fun row => tableLine baseIndent (padCells row widths)) rows)
  end.

Definition inlineList (items : list JsonValue) (options : EncodeOptions)
  : jsstring :=
  join (lit ", ") (map (fun v => formatPrimitive v options false) items).

Definition lines_of (key : jsstring) (encoded : list (jsstring * list jsstring))
  : list jsstring :=
  match find (fun e => eqb (fst e) key) encoded with
  | Some e => snd e
  | None => []
  end.

(** The lines of one element of a mixed array; [enc] is the recursive
    [encodeValue(_, options, _)]. *)
Definition itemLines (enc : JsonValue -> nat -> jsstring)
  (options : EncodeOptions) (indentLevel : nat) (item : JsonValue)
  : list jsstring :=
  let indent := repeat_str (lit " ") (indent_unit options) in
  let baseIndent := repeat_str indent indentLevel in
  if notObjectType item
  then [baseIndent ++ indent ++ lit "- " ++ formatPrimitive item options false]
  else
    let encoded := enc item (indentLevel + 2) in
    if includes [NEWLINE] encoded
    then [baseIndent ++ indent ++ lit "-"; encoded]
    else [baseIndent ++ indent ++ lit "- " ++ encoded].

(** The lines of one key of an object. *)
Definition fieldLines (enc : JsonValue -> nat -> jsstring)
  (options : EncodeOptions) (indentLevel : nat) (key : jsstring)
  (val : JsonValue) : list jsstring :=
  let indent := repeat_str (lit " ") (indent_unit options) in
  let baseIndent := repeat_str indent indentLevel in
  match val with
  | JNull => [baseIndent ++ key ++ lit ": null"]
  | JArr [] => [baseIndent ++ key ++ lit ": []"]
  | JArr ((_ :: _) as items) =>
      if isPrimitiveArray items
      then [baseIndent ++ key ++ lit ": " ++ inlineList items options]
      else [baseIndent ++ key ++ lit ":" ++ enc val indentLevel]
  | _ =>
      if notObjectType val
      then [baseIndent ++ key ++ lit ": " ++ formatPrimitive val options false]
      else
        let nested := enc val (indentLevel + 1) in
        if eqb nested (lit "") then [baseIndent ++ key ++ lit ":"]
        else if includes [NEWLINE] nested
        then [baseIndent ++ key ++ lit ":"; nested]
        else [baseIndent ++ key ++ lit ": " ++ nested]
  end.

(** Encode value recursively.  For an object the lines of every field are
    computed first and then put out in the order of [keys]. *)
Fixpoint encodeValue (value : JsonValue) (options : EncodeOptions)
  (indentLevel : nat) {struct value} : jsstring :=
  match value with
  | JArr items =>
      match items with
      | [] => lit "[]"
      | _ :: _ =>
          if isPrimitiveArray items then inlineList items options
          else if isTableArray items
          then [NEWLINE] ++ encodeTable items options (indentLevel + 1)
          else
            let lines :=
              flat_map
                (itemLines (fun v level => encodeValue v options level)
                   options indentLevel)
                items in
            [NEWLINE] ++ join [NEWLINE] lines
      end
  | JObj fields =>
      let keys := if is_true (sortKeys options)
                  then sort (map fst fields) else map fst fields in
      match keys with
      | [] => lit ""
      | _ :: _ =>
          let encoded :=
            map (fun kv =>
                   (fst kv,
                    fieldLines (fun v level => encodeValue v options level)
                      options indentLevel (fst kv) (snd kv)))
                fields in
          join [NEWLINE] (flat_map (fun key => lines_of key encoded) keys)
      end
  | JInherited name =>
      (* [Object.prototype] has no own enumerable key *)
      if eqb name (lit "__proto__") then lit ""
      else formatPrimitive value options false
  | _ => formatPrimitive value options false
  end.

Definition or_default {A} (o : option A) (d : A) : option A :=
  match o with
  | Some _ => o
  | None => Some d
  end.

(** Encode JavaScript value to MINT format. *)
Definition encode (value : JsonValue) (options : EncodeOptions) : jsstring :=
  let opts := {| enc_indent := or_default (enc_indent options) 2;
                 compact := or_default (compact options) false;
                 sortKeys := or_default (sortKeys options) false |} in
  match value with
  | JNull => lit "null"
  | JArr items =>
      match items with
      | [] => lit "_: []"
      | _ :: _ =>
          if isPrimitiveArray items then lit "_: " ++ inlineList items opts
          else if isTableArray items
          then lit "_:" ++ [NEWLINE] ++ encodeTable items opts 1
          else lit "_:" ++ encodeValue value opts 0
      end
  | JObj _ => encodeValue value opts 0
  | JInherited name =>
      if eqb name (lit "__proto__") then encodeValue value opts 0
      else formatPrimitive value opts false
  | _ => formatPrimitive value opts false
  end.

(** The options of a call that passes none. *)
Definition no_encode_options : EncodeOptions :=
  {| enc_indent := None; compact := None; sortKeys := None |}.

Definition no_decode_options : DecodeOptions :=
  {| strict := None; dec_indent := None |}.

(** ** Decoder *)

(** Parse a primitive string value. *)
Definition parsePrimitive (value : jsstring) : JsonValue :=
  let trimmed := trim value in
  if eqb trimmed (lit "null") || eqb trimmed (lit "-") || eqb trimmed (lit "")
  then JNull
  else if eqb trimmed (lit "true") then JBool true
  else if eqb trimmed (lit "false") then JBool false
  else
    match get_property REVERSE_SYMBOLS trimmed with
    | Some symbol => symbol
    | None =>
        if startsWith [QUOTE] trimmed && endsWith [QUOTE] trimmed
        then JStr (unescapeString (slice trimmed 1 (-1)))
        else if number_re trimmed && Number_isFinite (Number_ofString trimmed)
        then JNum (Number_ofString trimmed)
        else JStr trimmed
    end.

(** [line.length - line.trimStart().length] *)
Definition lineIndentOf (l : jsstring) : nat := length l - length (trimStart l).

(** [headers.forEach((h, idx) => { row[h] = cells[idx]; })], called when the
    two arrays have the same length. *)
Definition makeRow (headers : list jsstring) (cells : list JsonValue)
  : option (list (jsstring * JsonValue)) :=
  fold_left (fun row hc =>
               match row with
               | Some fields => set_property (fst hc) (snd hc) fields
               | None => None
               end)
            (combine headers cells) (Some []).

(** [line.split('|').slice(1, -1)] *)
Definition tableCells (trimmed : jsstring) : list jsstring :=
  slice (split (lit "|") trimmed) 1 (-1).

(** The [while] loop of [parseTable]: [rest] holds the lines from index [i]
    on.  [None]: an assignment of [makeRow] replaces the prototype of the
    row. *)
Fixpoint parseTable_rows (headers : list jsstring) (indent : nat)
  (rest : list jsstring) (i : nat) (result : list JsonValue)
  : option (list JsonValue * nat) :=
  match rest with
  | [] => Some (result, i - 1)
  | l :: rest' =>
      let lineIndent := lineIndentOf l in
      let trimmed := trim l in
      if negb (startsWith (lit "|") trimmed) then Some (result, i - 1)
      else if (lineIndent <? indent) && negb (eqb trimmed (lit ""))
      then Some (result, i - 1)
      else
        let cells := map (fun c => parsePrimitive (trim c)) (tableCells trimmed) in
        if length cells =? length headers
        then
          match makeRow headers cells with
          | Some row =>
              parseTable_rows headers indent rest' (S i) (result ++ [JObj row])
          | None => None
          end
        else parseTable_rows headers indent rest' (S i) result
  end.

(** Parse table from lines.  [None] is the [TypeError] of [lines[i].trim()]
    when [startIndex] is past the last line, or the [None] of the loop. *)
Definition parseTable (lines : list jsstring) (startIndex : nat) (indent : nat)
  : option (list JsonValue * nat) :=
  match nth_error lines startIndex with
  | None => None
  | Some l =>
      let headerLine := trim l in
      if negb (startsWith (lit "|") headerLine) then Some ([], startIndex)
      else
        let headers := map trim (tableCells headerLine) in
        parseTable_rows headers indent (skipn (S startIndex) lines)
          (S startIndex) []
  end.

(** [while (idx < lines.length && lines[idx].trim() === '') idx++], on the
    lines from [idx] on. *)
Fixpoint skipBlank (rest : list jsstring) (idx : nat) : nat :=
  match rest with
  | [] => idx
  | l :: rest' => if eqb (trim l) (lit "") then skipBlank rest' (S idx) else idx
  end.

Definition blankOrComment (l : jsstring) : bool :=
  eqb (trim l) (lit "") || startsWith (lit "#") (trim l).

Definition primitiveList (sep valueStr : jsstring) : JsonValue :=
  JArr (map (fun v => parsePrimitive (trim v)) (split sep valueStr)).

(** Parse document: the [while] loop of [parseDocument], with the object
    built so far.  Every turn of the loop and every nested call starts at a
    larger index; [fuel] bounds their number, and [None] is returned when it
    runs out, when [parseTable] returns [None], or when an assignment
    replaces the prototype of the object (see [set_property]). *)
Fixpoint parseDocument_loop (fuel : nat) (lines : list jsstring) (i : nat)
  (baseIndent : nat) (options : DecodeOptions)
  (result : list (jsstring * JsonValue)) {struct fuel}
  : option (JsonValue * nat) :=
  match fuel with
  | O => None
  | S fuel' =>
      match nth_error lines i with
      | None => Some (JObj result, i)
      | Some l =>
          if blankOrComment l
          then parseDocument_loop fuel' lines (S i) baseIndent options result
          else
            let lineIndent := lineIndentOf l in
            if lineIndent <? baseIndent then Some (JObj result, i)
            else if baseIndent <? lineIndent
            then parseDocument_loop fuel' lines (S i) baseIndent options result
            else
              let trimmed := trim l in
              if startsWith (lit "|") trimmed
              then parseDocument_loop fuel' lines (S i) baseIndent options result
              else
                let colonIndex := indexOf (lit ":") trimmed in
                if (colonIndex =? -1)%Z
                then parseDocument_loop fuel' lines (S i) baseIndent options result
                else
                  let key := trim (slice trimmed 0 colonIndex) in
                  let valueStr := trim (slice_from trimmed (colonIndex + 1)) in
                  if eqb valueStr (lit "") || eqb valueStr (lit "[]")
                  then
                    let notNested :=
                      match set_property key
                              (if eqb valueStr (lit "[]") then JArr [] else JObj [])
                              result with
                      | Some result' =>
                          parseDocument_loop fuel' lines (S i) baseIndent options
                            result'
                      | None => None
                      end in
                    let nextIdx := skipBlank (skipn (S i) lines) (S i) in
                    match nth_error lines nextIdx with
                    | None => notNested
                    | Some nextLine =>
                        let nextIndent := lineIndentOf nextLine in
                        let nextTrimmed := trim nextLine in
                        if (baseIndent <? nextIndent)
                           && startsWith (lit "|") nextTrimmed
                        then
                          match parseTable lines nextIdx nextIndent with
                          | None => None
                          | Some (rows, endIndex) =>
                              match set_property key (JArr rows) result with
                              | Some result' =>
                                  parseDocument_loop fuel' lines (endIndex + 1)
                                    baseIndent options result'
                              | None => None
                              end
                          end
                        else if (baseIndent <? nextIndent)
                                && negb (eqb nextTrimmed (lit ""))
                                && negb (startsWith (lit "#") nextTrimmed)
                        then
                          match parseDocument_loop fuel' lines nextIdx nextIndent
                                  options [] with
                          | None => None
                          | Some (nested, endIndex) =>
                              match set_property key nested result with
                              | Some result' =>
                                  parseDocument_loop fuel' lines endIndex
                                    baseIndent options result'
                              | None => None
                              end
                          end
                        else notNested
                    end
                  else
                    (* the four branches of the source differ in the value
                       they assign, and go on alike *)
                    let value :=
                      if startsWith [QUOTE] valueStr && endsWith [QUOTE] valueStr
                      then parsePrimitive valueStr
                      else if includes (lit " | ") valueStr
                      then primitiveList (lit " | ") valueStr
                      else if includes (lit ", ") valueStr
                      then primitiveList (lit ", ") valueStr
                      else parsePrimitive valueStr in
                    match set_property key value result with
                    | Some result' =>
                        parseDocument_loop fuel' lines (S i) baseIndent options
                          result'
                    | None => None
                    end
      end
  end.

(** [parseDocument(lines, startIndex, baseIndent, options)]; the fuel is one
    more than the number of lines from [startIndex] on. *)
Definition parseDocument (lines : list jsstring) (startIndex : nat)
  (baseIndent : nat) (options : DecodeOptions) : option (JsonValue * nat) :=
  parseDocument_loop (S (length lines - startIndex)) lines startIndex
    baseIndent options [].

(** The first index from [idx] on whose line is neither blank nor a
    comment. *)
Fixpoint skipBlankOrComment (rest : list jsstring) (idx : nat) : nat :=
  match rest with
  | [] => idx
  | l :: rest' =>
      if blankOrComment l then skipBlankOrComment rest' (S idx) else idx
  end.

Definition normalizeNewlines (input : jsstring) : jsstring :=
  replaceAll [CR] [NEWLINE] (replaceAll [CR; NEWLINE] [NEWLINE] input).

(** Decode MINT string to JavaScript value.  [None]: an assignment of the
    key or the column [__proto__] replaces the prototype of an object (see
    [set_property]). *)
Definition decode (input : jsstring) (options : DecodeOptions)
  : option JsonValue :=
  let opts := {| strict := or_default (strict options) true;
                 dec_indent := or_default (dec_indent options) 2 |} in
  let normalized := normalizeNewlines input in
  let lines := split [NEWLINE] normalized in
  if forallb blankOrComment lines then Some (JObj [])
  else
    let startIndex := skipBlankOrComment lines 0 in
    match nth_error lines startIndex with
    | None => Some (JObj [])
    | Some first =>
        let firstLine := trim first in
        if startsWith (lit "|") firstLine
        then option_map (fun r => JArr (fst r)) (parseTable lines startIndex 0)
        else if startsWith (lit "_:") firstLine
        then
          let valueStr := trim (slice_from firstLine 2) in
          if eqb valueStr (lit "") || eqb valueStr (lit "[]")
          then
            match nth_error lines (startIndex + 1) with
            | Some nextLine =>
                if negb (eqb nextLine (lit ""))
                   && startsWith (lit "|") (trim nextLine)
                then option_map (fun r => JArr (fst r))
                       (parseTable lines (startIndex + 1) 2)
                else Some (JArr [])
            | None => Some (JArr [])
            end
          else if includes (lit ", ") valueStr
          then Some (primitiveList (lit ", ") valueStr)
          else Some (JArr [parsePrimitive valueStr])
        else option_map fst (parseDocument lines startIndex 0 opts)
    end.

(** ** Validator *)

Definition indentationError (lineNum indent : nat) (l : jsstring)
  : ValidationError :=
  {| line := lineNum; column := 1;
     message := lit "Inconsistent indentation: " ++ nat_to_string indent
                  ++ lit " spaces (should be multiple of 2)";
     context := l |}.

Definition columnError (lineNum : nat) (tableColumns pipes : Z) (l : jsstring)
  : ValidationError :=
  {| line := lineNum; column := 1;
     message := lit "Table column mismatch: expected "
                  ++ int_to_string (tableColumns - 1) ++ lit " columns, got "
                  ++ int_to_string (pipes - 1);
     context := l |}.

Definition terminatorError (lineNum : nat) (trimmed l : jsstring)
  : ValidationError :=
  {| line := lineNum; column := length trimmed;
     message := lit "Table row must end with |";
     context := l |}.

(** The [for] loop of [validate]: [rest] holds the lines from index [i] on,
    and the state is [inTable], [tableColumns] and the errors pushed so
    far. *)
Fixpoint validate_loop (rest : list jsstring) (i : nat) (inTable : bool)
  (tableColumns : Z) (errs : list ValidationError) : list ValidationError :=
  match rest with
  | [] => errs
  | l :: rest' =>
      let lineNum := i + 1 in
      let trimmed := trim l in
      if eqb trimmed (lit "") || startsWith (lit "#") trimmed
      then validate_loop rest' (S i) inTable tableColumns errs
      else
        let indent := lineIndentOf l in
        let errs1 :=
          if negb (indent mod 2 =? 0)
          then errs ++ [indentationError lineNum indent l] else errs in
        if startsWith (lit "|") trimmed
        then
          let pipes := (Z.of_nat (length (split (lit "|") trimmed)) - 1)%Z in
          let errs2 :=
            if negb inTable then errs1
            else if negb (pipes =? tableColumns)%Z
            then errs1 ++ [columnError lineNum tableColumns pipes l]
            else errs1 in
          let tableColumns' := if negb inTable then pipes else tableColumns in
          let errs3 :=
            if negb (endsWith (lit "|") trimmed)
            then errs2 ++ [terminatorError lineNum trimmed l] else errs2 in
          validate_loop rest' (S i) true tableColumns' errs3
        else validate_loop rest' (S i) false 0%Z errs1
  end.

(** Validate MINT syntax. *)
Definition validate (input : jsstring) : ValidationResult :=
  let lines := split [NEWLINE] (normalizeNewlines input) in
  let errs := validate_loop lines 0 false 0%Z [] in
  {| valid := length errs =? 0; errors := errs |}.


(** ** Predicates of the statements *)

(** A colon that is not the first code unit of a [://] substring. *)
Fixpoint has_free_colon (s : jsstring) : bool :=
  match s with
  | [] => false
  | c :: s' =>
      ((c =? COLON)%N && negb (startsWith (lit "//") s')) || has_free_colon s'
  end.

(** The triggers as the specification lists them. *)
Definition needsQuoting_spec (s : jsstring) : Prop :=
  s = lit "" \/
  (startsWith (lit " ") s = true \/ endsWith (lit " ") s = true) \/
  (In PIPE s \/ In NEWLINE s \/ In CR s) \/
  In COMMA s \/
  plain_number_re s = true \/
  In (toLowerCase s) [lit "true"; lit "false"; lit "null"] \/
  has_free_colon s = true \/
  In QUOTE s.

(** The triggers as the code tests them: the colon trigger is a colon
    anywhere together with no [://] anywhere. *)
Definition needsQuoting_triggers (s : jsstring) : Prop :=
  s = lit "" \/
  (startsWith (lit " ") s = true \/ endsWith (lit " ") s = true) \/
  (In PIPE s \/ In NEWLINE s \/ In CR s) \/
  In COMMA s \/
  plain_number_re s = true \/
  In (toLowerCase s) [lit "true"; lit "false"; lit "null"] \/
  (In COLON s /\ includes (lit "://") s = false) \/
  In QUOTE s.

Definition isContainer (v : JsonValue) : bool :=
  match v with
  | JArr _ | JObj _ => true
  | _ => false
  end.

(** The escape of one code unit; the flags say which of the escapes of the
    double quote, the newline, the carriage return and the tab are in
    force. *)
Definition escapeSome (q n r t : bool) (c : char) : jsstring :=
  if q && (c =? QUOTE)%N then [BACKSLASH; QUOTE]
  else if n && (c =? NEWLINE)%N then [BACKSLASH; 110%N]
  else if r && (c =? CR)%N then [BACKSLASH; 114%N]
  else if t && (c =? TAB)%N then [BACKSLASH; 116%N]
  else [c].

(** Escaping and unescaping.

    [unescapeString] makes five passes over its argument.  [unescapeStage]
    is the text after some of them, when the argument is [escapeString s]:
    the flags [n], [r], [t], [q] say which of the passes for the newline, the
    carriage return, the tab and the double quote are done. *)

(** The control code that the pass for [\n], [\r] or [\t] puts for the
    letter [d] after a backslash. *)
Definition controlOf (n r t : bool) (d : char) : option char :=
  if n && (d =? 110)%N then Some NEWLINE
  else if r && (d =? 114)%N then Some CR
  else if t && (d =? 116)%N then Some TAB
  else None.

Fixpoint unescapeStage (n r t q : bool) (s : jsstring) : jsstring :=
  match s with
  | [] => []
  | c :: s' =>
      if (c =? BACKSLASH)%N then
        match s' with
        | d :: s'' =>
            match controlOf n r t d with
            | Some x => BACKSLASH :: x :: unescapeStage n r t q s''
            | None => BACKSLASH :: BACKSLASH :: unescapeStage n r t q s'
            end
        | [] => [BACKSLASH; BACKSLASH]
        end
      else escapeSome (negb q) (negb n) (negb r) (negb t) c
             ++ unescapeStage n r t q s'
  end.

(** [s] with the letter [n], [r] or [t] after a backslash replaced by the
    control code it names. *)
Fixpoint controlAfterBackslash (s : jsstring) : jsstring :=
  match s with
  | [] => []
  | c :: s' =>
      if (c =? BACKSLASH)%N then
        match s' with
        | d :: s'' =>
            match controlOf true true true d with
            | Some x => BACKSLASH :: x :: controlAfterBackslash s''
            | None => BACKSLASH :: controlAfterBackslash s'
            end
        | [] => [BACKSLASH]
        end
      else c :: controlAfterBackslash s'
  end.

(** No backslash of [s] is followed by the letter [n], [r] or [t]. *)
Fixpoint escapeSafe (s : jsstring) : bool :=
  match s with
  | [] => true
  | c :: s' =>
      negb ((c =? BACKSLASH)%N
            && match s' with
               | d :: _ => (d =? 110)%N || (d =? 114)%N || (d =? 116)%N
               | [] => false
               end)
      && escapeSafe s'
  end.

(** [STATUS_SYMBOLS[s.toLowerCase()]] is truthy: compact mode replaces [s]. *)
Definition compactKeyword (s : jsstring) : bool :=
  match get_property STATUS_SYMBOLS (toLowerCase s) with
  | Some _ => true
  | None => false
  end.

(** A string that [parsePrimitive] returns as it is: no white space at its
    ends, not the null marker, not a key of [REVERSE_SYMBOLS] (own or
    inherited), not read as a finite number. *)
Definition readsAsItself (s : jsstring) : bool :=
  eqb (trim s) s
  && negb (eqb s (lit "-"))
  && match get_property REVERSE_SYMBOLS s with
     | Some _ => false
     | None => true
     end
  && negb (number_re s && Number_isFinite (Number_ofString s)).

(** The strings the amended round-trip statements are about: written in
    quotes and read back by [unescapeString] as they were (no backslash
    directly before the letter [n], [r] or [t]), or written as they are and
    read as themselves. *)
Definition roundTripString (s : jsstring) : bool :=
  if needsQuoting s then escapeSafe s else readsAsItself s.

(** The code units of a number literal: digits, signs, the dot, [e], [E]. *)
Definition numchar (c : char) : bool :=
  isDigit c || (c =? MINUS)%N || (c =? PLUS)%N || (c =? DOT)%N
  || (c =? 101)%N || (c =? 69)%N.

(** A number whose text [parsePrimitive] reads back as the number. *)
Definition roundTripNumber (n : number) : Prop :=
  Number_isFinite n = true /\
  number_re (Number_toString n) = true /\
  Number_ofString (Number_toString n) = n.

(** The primitives the amended round-trip statements are about. *)
Definition roundTripPrimitive (v : JsonValue) : Prop :=
  match v with
  | JNull | JBool _ => True
  | JNum n => roundTripNumber n
  | JStr s => roundTripString s = true
  | _ => False
  end.

(** A key that the object-block parser reads back from its line: no white
    space at its ends, no colon and no line break in it, no comment or table
    marker at its start, and not [__proto__]. *)
Definition plainKey (k : jsstring) : bool :=
  eqb (trim k) k
  && negb (includes (lit ":") k)
  && negb (includes [NEWLINE] k) && negb (includes [CR] k)
  && negb (startsWith (lit "#") k) && negb (startsWith (lit "|") k)
  && negb (eqb k (lit "__proto__")).

(** The line of a key with a primitive value, at indent level 0. *)
Definition fieldLine (options : EncodeOptions) (kv : jsstring * JsonValue)
  : jsstring :=
  fst kv ++ lit ": " ++ formatPrimitive (snd kv) options false.

(** What a table cell is read back as: the empty string becomes [null]. *)
Definition normalizeCell (v : JsonValue) : JsonValue :=
  match v with
  | JStr [] => JNull
  | _ => v
  end.

Definition pipeFree (v : JsonValue) : Prop :=
  match v with
  | JStr s => ~ In PIPE s
  | _ => True
  end.

(** The fields the amended round-trip statement for objects is about. *)
Definition roundTripField (kv : jsstring * JsonValue) : Prop :=
  plainKey (fst kv) = true /\ roundTripPrimitive (snd kv)
  /\ snd kv <> JStr (lit "[]").

(** A column name that the table sub-parser reads back from the header. *)
Definition tableKey (h : jsstring) : bool :=
  eqb (trim h) h
  && negb (includes (lit "|") h)
  && negb (includes [NEWLINE] h) && negb (includes [CR] h)
  && negb (eqb h (lit "__proto__")).

(** A row of the amended round-trip statement for tables: an object with
    exactly the column names as keys, whose values are round-trip primitives
    without a pipe. *)
Definition tableRow (headers : list jsstring) (row : JsonValue) : Prop :=
  match row with
  | JObj fields =>
      NoDup (map fst fields) /\ Permutation (map fst fields) headers /\
      Forall (fun kv => roundTripPrimitive (snd kv) /\ pipeFree (snd kv)) fields
  | _ => False
  end.

(** The row as the decoder returns it: the keys in the order of the
    header, an empty string replaced by [null]. *)
Definition rowInHeaderOrder (headers : list jsstring) (row : JsonValue)
  : JsonValue :=
  JObj (map (fun h => (h, match ObjectGet row h with
                          | Some v => normalizeCell v
                          | None => JNull
                          end)) headers).

(** The cells [encodeTable] formats for a row. *)
Definition cellsOf (options : EncodeOptions) (headers : list jsstring)
  (row : JsonValue) : list jsstring :=
  map (fun h => formatCell (ObjectGet row h) options) headers.

(** The lines [encode] writes for an object with the one key [k] and a table
    array as its value. *)
Definition tableDocument (options : EncodeOptions) (k : jsstring)
  (arr : list JsonValue) : list jsstring :=
  let headers := ObjectKeys (hd JNull arr) in
  let base := repeat_str (repeat_str (lit " ") (indent_unit options)) 1 in
  let rows := map (cellsOf options headers) arr in
  let widths := getColumnWidths headers rows in
  (k ++ [COLON])
    :: tableLine base (padCells headers widths)
    :: map (fun row => tableLine base (padCells row widths)) rows.

(** A cell between two pipes. *)
Definition wrapCell (c : jsstring) : jsstring := SPACE :: c ++ [SPACE].

(** The fields after [obj[key] = v], when the assignment leaves the
    prototype as it is: what [set_property] returns then. *)
Definition assigned (key : jsstring) (v : JsonValue)
  (fields : list (jsstring * JsonValue)) : list (jsstring * JsonValue) :=
  if eqb key (lit "__proto__") then fields else set_own_property key v fields.

(** One assignment of [rowFields]. *)
Definition assign (row : list (jsstring * JsonValue)) (hc : jsstring * JsonValue) :=
  assigned (fst hc) (snd hc) row.

(** The fields of the row [makeRow] builds, when no assignment replaces the
    prototype. *)
Definition rowFields (headers : list jsstring) (cells : list JsonValue)
  : list (jsstring * JsonValue) :=
  fold_left assign (combine headers cells) [].

(** A header [__proto__] whose cell would replace the prototype of the
    row. *)
Definition replacingCell (hc : jsstring * JsonValue) : bool :=
  eqb (fst hc) (lit "__proto__") && replacesPrototype (snd hc).

(** What the proofs use of the text [formatPrimitive] writes for a value:
    it is read back as [back], it has no white space at its ends and no line
    break, it is not ["[]"] when [notBrackets] holds, it has no pipe when
    [noPipe] holds, and it is either in quotes or free of quotes, pipes and
    commas. *)
Record goodText (f : jsstring) (back : JsonValue) (notBrackets noPipe : Prop)
  : Prop := {
  text_back : parsePrimitive f = back;
  text_start : startsNonWs f = true;
  text_end : endsNonWs f = true;
  text_newline : ~ In NEWLINE f;
  text_cr : ~ In CR f;
  text_brackets : notBrackets -> f <> lit "[]";
  text_pipe : noPipe -> ~ In PIPE f;
  text_shape :
    startsWith [QUOTE] f && endsWith [QUOTE] f = true \/
    (~ In QUOTE f /\ ~ In PIPE f /\ ~ In COMMA f)
}.

(** A line the loop of [parseTable] goes on with. *)
Definition isTableLine (indent : nat) (l : jsstring) : bool :=
  startsWith (lit "|") (trim l)
  && negb ((lineIndentOf l <? indent) && negb (eqb (trim l) (lit ""))).

Fixpoint takeWhile {A} (f : A -> bool) (l : list A) : list A :=
  match l with
  | [] => []
  | x :: r => if f x then x :: takeWhile f r else []
  end.

(** The cells of a data line, parsed. *)
Definition rowCells (l : jsstring) : list JsonValue :=
  map (fun c => parsePrimitive (trim c)) (tableCells (trim l)).

(** The row object a data line contributes: none when its number of cells
    is not the number of columns. *)
Definition rowOf (headers : list jsstring) (l : jsstring) : list JsonValue :=
  if length (rowCells l) =? length headers
  then [JObj (rowFields headers (rowCells l))]
  else [].



(** A data line whose row [makeRow] does not build: it has as many cells as
    there are columns, and one of them replaces the prototype. *)
Definition replacingRow (headers : list jsstring) (l : jsstring) : bool :=
  (length (rowCells l) =? length headers)
  && existsb replacingCell (combine headers (rowCells l)).

(** The key the loop of [parseDocument] reads on a line, and the column names
    [parseTable] reads on it. *)
Definition lineKey (l : jsstring) : jsstring :=
  trim (slice (trim l) 0 (indexOf (lit ":") (trim l))).

Definition lineHeaders (l : jsstring) : list jsstring :=
  map trim (tableCells (trim l)).

(** A text in which no table line has a cell [__proto__], and no other line
    the key [__proto__] before its first colon: no assignment of the decoder
    reaches the setter of [__proto__]. *)
Definition protoFreeLine (l : jsstring) : bool :=
  if startsWith (lit "|") (trim l)
  then negb (existsb (eqb (lit "__proto__")) (lineHeaders l))
  else (indexOf (lit ":") (trim l) =? -1)%Z
       || negb (eqb (lineKey l) (lit "__proto__")).

Definition protoFree (text : jsstring) : bool :=
  forallb protoFreeLine (split [NEWLINE] (normalizeNewlines text)).

End Mint.

Arguments JsonValue {host}.

(** ** A host with integer numbers

    The concrete host the examples are run on.  Its numbers are the integers
    and one non-finite value; [Number] reads an optionally signed sequence of
    digits, and a text of any other shape reads as the non-finite value. *)

Module IntegerHost.

Fixpoint digits_value (s : jsstring) (acc : Z) : Z :=
  match s with
  | [] => acc
  | c :: s' => digits_value s' (10 * acc + Z.of_N (c - 48))%Z
  end.

Definition ofString (s : jsstring) : option Z :=
  match s with
  | [] => None
  | c :: s' =>
      if (c =? MINUS)%N
      then if forallb isDigit s' && negb (eqb s' [])
           then Some (- digits_value s' 0)%Z else None
      else if forallb isDigit s then Some (digits_value s 0) else None
  end.

Definition toString (n : option Z) : jsstring :=
  match n with
  | Some z => int_to_string z
  | None => lit "NaN"
  end.

Definition isFinite (n : option Z) : bool :=
  match n with
  | Some _ => true
  | None => false
  end.

#[export] Instance host : JSHost := {|
  number := option Z;
  Number_toString := toString;
  Number_ofString := ofString;
  Number_isFinite := isFinite;
  Inherited_toString := fun name =>
    lit "function " ++ name ++ lit "() { [native code] }"
|}.

Definition num (z : Z) : JsonValue := JNum (Some z : @number host).

End IntegerHost.

Import IntegerHost.

(** ** Predicates and reference functions of the further properties *)

Section Shapes.

Context {host : JSHost}.

(** *** Validation errors *)

(** What [validate] keeps for every error it reports on [lines]. *)
Definition errorAtLine (lines : list jsstring) (e : ValidationError) : Prop :=
  1 <= line e <= length lines
  /\ nth_error lines (line e - 1) = Some (context e)
  /\ blankOrComment (context e) = false /\ 1 <= column e.

(** The errors pushed before the line of index [i] is left. *)
Definition errorsUpTo (lines : list jsstring) (i : nat)
  (errs : list ValidationError) : Prop :=
  Forall (errorAtLine lines) errs /\ Forall (fun e => line e <= i) errs
  /\ StronglySorted le (map line errs).

(** *** Tables *)

(** The keys of an item are not empty and have no comma. *)
Definition commaFreeKeys (item : JsonValue) : Prop :=
  Forall (fun k => k <> [] /\ ~ In COMMA k) (ObjectKeys item).

(** Every cell is at most as long as the width of its column. *)
Definition fitsIn (cells : list jsstring) (widths : list nat) : Prop :=
  Forall2 (fun c w => length c <= w) cells widths.

(** *** Documents

    The objects that [encode] and [decode] take to a text and back: the
    values of the keys are scalars, arrays of scalars, tables and objects of
    the same kind. *)

Definition commaFree (v : JsonValue) : Prop :=
  match v with
  | JStr s => ~ In COMMA s
  | _ => True
  end.

(** [formatPrimitive] writes the value in quotes. *)
Definition isQuoted (v : JsonValue) : bool :=
  match v with
  | JStr s => needsQuoting s
  | _ => false
  end.

(** An element of an array that is written on the line of its key. *)
Definition inlineItem (v : JsonValue) : Prop :=
  roundTripPrimitive v /\ pipeFree v /\ commaFree v.

(** A table row with exactly the column names as keys, in their order, and
    without an empty string. *)
Definition exactRow (headers : list jsstring) (row : JsonValue) : Prop :=
  match row with
  | JObj fields =>
      map fst fields = headers /\
      Forall (fun kv => roundTripPrimitive (snd kv) /\ pipeFree (snd kv)
                        /\ snd kv <> JStr (lit "")) fields
  | _ => False
  end.

(** A value that is written on lines of its own, below the line of its
    key. *)
Definition blockValue (v : JsonValue) : bool :=
  match v with
  | JArr (JObj _ :: _) => true
  | JObj (_ :: _) => true
  | _ => false
  end.

(** The values of the keys of a document, and the documents.  An array
    written on the line of its key has two elements at least, and not both
    its first and its last element in quotes; a nested object has two keys
    at least, or one key with a value written on lines of its own. *)
Inductive fieldValue : JsonValue -> Prop :=
| value_scalar v :
    roundTripPrimitive v -> v <> JStr (lit "[]") -> fieldValue v
| value_empty_array : fieldValue (JArr [])
| value_inline items :
    2 <= length items -> Forall inlineItem items ->
    isQuoted (hd JNull items) && isQuoted (last items JNull) = false ->
    fieldValue (JArr items)
| value_table first rest :
    ObjectKeys first <> [] -> NoDup (ObjectKeys first) ->
    Forall (fun h => tableKey h = true) (ObjectKeys first) ->
    Forall (exactRow (ObjectKeys first)) (first :: rest) ->
    fieldValue (JArr (first :: rest))
| value_empty_object : fieldValue (JObj [])
| value_nested fields :
    document fields ->
    (2 <= length fields
     \/ exists k v, fields = [(k, v)] /\ blockValue v = true) ->
    fieldValue (JObj fields)
with document : list (jsstring * JsonValue) -> Prop :=
| document_nil : document []
| document_cons k v rest :
    plainKey k = true -> ~ In k (map fst rest) ->
    fieldValue v -> document rest -> document ((k, v) :: rest).

Scheme fieldValue_document_ind := Minimality for fieldValue Sort Prop
  with document_fieldValue_ind := Minimality for document Sort Prop.

Combined Scheme fieldValue_document_mutind
  from fieldValue_document_ind, document_fieldValue_ind.

(** [indent.repeat(indentLevel)] *)
Definition levelIndent (options : EncodeOptions) (level : nat) : jsstring :=
  repeat_str (repeat_str (lit " ") (indent_unit options)) level.

(** The lines of [encodeTable]. *)
Definition tableLines (options : EncodeOptions) (level : nat)
  (arr : list JsonValue) : list jsstring :=
  let headers := ObjectKeys (hd JNull arr) in
  let base := levelIndent options level in
  let rows := map (cellsOf options headers) arr in
  let widths := getColumnWidths headers rows in
  tableLine base (padCells headers widths)
    :: map (fun row => tableLine base (padCells row widths)) rows.

(** The lines [encodeValue] writes for a document. *)
Fixpoint docLines (options : EncodeOptions) (level : nat) (v : JsonValue)
  {struct v} : list jsstring :=
  match v with
  | JObj fields =>
      flat_map
        (fun kv =>
           let base := levelIndent options level in
           match snd kv with
           | JArr [] => [base ++ fst kv ++ lit ": []"]
           | JArr ((JObj _ :: _) as rows) =>
               (base ++ fst kv ++ lit ":") :: tableLines options (S level) rows
           | JArr items => [base ++ fst kv ++ lit ": " ++ inlineList items options]
           | JObj [] => [base ++ fst kv ++ lit ":"]
           | JObj (_ :: _) =>
               (base ++ fst kv ++ lit ":")
                 :: docLines options (S level) (snd kv)
           | w => [base ++ fst kv ++ lit ": " ++ formatPrimitive w options false]
           end)
        fields
  | _ => []
  end.

(** What [parseDocument] assigns for a value text that is neither empty nor
    ["[]"]. *)
Definition readValue (valueStr : jsstring) : JsonValue :=
  if startsWith [QUOTE] valueStr && endsWith [QUOTE] valueStr
  then parsePrimitive valueStr
  else if includes (lit " | ") valueStr
  then primitiveList (lit " | ") valueStr
  else if includes (lit ", ") valueStr
  then primitiveList (lit ", ") valueStr
  else parsePrimitive valueStr.

(** The next line is a key line that is not indented more than [B]. *)
Definition keyLineUpTo (B : nat) (post : list jsstring) : Prop :=
  match post with
  | [] => True
  | l :: _ =>
      blankOrComment l = false /\ lineIndentOf l <= B
      /\ startsWith (lit "|") (trim l) = false
  end.

(** The next line is a key line that is indented less than [B]. *)
Definition keyLineBelow (B : nat) (post : list jsstring) : Prop :=
  match post with
  | [] => True
  | l :: _ =>
      blankOrComment l = false /\ lineIndentOf l < B
      /\ startsWith (lit "|") (trim l) = false
  end.

(** No value of the fields is written on lines of its own. *)
Definition flatFields (fields : list (jsstring * JsonValue)) : Prop :=
  Forall (fun kv => blockValue (snd kv) = false) fields.

(** An element of a root array that is written after the marker [_:]. *)
Definition rootItem (v : JsonValue) : Prop := roundTripPrimitive v /\ commaFree v.

(** *** The values [decode] returns *)

(** A key of a decoded object, or a column name of a decoded table:
    [mark] is the colon for the one and the pipe for the other. *)
Definition decodedKey (mark : char) (k : jsstring) : Prop :=
  trim k = k /\ ~ In mark k /\ k <> lit "__proto__".

(** What [parsePrimitive] returns: a primitive, or the member of
    [Object.prototype] that the lookup in [REVERSE_SYMBOLS] finds for a text
    that is the name of one (a function, or [Object.prototype] itself). *)
Definition decodedLeaf (v : JsonValue) : Prop :=
  isPrimitive v = true \/
  exists name, In name prototype_members /\ v = JInherited name.

(** A row of a decoded table. *)
Definition decodedRow (keys : list jsstring) (row : JsonValue) : Prop :=
  match row with
  | JObj fields =>
      map fst fields = keys /\ Forall (fun kv => decodedLeaf (snd kv)) fields
  | _ => False
  end.

#[local] Unset Elimination Schemes.

(** The values [decode] builds: what [parsePrimitive] returns, arrays of
    such values, tables whose rows have the same keys and such values, and
    objects of all these. *)
Inductive decoded : JsonValue -> Prop :=
| decoded_scalar v : decodedLeaf v -> decoded v
| decoded_list items : Forall decodedLeaf items -> decoded (JArr items)
| decoded_table keys rows :
    NoDup keys -> Forall (decodedKey PIPE) keys ->
    Forall (decodedRow keys) rows -> decoded (JArr rows)
| decoded_object fields :
    NoDup (map fst fields) ->
    Forall (fun kv => decodedKey COLON (fst kv)) fields ->
    Forall (fun kv => decoded (snd kv)) fields ->
    decoded (JObj fields).

#[local] Set Elimination Schemes.

(** What the loop of [parseDocument] keeps of the object it builds. *)
Definition decodedFields (fields : list (jsstring * JsonValue)) : Prop :=
  NoDup (map fst fields)
  /\ Forall (fun kv => decodedKey COLON (fst kv)) fields
  /\ Forall (fun kv => decoded (snd kv)) fields.

End Shapes.

(** ** The command line

    [parseArgs] and [detectMode] of [packages/cli/src/index.ts].  The number
    [parseInt] reads and the extension [path.extname] finds are taken from
    the host. *)

Module Cli.

Section Cli.

Context {host : JSHost}.

(** [parseInt(s, 10)], where [s] may be [undefined]. *)
Variable parseInt : option jsstring -> number.

(** [extname] of Node's [path] module. *)
Variable extname : jsstring -> jsstring.

Record CliOptions : Type := {
  input : option jsstring;
  output : option jsstring;
  encode : option bool;
  decode : option bool;
  compact : option bool;
  indent : option number;
  stats : option bool;
  strict : option bool;
  validate : option bool;
  help : option bool;
  version : option bool
}.

(** [{}] *)
Definition no_options : CliOptions :=
  {| input := None; output := None; encode := None; decode := None;
     compact := None; indent := None; stats := None; strict := None;
     validate := None; help := None; version := None |}.

(** The assignments to the properties of [options]. *)
Definition set_input (v : option jsstring) (o : CliOptions) : CliOptions :=
  {| input := v; output := output o; encode := encode o; decode := decode o;
     compact := compact o; indent := indent o; stats := stats o;
     strict := strict o; validate := validate o; help := help o;
     version := version o |}.

Definition set_output (v : option jsstring) (o : CliOptions) : CliOptions :=
  {| input := input o; output := v; encode := encode o; decode := decode o;
     compact := compact o; indent := indent o; stats := stats o;
     strict := strict o; validate := validate o; help := help o;
     version := version o |}.

Definition set_encode (o : CliOptions) : CliOptions :=
  {| input := input o; output := output o; encode := Some true;
     decode := decode o; compact := compact o; indent := indent o;
     stats := stats o; strict := strict o; validate := validate o;
     help := help o; version := version o |}.

Definition set_decode (o : CliOptions) : CliOptions :=
  {| input := input o; output := output o; encode := encode o;
     decode := Some true; compact := compact o; indent := indent o;
     stats := stats o; strict := strict o; validate := validate o;
     help := help o; version := version o |}.

Definition set_compact (o : CliOptions) : CliOptions :=
  {| input := input o; output := output o; encode := encode o;
     decode := decode o; compact := Some true; indent := indent o;
     stats := stats o; strict := strict o; validate := validate o;
     help := help o; version := version o |}.

Definition set_indent (n : number) (o : CliOptions) : CliOptions :=
  {| input := input o; output := output o; encode := encode o;
     decode := decode o; compact := compact o; indent := Some n;
     stats := stats o; strict := strict o; validate := validate o;
     help := help o; version := version o |}.

Definition set_stats (o : CliOptions) : CliOptions :=
  {| input := input o; output := output o; encode := encode o;
     decode := decode o; compact := compact o; indent := indent o;
     stats := Some true; strict := strict o; validate := validate o;
     help := help o; version := version o |}.

Definition set_strict (o : CliOptions) : CliOptions :=
  {| input := input o; output := output o; encode := encode o;
     decode := decode o; compact := compact o; indent := indent o;
     stats := stats o; strict := Some true; validate := validate o;
     help := help o; version := version o |}.

Definition set_validate (o : CliOptions) : CliOptions :=
  {| input := input o; output := output o; encode := encode o;
     decode := decode o; compact := compact o; indent := indent o;
     stats := stats o; strict := strict o; validate := Some true;
     help := help o; version := version o |}.

Definition set_help (o : CliOptions) : CliOptions :=
  {| input := input o; output := output o; encode := encode o;
     decode := decode o; compact := compact o; indent := indent o;
     stats := stats o; strict := strict o; validate := validate o;
     help := Some true; version := version o |}.

Definition set_version (o : CliOptions) : CliOptions :=
  {| input := input o; output := output o; encode := encode o;
     decode := decode o; compact := compact o; indent := indent o;
     stats := stats o; strict := strict o; validate := validate o;
     help := help o; version := Some true |}.

(** The [while] loop of [parseArgs], on the arguments from index [i] on.
    [args[++i]] takes the next argument, which is [undefined] past the last
    one, and the loop goes on after it. *)
Fixpoint parseArgs_loop (args : list jsstring) (options : CliOptions)
  : CliOptions :=
  match args with
  | [] => options
  | arg :: rest =>
      if eqb arg (lit "-o") || eqb arg (lit "--output")
      then match rest with
           | [] => set_output None options
           | v :: rest' => parseArgs_loop rest' (set_output (Some v) options)
           end
      else if eqb arg (lit "-e") || eqb arg (lit "--encode")
      then parseArgs_loop rest (set_encode options)
      else if eqb arg (lit "-d") || eqb arg (lit "--decode")
      then parseArgs_loop rest (set_decode options)
      else if eqb arg (lit "--compact")
      then parseArgs_loop rest (set_compact options)
      else if eqb arg (lit "--indent")
      then match rest with
           | [] => set_indent (parseInt None) options
           | v :: rest' =>
               parseArgs_loop rest' (set_indent (parseInt (Some v)) options)
           end
      else if eqb arg (lit "--stats")
      then parseArgs_loop rest (set_stats options)
      else if eqb arg (lit "--strict")
      then parseArgs_loop rest (set_strict options)
      else if eqb arg (lit "--validate")
      then parseArgs_loop rest (set_validate options)
      else if eqb arg (lit "-h") || eqb arg (lit "--help")
      then parseArgs_loop rest (set_help options)
      else if eqb arg (lit "-v") || eqb arg (lit "--version")
      then parseArgs_loop rest (set_version options)
      else if negb (startsWith (lit "-") arg)
      then parseArgs_loop rest (set_input (Some arg) options)
      else parseArgs_loop rest options
  end.

Definition parseArgs (args : list jsstring) : CliOptions :=
  parseArgs_loop args no_options.

(** ['encode' | 'decode'] *)
Inductive Mode : Type := EncodeMode | DecodeMode.

(** A string that is neither [undefined] nor empty. *)
Definition truthy (s : option jsstring) : bool :=
  match s with
  | Some (_ :: _) => true
  | _ => false
  end.

(** The mode the extension of the input path gives, if any. *)
Definition modeOfInput (inputPath : option jsstring) : option Mode :=
  match inputPath with
  | Some p =>
      if truthy inputPath && negb (eqb p (lit "-"))
      then
        let ext := toLowerCase (extname p) in
        if eqb ext (lit ".json") then Some EncodeMode
        else if eqb ext (lit ".mint") then Some DecodeMode
        else None
      else None
  | None => None
  end.

(** The mode the extension of the output path gives, if any. *)
Definition modeOfOutput (outputPath : option jsstring) : option Mode :=
  match outputPath with
  | Some p =>
      if truthy outputPath
      then
        let ext := toLowerCase (extname p) in
        if eqb ext (lit ".mint") then Some EncodeMode
        else if eqb ext (lit ".json") then Some DecodeMode
        else None
      else None
  | None => None
  end.

Definition detectMode (inputPath : option jsstring) (options : CliOptions)
  : Mode :=
  if is_true (encode options) then EncodeMode
  else if is_true (decode options) then DecodeMode
  else match modeOfInput inputPath with
       | Some m => m
       | None =>
           match modeOfOutput (output options) with
           | Some m => m
           | None => EncodeMode
           end
       end.

(** The arguments that take the next argument as their value, and the
    arguments that set the mode. *)
Definition takesValue (arg : jsstring) : bool :=
  eqb arg (lit "-o") || eqb arg (lit "--output") || eqb arg (lit "--indent").

Definition encodeFlag (arg : jsstring) : bool :=
  eqb arg (lit "-e") || eqb arg (lit "--encode").

Definition decodeFlag (arg : jsstring) : bool :=
  eqb arg (lit "-d") || eqb arg (lit "--decode").

End Cli.

End Cli.

(** ** Values and options of the examples *)


Definition sorting_options : EncodeOptions :=
  {| enc_indent := None; compact := None; sortKeys := Some true |}.

(** [{ indent: 1 }] *)
Definition narrow_options : EncodeOptions :=
  {| enc_indent := Some 1; compact := None; sortKeys := None |}.

(** The object of the round-trip test for complex structures. *)
Definition workflow_document : list (jsstring * JsonValue) :=
  [(lit "workflow",
    JObj [(lit "id", JStr (lit "wf_123")); (lit "name", JStr (lit "Test"));
          (lit "status", JStr (lit "active"))]);
   (lit "steps",
    JArr [JObj [(lit "id", num 1); (lit "tool", JStr (lit "search"));
                (lit "status", JStr (lit "completed"))];
          JObj [(lit "id", num 2); (lit "tool", JStr (lit "process"));
                (lit "status", JStr (lit "pending"))]]);
   (lit "tags", JArr [JStr (lit "test"); JStr (lit "workflow")])].

Definition user_rows : list JsonValue :=
  [JObj [(lit "id", num 1); (lit "name", JStr (lit "Alice"))];
   JObj [(lit "id", num 2); (lit "name", JStr (lit "Bob"))]].

(** A [parseInt] for the examples, which have no [--indent]. *)
Definition no_parseInt (s : option jsstring) : @number host :=
  Number_ofString [].

(** ** Tactics *)

(** Case analysis on a code unit: one of the four escaped ones, or none. *)
Ltac char_cases c :=
  destruct (N.eqb_spec c QUOTE) as [->|?];
  [|destruct (N.eqb_spec c NEWLINE) as [->|?];
    [|destruct (N.eqb_spec c CR) as [->|?];
      [|destruct (N.eqb_spec c TAB) as [->|?]]]].

(** The comparisons of [c] with the code units it is known to differ
    from. *)
Ltac neq_to_eqb c :=
  repeat match goal with
         | H : c <> ?k |- _ =>
             let E := fresh "E" in
             assert (E : (c =? k)%N = false) by (apply N.eqb_neq; exact H);
             rewrite ?E; clear H
         end.

(** The cases of one pass of [unescapeString] over an escaped code unit. *)
Ltac token_cases :=
  let c := fresh "c" in
  let Hc := fresh "Hc" in
  intros c Hc; unfold escapeSome; cbn [negb andb];
  char_cases c; neq_to_eqb c;
  first [ left; split; reflexivity
        | right; left; eexists; repeat split; (reflexivity || discriminate)
        | right; right; repeat split;
          try reflexivity;
          try (intros ->; first [reflexivity | discriminate
                                | exfalso; vm_compute in *; congruence]);
          try (intros H; discriminate H) ].

Ltac control_cases :=
  let d := fresh "d" in
  intros d; unfold controlOf, escapeSome; cbn [negb andb];
  destruct (N.eqb_spec d 110%N) as [->|?];
  [|destruct (N.eqb_spec d 114%N) as [->|?];
    [|destruct (N.eqb_spec d 116%N) as [->|?]]];
  first [ left; reflexivity
        | right; repeat split; reflexivity ].

Ltac old_control_cases :=
  let d := fresh "d" in
  let x := fresh "x" in
  intros d x; unfold controlOf; cbn [negb andb];
  repeat match goal with
         | |- context [(d =? ?k)%N] => destruct (d =? k)%N
         end;
  intros H; inversion H; split; discriminate.

(** The facts about concrete values: a key is not among other keys, a
    scalar is a round-trip primitive without the marks of the format, and
    so is every element of a list. *)
Ltac absent := cbn; intuition discriminate.

Ltac scalar_facts :=
  repeat split; cbn; repeat split; try reflexivity; try discriminate;
  try (let H := fresh in intros H; vm_compute in H; intuition discriminate).

Ltac each_of tac := repeat (apply Forall_cons; [tac|]); apply Forall_nil.

Ltac exact_rows :=
  each_of ltac:(split; [reflexivity | each_of scalar_facts]).

Ltac scalar_value :=
  apply value_scalar; [cbn; try reflexivity; repeat split | discriminate].

(** * Properties *)

(** ** The string methods on examples *)

Example split_pipe_example :
  split (lit "|") (lit "| a | b |") = [lit ""; lit " a "; lit " b "; lit ""].
Proof. reflexivity. Qed.

Example split_sep_example :
  split (lit ", ") (lit "a, b,, c, ") = [lit "a"; lit "b,"; lit "c"; lit ""].
Proof. reflexivity. Qed.

Example replaceAll_example :
  replaceAll (lit "aa") (lit "b") (lit "aaaxaa") = lit "baxb".
Proof. reflexivity. Qed.

Example trim_example : trim (lit "  a b  ") = lit "a b".
Proof. reflexivity. Qed.

Example slice_example : slice (lit "abcde") 1 (-1) = lit "bcd".
Proof. reflexivity. Qed.

Example sort_example :
  sort [lit "b"; lit "a"; lit "B"; lit "ab"] = [lit "B"; lit "a"; lit "ab"; lit "b"].
Proof. reflexivity. Qed.


(** ** Strings *)

Lemma eqb_eq (a b : jsstring) : eqb a b = true <-> a = b.
Proof.
  revert b; induction a as [|x a IH]; destruct b as [|y b]; simpl;
    try (split; [discriminate | congruence]).
  - tauto.
  - rewrite andb_true_iff, N.eqb_eq, IH. split; [intros [-> ->] | intros [= -> ->]]; auto.
Qed.

Lemma eqb_refl (a : jsstring) : eqb a a = true.
Proof. apply eqb_eq; reflexivity. Qed.

Lemma eqb_neq (a b : jsstring) : eqb a b = false <-> a <> b.
Proof.
  rewrite <- eqb_eq. destruct (eqb a b); split; congruence.
Qed.

Lemma eqb_sym (a b : jsstring) : eqb a b = eqb b a.
Proof.
  destruct (eqb a b) eqn:E.
  - apply eqb_eq in E; subst; symmetry; apply eqb_refl.
  - symmetry; apply eqb_neq; apply eqb_neq in E; congruence.
Qed.

Lemma includes_char (c : char) (s : jsstring) :
  includes [c] s = true <-> In c s.
Proof.
  induction s as [|x s IH]; simpl.
  - split; [discriminate | tauto].
  - rewrite orb_true_iff, IH, andb_true_r, N.eqb_eq. intuition.
Qed.

Lemma includes_char_false (c : char) (s : jsstring) :
  includes [c] s = false <-> ~ In c s.
Proof.
  rewrite <- includes_char. destruct (includes [c] s); split; congruence.
Qed.

Lemma startsWith_In (p s : jsstring) :
  startsWith p s = true -> forall c, In c p -> In c s.
Proof.
  revert s; induction p as [|x p IH]; intros s H c Hc; [destruct Hc|].
  destruct s as [|y s]; simpl in H; [discriminate|].
  apply andb_true_iff in H as [Hxy Hp]. apply N.eqb_eq in Hxy; subst y.
  destruct Hc as [-> | Hc]; [left; reflexivity | right; eauto].
Qed.

Lemma includes_In (p s : jsstring) :
  includes p s = true -> forall c, In c p -> In c s.
Proof.
  induction s as [|x s IH]; simpl; intros H c Hc.
  - rewrite orb_false_r in H. destruct p; [destruct Hc | discriminate].
  - apply orb_true_iff in H as [H | H].
    + exact (startsWith_In _ _ H c Hc).
    + right; auto.
Qed.

Lemma includes_without (p s : jsstring) (c : char) :
  In c p -> ~ In c s -> includes p s = false.
Proof.
  intros Hp Hs. destruct (includes p s) eqn:E; [|reflexivity].
  exfalso; apply Hs; exact (includes_In _ _ E c Hp).
Qed.

Lemma startsWith_app (p s : jsstring) : startsWith p (p ++ s) = true.
Proof.
  induction p as [|x p IH]; simpl; [reflexivity|].
  rewrite N.eqb_refl; exact IH.
Qed.

Lemma startsWith_absent (c : char) (p s : jsstring) :
  ~ In c s -> startsWith (c :: p) s = false.
Proof.
  intros H. destruct (startsWith (c :: p) s) eqn:E; [|reflexivity].
  exfalso; apply H; apply (startsWith_In _ _ E); left; reflexivity.
Qed.

Lemma replaceAll_absent (c : char) (p rep s : jsstring) :
  ~ In c s -> replaceAll (c :: p) rep s = s.
Proof.
  unfold replaceAll. induction s as [|x s IH]; intros H; [reflexivity|].
  cbn [replaceAll_aux]. rewrite (startsWith_absent c p _ H).
  rewrite IH; [reflexivity | intros Hc; apply H; right; exact Hc].
Qed.

Lemma split_aux_absent (c : char) (p s : jsstring) :
  ~ In c s -> split_aux (c :: p) 0 s = (s, []).
Proof.
  induction s as [|x s IH]; intros H; [reflexivity|].
  cbn [split_aux]. rewrite (startsWith_absent c p _ H).
  rewrite IH; [reflexivity | intros Hc; apply H; right; exact Hc].
Qed.

Lemma split_absent (c : char) (p s : jsstring) :
  ~ In c s -> split (c :: p) s = [s].
Proof.
  intros H. unfold split. rewrite (split_aux_absent c p s H). reflexivity.
Qed.


Lemma In_trimStart (c : char) (s : jsstring) : In c (trimStart s) -> In c s.
Proof.
  induction s as [|x s IH]; simpl; [tauto|].
  destruct (isWhiteSpace x); [intros H; right; auto | simpl; tauto].
Qed.

Lemma In_trim (c : char) (s : jsstring) : In c (trim s) -> In c s.
Proof.
  unfold trim, trimEnd. intros H.
  apply In_trimStart. apply in_rev. apply In_trimStart. apply in_rev. exact H.
Qed.

(** *** [trim] *)

Lemma trimStart_id (s : jsstring) : startsNonWs s = true -> trimStart s = s.
Proof.
  destruct s as [|c s]; simpl; [discriminate|].
  destruct (isWhiteSpace c); [discriminate | reflexivity].
Qed.

Lemma trimEnd_id (s : jsstring) : endsNonWs s = true -> trimEnd s = s.
Proof.
  unfold endsNonWs, trimEnd. intros H. rewrite (trimStart_id _ H).
  apply rev_involutive.
Qed.

Lemma trim_id (s : jsstring) :
  startsNonWs s = true -> endsNonWs s = true -> trim s = s.
Proof.
  intros H1 H2. unfold trim. rewrite (trimStart_id _ H1). apply trimEnd_id, H2.
Qed.

Lemma trimStart_length (s : jsstring) : length (trimStart s) <= length s.
Proof.
  induction s as [|c s IH]; simpl; [lia|].
  destruct (isWhiteSpace c); simpl; lia.
Qed.

Lemma trimEnd_length (s : jsstring) : length (trimEnd s) <= length s.
Proof.
  unfold trimEnd. rewrite length_rev.
  pose proof (trimStart_length (rev s)) as H. rewrite length_rev in H. exact H.
Qed.

Lemma trimStart_fixed (s : jsstring) :
  s <> [] -> length (trimStart s) = length s -> startsNonWs s = true.
Proof.
  destruct s as [|c s]; [congruence|]. simpl. intros _.
  destruct (isWhiteSpace c); [|reflexivity].
  pose proof (trimStart_length s). simpl. lia.
Qed.

Lemma trim_fixed (s : jsstring) :
  trim s = s -> s <> [] -> startsNonWs s = true /\ endsNonWs s = true.
Proof.
  intros H Hne.
  assert (Hlen : length (trim s) = length s) by (rewrite H; reflexivity).
  unfold trim in Hlen.
  pose proof (trimEnd_length (trimStart s)) as H1.
  pose proof (trimStart_length s) as H2.
  assert (Hs : startsNonWs s = true) by (apply trimStart_fixed; [exact Hne | lia]).
  split; [exact Hs|].
  unfold trim in H. rewrite (trimStart_id _ Hs) in H.
  unfold endsNonWs. apply trimStart_fixed.
  - intros E. apply Hne. rewrite <- (rev_involutive s), E. reflexivity.
  - unfold trimEnd in H.
    rewrite <- (length_rev (trimStart (rev s))), H. symmetry; apply length_rev.
Qed.

Lemma startsNonWs_app (a b : jsstring) :
  startsNonWs a = true -> startsNonWs (a ++ b) = true.
Proof. destruct a; simpl; [discriminate | tauto]. Qed.

Lemma endsNonWs_app (a b : jsstring) :
  endsNonWs b = true -> endsNonWs (a ++ b) = true.
Proof.
  unfold endsNonWs. rewrite rev_app_distr. apply startsNonWs_app.
Qed.

Lemma trimStart_ws_app (w s : jsstring) :
  forallb isWhiteSpace w = true -> trimStart (w ++ s) = trimStart s.
Proof.
  induction w as [|c w IH]; simpl; [reflexivity|].
  intros H. apply andb_true_iff in H as [-> H]. auto.
Qed.

Lemma forallb_rev {A} (f : A -> bool) (l : list A) :
  forallb f (rev l) = forallb f l.
Proof.
  induction l as [|x l IH]; simpl; [reflexivity|].
  rewrite forallb_app, IH. simpl. rewrite andb_true_r. apply andb_comm.
Qed.

Lemma trimEnd_app_ws (s w : jsstring) :
  forallb isWhiteSpace w = true -> trimEnd (s ++ w) = trimEnd s.
Proof.
  intros H. unfold trimEnd. rewrite rev_app_distr, trimStart_ws_app;
    [reflexivity | rewrite forallb_rev; exact H].
Qed.

Lemma trimStart_all_ws (w : jsstring) :
  forallb isWhiteSpace w = true -> trimStart w = [].
Proof.
  intros H. rewrite <- (app_nil_r w). apply (trimStart_ws_app w [] H).
Qed.

(** A text with white space around it trims to the text. *)
Lemma trim_padded (w1 f w2 : jsstring) :
  forallb isWhiteSpace w1 = true -> forallb isWhiteSpace w2 = true ->
  trim f = f -> trim (w1 ++ f ++ w2) = f.
Proof.
  intros H1 H2 Hf. unfold trim. rewrite (trimStart_ws_app w1 _ H1).
  destruct f as [|c f'].
  - simpl. rewrite (trimStart_all_ws _ H2). reflexivity.
  - destruct (trim_fixed (c :: f') Hf) as [Hs He]; [discriminate|].
    rewrite (trimStart_id _ (startsNonWs_app _ w2 Hs)).
    rewrite (trimEnd_app_ws _ _ H2). apply trimEnd_id, He.
Qed.

Lemma lineIndentOf_padded (w s : jsstring) :
  forallb isWhiteSpace w = true -> startsNonWs s = true ->
  lineIndentOf (w ++ s) = length w.
Proof.
  intros Hw Hs. unfold lineIndentOf.
  rewrite (trimStart_ws_app w s Hw), (trimStart_id s Hs), length_app. lia.
Qed.

Lemma forallb_ws_spaces (n : nat) :
  forallb isWhiteSpace (repeat_str (lit " ") n) = true.
Proof. induction n as [|n IH]; simpl; [reflexivity | exact IH]. Qed.

(** *** [slice] and [indexOf] *)

Lemma slice_prefix {A} (a b : list A) :
  slice (a ++ b) 0 (Z.of_nat (length a)) = a.
Proof.
  unfold slice, slice_index. rewrite length_app. simpl.
  replace (Z.of_nat (length a) <? 0)%Z with false by (symmetry; apply Z.ltb_ge; lia).
  rewrite Z.min_l by lia. rewrite Z.min_l by lia.
  rewrite Z.sub_0_r, Nat2Z.id. simpl.
  rewrite firstn_app, firstn_all, Nat.sub_diag. simpl. apply app_nil_r.
Qed.

Lemma slice_from_suffix {A} (a b : list A) :
  slice_from (a ++ b) (Z.of_nat (length a)) = b.
Proof.
  unfold slice_from, slice, slice_index. rewrite length_app.
  replace (Z.of_nat (length a) <? 0)%Z with false by (symmetry; apply Z.ltb_ge; lia).
  replace (Z.of_nat (length a + length b) <? 0)%Z with false
    by (symmetry; apply Z.ltb_ge; lia).
  rewrite Z.min_l by lia. rewrite Z.min_l by lia.
  rewrite Nat2Z.id, skipn_app, skipn_all, Nat.sub_diag. simpl.
  apply firstn_all2. lia.
Qed.

Lemma slice_inner {A} (x y : A) (l : list A) :
  slice (x :: l ++ [y]) 1 (-1) = l.
Proof.
  unfold slice, slice_index. simpl length. rewrite length_app. simpl length.
  change (1 <? 0)%Z with false. change (-1 <? 0)%Z with true. cbv iota.
  rewrite Z.min_l by lia. rewrite Z.max_l by lia. simpl skipn.
  replace (Z.to_nat (Z.of_nat (S (length l + 1)) + -1 - 1)) with (length l) by lia.
  rewrite firstn_app, firstn_all, Nat.sub_diag. simpl. apply app_nil_r.
Qed.

Lemma indexOf_from_first (c : char) (a b : jsstring) (i : Z) :
  ~ In c a ->
  indexOf_from [c] (a ++ c :: b) i = (i + Z.of_nat (length a))%Z.
Proof.
  revert i; induction a as [|x a IH]; intros i H.
  - cbn [app indexOf_from startsWith]. rewrite N.eqb_refl. simpl. lia.
  - cbn [app indexOf_from startsWith].
    replace (c =? x)%N with false
      by (symmetry; apply N.eqb_neq; intros ->; apply H; left; reflexivity).
    cbn [andb]. rewrite IH by (intros Hc; apply H; right; exact Hc).
    simpl length. lia.
Qed.

Lemma indexOf_first (c : char) (a b : jsstring) :
  ~ In c a -> indexOf [c] (a ++ c :: b) = Z.of_nat (length a).
Proof.
  intros H. unfold indexOf. rewrite indexOf_from_first by exact H. lia.
Qed.

(** *** [split], [join] and [replaceAll] with a separator of one code unit *)

Lemma split_aux_first (c : char) (a b : jsstring) :
  ~ In c a ->
  split_aux [c] 0 (a ++ c :: b) = (a, split [c] b).
Proof.
  induction a as [|x a IH]; intros H.
  - cbn [app split_aux startsWith]. rewrite N.eqb_refl. reflexivity.
  - cbn [app split_aux startsWith].
    replace (c =? x)%N with false
      by (symmetry; apply N.eqb_neq; intros ->; apply H; left; reflexivity).
    cbn [andb]. rewrite IH by (intros Hc; apply H; right; exact Hc).
    reflexivity.
Qed.

Lemma split_first (c : char) (a b : jsstring) :
  ~ In c a -> split [c] (a ++ c :: b) = a :: split [c] b.
Proof.
  intros H. unfold split at 1. rewrite split_aux_first by exact H. reflexivity.
Qed.

Lemma split_join (c : char) (l : list jsstring) :
  l <> [] -> Forall (fun x => ~ In c x) l -> split [c] (join [c] l) = l.
Proof.
  induction l as [|x l IH]; intros Hne H; [congruence|].
  inversion H as [|? ? Hx Hl]; subst.
  destruct l as [|y l].
  - simpl. apply split_absent, Hx.
  - change (join [c] (x :: y :: l)) with (x ++ c :: join [c] (y :: l)).
    rewrite split_first by exact Hx. rewrite IH; [reflexivity | discriminate | exact Hl].
Qed.

Lemma In_join (c : char) (sep : jsstring) (l : list jsstring) :
  In c (join sep l) -> In c sep \/ exists x, In x l /\ In c x.
Proof.
  induction l as [|x l IH]; simpl; [tauto|].
  destruct l as [|y l].
  - intros H; right; exists x; auto.
  - rewrite !in_app_iff. intros [H | [H | H]].
    + right; exists x; auto.
    + left; exact H.
    + destruct (IH H) as [Hs | (z & Hz & Hc)]; [left; exact Hs|].
      right; exists z; auto.
Qed.

Lemma replaceAll_char (c : char) (rep s : jsstring) :
  replaceAll [c] rep s = flat_map (fun x => if (x =? c)%N then rep else [x]) s.
Proof.
  unfold replaceAll. induction s as [|x s IH]; [reflexivity|].
  cbn [replaceAll_aux startsWith flat_map length Nat.sub].
  rewrite andb_true_r, (N.eqb_sym c x).
  destruct (x =? c)%N; rewrite IH; reflexivity.
Qed.

(** *** Escaping *)

Lemma flat_map_step {A B} (f : A -> list B) (x : A) (l : list A) :
  flat_map f (x :: l) = f x ++ flat_map f l.
Proof. reflexivity. Qed.

Lemma replaceAll_pair (code raw : char) (f g : char -> jsstring) (s : jsstring) :
  (forall c, In c s ->
     (f c = [BACKSLASH; code] /\ g c = [raw]) \/
     (exists x, f c = [BACKSLASH; x] /\ x <> code /\ x <> BACKSLASH
                /\ g c = f c) \/
     (f c = [c] /\ c <> BACKSLASH /\ g c = [c])) ->
  replaceAll [BACKSLASH; code] [raw] (flat_map f s) = flat_map g s.
Proof.
  unfold replaceAll. induction s as [|c s IH]; intros H; [reflexivity|].
  cbn [flat_map].
  assert (IH' := IH (fun x Hx => H x (or_intror Hx))). clear IH.
  destruct (H c (or_introl eq_refl))
    as [[-> ->] | [(x & -> & Hx & Hb & ->) | (-> & Hc & ->)]].
  - cbn [app replaceAll_aux startsWith length Nat.sub].
    rewrite !N.eqb_refl. cbn [andb]. rewrite IH'. reflexivity.
  - cbn [app replaceAll_aux startsWith length Nat.sub].
    rewrite N.eqb_refl.
    replace (code =? x)%N with false by (symmetry; apply N.eqb_neq; congruence).
    replace (BACKSLASH =? x)%N with false
      by (symmetry; apply N.eqb_neq; congruence).
    cbn [andb]. rewrite IH'. reflexivity.
  - cbn [app replaceAll_aux startsWith length Nat.sub].
    replace (BACKSLASH =? c)%N with false
      by (symmetry; apply N.eqb_neq; congruence).
    cbn [andb]. rewrite IH'. reflexivity.
Qed.

Lemma escapeString_chars (s : jsstring) :
  ~ In BACKSLASH s ->
  escapeString s = flat_map (escapeSome true true true true) s.
Proof.
  intros H. unfold escapeString.
  rewrite (replaceAll_absent BACKSLASH [] _ s H), !replaceAll_char.
  clear H. induction s as [|c s IH]; [reflexivity|].
  rewrite (flat_map_step (escapeSome true true true true)).
  rewrite flat_map_step, !flat_map_app. f_equal; [|exact IH].
  unfold escapeSome. char_cases c; try reflexivity.
  cbn [andb].
  repeat match goal with
         | H : c <> _ |- _ => apply N.eqb_neq in H
         end.
  repeat (cbn [flat_map app];
          match goal with
          | H : (c =? _)%N = false |- _ => rewrite !H
          end).
  reflexivity.
Qed.

Lemma unescape_escaped (s : jsstring) :
  ~ In BACKSLASH s ->
  unescapeString (flat_map (escapeSome true true true true) s) = s.
Proof.
  intros H. unfold unescapeString.
  assert (P : forall q n r t q' n' r' t' code raw,
             (forall c, In c s ->
                (escapeSome q n r t c = [BACKSLASH; code]
                 /\ escapeSome q' n' r' t' c = [raw]) \/
                (exists x, escapeSome q n r t c = [BACKSLASH; x] /\ x <> code
                           /\ x <> BACKSLASH
                           /\ escapeSome q' n' r' t' c = escapeSome q n r t c) \/
                (escapeSome q n r t c = [c] /\ c <> BACKSLASH
                 /\ escapeSome q' n' r' t' c = [c])) ->
             replaceAll [BACKSLASH; code] [raw] (flat_map (escapeSome q n r t) s)
             = flat_map (escapeSome q' n' r' t') s)
    by (intros; apply replaceAll_pair; assumption).
  assert (Hb : forall c, In c s -> c <> BACKSLASH) by (intros c Hc ->; auto).
  rewrite (P true true true true true false true true 110%N NEWLINE).
  rewrite (P true false true true true false false true 114%N CR).
  rewrite (P true false false true true false false false 116%N TAB).
  rewrite (P true false false false false false false false QUOTE QUOTE).
  { replace (flat_map (escapeSome false false false false) s) with s.
    - apply replaceAll_absent, H.
    - clear. induction s as [|c s IH]; [reflexivity|].
      cbn [flat_map]. rewrite <- IH. reflexivity. }
  all: intros c Hc; specialize (Hb c Hc); unfold escapeSome; cbn [andb];
    char_cases c;
    repeat match goal with
           | H : c <> ?k |- _ =>
               let E := fresh "E" in
               assert (E : (c =? k)%N = false) by (apply N.eqb_neq; exact H);
               rewrite ?E; clear H
           end;
    first [ left; split; reflexivity
          | right; left; eexists; repeat split; (reflexivity || discriminate)
          | right; right; repeat split;
            (reflexivity || discriminate || (apply N.eqb_neq; assumption)) ].
Qed.

Lemma unescape_escape (s : jsstring) :
  ~ In BACKSLASH s -> unescapeString (escapeString s) = s.
Proof.
  intros H. rewrite (escapeString_chars s H). apply unescape_escaped, H.
Qed.

Lemma replaceAll_char_In (x c : char) (rep s : jsstring) :
  In c (replaceAll [x] rep s) -> In c rep \/ (In c s /\ c <> x).
Proof.
  rewrite replaceAll_char. intros H. apply in_flat_map in H as (y & Hy & Hc).
  destruct (N.eqb_spec y x) as [-> | Hne]; [left; exact Hc|].
  destruct Hc as [<- | []]. right. auto.
Qed.

(** An escaped string has no line break, whatever the string. *)
Lemma escapeString_one_line (s : jsstring) :
  ~ In NEWLINE (escapeString s) /\ ~ In CR (escapeString s).
Proof.
  unfold escapeString. split; intros H.
  - apply replaceAll_char_In in H as [[H | [H | []]] | [H _]]; try discriminate H.
    apply replaceAll_char_In in H as [[H | [H | []]] | [H _]]; try discriminate H.
    apply replaceAll_char_In in H as [[H | [H | []]] | [_ H]]; try discriminate H.
    apply H; reflexivity.
  - apply replaceAll_char_In in H as [[H | [H | []]] | [H _]]; try discriminate H.
    apply replaceAll_char_In in H as [[H | [H | []]] | [_ H]]; try discriminate H.
    apply H; reflexivity.
Qed.

(** *** [sort] *)

Lemma str_leb_total (a b : jsstring) : str_leb a b = false -> str_leb b a = true.
Proof.
  revert b; induction a as [|x a IH]; destruct b as [|y b]; simpl;
    try (discriminate || reflexivity).
  destruct (N.ltb_spec x y), (N.ltb_spec y x), (N.eqb_spec x y),
    (N.eqb_spec y x); simpl; try (discriminate || reflexivity || lia).
  apply IH.
Qed.

Lemma str_leb_antisym (a b : jsstring) :
  str_leb a b = true -> str_leb b a = true -> a = b.
Proof.
  revert b; induction a as [|x a IH]; destruct b as [|y b]; simpl;
    try (discriminate || reflexivity).
  destruct (N.ltb_spec x y), (N.ltb_spec y x), (N.eqb_spec x y),
    (N.eqb_spec y x); simpl; try (discriminate || lia).
  intros H1 H2. subst. f_equal. apply IH; assumption.
Qed.

Lemma str_leb_trans (a b c : jsstring) :
  str_leb a b = true -> str_leb b c = true -> str_leb a c = true.
Proof.
  revert b c; induction a as [|x a IH]; destruct b as [|y b];
    destruct c as [|z c]; simpl; try (discriminate || reflexivity).
  destruct (N.ltb_spec x y), (N.ltb_spec y z), (N.ltb_spec x z),
    (N.eqb_spec x y), (N.eqb_spec y z), (N.eqb_spec x z); simpl;
    try (discriminate || reflexivity || lia).
  apply IH.
Qed.

Lemma insert_sorted_comm (x y : jsstring) (l : list jsstring) :
  insert_sorted x (insert_sorted y l) = insert_sorted y (insert_sorted x l).
Proof.
  induction l as [|z l IH]; simpl.
  - destruct (str_leb x y) eqn:Exy, (str_leb y x) eqn:Eyx; try reflexivity.
    + rewrite (str_leb_antisym x y Exy Eyx). reflexivity.
    + rewrite (str_leb_total _ _ Exy) in Eyx. discriminate.
  - destruct (str_leb y z) eqn:Eyz, (str_leb x z) eqn:Exz; simpl.
    + destruct (str_leb x y) eqn:Exy, (str_leb y x) eqn:Eyx;
        rewrite ?Exz, ?Eyz; try reflexivity.
      * rewrite (str_leb_antisym x y Exy Eyx). reflexivity.
      * rewrite (str_leb_total _ _ Exy) in Eyx. discriminate.
    + rewrite Eyz.
      destruct (str_leb x y) eqn:Exy.
      * rewrite (str_leb_trans x y z Exy Eyz) in Exz. discriminate.
      * rewrite Exz. reflexivity.
    + rewrite Exz.
      destruct (str_leb y x) eqn:Eyx.
      * rewrite (str_leb_trans y x z Eyx Exz) in Eyz. discriminate.
      * rewrite Eyz. reflexivity.
    + rewrite Exz, Eyz, IH. reflexivity.
Qed.

Lemma sort_permutation (l1 l2 : list jsstring) :
  Permutation l1 l2 -> sort l1 = sort l2.
Proof.
  unfold sort. induction 1 as [|x l l' _ IH|x y l|l l' l'' _ IH1 _ IH2]; simpl.
  - reflexivity.
  - rewrite IH. reflexivity.
  - apply insert_sorted_comm.
  - congruence.
Qed.

(** ** Escaping and unescaping, with backslashes *)

Lemma replaceAll_two (a b : char) (rep : jsstring) (x : char) (rest : jsstring) :
  replaceAll [a; b] rep (x :: rest) =
  if (a =? x)%N && startsWith [b] rest
  then rep ++ replaceAll [a; b] rep (tl rest)
  else x :: replaceAll [a; b] rep rest.
Proof.
  unfold replaceAll. cbn [replaceAll_aux startsWith length Nat.sub].
  destruct (a =? x)%N; [|reflexivity]. cbn [andb].
  destruct rest as [|y rest]; [reflexivity|].
  cbn [startsWith]. rewrite andb_true_r.
  destruct (b =? y)%N; reflexivity.
Qed.

Lemma list_length_ind {A} (P : list A -> Prop) :
  (forall l, (forall l', length l' < length l -> P l') -> P l) -> forall l, P l.
Proof.
  intros H l. remember (length l) as k eqn:E. revert l E.
  induction k as [k IH] using lt_wf_ind. intros l ->.
  apply H. intros l' Hl. exact (IH _ Hl l' eq_refl).
Qed.

Lemma unescapeStage_start (q : bool) (c : char) (s : jsstring) :
  unescapeStage false false false q (c :: s) =
  (if (c =? BACKSLASH)%N then [BACKSLASH; BACKSLASH]
   else escapeSome (negb q) true true true c)
    ++ unescapeStage false false false q s.
Proof.
  cbn [unescapeStage negb]. destruct (c =? BACKSLASH)%N; [|reflexivity].
  destruct s; reflexivity.
Qed.

Lemma escapeString_stage (s : jsstring) :
  escapeString s = unescapeStage false false false false s.
Proof.
  unfold escapeString. rewrite !replaceAll_char.
  induction s as [|c s IH]; [reflexivity|].
  rewrite unescapeStage_start, <- IH. clear IH.
  rewrite flat_map_step, !flat_map_app.
  destruct (N.eqb_spec c BACKSLASH) as [->|Hb].
  - reflexivity.
  - f_equal. unfold escapeSome. cbn [negb andb].
    apply N.eqb_neq in Hb.
    char_cases c; try reflexivity.
    repeat match goal with
           | H : c <> _ |- _ => apply N.eqb_neq in H
           end.
    repeat (cbn [flat_map app];
            match goal with
            | H : (c =? _)%N = false |- _ => rewrite !H
            end).
    reflexivity.
Qed.

Lemma unescape_pass (n r t q n' r' t' q' : bool) (code raw : char) :
  code <> BACKSLASH ->
  (forall c, c <> BACKSLASH ->
     let f := escapeSome (negb q) (negb n) (negb r) (negb t) c in
     let g := escapeSome (negb q') (negb n') (negb r') (negb t') c in
     (f = [BACKSLASH; code] /\ g = [raw]) \/
     (exists x, f = [BACKSLASH; x] /\ x <> code /\ x <> BACKSLASH /\ g = f) \/
     (f = [c] /\ g = [c] /\ (c = code -> controlOf n' r' t' c = Some raw))) ->
  (forall d, controlOf n' r' t' d = controlOf n r t d \/
             (controlOf n r t d = None /\ controlOf n' r' t' d = Some raw
              /\ d = code
              /\ escapeSome (negb q) (negb n) (negb r) (negb t) d = [d])) ->
  (forall d x, controlOf n r t d = Some x -> x <> code /\ x <> BACKSLASH) ->
  forall s,
    replaceAll [BACKSLASH; code] [raw] (unescapeStage n r t q s)
    = unescapeStage n' r' t' q' s.
Proof.
  intros Hcode Htok Hctl Hold s.
  assert (Ecode : (code =? BACKSLASH)%N = false) by (apply N.eqb_neq; exact Hcode).
  induction s as [s IH] using list_length_ind.
  destruct s as [|c s']; [reflexivity|].
  cbn [unescapeStage].
  destruct (N.eqb_spec c BACKSLASH) as [->|Hc].
  - destruct s' as [|d s''].
    + rewrite !replaceAll_two. cbn [startsWith]. rewrite N.eqb_refl, Ecode.
      reflexivity.
    + destruct (Hctl d) as [E | (E1 & E2 & -> & E3)].
      * rewrite E. destruct (controlOf n r t d) as [x|] eqn:Ed.
        -- destruct (Hold d x Ed) as [Hx1 Hx2].
           rewrite !replaceAll_two. cbn [startsWith].
           rewrite N.eqb_refl.
           replace (code =? x)%N with false
             by (symmetry; apply N.eqb_neq; congruence).
           replace (BACKSLASH =? x)%N with false
             by (symmetry; apply N.eqb_neq; congruence).
           cbn [andb]. rewrite IH by (cbn [length]; lia). reflexivity.
        -- rewrite replaceAll_two. cbn [startsWith]. rewrite N.eqb_refl, Ecode.
           cbn [andb]. rewrite replaceAll_two. rewrite N.eqb_refl.
           replace (startsWith [code] (unescapeStage n r t q (d :: s'')))
             with false.
           ++ cbn [andb]. rewrite IH by (cbn [length]; lia). reflexivity.
           ++ symmetry. cbn [unescapeStage].
              destruct (N.eqb_spec d BACKSLASH) as [->|Hd].
              ** destruct s'' as [|e s3];
                   [|destruct (controlOf n r t e)];
                   cbn [startsWith]; rewrite Ecode; reflexivity.
              ** destruct (Htok d Hd) as [[-> _] | [(x & -> & _) | (-> & _ & H3)]];
                   cbn [app startsWith]; rewrite ?Ecode; try reflexivity.
                 destruct (N.eqb_spec code d) as [<-|]; [|reflexivity].
                 rewrite (H3 eq_refl) in E. congruence.
      * rewrite E1, E2. cbn [unescapeStage].
        replace (code =? BACKSLASH)%N with false. rewrite E3.
        cbn [app]. rewrite replaceAll_two. cbn [startsWith].
        rewrite N.eqb_refl, Ecode. cbn [andb].
        rewrite replaceAll_two. cbn [startsWith]. rewrite !N.eqb_refl.
        cbn [andb tl app]. rewrite IH by (cbn [length]; lia). reflexivity.
  - assert (Eb : (BACKSLASH =? c)%N = false)
      by (apply N.eqb_neq; congruence).
    destruct (Htok c Hc) as [[-> ->] | [(x & E & Hx1 & Hx2 & ->) | (-> & -> & _)]].
    + cbn [app]. rewrite replaceAll_two. cbn [startsWith].
      rewrite !N.eqb_refl. cbn [andb tl].
      rewrite IH by (cbn [length]; lia). reflexivity.
    + rewrite E. cbn [app]. rewrite !replaceAll_two. cbn [startsWith].
      rewrite N.eqb_refl.
      replace (code =? x)%N with false
        by (symmetry; apply N.eqb_neq; congruence).
      replace (BACKSLASH =? x)%N with false
        by (symmetry; apply N.eqb_neq; congruence).
      cbn [andb]. rewrite IH by (cbn [length]; lia). reflexivity.
    + cbn [app]. rewrite replaceAll_two, Eb. cbn [andb].
      rewrite IH by (cbn [length]; lia). reflexivity.
Qed.

Lemma unescape_pass_n (s : jsstring) :
  replaceAll [BACKSLASH; 110%N] [NEWLINE] (unescapeStage false false false false s)
  = unescapeStage true false false false s.
Proof.
  apply unescape_pass;
    [discriminate | token_cases | control_cases | old_control_cases].
Qed.

Lemma unescape_pass_r (s : jsstring) :
  replaceAll [BACKSLASH; 114%N] [CR] (unescapeStage true false false false s)
  = unescapeStage true true false false s.
Proof.
  apply unescape_pass;
    [discriminate | token_cases | control_cases | old_control_cases].
Qed.

Lemma unescape_pass_t (s : jsstring) :
  replaceAll [BACKSLASH; 116%N] [TAB] (unescapeStage true true false false s)
  = unescapeStage true true true false s.
Proof.
  apply unescape_pass;
    [discriminate | token_cases | control_cases | old_control_cases].
Qed.

Lemma unescape_pass_q (s : jsstring) :
  replaceAll [BACKSLASH; QUOTE] [QUOTE] (unescapeStage true true true false s)
  = unescapeStage true true true true s.
Proof.
  apply unescape_pass;
    [discriminate | token_cases | control_cases | old_control_cases].
Qed.

Lemma unescape_pass_backslash (s : jsstring) :
  replaceAll [BACKSLASH; BACKSLASH] [BACKSLASH] (unescapeStage true true true true s)
  = controlAfterBackslash s.
Proof.
  induction s as [s IH] using list_length_ind.
  destruct s as [|c s']; [reflexivity|].
  cbn [unescapeStage controlAfterBackslash].
  destruct (N.eqb_spec c BACKSLASH) as [->|Hc].
  - destruct s' as [|d s'']; [reflexivity|].
    destruct (controlOf true true true d) as [x|] eqn:Ed.
    + assert (Hx : (BACKSLASH =? x)%N = false).
      { revert Ed. unfold controlOf. cbn [andb].
        repeat match goal with
               | |- context [(d =? ?k)%N] => destruct (d =? k)%N
               end; intros H; inversion H; reflexivity. }
      rewrite !replaceAll_two. cbn [startsWith]. rewrite Hx, N.eqb_refl.
      cbn [andb]. rewrite IH by (cbn [length]; lia). reflexivity.
    + rewrite replaceAll_two. cbn [startsWith]. rewrite !N.eqb_refl.
      cbn [andb tl app]. rewrite IH by (cbn [length]; lia). reflexivity.
  - replace (escapeSome (negb true) (negb true) (negb true) (negb true) c)
      with [c] by reflexivity.
    cbn [app]. rewrite replaceAll_two.
    replace (BACKSLASH =? c)%N with false
      by (symmetry; apply N.eqb_neq; congruence).
    cbn [andb]. rewrite IH by (cbn [length]; lia). reflexivity.
Qed.

Lemma unescape_escape_result (s : jsstring) :
  unescapeString (escapeString s) = controlAfterBackslash s.
Proof.
  unfold unescapeString.
  rewrite escapeString_stage, unescape_pass_n, unescape_pass_r,
    unescape_pass_t, unescape_pass_q.
  apply unescape_pass_backslash.
Qed.

Lemma controlAfterBackslash_fixed (s : jsstring) :
  controlAfterBackslash s = s <-> escapeSafe s = true.
Proof.
  induction s as [|c s' IH]; [split; reflexivity|].
  cbn [controlAfterBackslash escapeSafe].
  destruct (N.eqb_spec c BACKSLASH) as [->|Hc].
  - destruct s' as [|d s'']; [split; reflexivity|].
    cbn [andb]. unfold controlOf. cbn [andb].
    destruct (N.eqb_spec d 110%N) as [->|?];
      [split; discriminate|].
    destruct (N.eqb_spec d 114%N) as [->|?];
      [split; discriminate|].
    destruct (N.eqb_spec d 116%N) as [->|?];
      [split; discriminate|].
    cbn [orb negb andb]. rewrite <- IH. split; congruence.
  - cbn [andb negb]. rewrite <- IH. split; congruence.
Qed.

(** X1: [unescapeString (escapeString s)] is [s] with every letter [n], [r] or
    [t] that directly follows a backslash replaced by the control code it
    names; it is [s] exactly when no backslash of [s] is directly followed
    by one of these letters. *)
Theorem unescape_after_escape (s : jsstring) :
  unescapeString (escapeString s) = controlAfterBackslash s
  /\ (unescapeString (escapeString s) = s <-> escapeSafe s = true).
Proof.
  split; [apply unescape_escape_result|].
  rewrite unescape_escape_result. apply controlAfterBackslash_fixed.
Qed.

Section Facts.

Context {host : JSHost}.

(** ** Null normalization in tables *)

(** C8: in a table cell position both [null] and the empty string are
    formatted as ["-"], whatever the options, and the cell text ["-"] parses
    to [null], with or without white space around it. *)
Theorem null_normalization_in_tables :
  (forall options, formatPrimitive JNull options true = lit "-") /\
  (forall options, formatPrimitive (JStr (lit "")) options true = lit "-") /\
  parsePrimitive (lit "-") = JNull /\
  (forall cell, trim cell = lit "-" -> parsePrimitive cell = JNull).
Proof.
  repeat split.
  - intros options. unfold formatPrimitive. simpl.
    destruct (is_true (compact options)); reflexivity.
  - intros cell H. unfold parsePrimitive. rewrite H. reflexivity.
Qed.

(** ** The quoting trigger *)

Lemma existsb_eqb_In (x : jsstring) (l : list jsstring) :
  existsb (eqb x) l = true <-> In x l.
Proof.
  rewrite existsb_exists. split.
  - intros [y [Hy E]]. apply eqb_eq in E; subst; exact Hy.
  - intros H; exists x; split; [exact H | apply eqb_refl].
Qed.

Lemma needsQuoting_true_iff (s : jsstring) :
  needsQuoting s = true <-> needsQuoting_triggers s.
Proof.
  unfold needsQuoting, needsQuoting_triggers.
  change (lit ":") with [COLON]. change (lit "|") with [PIPE].
  change (lit ",") with [COMMA].
  rewrite <- !includes_char, <- existsb_eqb_In, <- (eqb_eq s (lit "")).
  destruct (eqb s (lit "")); [intuition|].
  destruct (startsWith (lit " ") s); [intuition|].
  destruct (endsWith (lit " ") s); [intuition|].
  destruct (includes [PIPE] s); [intuition|].
  destruct (includes [NEWLINE] s); [intuition|].
  destruct (includes [CR] s); [intuition|].
  destruct (includes [COMMA] s); [intuition|].
  destruct (plain_number_re s); [intuition|].
  destruct (existsb (eqb (toLowerCase s)) [lit "true"; lit "false"; lit "null"]);
    [intuition|].
  destruct (includes [COLON] s), (includes (lit "://") s),
    (includes [QUOTE] s); simpl; intuition congruence.
Qed.

(** C7, amended: [needsQuoting] is true exactly when one of the triggers
    holds, where the colon trigger is "the string contains a colon and
    contains no [://] anywhere"; so a string with a colon and without any
    [://] is always quoted. *)
Theorem needsQuoting_triggers_iff (s : jsstring) :
  (needsQuoting s = true <-> needsQuoting_triggers s) /\
  (In COLON s -> includes (lit "://") s = false -> needsQuoting s = true).
Proof.
  split; [apply needsQuoting_true_iff|].
  intros Hc Hu. apply needsQuoting_true_iff. unfold needsQuoting_triggers. tauto.
Qed.

(** What a string that is written without quotes is free of. *)
Lemma needsQuoting_false (s : jsstring) :
  needsQuoting s = false ->
  s <> [] /\ ~ In PIPE s /\ ~ In NEWLINE s /\ ~ In CR s /\ ~ In COMMA s
  /\ ~ In QUOTE s /\ plain_number_re s = false
  /\ ~ In (toLowerCase s) [lit "true"; lit "false"; lit "null"].
Proof.
  intros H.
  assert (T : ~ needsQuoting_triggers s)
    by (intros T; apply needsQuoting_true_iff in T; congruence).
  unfold needsQuoting_triggers in T.
  repeat split; try (intros E; apply T; tauto).
  destruct (plain_number_re s); [exfalso; apply T; tauto | reflexivity].
Qed.

(** ** The validator *)

(** C9: [validate] returns a result for every input, and its [valid] flag is
    true exactly when the list of errors is empty. *)
Theorem validate_valid_iff_no_errors (input : jsstring) :
  exists r : ValidationResult,
    validate input = r /\ (valid r = true <-> errors r = []).
Proof.
  eexists; split; [reflexivity|].
  unfold validate; simpl. rewrite Nat.eqb_eq.
  split; [apply length_zero_iff_nil | intros ->; reflexivity].
Qed.

(** ** The [strict] option *)

Lemma parseDocument_loop_options (o1 o2 : DecodeOptions) :
  forall fuel lines i baseIndent result,
    parseDocument_loop fuel lines i baseIndent o1 result =
    parseDocument_loop fuel lines i baseIndent o2 result.
Proof.
  induction fuel as [|fuel IH]; intros lines i baseIndent result;
    cbn [parseDocument_loop]; [reflexivity|].
  destruct (nth_error lines i) as [l|]; [|reflexivity].
  repeat match goal with
         | |- context [parseDocument_loop fuel ?ls ?j ?b o1 ?r] =>
             rewrite (IH ls j b r)
         | |- (if ?c then _ else _) = _ => destruct c
         | |- match ?c with Some _ => _ | None => _ end = _ =>
             destruct c as [[? ?]|] || destruct c
         end; reflexivity.
Qed.

(** C4: decoding with [strict] enabled returns the same value as decoding
    with [strict] disabled, for every text and every [indent] option. *)
Theorem decode_strict_irrelevant (text : jsstring) (n : option nat) :
  decode text {| strict := Some true; dec_indent := n |} =
  decode text {| strict := Some false; dec_indent := n |}.
Proof.
  unfold decode, parseDocument.
  destruct (forallb blankOrComment _); [reflexivity|].
  destruct (nth_error _ _) as [first|]; [|reflexivity].
  destruct (startsWith (lit "|") (trim first)); [reflexivity|].
  destruct (startsWith (lit "_:") (trim first)); [reflexivity|].
  f_equal. apply parseDocument_loop_options.
Qed.

(** ** When the decoder returns, and that it returns an object or an array *)

Lemma skipBlank_ge (rest : list jsstring) (idx : nat) :
  idx <= skipBlank rest idx.
Proof.
  revert idx; induction rest as [|l rest IH]; intros idx; simpl; [lia|].
  destruct (eqb (trim l) (lit "")); [|lia].
  specialize (IH (S idx)); lia.
Qed.

(** *** Assignments that keep the prototype *)

Lemma set_property_assigned key v fields fields' :
  set_property key v fields = Some fields' -> fields' = assigned key v fields.
Proof.
  unfold set_property, assigned. destruct (eqb key (lit "__proto__")).
  - destruct (replacesPrototype v); [discriminate | congruence].
  - congruence.
Qed.

Lemma set_property_key key v fields :
  key <> lit "__proto__" ->
  set_property key v fields = Some (assigned key v fields).
Proof.
  intros H. apply eqb_neq in H. unfold set_property, assigned.
  rewrite H. reflexivity.
Qed.

Lemma set_property_cell hc fields :
  set_property (fst hc) (snd hc) fields =
  if replacingCell hc then None else Some (assign fields hc).
Proof.
  unfold set_property, replacingCell, assign, assigned.
  destruct (eqb (fst hc) (lit "__proto__")); [|reflexivity].
  destruct (replacesPrototype (snd hc)); reflexivity.
Qed.

Lemma makeRow_from cells : forall acc,
  fold_left (fun row hc =>
               match row with
               | Some fields => set_property (fst hc) (snd hc) fields
               | None => None
               end) cells (Some acc)
  = if existsb replacingCell cells then None
    else Some (fold_left assign cells acc).
Proof.
  induction cells as [|hc cells IH]; intros acc; cbn [fold_left existsb];
    [reflexivity|].
  rewrite set_property_cell. destruct (replacingCell hc); cbn [orb].
  - clear IH. induction cells as [|hc' cells IH]; [reflexivity | exact IH].
  - apply IH.
Qed.

Lemma makeRow_spec headers cells :
  makeRow headers cells =
  if existsb replacingCell (combine headers cells) then None
  else Some (rowFields headers cells).
Proof. unfold makeRow, rowFields. apply makeRow_from. Qed.

Lemma replacingCell_plain headers cells :
  ~ In (lit "__proto__") headers ->
  existsb replacingCell (combine headers cells) = false.
Proof.
  intros H. destruct (existsb _ _) eqn:E; [|reflexivity].
  apply existsb_exists in E as ([h c] & Hin & E).
  apply in_combine_l in Hin. unfold replacingCell in E; cbn [fst snd] in E.
  apply andb_true_iff in E as [E _]. apply eqb_eq in E; subst h.
  contradiction.
Qed.

Lemma makeRow_plain headers cells :
  ~ In (lit "__proto__") headers ->
  makeRow headers cells = Some (rowFields headers cells).
Proof.
  intros H. rewrite makeRow_spec, replacingCell_plain by exact H. reflexivity.
Qed.

Lemma replacingRow_plain headers l :
  ~ In (lit "__proto__") headers -> replacingRow headers l = false.
Proof.
  intros H. unfold replacingRow. rewrite replacingCell_plain by exact H.
  apply andb_false_r.
Qed.

Lemma lineHeaders_plain l :
  protoFreeLine l = true -> startsWith (lit "|") (trim l) = true ->
  ~ In (lit "__proto__") (lineHeaders l).
Proof.
  unfold protoFreeLine. intros H Hpipe Hin. rewrite Hpipe in H.
  apply negb_true_iff in H.
  assert (E : existsb (eqb (lit "__proto__")) (lineHeaders l) = true)
    by (apply existsb_exists; eexists; split; [exact Hin | apply eqb_refl]).
  congruence.
Qed.

Lemma lineKey_plain l :
  protoFreeLine l = true -> startsWith (lit "|") (trim l) = false ->
  (indexOf (lit ":") (trim l) =? -1)%Z = false ->
  lineKey l <> lit "__proto__".
Proof.
  unfold protoFreeLine. intros H Hpipe Hcolon E.
  rewrite Hpipe, Hcolon, E, eqb_refl in H. discriminate.
Qed.

(** *** The loops return *)

Lemma parseTable_rows_end headers indent rest : forall i result rows e,
  parseTable_rows headers indent rest i result = Some (rows, e) -> i - 1 <= e.
Proof.
  induction rest as [|l rest IH]; intros i result rows e;
    cbn [parseTable_rows]; [intros E; inversion E; lia|].
  destruct (negb (startsWith (lit "|") (trim l))); [intros E; inversion E; lia|].
  destruct ((lineIndentOf l <? indent) && negb (eqb (trim l) (lit "")));
    [intros E; inversion E; lia|].
  destruct (length _ =? length headers).
  - destruct (makeRow headers _) as [row|]; [|discriminate].
    intros E. apply IH in E. lia.
  - intros E. apply IH in E. lia.
Qed.

Lemma parseTable_rows_some headers indent rest : forall i result,
  ~ In (lit "__proto__") headers ->
  exists rows e, parseTable_rows headers indent rest i result = Some (rows, e).
Proof.
  induction rest as [|l rest IH]; intros i result H;
    cbn [parseTable_rows]; [eexists _, _; reflexivity|].
  destruct (negb (startsWith (lit "|") (trim l))); [eexists _, _; reflexivity|].
  destruct ((lineIndentOf l <? indent) && negb (eqb (trim l) (lit "")));
    [eexists _, _; reflexivity|].
  rewrite makeRow_plain by exact H.
  destruct (length _ =? length headers); apply IH, H.
Qed.

Lemma parseTable_end lines startIndex indent rows e :
  parseTable lines startIndex indent = Some (rows, e) -> startIndex <= e.
Proof.
  unfold parseTable. destruct (nth_error lines startIndex) as [l|];
    [|discriminate].
  destruct (negb (startsWith (lit "|") (trim l))).
  - intros E; inversion E; lia.
  - intros E. apply parseTable_rows_end in E. lia.
Qed.

Lemma parseTable_some lines startIndex indent l :
  nth_error lines startIndex = Some l ->
  protoFreeLine l = true ->
  exists rows endIndex,
    parseTable lines startIndex indent = Some (rows, endIndex) /\
    startIndex <= endIndex.
Proof.
  intros H Hp.
  assert (S : exists rows endIndex,
             parseTable lines startIndex indent = Some (rows, endIndex)).
  { unfold parseTable. rewrite H.
    destruct (startsWith (lit "|") (trim l)) eqn:Hpipe; cbn [negb];
      [|eexists _, _; reflexivity].
    apply parseTable_rows_some, (lineHeaders_plain l Hp Hpipe). }
  destruct S as (rows & e & E). exists rows, e. split; [exact E|].
  apply (parseTable_end _ _ _ _ _ E).
Qed.

(** The loop of [parseDocument] returns an object, and an index that is not
    before the one it starts at. *)
Lemma parseDocument_loop_result (options : DecodeOptions) :
  forall fuel lines i baseIndent result v e,
    parseDocument_loop fuel lines i baseIndent options result = Some (v, e) ->
    (exists fields, v = JObj fields) /\ i <= e.
Proof.
  induction fuel as [|fuel IH]; intros lines i baseIndent result v e;
    cbn [parseDocument_loop]; [discriminate|].
  destruct (nth_error lines i) as [l|] eqn:Hl;
    [|intros E; inversion E; split; [eexists; reflexivity | lia]].
  assert (K : forall j b r, S i <= j ->
              parseDocument_loop fuel lines j b options r = Some (v, e) ->
              (exists fields, v = JObj fields) /\ i <= e).
  { intros j b r Hj E. apply IH in E as [E He]. split; [exact E | lia]. }
  assert (P : forall j b k w,
              S i <= j ->
              match set_property k w result with
              | Some result' =>
                  parseDocument_loop fuel lines j b options result'
              | None => None
              end = Some (v, e) ->
              (exists fields, v = JObj fields) /\ i <= e).
  { intros j b k w Hj. destruct (set_property k w result); [|discriminate].
    apply K, Hj. }
  destruct (blankOrComment l); [apply K; lia|].
  destruct (lineIndentOf l <? baseIndent);
    [intros E; inversion E; split; [eexists; reflexivity | lia]|].
  destruct (baseIndent <? lineIndentOf l); [apply K; lia|].
  destruct (startsWith (lit "|") (trim l)); [apply K; lia|].
  destruct (indexOf (lit ":") (trim l) =? -1)%Z; [apply K; lia|].
  destruct (eqb _ (lit "") || eqb _ (lit "[]")).
  - pose proof (skipBlank_ge (skipn (S i) lines) (S i)) as Hnext.
    set (nextIdx := skipBlank (skipn (S i) lines) (S i)) in *.
    destruct (nth_error lines nextIdx) as [nextLine|] eqn:Hn; [|apply P; lia].
    destruct ((baseIndent <? lineIndentOf nextLine)
              && startsWith (lit "|") (trim nextLine)).
    + destruct (parseTable lines nextIdx _) as [[rows e']|] eqn:Et;
        [|discriminate].
      apply parseTable_end in Et. apply P; lia.
    + destruct ((baseIndent <? lineIndentOf nextLine)
                && negb (eqb (trim nextLine) (lit ""))
                && negb (startsWith (lit "#") (trim nextLine)));
        [|apply P; lia].
      destruct (parseDocument_loop fuel lines nextIdx _ options [])
        as [[nested e']|] eqn:En; [|discriminate].
      apply IH in En as [_ He]. apply P; lia.
  - apply P; lia.
Qed.

Lemma parseDocument_loop_total (options : DecodeOptions) :
  forall fuel lines i baseIndent result,
    forallb protoFreeLine lines = true ->
    length lines - i < fuel ->
    exists fields endIndex,
      parseDocument_loop fuel lines i baseIndent options result
      = Some (JObj fields, endIndex).
Proof.
  induction fuel as [|fuel IH]; intros lines i baseIndent result Hp Hfuel;
    [lia|].
  cbn [parseDocument_loop].
  destruct (nth_error lines i) as [l|] eqn:Hl;
    [|exists result, i; reflexivity].
  assert (Hi : i < length lines) by (apply nth_error_Some; congruence).
  assert (Hline : forall j x, nth_error lines j = Some x ->
                              protoFreeLine x = true).
  { intros j x Hx. apply nth_error_In in Hx.
    rewrite forallb_forall in Hp. apply Hp, Hx. }
  assert (K : forall j b r, S i <= j ->
              exists fields endIndex,
                parseDocument_loop fuel lines j b options r
                = Some (JObj fields, endIndex)).
  { intros j b r Hj. apply IH; [exact Hp | lia]. }
  destruct (blankOrComment l); [apply K; lia|].
  destruct (lineIndentOf l <? baseIndent);
    [exists result, i; reflexivity|].
  destruct (baseIndent <? lineIndentOf l); [apply K; lia|].
  destruct (startsWith (lit "|") (trim l)) eqn:Hpipe; [apply K; lia|].
  destruct (indexOf (lit ":") (trim l) =? -1)%Z eqn:Hcolon; [apply K; lia|].
  fold (lineKey l).
  assert (P : forall j b w, S i <= j ->
              exists fields endIndex,
                match set_property (lineKey l) w result with
                | Some result' =>
                    parseDocument_loop fuel lines j b options result'
                | None => None
                end = Some (JObj fields, endIndex)).
  { intros j b w Hj.
    rewrite set_property_key
      by (apply lineKey_plain; [apply (Hline i), Hl | exact Hpipe | exact Hcolon]).
    apply K, Hj. }
  destruct (eqb _ (lit "") || eqb _ (lit "[]")).
  - pose proof (skipBlank_ge (skipn (S i) lines) (S i)) as Hnext.
    set (nextIdx := skipBlank (skipn (S i) lines) (S i)) in *.
    destruct (nth_error lines nextIdx) as [nextLine|] eqn:Hn; [|apply P; lia].
    destruct ((baseIndent <? lineIndentOf nextLine)
              && startsWith (lit "|") (trim nextLine)).
    + destruct (parseTable_some lines nextIdx (lineIndentOf nextLine) _ Hn)
        as (rows & e & -> & He); [apply (Hline nextIdx), Hn|].
      apply P; lia.
    + destruct ((baseIndent <? lineIndentOf nextLine)
                && negb (eqb (trim nextLine) (lit ""))
                && negb (startsWith (lit "#") (trim nextLine)));
        [|apply P; lia].
      destruct (IH lines nextIdx (lineIndentOf nextLine) [] Hp)
        as (nested & e & E); [lia|].
      rewrite E. apply parseDocument_loop_result in E as [_ He].
      apply P; lia.
  - apply P; lia.
Qed.

(** [parseDocument] gives itself enough fuel. *)
Lemma parseDocument_total lines startIndex baseIndent options :
  forallb protoFreeLine lines = true ->
  exists fields endIndex,
    parseDocument lines startIndex baseIndent options
    = Some (JObj fields, endIndex).
Proof.
  intros Hp.
  apply parseDocument_loop_total; [exact Hp | lia].
Qed.

(** Whatever [decode] returns is an object or an array. *)
Lemma decode_container (text : jsstring) (options : DecodeOptions) v :
  decode text options = Some v -> isContainer v = true.
Proof.
  unfold decode.
  destruct (forallb blankOrComment _); [intros E; inversion E; reflexivity|].
  destruct (nth_error _ _) as [first|] eqn:Hfirst;
    [|intros E; inversion E; reflexivity].
  destruct (startsWith (lit "|") (trim first)).
  { destruct (parseTable _ _ 0) as [[rows e]|]; [|discriminate].
    intros E; inversion E; reflexivity. }
  destruct (startsWith (lit "_:") (trim first)).
  { destruct (eqb _ (lit "") || eqb _ (lit "[]")).
    - destruct (nth_error _ (_ + 1)) as [nextLine|] eqn:Hnext;
        [|intros E; inversion E; reflexivity].
      destruct (negb (eqb nextLine (lit ""))
                && startsWith (lit "|") (trim nextLine));
        [|intros E; inversion E; reflexivity].
      destruct (parseTable _ _ 2) as [[rows e]|]; [|discriminate].
      intros E; inversion E; reflexivity.
    - destruct (includes (lit ", ") _); intros E; inversion E; reflexivity. }
  unfold parseDocument.
  destruct (parseDocument_loop _ _ _ _ _ _) as [[w e]|] eqn:E; [|discriminate].
  apply parseDocument_loop_result in E as [[fields ->] _].
  intros E; inversion E; reflexivity.
Qed.

(** [decode] returns for a text without the key [__proto__] and without a
    cell [__proto__] in a table line. *)
Lemma decode_total (text : jsstring) (options : DecodeOptions) :
  protoFree text = true ->
  exists v, decode text options = Some v.
Proof.
  unfold protoFree, decode. intros Hp.
  assert (Hline : forall j x,
             nth_error (split [NEWLINE] (normalizeNewlines text)) j = Some x ->
             protoFreeLine x = true).
  { intros j x Hx. apply nth_error_In in Hx.
    rewrite forallb_forall in Hp. apply Hp, Hx. }
  destruct (forallb blankOrComment _); [eexists; reflexivity|].
  destruct (nth_error _ _) as [first|] eqn:Hfirst; [|eexists; reflexivity].
  destruct (startsWith (lit "|") (trim first)).
  { destruct (parseTable_some _ _ 0 _ Hfirst (Hline _ _ Hfirst))
      as (rows & e & -> & _).
    eexists; reflexivity. }
  destruct (startsWith (lit "_:") (trim first)).
  { destruct (eqb _ (lit "") || eqb _ (lit "[]")).
    - destruct (nth_error _ (_ + 1)) as [nextLine|] eqn:Hnext;
        [|eexists; reflexivity].
      destruct (negb (eqb nextLine (lit ""))
                && startsWith (lit "|") (trim nextLine));
        [|eexists; reflexivity].
      destruct (parseTable_some _ _ 2 _ Hnext (Hline _ _ Hnext))
        as (rows & e & -> & _).
      eexists; reflexivity.
    - destruct (includes (lit ", ") _); eexists; reflexivity. }
  match goal with
  | |- context [parseDocument ?l ?i ?b ?o] =>
      destruct (parseDocument_total l i b o Hp) as (f & e & ->)
  end.
  eexists; reflexivity.
Qed.



(** ** Objects built by assignment *)

Lemma set_own_property_keys key v fields k :
  In k (map fst (set_own_property key v fields)) <->
  k = key \/ In k (map fst fields).
Proof.
  induction fields as [|[k' w] r IH]; simpl; [intuition|].
  destruct (eqb k' key) eqn:E; simpl.
  - apply eqb_eq in E; subst. intuition.
  - rewrite IH. intuition.
Qed.

Lemma set_own_property_NoDup key v fields :
  NoDup (map fst fields) -> NoDup (map fst (set_own_property key v fields)).
Proof.
  induction fields as [|[k' w] r IH]; simpl; intros H.
  - constructor; [simpl; tauto | constructor].
  - inversion H as [|? ? Hk Hr]; subst.
    destruct (eqb k' key) eqn:E; simpl; [constructor; assumption|].
    constructor; [|auto].
    rewrite set_own_property_keys. intros [-> | Hin]; [|contradiction].
    rewrite eqb_refl in E; discriminate.
Qed.

Lemma set_own_property_fresh key v fields :
  ~ In key (map fst fields) ->
  set_own_property key v fields = fields ++ [(key, v)].
Proof.
  induction fields as [|[k' w] r IH]; simpl; intros H; [reflexivity|].
  destruct (eqb k' key) eqn:E.
  - apply eqb_eq in E; subst. exfalso; apply H; left; reflexivity.
  - rewrite IH; [reflexivity | tauto].
Qed.

Lemma assigned_keys key v fields k :
  In k (map fst (assigned key v fields)) <->
  (k = key /\ key <> lit "__proto__") \/ In k (map fst fields).
Proof.
  unfold assigned. destruct (eqb key (lit "__proto__")) eqn:E.
  - apply eqb_eq in E. intuition congruence.
  - apply eqb_neq in E. rewrite set_own_property_keys. intuition.
Qed.

Lemma assigned_NoDup key v fields :
  NoDup (map fst fields) -> NoDup (map fst (assigned key v fields)).
Proof.
  unfold assigned. destruct (eqb key (lit "__proto__")); [tauto|].
  apply set_own_property_NoDup.
Qed.

Lemma assigned_fresh key v fields :
  key <> lit "__proto__" -> ~ In key (map fst fields) ->
  assigned key v fields = fields ++ [(key, v)].
Proof.
  intros Hp H. unfold assigned.
  apply eqb_neq in Hp; rewrite Hp. apply set_own_property_fresh, H.
Qed.

Lemma assign_all_keys l : forall acc k,
  In k (map fst (fold_left assign l acc)) <->
  In k (map fst acc) \/ (In k (map fst l) /\ k <> lit "__proto__").
Proof.
  induction l as [|[h c] l IH]; intros acc k; simpl; [intuition|].
  rewrite IH. unfold assign; cbn [fst snd map In]. rewrite assigned_keys.
  intuition (subst; auto).
Qed.

Lemma assign_all_NoDup l : forall acc,
  NoDup (map fst acc) -> NoDup (map fst (fold_left assign l acc)).
Proof.
  induction l as [|[h c] l IH]; intros acc H; simpl; [exact H|].
  apply IH, assigned_NoDup, H.
Qed.

Lemma assign_all_fresh l : forall acc,
  NoDup (map fst l) -> ~ In (lit "__proto__") (map fst l) ->
  (forall k, In k (map fst l) -> ~ In k (map fst acc)) ->
  fold_left assign l acc = acc ++ l.
Proof.
  induction l as [|[h c] l IH]; intros acc Hnd Hp Hfresh; simpl.
  - symmetry; apply app_nil_r.
  - simpl in *. inversion Hnd as [|? ? Hh Hl]; subst.
    unfold assign at 2; cbn [fst snd].
    rewrite assigned_fresh; [|intros E; apply Hp; left; exact E | auto].
    rewrite IH; [rewrite <- app_assoc; reflexivity | exact Hl | tauto |].
    intros k Hk. rewrite map_app, in_app_iff; simpl.
    intros [Hacc | [<- | []]]; [exact (Hfresh k (or_intror Hk) Hacc) | auto].
Qed.

Lemma map_fst_combine {A B} (l : list A) (l' : list B) :
  length l = length l' -> map fst (combine l l') = l.
Proof.
  revert l'; induction l as [|x l IH]; destruct l' as [|y l']; simpl;
    intros H; try discriminate; [reflexivity|].
  rewrite IH; [reflexivity | lia].
Qed.

Lemma rowFields_keys headers cells :
  length cells = length headers ->
  (forall k, In k (map fst (rowFields headers cells)) <->
             In k headers /\ k <> lit "__proto__") /\
  NoDup (map fst (rowFields headers cells)).
Proof.
  intros H. unfold rowFields. fold assign. split.
  - intros k. rewrite assign_all_keys, map_fst_combine by lia. simpl. tauto.
  - apply assign_all_NoDup. constructor.
Qed.

Lemma rowFields_distinct headers cells :
  length cells = length headers ->
  NoDup headers -> ~ In (lit "__proto__") headers ->
  rowFields headers cells = combine headers cells.
Proof.
  intros H Hnd Hp. unfold rowFields. fold assign.
  rewrite assign_all_fresh; [reflexivity | | |];
    rewrite map_fst_combine by lia; auto.
Qed.

(** ** The table sub-parser *)

Lemma parseTable_rows_spec headers indent rest : forall i result,
  parseTable_rows headers indent rest i result =
  if existsb (replacingRow headers) (takeWhile (isTableLine indent) rest)
  then None
  else
    Some (result
            ++ flat_map (rowOf headers) (takeWhile (isTableLine indent) rest),
          i + length (takeWhile (isTableLine indent) rest) - 1).
Proof.
  induction rest as [|l rest IH]; intros i result;
    cbn [parseTable_rows takeWhile flat_map existsb].
  - rewrite app_nil_r. do 2 f_equal. simpl; lia.
  - assert (E : isTableLine indent l =
               startsWith (lit "|") (trim l)
               && negb ((lineIndentOf l <? indent)
                        && negb (eqb (trim l) (lit "")))) by reflexivity.
    destruct (startsWith (lit "|") (trim l)); cbn [negb andb] in *;
      [|rewrite E, app_nil_r; cbn [existsb]; do 2 f_equal; simpl; lia].
    destruct ((lineIndentOf l <? indent) && negb (eqb (trim l) (lit "")));
      cbn [negb] in *; rewrite E;
      [rewrite app_nil_r; cbn [existsb]; do 2 f_equal; simpl; lia|].
    cbn [existsb flat_map]. unfold replacingRow at 1, rowOf at 1.
    fold (rowCells l). rewrite makeRow_spec.
    destruct (length (rowCells l) =? length headers); cbn [andb orb].
    + destruct (existsb replacingCell _); cbn [orb]; [reflexivity|].
      rewrite IH. destruct (existsb (replacingRow headers) _); [reflexivity|].
      cbn [app length]. rewrite <- app_assoc. do 2 f_equal. lia.
    + rewrite IH. destruct (existsb (replacingRow headers) _); [reflexivity|].
      cbn [app length]. do 2 f_equal. lia.
Qed.

Lemma parseTable_rows_plain headers indent rest i result :
  ~ In (lit "__proto__") headers ->
  parseTable_rows headers indent rest i result =
  Some (result
          ++ flat_map (rowOf headers) (takeWhile (isTableLine indent) rest),
        i + length (takeWhile (isTableLine indent) rest) - 1).
Proof.
  intros H. rewrite parseTable_rows_spec.
  replace (existsb _ _) with false; [reflexivity|].
  symmetry. destruct (existsb _ _) eqn:E; [|reflexivity].
  apply existsb_exists in E as (l & _ & E).
  rewrite replacingRow_plain in E by exact H. discriminate.
Qed.

Lemma parseTable_rows_value headers indent rest i result rows e :
  parseTable_rows headers indent rest i result = Some (rows, e) ->
  rows = result
           ++ flat_map (rowOf headers) (takeWhile (isTableLine indent) rest).
Proof.
  rewrite parseTable_rows_spec. destruct (existsb _ _); [discriminate|].
  intros E; inversion E; reflexivity.
Qed.

Lemma rowOf_shape headers l row :
  In row (rowOf headers l) ->
  length (rowCells l) = length headers /\
  row = JObj (rowFields headers (rowCells l)).
Proof.
  unfold rowOf. destruct (length (rowCells l) =? length headers) eqn:E;
    [|intros []].
  apply Nat.eqb_eq in E. intros [<- | []]. split; [exact E | reflexivity].
Qed.



(** A blank line ends the loop of [parseTable], since a blank line does not
    start with the table marker. *)
Lemma parseTable_rows_blank headers indent l rest i result :
  trim l = lit "" ->
  parseTable_rows headers indent (l :: rest) i result = Some (result, i - 1).
Proof.
  intros H. cbn [parseTable_rows]. rewrite H. reflexivity.
Qed.

(** ** Reading back what [formatPrimitive] writes *)

Lemma endsWith_last (c : char) (x : jsstring) : endsWith [c] (x ++ [c]) = true.
Proof.
  unfold endsWith. rewrite rev_app_distr. simpl. rewrite N.eqb_refl. reflexivity.
Qed.

Lemma eqb_head (c : char) (x k : jsstring) :
  hd_error k <> Some c -> eqb (c :: x) k = false.
Proof.
  destruct k as [|d k]; [reflexivity|]. simpl. intros H.
  replace (c =? d)%N with false; [reflexivity|].
  symmetry; apply N.eqb_neq. intros ->. apply H; reflexivity.
Qed.

Lemma own_property_in fields key (v : JsonValue) :
  own_property fields key = Some v -> In key (map fst fields).
Proof.
  induction fields as [|[k w] r IH]; simpl; [discriminate|].
  destruct (eqb k key) eqn:E; [|right; auto].
  apply eqb_eq in E. left; exact E.
Qed.

Lemma get_property_in fields key (v : JsonValue) :
  get_property fields key = Some v ->
  In key (map fst fields) \/ In key prototype_members.
Proof.
  unfold get_property. destruct (own_property fields key) eqn:E.
  - intros _. left. exact (own_property_in _ _ _ E).
  - destruct (existsb (eqb key) prototype_members) eqn:P; [|discriminate].
    intros _. right. apply existsb_eqb_In, P.
Qed.

(** No key of a lookup table, own or inherited, starts with a double quote,
    a digit or a sign. *)
Lemma get_property_reverse_head (c : char) (x : jsstring) :
  (c = QUOTE \/ numchar c = true) ->
  get_property REVERSE_SYMBOLS (c :: x) = None.
Proof.
  intros Hc.
  destruct (get_property REVERSE_SYMBOLS (c :: x)) as [v|] eqn:E;
    [|reflexivity].
  exfalso. apply get_property_in in E.
  assert (K : forall k, In k (map fst REVERSE_SYMBOLS ++ prototype_members) ->
                        forall d, hd_error k = Some d ->
                                  d <> QUOTE /\ numchar d = false).
  { intros k Hk d Hd. simpl in Hk.
    repeat (destruct Hk as [<- | Hk];
            [injection Hd as <-; split; [discriminate | reflexivity]|]).
    destruct Hk. }
  destruct (K (c :: x) (proj2 (in_app_iff _ _ _) E) c eq_refl) as [K1 K2].
  destruct Hc as [-> | Hc]; congruence.
Qed.

Lemma parsePrimitive_quoted (e : jsstring) :
  parsePrimitive ([QUOTE] ++ e ++ [QUOTE]) = JStr (unescapeString e).
Proof.
  unfold parsePrimitive. cbn [app].
  rewrite trim_id;
    [|reflexivity | apply (endsNonWs_app (QUOTE :: e) [QUOTE]); reflexivity].
  rewrite !eqb_head by (cbv; discriminate).
  rewrite get_property_reverse_head by (left; reflexivity).
  cbn [orb startsWith]. rewrite N.eqb_refl.
  rewrite (endsWith_last QUOTE (QUOTE :: e)
           : endsWith [QUOTE] (QUOTE :: e ++ [QUOTE]) = true).
  cbn [andb].
  rewrite slice_inner. reflexivity.
Qed.

Lemma parsePrimitive_plain (s : jsstring) :
  readsAsItself s = true -> needsQuoting s = false ->
  parsePrimitive s = JStr s.
Proof.
  unfold readsAsItself. rewrite !andb_true_iff, !negb_true_iff, eqb_eq.
  intros [[[Htrim Hdash] Hrev] Hnum] Hq.
  destruct (needsQuoting_false s Hq)
    as (Hne & _ & _ & _ & _ & Hquote & _ & Hlow).
  unfold parsePrimitive. rewrite Htrim, Hdash, Hnum.
  destruct (get_property REVERSE_SYMBOLS s); [discriminate|].
  assert (L : forall k, In k [lit "true"; lit "false"; lit "null"] ->
                        eqb s k = false).
  { intros k Hk. apply eqb_neq. intros ->. apply Hlow.
    simpl in Hk. destruct Hk as [<- | [<- | [<- | []]]]; cbv; tauto. }
  rewrite (L (lit "null")), (L (lit "true")), (L (lit "false"))
    by (simpl; tauto).
  replace (eqb s (lit "")) with false by (symmetry; apply eqb_neq; exact Hne).
  rewrite (startsWith_absent QUOTE [] s Hquote). reflexivity.
Qed.

(** *** Number literals *)

Lemma numchar_not_ws (c : char) : numchar c = true -> isWhiteSpace c = false.
Proof.
  destruct c as [|p]; [discriminate|].
  do 7 (try destruct p as [p|p|]); try discriminate; intros _; reflexivity.
Qed.

Lemma isDigit_numchar (c : char) : isDigit c = true -> numchar c = true.
Proof. unfold numchar. intros ->. reflexivity. Qed.

Lemma skip_digits_chars (s : jsstring) :
  forallb numchar (skip_digits s) = true -> forallb numchar s = true.
Proof.
  induction s as [|c s IH]; simpl; [tauto|].
  destruct (isDigit c) eqn:E; [|tauto].
  intros H. rewrite (isDigit_numchar c E), IH by exact H. reflexivity.
Qed.

Lemma skip_minus_chars (s : jsstring) :
  forallb numchar (skip_minus s) = true -> forallb numchar s = true.
Proof.
  destruct s as [|c s]; cbn [skip_minus]; [tauto|].
  destruct (c =? MINUS)%N eqn:E; [|tauto].
  intros H. cbn [forallb]. rewrite H, andb_true_r. unfold numchar.
  rewrite E, ?orb_true_r. reflexivity.
Qed.

Lemma skip_sign_chars (s : jsstring) :
  forallb numchar (skip_sign s) = true -> forallb numchar s = true.
Proof.
  destruct s as [|c s]; cbn [skip_sign]; [tauto|].
  destruct ((c =? MINUS) || (c =? PLUS))%N eqn:E; [|tauto].
  intros H. cbn [forallb]. rewrite H, andb_true_r. unfold numchar.
  apply orb_true_iff in E as [-> | ->]; rewrite ?orb_true_r; reflexivity.
Qed.

Lemma number_re_chars (s : jsstring) :
  number_re s = true -> s <> [] /\ forallb numchar s = true.
Proof.
  unfold number_re. intros H. apply andb_true_iff in H as [Hd H].
  split; [intros ->; discriminate|].
  apply eqb_eq in H. apply skip_minus_chars, skip_digits_chars.
  destruct (skip_digits (skip_minus s)) as [|c r]; [reflexivity|].
  assert (Tail : forall s3 : jsstring,
             match s3 with
             | [] => []
             | c0 :: r0 =>
                 if ((c0 =? 101) || (c0 =? 69))%N
                    && starts_with_digit (skip_sign r0)
                 then skip_digits (skip_sign r0)
                 else s3
             end = [] -> forallb numchar s3 = true).
  { intros [|c0 r0]; [reflexivity|].
    destruct (((c0 =? 101) || (c0 =? 69))%N && starts_with_digit (skip_sign r0))
      eqn:E; [|discriminate].
    intros Hr. apply andb_true_iff in E as [E _].
    cbn [forallb]. apply andb_true_iff. split.
    - unfold numchar. apply orb_true_iff in E as [-> | ->];
        rewrite ?orb_true_r; reflexivity.
    - apply skip_sign_chars, skip_digits_chars. rewrite Hr. reflexivity. }
  destruct ((c =? DOT)%N && starts_with_digit r) eqn:E.
  - apply andb_true_iff in E as [E _]. apply N.eqb_eq in E; subst c.
    cbn [forallb]. apply andb_true_iff. split; [reflexivity|].
    apply skip_digits_chars, Tail, H.
  - apply Tail, H.
Qed.

Lemma numchars_free (s : jsstring) (c : char) :
  forallb numchar s = true -> numchar c = false -> ~ In c s.
Proof.
  intros H Hc Hin. rewrite forallb_forall in H. rewrite (H c Hin) in Hc.
  discriminate.
Qed.

Lemma numchars_tight (s : jsstring) :
  s <> [] -> forallb numchar s = true ->
  startsNonWs s = true /\ endsNonWs s = true.
Proof.
  assert (S : forall x : jsstring, x <> [] -> forallb numchar x = true ->
                                   startsNonWs x = true).
  { intros [|c x] Hne H; [congruence|]. simpl in *.
    apply andb_true_iff in H as [H _]. rewrite (numchar_not_ws c H). reflexivity. }
  intros Hne H. split; [apply S; assumption|].
  unfold endsNonWs. apply S; [|rewrite forallb_rev; exact H].
  intros E. apply Hne. rewrite <- (rev_involutive s), E. reflexivity.
Qed.

Lemma parsePrimitive_number (t : jsstring) :
  number_re t = true -> Number_isFinite (Number_ofString t) = true ->
  parsePrimitive t = JNum (Number_ofString t).
Proof.
  intros Hre Hfin. destruct (number_re_chars t Hre) as [Hne Hchars].
  destruct (numchars_tight t Hne Hchars) as [Hs He].
  unfold parsePrimitive. rewrite (trim_id t Hs He), Hre, Hfin.
  assert (L : forall k, number_re k = false -> eqb t k = false).
  { intros k Hk. apply eqb_neq. intros ->. congruence. }
  rewrite !L by reflexivity. cbn [orb].
  destruct t as [|c x]; [congruence|].
  rewrite get_property_reverse_head
    by (right; simpl in Hchars; apply andb_true_iff in Hchars; tauto).
  rewrite (startsWith_absent QUOTE [] (c :: x));
    [reflexivity | apply (numchars_free _ _ Hchars); reflexivity].
Qed.

(** *** Strings *)

(** The converse: an unquoted string that is read back as the string it is
    is one of those [readsAsItself] accepts. *)
Lemma parsePrimitive_plain_only (s : jsstring) :
  needsQuoting s = false -> parsePrimitive s = JStr s ->
  readsAsItself s = true.
Proof.
  intros Hq.
  destruct (needsQuoting_false s Hq) as (_ & _ & _ & _ & _ & Hquote & _).
  unfold parsePrimitive, readsAsItself.
  destruct (eqb (trim s) (lit "null")); [discriminate|].
  destruct (eqb (trim s) (lit "-")) eqn:Edash; [discriminate|].
  destruct (eqb (trim s) (lit "")); [discriminate|]. cbn [orb].
  destruct (eqb (trim s) (lit "true")); [discriminate|].
  destruct (eqb (trim s) (lit "false")); [discriminate|].
  destruct (get_property REVERSE_SYMBOLS (trim s)) as [v|] eqn:Erev.
  { intros ->. exfalso. revert Erev. unfold get_property.
    cbn [own_property REVERSE_SYMBOLS].
    repeat match goal with
           | |- context [eqb ?a (trim s)] =>
               destruct (eqb a (trim s)) eqn:?
           end;
      try (intros E; injection E as <-;
           match goal with
           | H : eqb _ (trim _) = true |- _ => vm_compute in H; discriminate H
           end).
    destruct (existsb _ _); discriminate. }
  destruct (startsWith [QUOTE] (trim s) && endsWith [QUOTE] (trim s)) eqn:Eq.
  { exfalso. apply andb_true_iff in Eq as [Eq _].
    apply Hquote, In_trim, (startsWith_In _ _ Eq). left; reflexivity. }
  destruct (number_re (trim s) && Number_isFinite (Number_ofString (trim s)))
    eqn:Enum; [discriminate|].
  intros E. injection E as E. rewrite E in *.
  rewrite eqb_refl, Edash, Erev, Enum. reflexivity.
Qed.

Lemma format_string (s : jsstring) (options : EncodeOptions) (inTable : bool) :
  (is_true (compact options) = true -> compactKeyword s = false) ->
  formatPrimitive (JStr s) options inTable =
  if eqb s (lit "") && inTable then lit "-"
  else if needsQuoting s then [QUOTE] ++ escapeString s ++ [QUOTE]
  else s.
Proof.
  intros Hk. unfold formatPrimitive.
  destruct (is_true (compact options)); [|reflexivity].
  specialize (Hk eq_refl). unfold compactKeyword in Hk.
  destruct (get_property STATUS_SYMBOLS (toLowerCase s)); [discriminate|].
  reflexivity.
Qed.

Lemma parse_format_string (s : jsstring) (options : EncodeOptions)
  (inTable : bool) :
  (is_true (compact options) = true -> compactKeyword s = false) ->
  roundTripString s = true ->
  parsePrimitive (formatPrimitive (JStr s) options inTable) =
  if eqb s (lit "") && inTable then JNull else JStr s.
Proof.
  intros Hk Hs. rewrite (format_string s options inTable Hk).
  destruct (eqb s (lit "") && inTable); [reflexivity|].
  unfold roundTripString in Hs. destruct (needsQuoting s) eqn:Hq.
  - rewrite parsePrimitive_quoted, unescape_escape_result.
    rewrite (proj2 (controlAfterBackslash_fixed s) Hs). reflexivity.
  - apply parsePrimitive_plain; assumption.
Qed.

(** C3, amended: for a string that compact mode does not replace, parsing
    the formatted string returns the string exactly when the string is
    either written in quotes and has no backslash directly before the letter
    [n], [r] or [t], or written as it is and read as itself (no white space
    at its ends, not ["-"], not a key of the reverse symbol table, not read
    as a finite number). *)
Theorem format_then_parse_string (s : jsstring) (options : EncodeOptions) :
  (is_true (compact options) = true -> compactKeyword s = false) ->
  (roundTripString s = true <->
   parsePrimitive (formatPrimitive (JStr s) options false) = JStr s).
Proof.
  intros Hk. split.
  - intros Hs. rewrite (parse_format_string s options false Hk Hs).
    rewrite andb_false_r. reflexivity.
  - rewrite (format_string s options false Hk), andb_false_r.
    unfold roundTripString. destruct (needsQuoting s) eqn:Hq.
    + rewrite parsePrimitive_quoted, unescape_escape_result.
      intros E. injection E as E. apply controlAfterBackslash_fixed, E.
    + apply parsePrimitive_plain_only, Hq.
Qed.

(** *** The text of a primitive *)

Lemma escapeSome_In (x c : char) :
  In c (escapeSome true true true true x) ->
  c = x \/ In c [BACKSLASH; 110; 114; 116]%N.
Proof.
  unfold escapeSome. cbn [andb]. intros Hc.
  destruct (N.eqb_spec x QUOTE) as [->|Hq];
    [destruct Hc as [<- | [<- | []]]; simpl; tauto|].
  destruct (N.eqb_spec x NEWLINE) as [->|Hn];
    [destruct Hc as [<- | [<- | []]]; simpl; tauto|].
  destruct (N.eqb_spec x CR) as [->|Hr];
    [destruct Hc as [<- | [<- | []]]; simpl; tauto|].
  destruct (N.eqb_spec x TAB) as [->|Ht];
    [destruct Hc as [<- | [<- | []]]; simpl; tauto|].
  destruct Hc as [<- | []]. left; reflexivity.
Qed.

Lemma escapeString_In (s : jsstring) (c : char) :
  In c (escapeString s) ->
  c <> NEWLINE /\ c <> CR /\ (In c s \/ In c [BACKSLASH; 110; 114; 116]%N).
Proof.
  intros H. destruct (escapeString_one_line s) as [Hnl Hcr].
  split; [intros ->; contradiction|]. split; [intros ->; contradiction|].
  clear Hnl Hcr. rewrite escapeString_stage in H.
  induction s as [|x s IH]; [destruct H|].
  cbn [unescapeStage] in H. destruct (N.eqb_spec x BACKSLASH) as [-> | Hx].
  - assert (H' : In c (BACKSLASH :: BACKSLASH
                         :: unescapeStage false false false false s))
      by (destruct s; exact H).
    destruct H' as [<- | [<- | H']]; [right; left; reflexivity
                                     | right; left; reflexivity |].
    destruct (IH H') as [E | E]; [left; right; exact E | right; exact E].
  - apply in_app_iff in H as [H | H].
    + destruct (escapeSome_In x c H) as [-> | E];
        [left; left; reflexivity | right; exact E].
    + destruct (IH H) as [E | E]; [left; right; exact E | right; exact E].
Qed.

Lemma goodText_literal (f : jsstring) (back : JsonValue) (P Q : Prop) :
  parsePrimitive f = back ->
  forallb (fun c => negb (isWhiteSpace c)
                    && negb (existsb (N.eqb c) [QUOTE; PIPE; COMMA; NEWLINE; CR; 91%N]))
          f = true ->
  f <> [] ->
  goodText f back P Q.
Proof.
  intros Hback Hall Hne.
  assert (A : forall c, In c f ->
                isWhiteSpace c = false /\
                ~ In c [QUOTE; PIPE; COMMA; NEWLINE; CR; 91%N]).
  { intros c Hc. rewrite forallb_forall in Hall. specialize (Hall c Hc).
    apply andb_true_iff in Hall as [H1 H2].
    apply negb_true_iff in H1, H2. split; [exact H1|].
    intros Hin. assert (existsb (N.eqb c) [QUOTE; PIPE; COMMA; NEWLINE; CR; 91%N] = true).
    { apply existsb_exists. exists c. split; [exact Hin | apply N.eqb_refl]. }
    congruence. }
  assert (S : forall x : jsstring, x <> [] -> (forall c, In c x -> In c f) ->
                                   startsNonWs x = true).
  { intros [|c x] Hx Hsub; [congruence|]. simpl.
    destruct (A c (Hsub c (or_introl eq_refl))) as [-> _]. reflexivity. }
  assert (F : forall c, In c [QUOTE; PIPE; COMMA; NEWLINE; CR; 91%N] -> ~ In c f)
    by (intros c Hc Hin; exact (proj2 (A c Hin) Hc)).
  split.
  - exact Hback.
  - apply S; auto.
  - unfold endsNonWs. apply S.
    + intros E. apply Hne. rewrite <- (rev_involutive f), E. reflexivity.
    + intros c Hc. apply in_rev, Hc.
  - apply F; simpl; tauto.
  - apply F; simpl; tauto.
  - intros _ E. apply (F 91%N); [simpl; tauto|]. rewrite E. left; reflexivity.
  - intros _. apply F; simpl; tauto.
  - right. repeat split; apply F; simpl; tauto.
Qed.

Lemma number_text (n : number) (P Q : Prop) :
  roundTripNumber n -> goodText (Number_toString n) (JNum n) P Q.
Proof.
  intros (Hfin & Hre & Hback).
  destruct (number_re_chars _ Hre) as [Hne Hchars].
  destruct (numchars_tight _ Hne Hchars) as [Hs He].
  assert (F : forall c, numchar c = false -> ~ In c (Number_toString n))
    by (intros c; apply numchars_free, Hchars).
  split.
  - rewrite parsePrimitive_number, Hback; [reflexivity | exact Hre |].
    rewrite Hback; exact Hfin.
  - exact Hs.
  - exact He.
  - apply F; reflexivity.
  - apply F; reflexivity.
  - intros _ E. apply (F 91%N); [reflexivity|]. rewrite E. left; reflexivity.
  - intros _. apply F; reflexivity.
  - right. repeat split; apply F; reflexivity.
Qed.

Lemma string_text (s : jsstring) (options : EncodeOptions) (inTable : bool) :
  (is_true (compact options) = true -> compactKeyword s = false) ->
  roundTripString s = true ->
  goodText (formatPrimitive (JStr s) options inTable)
           (if eqb s (lit "") && inTable then JNull else JStr s)
           (s <> lit "[]") (~ In PIPE s).
Proof.
  intros Hk Hs.
  pose proof (parse_format_string s options inTable Hk Hs) as Hback.
  rewrite (format_string s options inTable Hk) in *.
  destruct (eqb s (lit "") && inTable).
  { apply goodText_literal; [exact Hback | reflexivity | discriminate]. }
  unfold roundTripString in Hs. destruct (needsQuoting s) eqn:Hq.
  - assert (E : forall c, In c ([QUOTE] ++ escapeString s ++ [QUOTE]) ->
                  c = QUOTE \/
                  (c <> NEWLINE /\ c <> CR
                   /\ (In c s \/ In c [BACKSLASH; 110; 114; 116]%N))).
    { intros c Hc. cbn [app] in Hc. destruct Hc as [<- | Hc]; [left; reflexivity|].
      apply in_app_iff in Hc as [Hc | [<- | []]]; [|left; reflexivity].
      right. apply escapeString_In; assumption. }
    split.
    + exact Hback.
    + reflexivity.
    + apply (endsNonWs_app (QUOTE :: escapeString s) [QUOTE]). reflexivity.
    + intros Hc. destruct (E _ Hc) as [? | (? & _)]; [discriminate | congruence].
    + intros Hc. destruct (E _ Hc) as [? | (_ & ? & _)]; [discriminate | congruence].
    + intros _ H. discriminate H.
    + intros Hp Hc. destruct (E _ Hc) as [? | (_ & _ & [? | Hin])];
        [discriminate | contradiction |].
      simpl in Hin. destruct Hin as [? | [? | [? | [? | []]]]]; discriminate.
    + left. cbn [app startsWith]. rewrite N.eqb_refl.
      rewrite (endsWith_last QUOTE (QUOTE :: escapeString s)
               : endsWith [QUOTE] (QUOTE :: escapeString s ++ [QUOTE]) = true).
      reflexivity.
  - destruct (needsQuoting_false s Hq)
      as (Hne & Hpipe & Hnl & Hcr & Hcomma & Hquote & _ & _).
    assert (Htrim : trim s = s).
    { unfold readsAsItself in Hs. rewrite !andb_true_iff in Hs.
      apply eqb_eq. tauto. }
    destruct (trim_fixed s Htrim Hne) as [Hst He].
    split; auto.
Qed.

Lemma value_text (v : JsonValue) (options : EncodeOptions) (inTable : bool) :
  is_true (compact options) = false -> roundTripPrimitive v ->
  goodText (formatPrimitive v options inTable)
           (if inTable then normalizeCell v else v)
           (v <> JStr (lit "[]")) (pipeFree v).
Proof.
  intros Hc Hv. destruct v as [|b|n|s|items|fields|name];
    cbn [roundTripPrimitive] in Hv; try contradiction.
  - destruct inTable; apply goodText_literal;
      (reflexivity || discriminate).
  - destruct inTable, b; apply goodText_literal;
      (reflexivity || discriminate).
  - cbn [formatPrimitive].
    replace (Number_isFinite n) with true by (symmetry; apply Hv).
    replace (if inTable then normalizeCell (JNum n) else JNum n) with (JNum n)
      by (destruct inTable; reflexivity).
    apply number_text, Hv.
  - assert (Hk : is_true (compact options) = true -> compactKeyword s = false)
      by (intros H; congruence).
    pose proof (string_text s options inTable Hk Hv) as T.
    replace (if inTable then normalizeCell (JStr s) else JStr s)
      with (if eqb s (lit "") && inTable then JNull else JStr s).
    2:{ destruct inTable; [|rewrite andb_false_r; reflexivity].
        destruct s; reflexivity. }
    destruct T as [T1 T2 T3 T4 T5 T6 T7 T8].
    split; auto.
    intros H. apply T6. intros E. apply H. rewrite E. reflexivity.
Qed.

(** *** The line of a key and a primitive value *)

Lemma startsWith_char_app (c : char) (a b : jsstring) :
  a <> [] -> startsWith [c] (a ++ b) = startsWith [c] a.
Proof. destruct a; [congruence | reflexivity]. Qed.

Lemma plainKey_facts (k : jsstring) :
  plainKey k = true ->
  trim k = k /\ ~ In COLON k /\ ~ In NEWLINE k /\ ~ In CR k
  /\ startsWith [HASH] k = false /\ startsWith [PIPE] k = false
  /\ k <> lit "__proto__".
Proof.
  unfold plainKey. rewrite !andb_true_iff, !negb_true_iff, eqb_eq, eqb_neq.
  change (lit ":") with [COLON]. rewrite !includes_char_false.
  change (lit "#") with [HASH]. change (lit "|") with [PIPE]. tauto.
Qed.

Lemma set_property_plain k v fields :
  plainKey k = true -> set_property k v fields = Some (assigned k v fields).
Proof. intros Hk. apply set_property_key, (plainKey_facts k Hk). Qed.

Lemma keyed_line (k f : jsstring) :
  plainKey k = true -> startsNonWs f = true -> endsNonWs f = true ->
  let l := k ++ COLON :: SPACE :: f in
  trim l = l /\ startsNonWs l = true
  /\ startsWith [HASH] l = false /\ startsWith [PIPE] l = false
  /\ indexOf [COLON] l = Z.of_nat (length k)
  /\ trim (slice l 0 (Z.of_nat (length k))) = k
  /\ trim (slice_from l (Z.of_nat (length k) + 1)) = f.
Proof.
  intros Hk Hs He l.
  destruct (plainKey_facts k Hk) as (Htrim & Hcolon & _ & _ & Hhash & Hpipe & _).
  assert (Hstart : startsNonWs l = true /\ startsWith [HASH] l = false
                   /\ startsWith [PIPE] l = false).
  { subst l. destruct k as [|c k]; [repeat split; reflexivity|].
    destruct (trim_fixed (c :: k) Htrim) as [Hks _]; [discriminate|].
    rewrite !startsWith_char_app by discriminate.
    rewrite (startsNonWs_app _ _ Hks). auto. }
  destruct Hstart as (Hls & Hlh & Hlp).
  assert (Hle : endsNonWs l = true)
    by (apply (endsNonWs_app k (COLON :: SPACE :: f)),
          (endsNonWs_app [COLON; SPACE] f), He).
  repeat split; try assumption.
  - apply trim_id; assumption.
  - apply indexOf_first, Hcolon.
  - subst l. rewrite slice_prefix. exact Htrim.
  - subst l.
    change (k ++ COLON :: SPACE :: f) with (k ++ [COLON] ++ SPACE :: f).
    rewrite app_assoc.
    replace (Z.of_nat (length k) + 1)%Z with (Z.of_nat (length (k ++ [COLON])))
      by (rewrite length_app; simpl; lia).
    rewrite slice_from_suffix.
    rewrite <- (app_nil_r f) at 1.
    apply (trim_padded [SPACE] f []); [reflexivity | reflexivity |].
    apply trim_id; assumption.
Qed.

Lemma parseDocument_loop_field fuel lines i options result k f v
  (P Q : Prop) :
  nth_error lines i = Some (k ++ COLON :: SPACE :: f) ->
  plainKey k = true -> goodText f v P Q -> P ->
  parseDocument_loop (S fuel) lines i 0 options result =
  parseDocument_loop fuel lines (S i) 0 options (assigned k v result).
Proof.
  intros Hnth Hk [T1 T2 T3 T4 T5 T6 T7 T8] HP.
  destruct (keyed_line k f Hk T2 T3)
    as (Ltrim & Lstart & Lhash & Lpipe & Lindex & Lkey & Lvalue).
  cbn [parseDocument_loop]. rewrite Hnth.
  unfold blankOrComment, lineIndentOf.
  rewrite Ltrim, (trimStart_id _ Lstart), Nat.sub_diag.
  change (lit "#") with [HASH]. change (lit "|") with [PIPE].
  change (lit ":") with [COLON].
  rewrite Lhash, Lpipe, Lindex, Lkey, Lvalue.
  replace (eqb (k ++ COLON :: SPACE :: f) (lit "")) with false
    by (symmetry; apply eqb_neq; destruct k; discriminate).
  replace (Z.of_nat (length k) =? -1)%Z with false
    by (symmetry; apply Z.eqb_neq; lia).
  replace (eqb f (lit "")) with false
    by (symmetry; apply eqb_neq; intros ->; discriminate).
  replace (eqb f (lit "[]")) with false
    by (symmetry; apply eqb_neq; auto).
  cbn [orb Nat.ltb Nat.leb].
  rewrite set_property_plain by exact Hk.
  destruct T8 as [Hq | (Hq & Hp & Hc)].
  - rewrite Hq, T1. reflexivity.
  - rewrite (startsWith_absent QUOTE [] f Hq). cbn [andb].
    rewrite (includes_without (lit " | ") f PIPE), (includes_without (lit ", ") f COMMA), T1;
      [reflexivity | left; reflexivity | exact Hc
       | right; left; reflexivity | exact Hp].
Qed.

(** ** Objects with primitive values *)

Lemma roundTripPrimitive_isPrimitive (v : JsonValue) :
  roundTripPrimitive v -> isPrimitive v = true.
Proof. destruct v; simpl; tauto. Qed.

Lemma fieldLines_primitive enc options key val :
  isPrimitive val = true ->
  fieldLines enc options 0 key val = [fieldLine options (key, val)].
Proof.
  destruct val; try discriminate; intros _; reflexivity.
Qed.

Lemma lines_of_map (g : jsstring * JsonValue -> list jsstring) l kv :
  NoDup (map fst l) -> In kv l ->
  lines_of (fst kv) (map (fun e => (fst e, g e)) l) = g kv.
Proof.
  unfold lines_of. induction l as [|e l IH]; intros Hnd Hin; [destruct Hin|].
  inversion Hnd as [|? ? He Hl]; subst. cbn [map find fst].
  destruct Hin as [-> | Hin]; [rewrite eqb_refl; reflexivity|].
  destruct (eqb (fst e) (fst kv)) eqn:E; [|auto].
  apply eqb_eq in E. exfalso. apply He. rewrite E. apply in_map, Hin.
Qed.

Lemma flat_map_lines_of (g : jsstring * JsonValue -> list jsstring) l :
  NoDup (map fst l) ->
  flat_map (fun key => lines_of key (map (fun e => (fst e, g e)) l)) (map fst l)
  = flat_map g l.
Proof.
  intros Hnd.
  assert (G : forall sub, (forall kv, In kv sub -> In kv l) ->
                flat_map (fun key => lines_of key (map (fun e => (fst e, g e)) l))
                         (map fst sub) = flat_map g sub).
  { induction sub as [|kv sub IH]; intros Hsub; [reflexivity|].
    cbn [map]. rewrite !flat_map_step.
    rewrite (lines_of_map g l kv Hnd) by (apply Hsub; left; reflexivity).
    rewrite IH; [reflexivity|]. intros x Hx. apply Hsub. right; exact Hx. }
  apply G. auto.
Qed.

Lemma flat_map_singleton {A B} (f : A -> B) (l : list A) :
  flat_map (fun x => [f x]) l = map f l.
Proof. induction l as [|x l IH]; simpl; [|rewrite IH]; reflexivity. Qed.

Lemma encodeValue_primitive_fields fields options :
  is_true (sortKeys options) = false ->
  fields <> [] -> NoDup (map fst fields) ->
  Forall (fun kv => isPrimitive (snd kv) = true) fields ->
  encodeValue (JObj fields) options 0
  = join [NEWLINE] (map (fieldLine options) fields).
Proof.
  intros Hsort Hne Hnd Hprim. cbn [encodeValue]. rewrite Hsort.
  destruct fields as [|kv0 rest]; [congruence|].
  remember (kv0 :: rest) as l eqn:El.
  replace (map fst l) with (fst kv0 :: map fst rest) at 1 by (subst l; reflexivity).
  cbv iota. rewrite flat_map_lines_of by exact Hnd.
  f_equal. rewrite <- flat_map_singleton.
  clear El Hne Hnd. induction Hprim as [|kv l' Hkv Hl IH]; [reflexivity|].
  rewrite !flat_map_step, IH. f_equal.
  destruct kv as [k v]. apply fieldLines_primitive, Hkv.
Qed.

Lemma is_true_or_default (o : option bool) :
  is_true (or_default o false) = is_true o.
Proof. destruct o; reflexivity. Qed.

Lemma fieldLine_text options kv :
  is_true (compact options) = false -> roundTripField kv ->
  ~ In NEWLINE (fieldLine options kv) /\ ~ In CR (fieldLine options kv).
Proof.
  intros Hc (Hk & Hv & _). destruct kv as [k v]. cbn [fst snd] in *.
  destruct (plainKey_facts k Hk) as (_ & _ & Hnl & Hcr & _).
  destruct (value_text v options false Hc Hv) as [_ _ _ T4 T5 _ _ _].
  unfold fieldLine. cbn [fst snd]. change (lit ": ") with [COLON; SPACE].
  split; intros H; apply in_app_iff in H as [H | [H | [H | H]]];
    try contradiction; discriminate H.
Qed.

Lemma parseDocument_loop_fields encodeOptions options :
  is_true (compact encodeOptions) = false ->
  forall rest pre acc fuel,
    Forall roundTripField rest ->
    NoDup (map fst acc ++ map fst rest) ->
    length rest < fuel ->
    parseDocument_loop fuel (pre ++ map (fieldLine encodeOptions) rest)
      (length pre) 0 options acc
    = Some (JObj (acc ++ rest), length pre + length rest).
Proof.
  intros Hc. induction rest as [|[k v] rest IH]; intros pre acc fuel Hok Hnd Hfuel;
    (destruct fuel as [|fuel]; [simpl in Hfuel; lia|]).
  - cbn [map]. rewrite !app_nil_r. cbn [parseDocument_loop].
    replace (nth_error pre (length pre)) with (@None (list N))
      by (symmetry; apply nth_error_None; lia).
    f_equal. f_equal. simpl; lia.
  - inversion Hok as [|? ? (Hk & Hv & Hb) Hrest]; subst. cbn [fst snd] in *.
    cbn [map].
    rewrite (parseDocument_loop_field fuel _ (length pre) options acc k
               (formatPrimitive v encodeOptions false) v
               (v <> JStr (lit "[]")) (pipeFree v)).
    + destruct (plainKey_facts k Hk) as (_ & _ & _ & _ & _ & _ & Hproto).
      rewrite assigned_fresh; [|exact Hproto|].
      2:{ intros Hin. apply NoDup_remove_2 in Hnd. apply Hnd.
          apply in_app_iff. left; exact Hin. }
      replace (S (length pre))
        with (length (pre ++ [fieldLine encodeOptions (k, v)]))
        by (rewrite length_app; simpl; lia).
      replace (pre ++ fieldLine encodeOptions (k, v)
                 :: map (fieldLine encodeOptions) rest)
        with ((pre ++ [fieldLine encodeOptions (k, v)])
                ++ map (fieldLine encodeOptions) rest)
        by (rewrite <- app_assoc; reflexivity).
      rewrite IH.
      * rewrite <- app_assoc, length_app. f_equal. f_equal. simpl; lia.
      * exact Hrest.
      * rewrite map_app, <- app_assoc. exact Hnd.
      * simpl in Hfuel. lia.
    + rewrite nth_error_app2 by lia. rewrite Nat.sub_diag. reflexivity.
    + exact Hk.
    + exact (value_text v encodeOptions false Hc Hv).
    + exact Hb.
Qed.

Lemma keyed_line_first (k f : jsstring) :
  plainKey k = true -> startsNonWs f = true -> endsNonWs f = true ->
  k <> lit "_" ->
  let l := k ++ COLON :: SPACE :: f in
  blankOrComment l = false /\ startsWith (lit "|") (trim l) = false
  /\ startsWith (lit "_:") (trim l) = false.
Proof.
  intros Hk Hs He Hu l.
  destruct (keyed_line k f Hk Hs He) as (Ltrim & _ & Lhash & Lpipe & _).
  destruct (plainKey_facts k Hk) as (_ & Hcolon & _).
  fold l in Ltrim, Lhash, Lpipe.
  unfold blankOrComment. rewrite Ltrim.
  change (lit "#") with [HASH]. change (lit "|") with [PIPE].
  rewrite Lhash, Lpipe.
  replace (eqb l (lit "")) with false
    by (symmetry; apply eqb_neq; subst l; destruct k; discriminate).
  repeat split.
  subst l. change (lit "_:") with [95; 58]%N.
  destruct k as [|c [|d k]]; cbn [app startsWith].
  - reflexivity.
  - destruct (N.eqb_spec 95 c) as [<- | ]; [|reflexivity].
    exfalso; apply Hu; reflexivity.
  - destruct (N.eqb_spec 58 d) as [<- | ]; [|rewrite andb_false_r; reflexivity].
    exfalso; apply Hcolon. right; left; reflexivity.
Qed.

(** C1, amended: for every object whose keys are pairwise distinct and plain
    (no white space at the ends, no colon or line break, no [#] or [|] at
    the start, not [__proto__]), whose first key is not [_], and whose
    values are [null], booleans, numbers whose text reads back as the
    number, or round-trip strings other than ["[]"], decoding the text that
    [encode] writes without compact mode and without sorted keys returns the
    object. *)
Theorem scalar_object_roundtrip fields encodeOptions options :
  is_true (compact encodeOptions) = false ->
  is_true (sortKeys encodeOptions) = false ->
  NoDup (map fst fields) ->
  Forall roundTripField fields ->
  hd_error (map fst fields) <> Some (lit "_") ->
  decode (encode (JObj fields) encodeOptions) options = Some (JObj fields).
Proof.
  intros Hc Hsort Hnd Hok Hfirst.
  destruct fields as [|[k v] rest] eqn:Ef.
  { cbn [encode encodeValue sortKeys]. rewrite is_true_or_default, Hsort.
    reflexivity. }
  rewrite <- Ef in *. cbn [encode].
  set (opts := {| enc_indent := or_default (enc_indent encodeOptions) 2;
                  compact := or_default (compact encodeOptions) false;
                  sortKeys := or_default (sortKeys encodeOptions) false |}).
  assert (Hc' : is_true (compact opts) = false)
    by (subst opts; cbn [compact]; rewrite is_true_or_default; exact Hc).
  assert (Hsort' : is_true (sortKeys opts) = false)
    by (subst opts; cbn [sortKeys]; rewrite is_true_or_default; exact Hsort).
  rewrite encodeValue_primitive_fields;
    [|exact Hsort' | rewrite Ef; discriminate | exact Hnd |].
  2:{ eapply Forall_impl; [|exact Hok]. intros kv (_ & H & _).
      apply roundTripPrimitive_isPrimitive, H. }
  set (lines := map (fieldLine opts) fields).
  assert (Htext : Forall (fun l => ~ In NEWLINE l /\ ~ In CR l) lines).
  { subst lines. apply Forall_map. eapply Forall_impl; [|exact Hok].
    intros kv Hkv. apply fieldLine_text; assumption. }
  assert (Hne : lines <> []) by (subst lines; rewrite Ef; discriminate).
  unfold decode, normalizeNewlines.
  assert (Hcr : ~ In CR (join [NEWLINE] lines)).
  { intros H. apply In_join in H as [[H | []] | (x & Hx & H)]; [discriminate H|].
    rewrite Forall_forall in Htext. exact (proj2 (Htext x Hx) H). }
  rewrite (replaceAll_absent CR [NEWLINE] [NEWLINE] _ Hcr).
  rewrite (replaceAll_absent CR [] [NEWLINE] _ Hcr).
  rewrite split_join; [|exact Hne|].
  2:{ eapply Forall_impl; [|exact Htext]. intros l Hl. exact (proj1 Hl). }
  assert (Hparse := parseDocument_loop_fields opts
                      {| strict := or_default (strict options) true;
                         dec_indent := or_default (dec_indent options) 2 |}
                      Hc' fields [] [] (S (length lines))).
  cbn [app length Nat.add] in Hparse.
  assert (Hparse' : parseDocument_loop (S (length lines)) lines 0 0
                      {| strict := or_default (strict options) true;
                         dec_indent := or_default (dec_indent options) 2 |} []
                    = Some (JObj fields, length fields)).
  { apply Hparse; [exact Hok | exact Hnd |].
    subst lines; rewrite length_map; lia. }
  clear Hparse.
  assert (Hlines : lines = (k ++ COLON :: SPACE :: formatPrimitive v opts false)
                             :: map (fieldLine opts) rest)
    by (subst lines; rewrite Ef; reflexivity).
  assert (Hkv : roundTripField (k, v))
    by (rewrite Ef in Hok; inversion Hok; assumption).
  destruct Hkv as (Hk & Hv & Hb). cbn [fst snd] in *.
  destruct (value_text v opts false Hc' Hv) as [_ T2 T3 _ _ _ _ _].
  destruct (keyed_line_first k (formatPrimitive v opts false) Hk T2 T3)
    as (Lblank & Lpipe & Lroot).
  { intros E. apply Hfirst. rewrite Ef, E. reflexivity. }
  assert (Hall : forallb blankOrComment lines = false)
    by (rewrite Hlines; cbn [forallb]; rewrite Lblank; reflexivity).
  assert (Hskip : skipBlankOrComment lines 0 = 0)
    by (rewrite Hlines; cbn [skipBlankOrComment]; rewrite Lblank; reflexivity).
  assert (Hnth : nth_error lines 0
                 = Some (k ++ COLON :: SPACE :: formatPrimitive v opts false))
    by (rewrite Hlines; reflexivity).
  unfold parseDocument.
  rewrite Hall, Hskip, Hnth, Lpipe, Lroot, Nat.sub_0_r, Hparse'. reflexivity.
Qed.

(** ** Primitives at the root *)



(** ** Tables *)

Lemma split_wrapped (cells : list jsstring) :
  cells <> [] -> Forall (fun c => ~ In PIPE c) cells ->
  split [PIPE] (SPACE :: join (lit " | ") cells ++ [SPACE; PIPE])
  = map wrapCell cells ++ [[]].
Proof.
  induction cells as [|c cells IH]; intros Hne H; [congruence|].
  inversion H as [|? ? Hc Hcells]; subst.
  assert (W : ~ In PIPE (wrapCell c)).
  { unfold wrapCell. intros [E | Hin]; [discriminate E|].
    apply in_app_iff in Hin as [Hin | [E | []]]; [auto | discriminate E]. }
  destruct cells as [|c' cells].
  - cbn [join map app].
    change (SPACE :: c ++ [SPACE; PIPE]) with (SPACE :: c ++ [SPACE] ++ [PIPE]).
    rewrite app_assoc.
    change (SPACE :: (c ++ [SPACE]) ++ [PIPE]) with (wrapCell c ++ PIPE :: []).
    rewrite split_first by exact W. reflexivity.
  - change (join (lit " | ") (c :: c' :: cells))
      with (c ++ [SPACE] ++ PIPE :: SPACE :: join (lit " | ") (c' :: cells)).
    rewrite !app_assoc, <- (app_assoc (c ++ [SPACE])).
    change (SPACE :: (c ++ [SPACE])
              ++ (PIPE :: SPACE :: join (lit " | ") (c' :: cells)) ++ [SPACE; PIPE])
      with (wrapCell c
              ++ PIPE :: (SPACE :: join (lit " | ") (c' :: cells) ++ [SPACE; PIPE])).
    rewrite split_first by exact W.
    rewrite IH; [reflexivity | discriminate | exact Hcells].
Qed.

Lemma tableCells_line (cells : list jsstring) :
  cells <> [] -> Forall (fun c => ~ In PIPE c) cells ->
  tableCells (lit "| " ++ join (lit " | ") cells ++ lit " |")
  = map wrapCell cells.
Proof.
  intros Hne H. unfold tableCells.
  change (lit "| " ++ join (lit " | ") cells ++ lit " |")
    with ([] ++ PIPE :: (SPACE :: join (lit " | ") cells ++ [SPACE; PIPE])).
  change (lit "|") with [PIPE].
  rewrite split_first by (intros []).
  rewrite (split_wrapped cells Hne H). apply slice_inner.
Qed.

Lemma tableLine_shape (base : jsstring) (cells : list jsstring) :
  forallb isWhiteSpace base = true ->
  trim (tableLine base cells) = lit "| " ++ join (lit " | ") cells ++ lit " |"
  /\ lineIndentOf (tableLine base cells) = length base
  /\ startsWith (lit "|") (trim (tableLine base cells)) = true.
Proof.
  intros Hb. unfold tableLine.
  set (x := lit "| " ++ join (lit " | ") cells ++ lit " |").
  assert (Hs : startsNonWs x = true) by reflexivity.
  assert (He : endsNonWs x = true).
  { subst x. apply (endsNonWs_app (lit "| ")), (endsNonWs_app (join _ cells)).
    reflexivity. }
  assert (Ht : trim (base ++ x) = x).
  { rewrite <- (app_nil_r x) at 1.
    apply (trim_padded base x []); [exact Hb | reflexivity | apply trim_id; assumption]. }
  rewrite Ht. repeat split.
  apply lineIndentOf_padded; assumption.
Qed.

Lemma padCell_shape (c : jsstring) (w : nat) :
  padCell c w = c ++ repeat_str (lit " ") (Nat.max 0 (w - length c)).
Proof. reflexivity. Qed.

Lemma In_spaces (c : char) (n : nat) :
  In c (repeat_str (lit " ") n) -> c = SPACE.
Proof.
  induction n as [|n IH]; simpl; [tauto|]. intros [E | H]; [symmetry; exact E | auto].
Qed.

Lemma trim_wrapped_padded (c : jsstring) (w : nat) :
  trim c = c -> trim (wrapCell (padCell c w)) = c.
Proof.
  intros H. unfold wrapCell. rewrite padCell_shape.
  change (SPACE :: (c ++ repeat_str (lit " ") (Nat.max 0 (w - length c))) ++ [SPACE])
    with ([SPACE] ++ (c ++ repeat_str (lit " ") (Nat.max 0 (w - length c))) ++ [SPACE]).
  rewrite <- app_assoc.
  apply trim_padded; [reflexivity | | exact H].
  rewrite forallb_app, forallb_ws_spaces. reflexivity.
Qed.

Lemma padCells_length cells : forall widths,
  length (padCells cells widths) = length cells.
Proof.
  induction cells as [|c cells IH]; intros widths; simpl; [|rewrite IH];
    reflexivity.
Qed.

Lemma padCells_free (x : char) cells : forall widths,
  x <> SPACE -> Forall (fun c => ~ In x c) cells ->
  Forall (fun c => ~ In x c) (padCells cells widths).
Proof.
  induction cells as [|c cells IH]; intros widths Hx H; simpl; [constructor|].
  inversion H as [|? ? Hc Hcells]; subst. constructor; [|auto].
  rewrite padCell_shape. intros Hin. apply in_app_iff in Hin as [Hin | Hin];
    [auto | exact (Hx (In_spaces _ _ Hin))].
Qed.

Lemma padCells_trim cells : forall widths,
  Forall (fun c => trim c = c) cells ->
  map (fun c => trim (wrapCell c)) (padCells cells widths) = cells.
Proof.
  induction cells as [|c cells IH]; intros widths H; simpl; [reflexivity|].
  inversion H as [|? ? Hc Hcells]; subst.
  rewrite trim_wrapped_padded by exact Hc. rewrite IH by exact Hcells.
  reflexivity.
Qed.

(** The cells that are read from the line written for [cells]. *)
Lemma tableLine_cells base cells widths :
  forallb isWhiteSpace base = true ->
  cells <> [] ->
  Forall (fun c => ~ In PIPE c) cells -> Forall (fun c => trim c = c) cells ->
  map trim (tableCells (trim (tableLine base (padCells cells widths)))) = cells.
Proof.
  intros Hb Hne Hp Ht.
  destruct (tableLine_shape base (padCells cells widths) Hb) as (-> & _).
  rewrite tableCells_line.
  - rewrite map_map. apply padCells_trim, Ht.
  - intros E. apply Hne. apply length_zero_iff_nil.
    rewrite <- (padCells_length cells widths), E. reflexivity.
  - apply padCells_free; [discriminate | exact Hp].
Qed.

Lemma In_tableLine (x : char) base cells :
  In x (tableLine base cells) ->
  In x base \/ In x [PIPE; SPACE] \/ exists c, In c cells /\ In x c.
Proof.
  unfold tableLine. rewrite !in_app_iff. intros [H | [H | [H | H]]].
  - left; exact H.
  - right; left. exact H.
  - apply In_join in H as [H | H]; [|right; right; exact H].
    right; left. simpl in H. simpl. tauto.
  - right; left. simpl in H. simpl. tauto.
Qed.

Lemma own_property_of fields h :
  In h (map fst fields) ->
  exists v : JsonValue, own_property fields h = Some v /\ In (h, v) fields.
Proof.
  induction fields as [|[k w] r IH]; simpl; [tauto|].
  destruct (eqb k h) eqn:E.
  - apply eqb_eq in E; subst. intros _. exists w. auto.
  - apply eqb_neq in E. intros [H | H]; [congruence|].
    destruct (IH H) as (v & Hv & Hin). exists v. auto.
Qed.

Lemma tableRow_get headers fields h :
  tableRow headers (JObj fields) -> In h headers ->
  exists v, ObjectGet (JObj fields) h = Some v
            /\ roundTripPrimitive v /\ pipeFree v.
Proof.
  intros (Hnd & Hperm & Hvals) Hh.
  destruct (own_property_of fields h) as (v & Hv & Hin).
  { apply (Permutation_in h (Permutation_sym Hperm) Hh). }
  exists v. cbn [ObjectGet]. unfold get_property. rewrite Hv.
  rewrite Forall_forall in Hvals. specialize (Hvals _ Hin). tauto.
Qed.

Lemma cellsOf_good options headers row :
  is_true (compact options) = false -> tableRow headers row ->
  Forall (fun c => ~ In PIPE c) (cellsOf options headers row) /\
  Forall (fun c => trim c = c) (cellsOf options headers row) /\
  Forall (fun c => ~ In NEWLINE c /\ ~ In CR c) (cellsOf options headers row) /\
  JObj (combine headers (map parsePrimitive (cellsOf options headers row)))
  = rowInHeaderOrder headers row.
Proof.
  intros Hc Hrow. destruct row as [| | | | |fields|]; try contradiction.
  unfold cellsOf, rowInHeaderOrder.
  assert (G : forall hs, (forall h, In h hs -> In h headers) ->
    let cells := map (fun h => formatCell (ObjectGet (JObj fields) h) options) hs in
    Forall (fun c => ~ In PIPE c) cells /\
    Forall (fun c => trim c = c) cells /\
    Forall (fun c => ~ In NEWLINE c /\ ~ In CR c) cells /\
    combine hs (map parsePrimitive cells)
    = map (fun h => (h, match ObjectGet (JObj fields) h with
                        | Some v => normalizeCell v
                        | None => JNull
                        end)) hs).
  { induction hs as [|h hs IH]; intros Hsub; cbn [map combine].
    - repeat split; constructor.
    - destruct IH as (I1 & I2 & I3 & I4);
        [intros x Hx; apply Hsub; right; exact Hx|].
      destruct (tableRow_get headers fields h Hrow (Hsub h (or_introl eq_refl)))
        as (v & -> & Hv & Hp).
      cbn [formatCell].
      destruct (value_text v options true Hc Hv) as [T1 T2 T3 T4 T5 _ T7 _].
      repeat split; try (constructor; auto).
      + apply trim_id; assumption.
      + rewrite T1, I4. reflexivity. }
  destruct (G headers (fun h H => H)) as (G1 & G2 & G3 & G4).
  repeat split; try assumption. rewrite G4. reflexivity.
Qed.

Lemma cellsOf_length options headers row :
  length (cellsOf options headers row) = length headers.
Proof. unfold cellsOf. apply length_map. Qed.

Lemma rowOf_tableLine headers base cells widths :
  forallb isWhiteSpace base = true -> cells <> [] ->
  length cells = length headers ->
  NoDup headers -> ~ In (lit "__proto__") headers ->
  Forall (fun c => ~ In PIPE c) cells -> Forall (fun c => trim c = c) cells ->
  rowOf headers (tableLine base (padCells cells widths))
  = [JObj (combine headers (map parsePrimitive cells))].
Proof.
  intros Hb Hne Hlen Hnd Hproto Hp Ht. unfold rowOf, rowCells.
  rewrite <- (map_map trim parsePrimitive).
  rewrite (tableLine_cells base cells widths Hb Hne Hp Ht).
  rewrite length_map, Hlen, Nat.eqb_refl.
  rewrite rowFields_distinct;
    [reflexivity | rewrite length_map; exact Hlen | exact Hnd | exact Hproto].
Qed.

Lemma takeWhile_all {A} (f : A -> bool) (l : list A) :
  forallb f l = true -> takeWhile f l = l.
Proof.
  induction l as [|x l IH]; simpl; [reflexivity|].
  intros H. apply andb_true_iff in H as [-> H]. rewrite IH by exact H.
  reflexivity.
Qed.

Lemma isTableLine_tableLine base cells :
  forallb isWhiteSpace base = true ->
  isTableLine (length base) (tableLine base cells) = true.
Proof.
  intros Hb. unfold isTableLine.
  destruct (tableLine_shape base cells Hb) as (_ & -> & ->).
  rewrite Nat.ltb_irrefl. reflexivity.
Qed.

Lemma isTableArray_rows first rest :
  Forall (tableRow (ObjectKeys first)) (first :: rest) ->
  isTableArray (first :: rest) = true /\ isPrimitiveArray (first :: rest) = false.
Proof.
  intros H. unfold isTableArray.
  set (arr := first :: rest) in *.
  assert (Hobj : forallb isPlainObject arr = true).
  { apply forallb_forall. intros row Hrow. rewrite Forall_forall in H.
    specialize (H row Hrow). destruct row; try contradiction. reflexivity. }
  assert (Hkeys : forallb (fun item =>
                    eqb (join (lit ",") (sort (ObjectKeys item)))
                        (join (lit ",") (sort (ObjectKeys first)))) arr = true).
  { apply forallb_forall. intros row Hrow. rewrite Forall_forall in H.
    specialize (H row Hrow). destruct row; try contradiction.
    destruct H as (_ & Hperm & _). cbn [ObjectKeys] in *.
    rewrite (sort_permutation _ _ Hperm). apply eqb_refl. }
  assert (Hprim : forallb (fun item => forallb isPrimitive (ObjectValues item)) arr
                  = true).
  { apply forallb_forall. intros row Hrow. rewrite Forall_forall in H.
    specialize (H row Hrow). destruct row; try contradiction.
    destruct H as (_ & _ & Hvals). cbn [ObjectValues].
    apply forallb_forall. intros v Hv. apply in_map_iff in Hv as (kv & <- & Hkv).
    rewrite Forall_forall in Hvals.
    apply roundTripPrimitive_isPrimitive, (Hvals kv Hkv). }
  rewrite Hobj, Hkeys, Hprim. split; [reflexivity|].
  subst arr. inversion H as [|? ? Hfirst _]; subst.
  destruct first; try contradiction. reflexivity.
Qed.

Lemma encode_table k first rest encodeOptions :
  isTableArray (first :: rest) = true ->
  isPrimitiveArray (first :: rest) = false ->
  encode (JObj [(k, JArr (first :: rest))]) encodeOptions
  = join [NEWLINE]
      (tableDocument
         {| enc_indent := or_default (enc_indent encodeOptions) 2;
            compact := or_default (compact encodeOptions) false;
            sortKeys := or_default (sortKeys encodeOptions) false |}
         k (first :: rest)).
Proof.
  intros Htable Hprim. unfold encode.
  set (opts := {| enc_indent := _; compact := _; sortKeys := _ |}).
  cbn [encodeValue map fst snd].
  replace (if is_true (sortKeys opts) then sort [k] else [k]) with [k]
    by (destruct (is_true (sortKeys opts)); reflexivity).
  cbv iota. cbn [flat_map]. unfold lines_of. cbn [find fst snd].
  rewrite eqb_refl. unfold fieldLines. rewrite Hprim.
  cbn [encodeValue]. rewrite Hprim, Htable.
  cbn [snd]. rewrite app_nil_r. unfold tableDocument, encodeTable.
  cbn [join hd repeat_str app]. rewrite <- app_assoc.
  reflexivity.
Qed.

Lemma indent_unit_pos options : 0 < indent_unit options.
Proof. unfold indent_unit. destruct (enc_indent options) as [[|n]|]; lia. Qed.

Lemma repeat_str_spaces_length n : length (repeat_str (lit " ") n) = n.
Proof. induction n as [|n IH]; simpl; [|rewrite IH]; reflexivity. Qed.

Lemma tableKey_facts (h : jsstring) :
  tableKey h = true ->
  trim h = h /\ ~ In PIPE h /\ ~ In NEWLINE h /\ ~ In CR h
  /\ h <> lit "__proto__".
Proof.
  unfold tableKey. rewrite !andb_true_iff, !negb_true_iff, eqb_eq, eqb_neq.
  change (lit "|") with [PIPE]. rewrite !includes_char_false. tauto.
Qed.

Lemma tableKeys_plain (headers : list jsstring) :
  Forall (fun h => tableKey h = true) headers ->
  ~ In (lit "__proto__") headers.
Proof.
  intros H Hin. rewrite Forall_forall in H.
  exact (proj2 (proj2 (proj2 (proj2 (tableKey_facts _ (H _ Hin))))) eq_refl).
Qed.

Lemma own_property_NoDup fields h (v : JsonValue) :
  NoDup (map fst fields) -> In (h, v) fields -> own_property fields h = Some v.
Proof.
  induction fields as [|[k w] r IH]; simpl; intros Hnd Hin; [destruct Hin|].
  inversion Hnd as [|? ? Hk Hr]; subst.
  destruct Hin as [[= -> ->] | Hin]; [rewrite eqb_refl; reflexivity|].
  destruct (eqb k h) eqn:E; [|auto].
  apply eqb_eq in E; subst. exfalso. apply Hk.
  apply (in_map fst _ _ Hin).
Qed.

Lemma rowInHeaderOrder_same fields :
  NoDup (map fst fields) ->
  Forall (fun kv => snd kv <> JStr (lit "")) fields ->
  rowInHeaderOrder (map fst fields) (JObj fields) = JObj fields.
Proof.
  intros Hnd Hvals. unfold rowInHeaderOrder. f_equal. rewrite map_map.
  rewrite <- (map_id fields) at 2. apply map_ext_in.
  intros [h v] Hin. cbn [fst ObjectGet]. unfold get_property.
  rewrite (own_property_NoDup fields h v Hnd Hin).
  rewrite Forall_forall in Hvals. specialize (Hvals _ Hin). cbn [snd] in Hvals.
  destruct v as [| | |[|c s]| | |]; try reflexivity.
  exfalso; apply Hvals; reflexivity.
Qed.

(** The line of a key whose value follows on the next lines. *)
Lemma bare_key_line (k : jsstring) :
  plainKey k = true -> k <> lit "_" ->
  let l := k ++ [COLON] in
  blankOrComment l = false /\ lineIndentOf l = 0 /\ trim l = l
  /\ startsWith (lit "|") l = false /\ startsWith (lit "_:") l = false
  /\ indexOf (lit ":") l = Z.of_nat (length k)
  /\ trim (slice l 0 (Z.of_nat (length k))) = k
  /\ trim (slice_from l (Z.of_nat (length k) + 1)) = []
  /\ ~ In NEWLINE l /\ ~ In CR l.
Proof.
  intros Hk Hu l.
  destruct (plainKey_facts k Hk) as (Htrim & Hcolon & Hnl & Hcr & Hhash & Hpipe & _).
  assert (Hstart : startsNonWs l = true /\ startsWith [HASH] l = false
                   /\ startsWith [PIPE] l = false
                   /\ startsWith (lit "_:") l = false).
  { subst l. change (lit "_:") with [95; 58]%N.
    destruct k as [|c k]; [repeat split; reflexivity|].
    destruct (trim_fixed (c :: k) Htrim) as [Hks _]; [discriminate|].
    rewrite !startsWith_char_app by discriminate.
    rewrite (startsNonWs_app _ _ Hks). repeat split; try assumption.
    destruct k as [|d k]; cbn [app startsWith].
    - destruct (N.eqb_spec 95 c) as [<- | ]; [|reflexivity].
      exfalso; apply Hu; reflexivity.
    - destruct (N.eqb_spec 58 d) as [<- | ]; [|rewrite andb_false_r; reflexivity].
      exfalso; apply Hcolon. right; left; reflexivity. }
  destruct Hstart as (Hls & Hlh & Hlp & Hlu).
  assert (Hle : endsNonWs l = true) by (apply (endsNonWs_app k [COLON]); reflexivity).
  assert (Hlt : trim l = l) by (apply trim_id; assumption).
  unfold blankOrComment, lineIndentOf.
  rewrite Hlt, (trimStart_id l Hls), Nat.sub_diag.
  change (lit "#") with [HASH]. change (lit "|") with [PIPE].
  change (lit ":") with [COLON]. rewrite Hlh, Hlp, Hlu.
  replace (eqb l (lit "")) with false
    by (symmetry; apply eqb_neq; subst l; destruct k; discriminate).
  repeat split.
  - subst l. change [COLON] with (COLON :: []) at 1. apply indexOf_first, Hcolon.
  - subst l. rewrite slice_prefix. exact Htrim.
  - subst l.
    replace (Z.of_nat (length k) + 1)%Z with (Z.of_nat (length (k ++ [COLON])))
      by (rewrite length_app; simpl; lia).
    rewrite <- (app_nil_r (k ++ [COLON])) at 1. rewrite slice_from_suffix.
    reflexivity.
  - subst l. intros H. apply in_app_iff in H as [H | [H | []]];
      [contradiction | discriminate H].
  - subst l. intros H. apply in_app_iff in H as [H | [H | []]];
      [contradiction | discriminate H].
Qed.

(** C2, amended: for every non-empty array of objects which all have
    exactly the keys of the first one, these keys being at least one and
    plain column names (no white space at the ends, no pipe or line break,
    not [__proto__]), and whose values are round-trip primitives without a
    pipe, and for every plain key [k] other than [_]: decoding the text that
    [encode] writes for [{k: arr}] without compact mode returns [{k: arr'}],
    where [arr'] is [arr] with the keys of every row in the order of the
    first row and every empty string replaced by [null]; a row that already
    has its keys in that order and no empty string is returned as it is. *)
Theorem table_roundtrip k first rest encodeOptions options :
  let headers := ObjectKeys first in
  is_true (compact encodeOptions) = false ->
  plainKey k = true -> k <> lit "_" ->
  headers <> [] -> Forall (fun h => tableKey h = true) headers ->
  Forall (tableRow headers) (first :: rest) ->
  decode (encode (JObj [(k, JArr (first :: rest))]) encodeOptions) options
  = Some (JObj [(k, JArr (map (rowInHeaderOrder headers) (first :: rest)))])
  /\ (forall fields,
        map fst fields = headers -> NoDup headers ->
        Forall (fun kv => snd kv <> JStr (lit "")) fields ->
        rowInHeaderOrder headers (JObj fields) = JObj fields).
Proof.
  intros headers Hc Hk Hu Hne Hkeys Hrows.
  split; [|intros fields <- Hnd Hvals; apply rowInHeaderOrder_same; assumption].
  destruct (isTableArray_rows first rest Hrows) as [Htable Hprim].
  rewrite (encode_table k first rest encodeOptions Htable Hprim).
  set (opts := {| enc_indent := _; compact := _; sortKeys := _ |}).
  assert (Hc' : is_true (compact opts) = false)
    by (subst opts; cbn [compact]; rewrite is_true_or_default; exact Hc).
  assert (Hnd : NoDup headers).
  { inversion Hrows as [|? ? Hfirst _]; subst.
    destruct first; try contradiction. apply Hfirst. }
  assert (Hproto : ~ In (lit "__proto__") headers).
  { intros H. rewrite Forall_forall in Hkeys.
    destruct (tableKey_facts _ (Hkeys _ H)) as (_ & _ & _ & _ & E).
    apply E; reflexivity. }
  unfold tableDocument. cbn [hd]. fold headers.
  set (arr := first :: rest) in *.
  set (base := repeat_str (repeat_str (lit " ") (indent_unit opts)) 1).
  set (rows := map (cellsOf opts headers) arr).
  set (widths := getColumnWidths headers rows).
  set (hline := tableLine base (padCells headers widths)).
  set (rlines := map (fun row => tableLine base (padCells row widths)) rows).
  assert (Hb : forallb isWhiteSpace base = true).
  { subst base. cbn [repeat_str]. rewrite app_nil_r. apply forallb_ws_spaces. }
  assert (Hbl : 0 < length base).
  { subst base. cbn [repeat_str]. rewrite app_nil_r, repeat_str_spaces_length.
    apply indent_unit_pos. }
  assert (Hbase : forall x, In x base -> x = SPACE).
  { subst base. cbn [repeat_str]. rewrite app_nil_r. intros x. apply In_spaces. }
  (* the header *)
  assert (Hhp : Forall (fun c => ~ In PIPE c) headers)
    by (eapply Forall_impl; [|exact Hkeys]; intros h Hh;
        apply (tableKey_facts h Hh)).
  assert (Hht : Forall (fun c => trim c = c) headers)
    by (eapply Forall_impl; [|exact Hkeys]; intros h Hh;
        apply (tableKey_facts h Hh)).
  assert (Hhn : Forall (fun c => ~ In NEWLINE c /\ ~ In CR c) headers)
    by (eapply Forall_impl; [|exact Hkeys]; intros h Hh;
        destruct (tableKey_facts h Hh) as (_ & _ & ? & ? & _); auto).
  (* the rows *)
  assert (Hgood : forall row, In row arr ->
            Forall (fun c => ~ In PIPE c) (cellsOf opts headers row) /\
            Forall (fun c => trim c = c) (cellsOf opts headers row) /\
            Forall (fun c => ~ In NEWLINE c /\ ~ In CR c) (cellsOf opts headers row) /\
            JObj (combine headers (map parsePrimitive (cellsOf opts headers row)))
            = rowInHeaderOrder headers row).
  { intros row Hrow. apply cellsOf_good; [exact Hc'|].
    rewrite Forall_forall in Hrows. apply Hrows, Hrow. }
  assert (Hcne : forall row, cellsOf opts headers row <> []).
  { intros row E. apply Hne. apply length_zero_iff_nil.
    rewrite <- (cellsOf_length opts headers row), E. reflexivity. }
  (* the lines have no line break *)
  assert (Hline : forall cells,
            Forall (fun c => ~ In NEWLINE c /\ ~ In CR c) cells ->
            ~ In NEWLINE (tableLine base (padCells cells widths))
            /\ ~ In CR (tableLine base (padCells cells widths))).
  { intros cells Hcells.
    assert (F1 : Forall (fun c => ~ In NEWLINE c) (padCells cells widths))
      by (apply padCells_free; [discriminate|];
          eapply Forall_impl; [|exact Hcells]; intros ? [? ?]; assumption).
    assert (F2 : Forall (fun c => ~ In CR c) (padCells cells widths))
      by (apply padCells_free; [discriminate|];
          eapply Forall_impl; [|exact Hcells]; intros ? [? ?]; assumption).
    rewrite Forall_forall in F1, F2.
    split; intros H; apply In_tableLine in H as [H | [H | (c & Hin & H)]];
      try (apply Hbase in H; discriminate H);
      try (destruct H as [H | [H | []]]; discriminate H).
    - exact (F1 c Hin H).
    - exact (F2 c Hin H). }
  destruct (bare_key_line k Hk Hu)
    as (Kblank & Kindent & Ktrim & Kpipe & Kroot & Kindex & Kkey & Kvalue
        & Knl & Kcr).
  set (lines := (k ++ [COLON]) :: hline :: rlines).
  assert (Htext : Forall (fun l => ~ In NEWLINE l /\ ~ In CR l) lines).
  { subst lines. constructor; [split; assumption|].
    constructor; [apply Hline, Hhn|].
    subst rlines rows. rewrite map_map. apply Forall_map, Forall_forall.
    intros row Hrow. apply Hline. apply (Hgood row Hrow). }
  unfold decode, normalizeNewlines.
  assert (Hcr : ~ In CR (join [NEWLINE] lines)).
  { intros H. apply In_join in H as [[H | []] | (x & Hx & H)]; [discriminate H|].
    rewrite Forall_forall in Htext. exact (proj2 (Htext x Hx) H). }
  rewrite (replaceAll_absent CR [NEWLINE] [NEWLINE] _ Hcr).
  rewrite (replaceAll_absent CR [] [NEWLINE] _ Hcr).
  rewrite split_join; [|discriminate|].
  2:{ eapply Forall_impl; [|exact Htext]. intros l Hl. exact (proj1 Hl). }
  (* the table sub-parser on the lines *)
  destruct (tableLine_shape base (padCells headers widths) Hb)
    as (Htrimh & Hindh & Hpipeh).
  fold hline in Htrimh, Hindh, Hpipeh.
  assert (Hheaders : map trim (tableCells (trim hline)) = headers)
    by (apply tableLine_cells; assumption).
  assert (Hrowsparsed :
            flat_map (rowOf headers) rlines = map (rowInHeaderOrder headers) arr).
  { subst rlines rows. rewrite map_map.
    assert (G : forall sub, (forall row, In row sub -> In row arr) ->
              flat_map (rowOf headers)
                (map (fun row => tableLine base
                                   (padCells (cellsOf opts headers row) widths)) sub)
              = map (rowInHeaderOrder headers) sub).
    { induction sub as [|row sub IH]; intros Hsub; [reflexivity|].
      cbn [map]. rewrite flat_map_step.
      destruct (Hgood row (Hsub row (or_introl eq_refl))) as (G1 & G2 & _ & G4).
      rewrite rowOf_tableLine; try assumption;
        [|apply Hcne | apply cellsOf_length].
      rewrite G4, IH; [reflexivity|].
      intros r Hr. apply Hsub. right; exact Hr. }
    apply G. auto. }
  assert (Hall : forallb (isTableLine (length base)) rlines = true).
  { apply forallb_forall. intros l Hl. subst rlines.
    apply in_map_iff in Hl as (row & <- & _).
    apply isTableLine_tableLine, Hb. }
  assert (Htable' : parseTable lines 1 (length base)
                    = Some (map (rowInHeaderOrder headers) arr,
                            1 + length rlines)).
  { unfold parseTable. subst lines. cbn [nth_error skipn].
    rewrite Hpipeh. cbn [negb].
    rewrite Hheaders, parseTable_rows_plain by exact (tableKeys_plain _ Hkeys).
    rewrite (takeWhile_all _ _ Hall), Hrowsparsed. cbn [app].
    repeat f_equal; lia. }
  (* the document *)
  assert (Hblankh : eqb (trim hline) (lit "") = false).
  { apply eqb_neq. intros E. rewrite E in Hpipeh. discriminate Hpipeh. }
  assert (Hallb : forallb blankOrComment lines = false)
    by (subst lines; cbn [forallb]; rewrite Kblank; reflexivity).
  assert (Hskip : skipBlankOrComment lines 0 = 0)
    by (subst lines; cbn [skipBlankOrComment]; rewrite Kblank; reflexivity).
  assert (Hnth0 : nth_error lines 0 = Some (k ++ [COLON])) by reflexivity.
  assert (Hnth1 : nth_error lines 1 = Some hline) by reflexivity.
  assert (Hskip1 : skipBlank (skipn 1 lines) 1 = 1)
    by (subst lines; cbn [skipn skipBlank]; rewrite Hblankh; reflexivity).
  assert (Hend : nth_error lines (1 + length rlines + 1) = None)
    by (apply nth_error_None; subst lines; simpl; lia).
  rewrite Hallb, Hskip, Hnth0, Ktrim, Kpipe, Kroot.
  unfold parseDocument. rewrite Nat.sub_0_r.
  remember (length lines) as fuel eqn:Efuel.
  cbn [parseDocument_loop].
  rewrite Hnth0, Kblank, Kindent, Ktrim, Kpipe, Kindex, Kkey, Kvalue.
  replace (Z.of_nat (length k) =? -1)%Z with false
    by (symmetry; apply Z.eqb_neq; lia).
  change (0 <? 0) with false. change (eqb [] (lit "")) with true.
  cbn [orb]. cbv iota.
  rewrite Hskip1, Hnth1, Hindh, Hpipeh.
  replace (0 <? length base) with true by (symmetry; apply Nat.ltb_lt; exact Hbl).
  cbn [andb]. rewrite Htable', set_property_plain by exact Hk.
  replace fuel with (S (S (length rlines))) by (subst fuel; reflexivity).
  remember (S (length rlines)) as fuel' eqn:Efuel'.
  cbn [parseDocument_loop]. rewrite Hend.
  cbn [option_map fst]. unfold assigned.
  destruct (plainKey_facts k Hk) as (_ & _ & _ & _ & _ & _ & Hkp).
  apply eqb_neq in Hkp. rewrite Hkp. reflexivity.
Qed.

End Facts.

(** * Further properties of the encoder, the decoder and the validator *)

(** ** Compact mode and the options of the decoder *)

Section StatusWords.

Context {host : JSHost}.


(** X3: [decode] returns the same result for the same text whatever its
    options are: neither [strict] nor [indent] is read. *)
Theorem decode_ignores_options (text : jsstring) (o1 o2 : DecodeOptions) :
  decode text o1 = decode text o2.
Proof.
  unfold decode, parseDocument.
  destruct (forallb blankOrComment _); [reflexivity|].
  destruct (nth_error _ _) as [first|]; [|reflexivity].
  destruct (startsWith (lit "|") (trim first)); [reflexivity|].
  destruct (startsWith (lit "_:") (trim first)); [reflexivity|].
  f_equal. apply parseDocument_loop_options.
Qed.

End StatusWords.

(** ** Line endings and the values of [parsePrimitive] *)

Lemma replaceAll_absent_second (a b : char) (rep s : jsstring) :
  ~ In b s -> replaceAll [a; b] rep s = s.
Proof.
  induction s as [|x s IH]; intros H; [reflexivity|].
  rewrite replaceAll_two.
  replace (startsWith [b] s) with false.
  - rewrite andb_false_r, IH; [reflexivity|]. intros Hb. apply H. right. exact Hb.
  - symmetry. apply startsWith_absent. intros Hb. apply H. right. exact Hb.
Qed.

Lemma normalizeNewlines_crlf (text : jsstring) :
  ~ In CR text ->
  normalizeNewlines (replaceAll [NEWLINE] [CR; NEWLINE] text) = text.
Proof.
  intros H. unfold normalizeNewlines.
  assert (E : replaceAll [CR; NEWLINE] [NEWLINE]
                (replaceAll [NEWLINE] [CR; NEWLINE] text) = text).
  { rewrite replaceAll_char. induction text as [|c s IH]; [reflexivity|].
    cbn [flat_map].
    assert (Hs : ~ In CR s) by (intros Hs; apply H; right; exact Hs).
    destruct (N.eqb_spec c NEWLINE) as [->|Hc].
    - cbn [app]. rewrite replaceAll_two. cbn [startsWith]. rewrite !N.eqb_refl.
      cbn [andb tl app]. rewrite (IH Hs). reflexivity.
    - cbn [app]. rewrite replaceAll_two.
      replace (CR =? c)%N with false.
      + cbn [andb]. rewrite (IH Hs). reflexivity.
      + symmetry. apply N.eqb_neq. intros <-. apply H. left. reflexivity. }
  rewrite E. apply replaceAll_absent, H.
Qed.

Lemma normalizeNewlines_cr (text : jsstring) :
  ~ In CR text ->
  normalizeNewlines (replaceAll [NEWLINE] [CR] text) = text.
Proof.
  intros H. unfold normalizeNewlines.
  rewrite replaceAll_absent_second.
  - rewrite !replaceAll_char. induction text as [|c s IH]; [reflexivity|].
    assert (Hs : ~ In CR s) by (intros Hs; apply H; right; exact Hs).
    cbn [flat_map]. rewrite flat_map_app, (IH Hs).
    destruct (N.eqb_spec c NEWLINE) as [->|Hc]; [reflexivity|].
    cbn [flat_map app].
    replace (c =? CR)%N with false; [reflexivity|].
    symmetry. apply N.eqb_neq. intros ->. apply H. left. reflexivity.
  - intros Hn. apply replaceAll_char_In in Hn as [[Hn | []] | [_ Hn]];
      [discriminate Hn | apply Hn; reflexivity].
Qed.

Section LineEndings.

Context {host : JSHost}.

(** X4: for a text without carriage returns, writing every line feed as a
    carriage return and a line feed, or as a carriage return alone, changes
    neither the result of [decode] nor the result of [validate]. *)
Theorem line_endings_do_not_matter (text : jsstring) (options : DecodeOptions) :
  ~ In CR text ->
  let crlf := replaceAll [NEWLINE] [CR; NEWLINE] text in
  let cr := replaceAll [NEWLINE] [CR] text in
  decode crlf options = decode text options /\
  decode cr options = decode text options /\
  validate crlf = validate text /\
  validate cr = validate text.
Proof.
  intros H crlf cr.
  assert (E0 : normalizeNewlines text = text).
  { unfold normalizeNewlines.
    rewrite (replaceAll_absent CR [NEWLINE]), (replaceAll_absent CR []) by exact H.
    reflexivity. }
  assert (E1 : normalizeNewlines crlf = normalizeNewlines text)
    by (rewrite E0; apply normalizeNewlines_crlf, H).
  assert (E2 : normalizeNewlines cr = normalizeNewlines text)
    by (rewrite E0; apply normalizeNewlines_cr, H).
  unfold decode, validate. rewrite E1, E2. repeat split; reflexivity.
Qed.

(** X5: when the trimmed text is the name of a member of
    [Object.prototype], [parsePrimitive] returns that member, which the
    lookup in [REVERSE_SYMBOLS] finds; for every other text it returns a
    primitive. *)
Theorem parsePrimitive_result (s : jsstring) :
  (In (trim s) prototype_members -> parsePrimitive s = JInherited (trim s)) /\
  (~ In (trim s) prototype_members -> isPrimitive (parsePrimitive s) = true).
Proof.
  unfold parsePrimitive. split.
  - intros H. cbn [prototype_members In] in H.
    repeat (destruct H as [H | H]; [rewrite <- H; reflexivity|]).
    destruct H.
  - intros H.
    destruct (eqb (trim s) (lit "null") || eqb (trim s) (lit "-")
              || eqb (trim s) (lit "")); [reflexivity|].
    destruct (eqb (trim s) (lit "true")); [reflexivity|].
    destruct (eqb (trim s) (lit "false")); [reflexivity|].
    unfold get_property.
    destruct (own_property REVERSE_SYMBOLS (trim s)) as [v|] eqn:E.
    + revert E. cbn [own_property REVERSE_SYMBOLS].
      repeat match goal with
             | |- context [eqb ?a ?b] => destruct (eqb a b)
             end; intros E; inversion E; reflexivity.
    + destruct (existsb (eqb (trim s)) prototype_members) eqn:Ep.
      * exfalso. apply H. apply existsb_exists in Ep as (x & Hx & Ex).
        apply eqb_eq in Ex. subst x. exact Hx.
      * destruct (startsWith [QUOTE] (trim s) && endsWith [QUOTE] (trim s));
          [reflexivity|].
        destruct (number_re (trim s) && Number_isFinite (Number_ofString (trim s)));
          reflexivity.
Qed.

End LineEndings.

(** ** The errors of the validator *)

Section ErrorPlaces.

Context {host : JSHost}.

Lemma StronglySorted_app_one (l : list nat) (x : nat) :
  StronglySorted le l -> Forall (fun y => y <= x) l ->
  StronglySorted le (l ++ [x]).
Proof.
  induction 1 as [|y l Hs IH Hy]; intros Hx; cbn [app].
  - constructor; constructor.
  - inversion Hx; subst. constructor; [apply IH; assumption|].
    apply Forall_app. split; [exact Hy|]. constructor; [assumption|constructor].
Qed.

Lemma errorsUpTo_next lines i errs :
  errorsUpTo lines i errs -> errorsUpTo lines (S i) errs.
Proof.
  intros (H1 & H2 & H3). repeat split; [exact H1| |exact H3].
  revert H2. apply Forall_impl. intros; lia.
Qed.

Lemma errorsUpTo_push lines i l errs (b : bool) (e : ValidationError) :
  nth_error lines i = Some l -> blankOrComment l = false ->
  line e = i + 1 -> context e = l -> 1 <= column e ->
  errorsUpTo lines (S i) errs ->
  errorsUpTo lines (S i) (if b then errs ++ [e] else errs).
Proof.
  intros Hl Hb E1 E2 E3 (H1 & H2 & H3). destruct b; [|repeat split; assumption].
  repeat split.
  - apply Forall_app. split; [exact H1|]. constructor; [|constructor].
    unfold errorAtLine. rewrite E1, E2.
    replace (i + 1 - 1) with i by lia.
    assert (i < length lines) by (apply nth_error_Some; congruence).
    repeat split; try lia; assumption.
  - apply Forall_app. split; [exact H2|]. constructor; [lia|constructor].
  - rewrite map_app. cbn [map]. apply StronglySorted_app_one; [exact H3|].
    rewrite Forall_map. revert H2. apply Forall_impl. intros; lia.
Qed.

Lemma validate_loop_errors (lines : list jsstring) :
  forall rest i inTable tableColumns errs,
    skipn i lines = rest ->
    errorsUpTo lines i errs ->
    exists j, errorsUpTo lines j (validate_loop rest i inTable tableColumns errs).
Proof.
  induction rest as [|l rest IH]; intros i inTable cols errs Hskip H.
  - exists i. exact H.
  - assert (Hl : nth_error lines i = Some l).
    { rewrite <- (Nat.add_0_r i), <- nth_error_skipn, Hskip. reflexivity. }
    assert (Hrest : skipn (S i) lines = rest).
    { change (S i) with (1 + i). rewrite <- skipn_skipn, Hskip. reflexivity. }
    apply errorsUpTo_next in H.
    cbn [validate_loop].
    destruct (eqb (trim l) (lit "") || startsWith (lit "#") (trim l)) eqn:Hb.
    { apply IH; assumption. }
    assert (H1 := errorsUpTo_push lines i l errs
                    (negb (lineIndentOf l mod 2 =? 0))
                    (indentationError (i + 1) (lineIndentOf l) l)
                    Hl Hb eq_refl eq_refl (le_n 1) H).
    destruct (startsWith (lit "|") (trim l)) eqn:Hp; [|apply IH; assumption].
    assert (Hlen : 1 <= length (trim l)).
    { destruct (trim l); [discriminate Hp | cbn [length]; lia]. }
    apply IH; [assumption|].
    apply (errorsUpTo_push lines i l _ (negb (endsWith (lit "|") (trim l)))
             (terminatorError (i + 1) (trim l) l) Hl Hb eq_refl eq_refl Hlen).
    destruct (negb inTable); [exact H1|].
    set (pipes := (Z.of_nat (length (split (lit "|") (trim l))) - 1)%Z).
    apply (errorsUpTo_push lines i l _ (negb (pipes =? cols)%Z)
             (columnError (i + 1) cols pipes l)
             Hl Hb eq_refl eq_refl (le_n 1) H1).
Qed.

(** X6: every error [validate] reports has the number of a line of the
    input, which is neither blank nor a comment, and that line as its
    context; the errors are in the order of their lines. *)
Theorem validate_errors_point_at_lines (input : jsstring) :
  let lines := split [NEWLINE] (normalizeNewlines input) in
  Forall (errorAtLine lines) (errors (validate input)) /\
  StronglySorted le (map line (errors (validate input))).
Proof.
  intros lines. unfold validate. cbn [errors].
  destruct (validate_loop_errors lines lines 0 false 0%Z [] eq_refl)
    as (j & H1 & _ & H3); [repeat split; constructor|].
  split; assumption.
Qed.

End ErrorPlaces.

(** ** Table arrays and sorted keys *)

Lemma insert_sorted_perm (x : jsstring) (l : list jsstring) :
  Permutation (insert_sorted x l) (x :: l).
Proof.
  induction l as [|y l IH]; cbn [insert_sorted]; [reflexivity|].
  destruct (str_leb x y); [reflexivity|].
  rewrite IH. apply perm_swap.
Qed.

Lemma sort_perm (l : list jsstring) : Permutation (sort l) l.
Proof.
  unfold sort. induction l as [|x l IH]; cbn [fold_right]; [reflexivity|].
  rewrite insert_sorted_perm. apply perm_skip, IH.
Qed.

Lemma sort_eq_iff (a b : list jsstring) : sort a = sort b <-> Permutation a b.
Proof.
  split; [|apply sort_permutation].
  intros E. rewrite <- (sort_perm a), E. apply sort_perm.
Qed.

Lemma join_nil_inv (c : char) (l : list jsstring) :
  Forall (fun k => k <> []) l -> join [c] l = [] -> l = [].
Proof.
  destruct l as [|x l]; [reflexivity|]. intros H E. exfalso.
  inversion H as [|? ? Hx _]; subst. apply Hx.
  destruct l; cbn [join] in E; [exact E|].
  apply app_eq_nil in E. apply E.
Qed.

Lemma join_inj (c : char) (a b : list jsstring) :
  Forall (fun k => k <> [] /\ ~ In c k) a ->
  Forall (fun k => k <> [] /\ ~ In c k) b ->
  join [c] a = join [c] b -> a = b.
Proof.
  intros Ha Hb E.
  assert (Na : Forall (fun k : jsstring => k <> []) a)
    by (revert Ha; apply Forall_impl; intros ? [? ?]; assumption).
  assert (Nb : Forall (fun k : jsstring => k <> []) b)
    by (revert Hb; apply Forall_impl; intros ? [? ?]; assumption).
  destruct a as [|x a].
  - symmetry. apply (join_nil_inv c b Nb). rewrite <- E. reflexivity.
  - destruct b as [|y b].
    + apply (join_nil_inv c _ Na). rewrite E. reflexivity.
    + rewrite <- (split_join c (x :: a)), <- (split_join c (y :: b)), E;
        try discriminate; [reflexivity| |].
      * revert Hb. apply Forall_impl. intros ? [? ?]; assumption.
      * revert Ha. apply Forall_impl. intros ? [? ?]; assumption.
Qed.

Lemma flat_map_ext_In {A B} (f g : A -> list B) (l : list A) :
  (forall x, In x l -> f x = g x) -> flat_map f l = flat_map g l.
Proof.
  induction l as [|x l IH]; intros H; [reflexivity|].
  cbn [flat_map]. rewrite (H x (or_introl eq_refl)), IH; [reflexivity|].
  intros y Hy. apply H. right. exact Hy.
Qed.

Section TableArrays.

Context {host : JSHost}.

Lemma commaFreeKeys_sort (item : JsonValue) :
  commaFreeKeys item ->
  Forall (fun k => k <> [] /\ ~ In COMMA k) (sort (ObjectKeys item)).
Proof.
  unfold commaFreeKeys. rewrite !Forall_forall. intros H k Hk. apply H.
  apply (Permutation_in k (sort_perm _) Hk).
Qed.

(** X7: when no key of its elements is empty or has a comma,
    [isTableArray arr] holds exactly when [arr] is not empty and every
    element is a plain object with the keys of the first element, in any
    order, and with primitive values only. *)
Theorem isTableArray_iff (arr : list JsonValue) :
  Forall commaFreeKeys arr ->
  (isTableArray arr = true <->
   arr <> [] /\
   Forall (fun item =>
             isPlainObject item = true
             /\ Permutation (ObjectKeys item) (ObjectKeys (hd JNull arr))
             /\ Forall (fun v => isPrimitive v = true) (ObjectValues item))
          arr).
Proof.
  intros Hkeys. destruct arr as [|first rest].
  { split; [discriminate | intros [H _]; contradiction]. }
  cbn [hd]. unfold isTableArray.
  set (arr := first :: rest) in *.
  assert (Hfirst : commaFreeKeys first) by (inversion Hkeys; assumption).
  split.
  - intros H.
    destruct (forallb isPlainObject arr) eqn:E1; [|discriminate H].
    cbn [negb] in H.
    destruct (forallb _ arr) eqn:E2 in H; [|discriminate H].
    cbn [negb] in H.
    split; [discriminate|].
    rewrite forallb_forall in E1, E2, H. apply Forall_forall. intros item Hi.
    repeat split.
    + apply E1, Hi.
    + apply sort_eq_iff. specialize (E2 item Hi). apply eqb_eq in E2.
      apply (join_inj COMMA); [| |exact E2]; apply commaFreeKeys_sort;
        [|exact Hfirst].
      rewrite Forall_forall in Hkeys. apply Hkeys, Hi.
    + apply Forall_forall. intros v Hv.
      specialize (H item Hi). rewrite forallb_forall in H. apply H, Hv.
  - intros [_ H]. rewrite Forall_forall in H.
    replace (forallb isPlainObject arr) with true.
    2:{ symmetry. apply forallb_forall. intros item Hi. apply (H item Hi). }
    cbn [negb].
    match goal with
    | |- (if negb ?b then _ else _) = _ => replace b with true
    end.
    2:{ symmetry. apply forallb_forall. intros item Hi. apply eqb_eq.
        f_equal. apply sort_permutation. apply (H item Hi). }
    cbn [negb]. apply forallb_forall. intros item Hi.
    apply forallb_forall. intros v Hv.
    destruct (H item Hi) as (_ & _ & Hp). rewrite Forall_forall in Hp.
    apply Hp, Hv.
Qed.

(** X8: with [sortKeys], the text of an object does not depend on the
    order of its keys. *)
Theorem sortKeys_ignores_key_order fields fields' options indentLevel :
  is_true (sortKeys options) = true ->
  NoDup (map fst fields) -> Permutation fields fields' ->
  encodeValue (JObj fields) options indentLevel
  = encodeValue (JObj fields') options indentLevel
  /\ encode (JObj fields) options = encode (JObj fields') options.
Proof.
  intros Hs Hnd Hp.
  assert (Hnd' : NoDup (map fst fields'))
    by (apply (Permutation_NoDup (Permutation_map fst Hp) Hnd)).
  assert (Hk : sort (map fst fields) = sort (map fst fields'))
    by (apply sort_permutation, Permutation_map, Hp).
  assert (G : forall opts level,
             is_true (sortKeys opts) = true ->
             encodeValue (JObj fields) opts level
             = encodeValue (JObj fields') opts level).
  { intros opts level Hso. cbn [encodeValue]. rewrite Hso, <- Hk.
    destruct (sort (map fst fields)) as [|k0 ks] eqn:Ek; [reflexivity|].
    f_equal. apply flat_map_ext_In. intros key Hkey.
    assert (Hin : In key (map fst fields)).
    { apply (Permutation_in key (sort_perm _)). rewrite Ek. exact Hkey. }
    apply in_map_iff in Hin as (kv & <- & Hkv).
    rewrite (lines_of_map _ fields kv Hnd Hkv).
    rewrite (lines_of_map _ fields' kv Hnd' (Permutation_in kv Hp Hkv)).
    reflexivity. }
  split; [apply G, Hs|].
  unfold encode. apply G. cbn [sortKeys].
  destruct (sortKeys options) as [[|]|]; try discriminate Hs. reflexivity.
Qed.

End TableArrays.

(** ** The columns of a table *)

Lemma widen_length (widths : list nat) (row : list jsstring) :
  length row = length widths -> length (widen widths row) = length widths.
Proof.
  revert row. induction widths as [|w ws IH]; destruct row as [|c cs];
    cbn [length widen]; try discriminate; [reflexivity|].
  intros H. rewrite IH; [reflexivity | lia].
Qed.

Lemma widen_fits_row (widths : list nat) (row : list jsstring) :
  length row = length widths -> fitsIn row (widen widths row).
Proof.
  revert row. induction widths as [|w ws IH]; destruct row as [|c cs];
    cbn [length widen]; try discriminate; [constructor|].
  intros H. constructor; [lia | apply IH; lia].
Qed.

Lemma widen_fits (widths : list nat) (row cells : list jsstring) :
  length row = length widths -> fitsIn cells widths ->
  fitsIn cells (widen widths row).
Proof.
  intros Hlen Hfit. revert row Hlen.
  induction Hfit as [|c w cells ws Hc Hfit IH]; intros row Hlen;
    destruct row as [|r rs]; cbn [length widen] in *; try discriminate;
    [constructor|].
  constructor; [lia | apply IH; lia].
Qed.

Lemma getColumnWidths_fits (rows : list (list jsstring)) :
  forall widths cells,
    Forall (fun row => length row = length widths) rows ->
    fitsIn cells widths \/ In cells rows ->
    fitsIn cells (fold_left widen rows widths)
    /\ length (fold_left widen rows widths) = length widths.
Proof.
  induction rows as [|row rows IH]; intros widths cells Hlen H.
  - cbn [fold_left]. destruct H as [H | []]. split; [exact H | reflexivity].
  - inversion Hlen as [|? ? Hrow Hrows]; subst. cbn [fold_left].
    assert (Hw := widen_length widths row Hrow).
    destruct (IH (widen widths row) cells) as [F L].
    + revert Hrows. apply Forall_impl. intros r Hr. congruence.
    + destruct H as [H | [<- | H]].
      * left. apply widen_fits; assumption.
      * left. apply widen_fits_row, Hrow.
      * right. exact H.
    + split; [exact F | congruence].
Qed.

Lemma padCells_widths (cells : list jsstring) (widths : list nat) :
  fitsIn cells widths -> map (@length char) (padCells cells widths) = widths.
Proof.
  induction 1 as [|c w cells ws Hc Hfit IH]; [reflexivity|].
  cbn [padCells map hd tl]. rewrite IH. f_equal.
  unfold padCell. rewrite length_app, repeat_str_spaces_length. lia.
Qed.

Lemma join_length (sep : jsstring) (a b : list jsstring) :
  map (@length char) a = map (@length char) b ->
  length (join sep a) = length (join sep b).
Proof.
  revert b. induction a as [|x a IH]; destruct b as [|y b]; cbn [map];
    try discriminate; [reflexivity|].
  intros H. injection H as Hx Hab. specialize (IH b Hab).
  destruct a as [|x' a], b as [|y' b]; try discriminate Hab;
    [exact Hx|].
  change (join sep (x :: x' :: a)) with (x ++ sep ++ join sep (x' :: a)).
  change (join sep (y :: y' :: b)) with (y ++ sep ++ join sep (y' :: b)).
  rewrite !length_app, Hx, IH. reflexivity.
Qed.

Lemma tableLine_length (base : jsstring) (a b : list jsstring) :
  map (@length char) a = map (@length char) b ->
  length (tableLine base a) = length (tableLine base b).
Proof.
  intros H. unfold tableLine. rewrite !length_app, (join_length _ a b H).
  reflexivity.
Qed.

Section Columns.

Context {host : JSHost}.

(** X9: without compact mode, for an array that [isTableArray] accepts (the
    arrays [encodeValue] passes on), [encodeTable] writes a header line and
    a line for every element, and the cells of a column have the same length
    in all of them; so all lines of the table have the same length. *)
Theorem table_columns_aligned (first : JsonValue) (rest : list JsonValue)
  (options : EncodeOptions) (indentLevel : nat) :
  is_true (compact options) = false ->
  isTableArray (first :: rest) = true ->
  exists (base : jsstring) (widths : list nat) (rows : list (list jsstring)),
    encodeTable (first :: rest) options indentLevel
    = join [NEWLINE] (map (tableLine base) rows) /\
    length rows = 2 + length rest /\
    Forall (fun cells => map (@length char) cells = widths) rows /\
    (forall r1 r2, In r1 rows -> In r2 rows ->
                   length (tableLine base r1) = length (tableLine base r2)).
Proof.
  intros _ _.
  set (arr := first :: rest).
  set (headers := ObjectKeys first).
  set (cellrows :=
         map (fun obj => map (fun h => formatCell (ObjectGet obj h) options) headers)
             arr).
  set (widths := getColumnWidths headers cellrows).
  exists (repeat_str (repeat_str (lit " ") (indent_unit options)) indentLevel),
    widths,
    (padCells headers widths :: map (fun row => padCells row widths) cellrows).
  assert (Hlen : Forall (fun row : list jsstring =>
                           length row = length (map (@length char) headers))
                        cellrows).
  { subst cellrows. apply Forall_map, Forall_forall. intros obj _.
    rewrite !length_map. reflexivity. }
  assert (Hh : fitsIn headers widths).
  { apply getColumnWidths_fits; [exact Hlen|]. left.
    clear. induction headers as [|h hs IH]; constructor; [cbn; lia | exact IH]. }
  assert (Hr : forall row, In row cellrows -> fitsIn row widths).
  { intros row Hrow. apply getColumnWidths_fits; [exact Hlen|]. right. exact Hrow. }
  assert (Hall : Forall (fun cells => map (@length char) cells = widths)
                   (padCells headers widths
                      :: map (fun row => padCells row widths) cellrows)).
  { constructor; [apply padCells_widths, Hh|].
    apply Forall_map, Forall_forall. intros row Hrow.
    apply padCells_widths, Hr, Hrow. }
  repeat split.
  - unfold encodeTable. cbn [map]. rewrite map_map. reflexivity.
  - cbn [length]. subst cellrows arr. rewrite !length_map. reflexivity.
  - exact Hall.
  - intros r1 r2 H1 H2. apply tableLine_length.
    rewrite Forall_forall in Hall. rewrite (Hall r1 H1), (Hall r2 H2).
    reflexivity.
Qed.

End Columns.

(** ** The lines of a document *)

Lemma join_cons (sep x : jsstring) (l : list jsstring) :
  l <> [] -> join sep (x :: l) = x ++ sep ++ join sep l.
Proof. destruct l; [congruence | reflexivity]. Qed.

Lemma join_app (sep : jsstring) (a b : list jsstring) :
  a <> [] -> b <> [] -> join sep (a ++ b) = join sep a ++ sep ++ join sep b.
Proof.
  induction a as [|x a IH]; intros Ha Hb; [congruence|].
  destruct a as [|y a].
  - cbn [app]. apply join_cons, Hb.
  - change ((x :: y :: a) ++ b) with (x :: ((y :: a) ++ b)).
    rewrite (join_cons sep x ((y :: a) ++ b)) by discriminate.
    rewrite IH by (discriminate || exact Hb).
    rewrite (join_cons sep x (y :: a)) by discriminate.
    rewrite <- !app_assoc. reflexivity.
Qed.

Lemma join_two_lines (sep : jsstring) (l : list jsstring) :
  2 <= length l -> exists x rest, rest <> [] /\ join sep l = x ++ sep ++ join sep rest.
Proof.
  destruct l as [|x [|y l]]; cbn [length]; try lia. intros _.
  exists x, (y :: l). split; [discriminate | reflexivity].
Qed.

Section DocumentText.

Context {host : JSHost}.

Lemma document_NoDup fields : document fields -> NoDup (map fst fields).
Proof.
  induction 1 as [|k v rest Hk Hin Hv Hrest IH]; cbn [map fst];
    constructor; assumption.
Qed.

Lemma docLines_cons options level k v rest :
  docLines options level (JObj ((k, v) :: rest))
  = docLines options level (JObj [(k, v)]) ++ docLines options level (JObj rest).
Proof. cbn [docLines flat_map]. rewrite app_nil_r. reflexivity. Qed.

Lemma docLines_scalar options level k v :
  isPrimitive v = true ->
  docLines options level (JObj [(k, v)])
  = [levelIndent options level ++ k ++ lit ": " ++ formatPrimitive v options false].
Proof. destruct v; try discriminate; reflexivity. Qed.

Lemma docLines_inline options level k items :
  items <> [] -> isPrimitiveArray items = true ->
  docLines options level (JObj [(k, JArr items)])
  = [levelIndent options level ++ k ++ lit ": " ++ inlineList items options].
Proof.
  destruct items as [|v items]; [congruence|]. intros _ H.
  cbn [isPrimitiveArray forallb] in H. apply andb_true_iff in H as [H _].
  destruct v; try discriminate; reflexivity.
Qed.

Lemma docLines_table options level k fields rest :
  docLines options level (JObj [(k, JArr (JObj fields :: rest))])
  = (levelIndent options level ++ k ++ lit ":")
      :: tableLines options (S level) (JObj fields :: rest).
Proof. cbn [docLines flat_map fst snd]. rewrite app_nil_r. reflexivity. Qed.

Lemma docLines_nested options level k fields :
  fields <> [] ->
  docLines options level (JObj [(k, JObj fields)])
  = (levelIndent options level ++ k ++ lit ":")
      :: docLines options (S level) (JObj fields).
Proof.
  destruct fields as [|kv fields]; [congruence|]. intros _.
  cbn [docLines flat_map fst snd]. rewrite !app_nil_r. reflexivity.
Qed.

Lemma encodeTable_lines options level first rest :
  encodeTable (first :: rest) options level
  = join [NEWLINE] (tableLines options level (first :: rest)).
Proof. reflexivity. Qed.

Lemma exactRow_tableRow headers row :
  NoDup headers -> exactRow headers row -> tableRow headers row.
Proof.
  destruct row as [| | | | |fields|]; try contradiction.
  intros Hnd [E H]. cbn [tableRow]. rewrite E. repeat split; [exact Hnd|reflexivity|].
  revert H. apply Forall_impl. intros kv (? & ? & _). auto.
Qed.

Lemma exactRows_tableRows first rest :
  NoDup (ObjectKeys first) ->
  Forall (exactRow (ObjectKeys first)) (first :: rest) ->
  Forall (tableRow (ObjectKeys first)) (first :: rest).
Proof.
  intros Hnd. apply Forall_impl. intros row. apply exactRow_tableRow, Hnd.
Qed.

Lemma inlineItems_primitive items :
  Forall inlineItem items -> isPrimitiveArray items = true.
Proof.
  intros H. apply forallb_forall. rewrite Forall_forall in H.
  intros v Hv. apply roundTripPrimitive_isPrimitive, (H v Hv).
Qed.

(** The lines of a field, as [fieldLines] gives them and as [docLines] lists
    them, are the same text. *)
Lemma fieldLines_docLines :
  (forall v, fieldValue v ->
     forall k options level,
       is_true (sortKeys options) = false ->
       let FL := fieldLines (fun w l => encodeValue w options l) options level k v in
       FL <> [] /\ docLines options level (JObj [(k, v)]) <> [] /\
       join [NEWLINE] FL = join [NEWLINE] (docLines options level (JObj [(k, v)]))
       /\ (blockValue v = true ->
           2 <= length (docLines options level (JObj [(k, v)])))) /\
  (forall fields, document fields ->
     forall options level,
       is_true (sortKeys options) = false ->
       let FL := flat_map
                   (fun kv => fieldLines (fun w l => encodeValue w options l)
                                options level (fst kv) (snd kv)) fields in
       join [NEWLINE] FL = join [NEWLINE] (docLines options level (JObj fields))
       /\ (fields <> [] -> FL <> [] /\ docLines options level (JObj fields) <> [])
       /\ length fields <= length (docLines options level (JObj fields))
       /\ ((exists k v, fields = [(k, v)] /\ blockValue v = true) ->
           2 <= length (docLines options level (JObj fields)))).
Proof.
  apply fieldValue_document_mutind.
  - (* scalar *)
    intros v H Hb k options level Hs.
    assert (Hp := roundTripPrimitive_isPrimitive v H).
    destruct v; try discriminate Hp; cbn; repeat split;
      try discriminate; try reflexivity.
  - intros k options level Hs. cbn. repeat split; try discriminate.
  - (* inline *)
    intros items Hlen Hitems _ k options level Hs.
    assert (Hp := inlineItems_primitive items Hitems).
    destruct items as [|v0 items]; [cbn [length] in Hlen; lia|].
    inversion Hitems as [|? ? (Hr & _) _]; subst.
    assert (Hp0 := roundTripPrimitive_isPrimitive v0 Hr).
    cbn [fieldLines docLines flat_map fst snd]. rewrite Hp.
    destruct v0; try discriminate Hp0; repeat split; try discriminate;
      try reflexivity.
  - (* table *)
    intros first rest Hne Hnd Hkeys Hrows k options level Hs.
    destruct (isTableArray_rows first rest (exactRows_tableRows first rest Hnd Hrows))
      as [Ht Hp].
    inversion Hrows as [|? ? Hfirst _]; subst.
    destruct first as [| | | | |ffields|]; try contradiction.
    cbn [fieldLines docLines flat_map fst snd encodeValue]. rewrite Hp, Ht.
    rewrite encodeTable_lines, Nat.add_1_r, app_nil_r.
    repeat split; try discriminate.
    + rewrite (join_cons [NEWLINE] _ (tableLines options (S level) _))
        by (unfold tableLines; discriminate).
      cbn [join]. rewrite <- !app_assoc. reflexivity.
    + intros _. cbn [app length tableLines]. lia.
  - intros k options level Hs. cbn. rewrite Hs. cbn.
    repeat split; try discriminate.
  - (* nested *)
    intros fields Hdoc IH Hmulti k options level Hs.
    destruct (IH options (level + 1) Hs) as (E & Hne & Hlen & Hone).
    assert (Hnd := document_NoDup fields Hdoc).
    assert (Hfields : fields <> []).
    { destruct Hmulti as [H | (k0 & v0 & -> & _)]; [|discriminate].
      intros ->. cbn in H. lia. }
    destruct (Hne Hfields) as [HFL HDL].
    assert (Enc : encodeValue (JObj fields) options (level + 1)
                  = join [NEWLINE] (docLines options (level + 1) (JObj fields))).
    { rewrite <- E. cbn [encodeValue]. rewrite Hs.
      destruct fields as [|kv0 frest]; [congruence|].
      remember (kv0 :: frest) as l eqn:El.
      replace (map fst l) with (fst kv0 :: map fst frest) at 1
        by (subst l; reflexivity).
      cbv iota. rewrite flat_map_lines_of by exact Hnd. reflexivity. }
    assert (Htwo : 2 <= length (docLines options (level + 1) (JObj fields))).
    { destruct Hmulti as [H | H]; [lia | apply Hone, H]. }
    destruct (join_two_lines [NEWLINE] _ Htwo) as (x & more & Hmore & Ej).
    assert (Hnl : includes [NEWLINE] (encodeValue (JObj fields) options (level + 1))
                  = true).
    { apply includes_char. rewrite Enc, Ej. apply in_app_iff. right. left.
      reflexivity. }
    assert (Hnonempty : eqb (encodeValue (JObj fields) options (level + 1)) (lit "")
                        = false).
    { apply eqb_neq. rewrite Enc, Ej. destruct x; discriminate. }
    cbn [fieldLines notObjectType]. rewrite Hnonempty, Hnl.
    rewrite (docLines_nested options level k fields Hfields).
    rewrite Nat.add_1_r in *.
    repeat split; try discriminate.
    + rewrite (join_cons [NEWLINE] _ (docLines options (S level) (JObj fields)))
        by exact HDL.
      rewrite Enc. cbn [join]. rewrite <- !app_assoc. reflexivity.
    + intros _. cbn [length]. lia.
  - intros options level Hs. cbn. repeat split; try reflexivity;
      try (intros E; congruence).
    intros (k & v & E & _). discriminate E.
  - (* a field and the others *)
    intros k v rest Hk Hfresh Hv IHv Hrest IHrest options level Hs.
    destruct (IHv k options level Hs) as (F1 & F2 & F3 & F4).
    destruct (IHrest options level Hs) as (R1 & R2 & R3 & R4).
    cbn [flat_map fst snd]. rewrite docLines_cons.
    repeat split.
    + destruct rest as [|kv rest'].
      * change (docLines options level (JObj [])) with (@nil (list N)).
        cbn [flat_map]. rewrite !app_nil_r. exact F3.
      * destruct (R2 ltac:(discriminate)) as [R2a R2b].
        rewrite !join_app by assumption. rewrite F3, R1. reflexivity.
    + intros E. apply app_eq_nil in E. apply F1, E.
    + intros E. apply app_eq_nil in E. apply F2, E.
    + rewrite length_app. cbn [length].
      destruct (docLines options level (JObj [(k, v)])); [congruence|].
      cbn [length]. lia.
    + intros (k' & v' & E & Hb). injection E as -> -> ->.
      change (docLines options level (JObj [])) with (@nil (list N)).
      rewrite app_nil_r. apply F4, Hb.
Qed.

Lemma encodeValue_document fields options level :
  document fields -> is_true (sortKeys options) = false ->
  encodeValue (JObj fields) options level
  = join [NEWLINE] (docLines options level (JObj fields)).
Proof.
  intros Hdoc Hs.
  destruct (proj2 fieldLines_docLines fields Hdoc options level Hs) as (E & _).
  rewrite <- E. cbn [encodeValue]. rewrite Hs.
  destruct fields as [|kv0 frest]; [reflexivity|].
  remember (kv0 :: frest) as l eqn:El.
  replace (map fst l) with (fst kv0 :: map fst frest) at 1
    by (subst l; reflexivity).
  cbv iota. rewrite flat_map_lines_of by (apply document_NoDup, Hdoc).
  reflexivity.
Qed.

End DocumentText.

(** ** Key lines *)

Lemma startsWith_nil_false (c : char) (p : jsstring) : startsWith (c :: p) [] = false.
Proof. reflexivity. Qed.

Lemma split_aux_skip (sep p b : jsstring) :
  split_aux sep (length p) (p ++ b) = split_aux sep 0 b.
Proof. induction p as [|x p IH]; [reflexivity|]. cbn [length app split_aux]. exact IH. Qed.

Lemma split_aux_sep_first (c : char) (p a b : jsstring) :
  ~ In c a ->
  split_aux (c :: p) 0 (a ++ (c :: p) ++ b) = (a, split (c :: p) b).
Proof.
  induction a as [|x a IH]; intros H.
  - cbn [app]. cbn [split_aux]. 
    replace (startsWith (c :: p) (c :: p ++ b)) with true
      by (symmetry; apply (startsWith_app (c :: p) b)).
    cbn [length Nat.sub]. rewrite Nat.sub_0_r, split_aux_skip. reflexivity.
  - cbn [app split_aux startsWith].
    replace (c =? x)%N with false.
    + cbn [andb]. cbn [app] in IH.
      rewrite IH; [reflexivity|]. intros Hin. apply H. right; exact Hin.
    + symmetry. apply N.eqb_neq. intros ->. apply H. left; reflexivity.
Qed.

Lemma split_join_sep (c : char) (p : jsstring) (l : list jsstring) :
  l <> [] -> Forall (fun x => ~ In c x) l ->
  split (c :: p) (join (c :: p) l) = l.
Proof.
  induction l as [|x l IH]; intros Hne H; [congruence|].
  inversion H as [|? ? Hx Hl]; subst.
  destruct l as [|y l].
  - cbn [join]. apply split_absent, Hx.
  - rewrite (join_cons (c :: p) x (y :: l)) by discriminate.
    unfold split at 1. rewrite split_aux_sep_first by exact Hx.
    rewrite IH; [reflexivity | discriminate | exact Hl].
Qed.

Lemma includes_app_r (p a b : jsstring) :
  includes p b = true -> includes p (a ++ b) = true.
Proof.
  intros H. induction a as [|x a IH]; [exact H|].
  cbn [app includes]. rewrite IH. apply orb_true_r.
Qed.

Lemma includes_starts (p s : jsstring) :
  startsWith p s = true -> includes p s = true.
Proof. intros H. destruct s; cbn [includes]; rewrite H; reflexivity. Qed.

Lemma includes_middle (p a b : jsstring) : includes p (a ++ p ++ b) = true.
Proof. apply includes_app_r, includes_starts, startsWith_app. Qed.

Lemma nth_error_middle {A} (pre post : list A) (x : A) :
  nth_error (pre ++ x :: post) (length pre) = Some x.
Proof. rewrite nth_error_app2 by lia. rewrite Nat.sub_diag. reflexivity. Qed.

Lemma skipn_middle {A} (pre post : list A) (x : A) :
  skipn (S (length pre)) (pre ++ x :: post) = post.
Proof.
  induction pre as [|y pre IH]; [reflexivity|]. cbn [length app skipn] in *. exact IH.
Qed.

Section KeyLines.

Context {host : JSHost}.

Lemma levelIndent_spaces options level :
  forallb isWhiteSpace (levelIndent options level) = true.
Proof.
  unfold levelIndent. induction level as [|level IH]; [reflexivity|].
  cbn [repeat_str]. rewrite forallb_app, forallb_ws_spaces, IH. reflexivity.
Qed.

Lemma levelIndent_length options level :
  length (levelIndent options level) = level * indent_unit options.
Proof.
  unfold levelIndent. induction level as [|level IH]; [reflexivity|].
  cbn [repeat_str]. rewrite length_app, repeat_str_spaces_length, IH.
  cbn [Nat.mul]. reflexivity.
Qed.

Lemma levelIndent_In options level x :
  In x (levelIndent options level) -> x = SPACE.
Proof.
  unfold levelIndent. induction level as [|level IH]; [intros []|].
  cbn [repeat_str]. intros H. apply in_app_iff in H as [H | H];
    [apply In_spaces in H; exact H | apply IH, H].
Qed.

Lemma levelIndent_deeper options level :
  length (levelIndent options level) < length (levelIndent options (S level)).
Proof.
  rewrite !levelIndent_length. cbn [Nat.mul].
  pose proof (indent_unit_pos options). lia.
Qed.

(** The line of a key, indented. *)
Lemma indented_key_line (base k rest : jsstring) :
  forallb isWhiteSpace base = true -> plainKey k = true ->
  (rest = [] \/ endsNonWs rest = true) ->
  let l := base ++ k ++ COLON :: rest in
  trim l = k ++ COLON :: rest /\
  lineIndentOf l = length base /\
  blankOrComment l = false /\
  startsWith (lit "|") (trim l) = false /\
  indexOf (lit ":") (trim l) = Z.of_nat (length k) /\
  trim (slice (trim l) 0 (Z.of_nat (length k))) = k /\
  trim (slice_from (trim l) (Z.of_nat (length k) + 1)) = trim rest.
Proof.
  intros Hb Hk Hrest l.
  destruct (plainKey_facts k Hk) as (Htrim & Hcolon & _ & _ & Hhash & Hpipe & _).
  set (l0 := k ++ COLON :: rest).
  assert (Hstart : startsNonWs l0 = true /\ startsWith [HASH] l0 = false
                   /\ startsWith [PIPE] l0 = false).
  { subst l0. destruct k as [|c k]; [repeat split; reflexivity|].
    destruct (trim_fixed (c :: k) Htrim) as [Hks _]; [discriminate|].
    rewrite !startsWith_char_app by discriminate.
    rewrite (startsNonWs_app _ _ Hks). auto. }
  destruct Hstart as (Hls & Hlh & Hlp).
  assert (Hle : endsNonWs l0 = true).
  { subst l0. destruct Hrest as [-> | Hr].
    - apply (endsNonWs_app k [COLON]). reflexivity.
    - apply (endsNonWs_app k (COLON :: rest)), (endsNonWs_app [COLON] rest), Hr. }
  assert (Ht0 : trim l0 = l0) by (apply trim_id; assumption).
  assert (Ht : trim l = l0).
  { subst l. fold l0. rewrite <- (app_nil_r l0) at 1.
    apply (trim_padded base l0 []); [exact Hb | reflexivity | exact Ht0]. }
  rewrite Ht. unfold blankOrComment. rewrite Ht.
  change (lit "#") with [HASH]. change (lit "|") with [PIPE].
  change (lit ":") with [COLON]. rewrite Hlh, Hlp.
  replace (eqb l0 (lit "")) with false
    by (symmetry; apply eqb_neq; subst l0; destruct k; discriminate).
  repeat split.
  - apply lineIndentOf_padded; assumption.
  - apply indexOf_first, Hcolon.
  - subst l0. rewrite slice_prefix. exact Htrim.
  - subst l0.
    change (k ++ COLON :: rest) with (k ++ [COLON] ++ rest).
    rewrite app_assoc.
    replace (Z.of_nat (length k) + 1)%Z with (Z.of_nat (length (k ++ [COLON])))
      by (rewrite length_app; simpl; lia).
    rewrite slice_from_suffix. reflexivity.
Qed.

(** A key line with a value text on it. *)
Lemma parse_valued_line fuel lines i options result base k f :
  nth_error lines i = Some (base ++ k ++ COLON :: SPACE :: f) ->
  forallb isWhiteSpace base = true -> plainKey k = true ->
  startsNonWs f = true -> endsNonWs f = true -> f <> lit "[]" ->
  parseDocument_loop (S fuel) lines i (length base) options result =
  parseDocument_loop fuel lines (S i) (length base) options
    (assigned k (readValue f) result).
Proof.
  intros Hnth Hb Hk Hs He Hbr.
  destruct (indented_key_line base k (SPACE :: f) Hb Hk)
    as (Ltrim & Lindent & Lblank & Lpipe & Lindex & Lkey & Lvalue).
  { right. apply (endsNonWs_app [SPACE] f), He. }
  assert (Hv : trim (SPACE :: f) = f).
  { rewrite <- (app_nil_r f) at 1.
    apply (trim_padded [SPACE] f []); [reflexivity | reflexivity |].
    apply trim_id; assumption. }
  rewrite Hv in Lvalue.
  cbn [parseDocument_loop]. rewrite Hnth, Lblank, Lindent, Nat.ltb_irrefl.
  rewrite Lpipe, Lindex, Lkey, Lvalue.
  replace (Z.of_nat (length k) =? -1)%Z with false
    by (symmetry; apply Z.eqb_neq; lia).
  replace (eqb f (lit "")) with false
    by (symmetry; apply eqb_neq; intros ->; discriminate).
  replace (eqb f (lit "[]")) with false
    by (symmetry; apply eqb_neq; auto).
  cbn [orb]. unfold readValue.
  rewrite set_property_plain by exact Hk. reflexivity.
Qed.

(** A key line with nothing, or with [[]], on it and no deeper line below. *)
Lemma parse_empty_line fuel pre post options result base k rest :
  forallb isWhiteSpace base = true -> plainKey k = true ->
  rest = [] \/ rest = lit " []" ->
  keyLineUpTo (length base) post ->
  let lines := pre ++ (base ++ k ++ COLON :: rest) :: post in
  parseDocument_loop (S fuel) lines (length pre) (length base) options result =
  parseDocument_loop fuel lines (S (length pre)) (length base) options
    (assigned k (if eqb rest [] then JObj [] else JArr []) result).
Proof.
  intros Hb Hk Hrest Hpost lines.
  destruct (indented_key_line base k rest Hb Hk)
    as (Ltrim & Lindent & Lblank & Lpipe & Lindex & Lkey & Lvalue).
  { destruct Hrest as [-> | ->]; [left; reflexivity | right; reflexivity]. }
  assert (Hnth : nth_error lines (length pre) = Some (base ++ k ++ COLON :: rest))
    by apply nth_error_middle.
  cbn [parseDocument_loop]. rewrite Hnth, Lblank, Lindent, Nat.ltb_irrefl.
  rewrite Lpipe, Lindex, Lkey, Lvalue.
  replace (Z.of_nat (length k) =? -1)%Z with false
    by (symmetry; apply Z.eqb_neq; lia).
  subst lines. rewrite skipn_middle.
  assert (E : eqb (trim rest) (lit "") || eqb (trim rest) (lit "[]") = true
              /\ eqb (trim rest) (lit "[]") = negb (eqb rest []))
    by (destruct Hrest as [-> | ->]; split; reflexivity).
  destruct E as [E1 E2]. rewrite E1, E2.
  replace (if negb (eqb rest []) then JArr [] else JObj [])
    with (if eqb rest [] then JObj [] else JArr [])
    by (destruct (eqb rest []); reflexivity).
  rewrite set_property_plain by exact Hk.
  destruct post as [|next post'].
  - cbn [skipBlank].
    replace (nth_error _ (S (length pre))) with (@None (list N)); [reflexivity|].
    symmetry. apply nth_error_None. rewrite length_app. cbn [length]. lia.
  - destruct Hpost as (Pb & Pi & Pp).
    assert (Hnb : eqb (trim next) (lit "") = false).
    { unfold blankOrComment in Pb. apply orb_false_iff in Pb. apply Pb. }
    cbn [skipBlank]. rewrite Hnb.
    replace (nth_error _ (S (length pre))) with (Some next).
    2:{ symmetry.
        replace (pre ++ (base ++ k ++ COLON :: rest) :: next :: post')
          with ((pre ++ [base ++ k ++ COLON :: rest]) ++ next :: post')
          by (rewrite <- app_assoc; reflexivity).
        replace (S (length pre)) with (length (pre ++ [base ++ k ++ COLON :: rest]))
          by (rewrite length_app; cbn [length]; lia).
        apply nth_error_middle. }
    replace (length base <? lineIndentOf next) with false
      by (symmetry; apply Nat.ltb_ge; exact Pi).
    reflexivity.
Qed.

End KeyLines.

(** ** The text of a value *)

Lemma endsWith_absent (c : char) (s : jsstring) :
  ~ In c s -> endsWith [c] s = false.
Proof.
  intros H. unfold endsWith. cbn [rev app].
  apply startsWith_absent. intros Hin. apply H, in_rev, Hin.
Qed.

Lemma startsNonWs_join (sep x : jsstring) (l : list jsstring) :
  startsNonWs x = true -> startsNonWs (join sep (x :: l)) = true.
Proof.
  intros H. destruct l; [exact H|].
  rewrite join_cons by discriminate. apply startsNonWs_app, H.
Qed.

Lemma endsNonWs_join (sep : jsstring) (l : list jsstring) :
  l <> [] -> Forall (fun x => endsNonWs x = true) l ->
  endsNonWs (join sep l) = true.
Proof.
  induction l as [|x l IH]; intros Hne H; [congruence|].
  inversion H as [|? ? Hx Hl]; subst.
  destruct l as [|y l]; [exact Hx|].
  rewrite join_cons by discriminate.
  apply (endsNonWs_app x), (endsNonWs_app sep), IH; [discriminate | exact Hl].
Qed.

Lemma endsWith_join (c : char) (sep : jsstring) (l : list jsstring) (d : jsstring) :
  l <> [] -> Forall (fun x => x <> []) l ->
  endsWith [c] (join sep l) = endsWith [c] (last l d).
Proof.
  induction l as [|x l IH]; intros Hne H; [congruence|].
  inversion H as [|? ? Hx Hl]; subst.
  destruct l as [|y l]; [reflexivity|].
  rewrite join_cons by discriminate.
  change (last (x :: y :: l) d) with (last (y :: l) d).
  rewrite <- IH by (discriminate || exact Hl).
  assert (Hj : join sep (y :: l) <> []).
  { inversion Hl; subst. destruct l; cbn [join]; [assumption|].
    destruct y; [congruence | discriminate]. }
  unfold endsWith. rewrite !rev_app_distr.
  destruct (rev (join sep (y :: l))) eqn:E.
  - exfalso. apply Hj. rewrite <- (rev_involutive (join sep (y :: l))), E.
    reflexivity.
  - reflexivity.
Qed.

Lemma last_of_map {A B} (f : A -> B) (l : list A) (d : A) :
  last (map f l) (f d) = f (last l d).
Proof.
  induction l as [|x l IH]; [reflexivity|].
  destruct l as [|y l]; [reflexivity|]. exact IH.
Qed.

Section ValueTexts.

Context {host : JSHost}.

(** More of the text [formatPrimitive] writes for a round-trip primitive. *)
Lemma value_text_marks (v : JsonValue) (options : EncodeOptions) :
  is_true (compact options) = false -> roundTripPrimitive v ->
  let f := formatPrimitive v options false in
  (commaFree v -> ~ In COMMA f)
  /\ startsWith [QUOTE] f = isQuoted v /\ endsWith [QUOTE] f = isQuoted v.
Proof.
  intros Hc Hv. destruct v as [|b|n|s|items|fields|name];
    cbn [roundTripPrimitive] in Hv; try contradiction.
  - repeat split. intros _ H. cbn in H. repeat (destruct H as [H | H]; [discriminate H|]).
    exact H.
  - destruct b; repeat split; intros _ H; cbn in H;
      repeat (destruct H as [H | H]; [discriminate H|]); exact H.
  - cbn [formatPrimitive isQuoted]. destruct Hv as (Hfin & Hre & _). rewrite Hfin.
    destruct (number_re_chars _ Hre) as [_ Hchars].
    assert (F : forall c, numchar c = false -> ~ In c (Number_toString n))
      by (intros c; apply numchars_free, Hchars).
    repeat split.
    + intros _. apply F. reflexivity.
    + apply startsWith_absent, F. reflexivity.
    + apply endsWith_absent, F. reflexivity.
  - cbn [isQuoted commaFree].
    rewrite format_string by (intros H; congruence). cbn [andb].
    rewrite andb_false_r.
    unfold roundTripString in Hv. destruct (needsQuoting s) eqn:Hq.
    + repeat split.
      * intros Hcomma H. cbn [app] in H. destruct H as [H | H]; [discriminate H|].
        apply in_app_iff in H as [H | [H | []]]; [|discriminate H].
        destruct (escapeString_In s COMMA H) as (_ & _ & [H1 | H1]);
          [contradiction|].
        cbn in H1. repeat (destruct H1 as [H1 | H1]; [discriminate H1|]). exact H1.
      * apply (endsWith_last QUOTE (QUOTE :: escapeString s)).
    + destruct (needsQuoting_false s Hq)
        as (_ & _ & _ & _ & Hcomma & Hquote & _).
      repeat split.
      * intros _. exact Hcomma.
      * apply startsWith_absent, Hquote.
      * apply endsWith_absent, Hquote.
Qed.

(** A scalar is read back from its text. *)
Lemma readValue_scalar (f : jsstring) (v : JsonValue) (P Q : Prop) :
  goodText f v P Q -> readValue f = v.
Proof.
  intros [T1 T2 T3 T4 T5 T6 T7 T8]. unfold readValue.
  destruct T8 as [Hq | (Hq & Hp & Hc)].
  - rewrite Hq. exact T1.
  - rewrite (startsWith_absent QUOTE [] f Hq). cbn [andb].
    rewrite (includes_without (lit " | ") f PIPE), (includes_without (lit ", ") f COMMA);
      [exact T1 | left; reflexivity | exact Hc | right; left; reflexivity | exact Hp].
Qed.

(** The text of an inline array. *)
Lemma inline_text (items : list JsonValue) (options : EncodeOptions) :
  is_true (compact options) = false ->
  2 <= length items -> Forall inlineItem items ->
  isQuoted (hd JNull items) && isQuoted (last items JNull) = false ->
  let f := inlineList items options in
  startsNonWs f = true /\ endsNonWs f = true /\ f <> lit "[]"
  /\ ~ In NEWLINE f /\ ~ In CR f
  /\ readValue f = JArr items.
Proof.
  intros Hc Hlen Hitems Hq f.
  set (texts := map (fun v => formatPrimitive v options false) items).
  assert (Hgood : forall v, In v items ->
            goodText (formatPrimitive v options false) v
                     (v <> JStr (lit "[]")) (pipeFree v)).
  { intros v Hv. rewrite Forall_forall in Hitems.
    apply (value_text v options false Hc), (Hitems v Hv). }
  assert (Htexts : forall t, In t texts ->
            startsNonWs t = true /\ endsNonWs t = true
            /\ ~ In NEWLINE t /\ ~ In CR t /\ ~ In PIPE t /\ ~ In COMMA t).
  { intros t Ht. subst texts. apply in_map_iff in Ht as (v & <- & Hv).
    destruct (Hgood v Hv) as [T1 T2 T3 T4 T5 T6 T7 T8].
    rewrite Forall_forall in Hitems. destruct (Hitems v Hv) as (Hr & Hp & Hcm).
    destruct (value_text_marks v options Hc Hr) as (M1 & _).
    repeat split; auto. }
  destruct items as [|v0 [|v1 items]]; cbn [length] in Hlen; try lia.
  assert (Hne : texts <> []) by (subst texts; discriminate).
  assert (Ef : f = formatPrimitive v0 options false ++ lit ", "
                     ++ join (lit ", ") (map (fun v => formatPrimitive v options false)
                                             (v1 :: items))) by reflexivity.
  assert (Hin : forall c, In c f -> c = COMMA \/ c = SPACE
                                    \/ exists t, In t texts /\ In c t).
  { intros c H. apply In_join in H as [[H | [H | []]] | H]; auto. }
  assert (Hfree : forall c, c <> COMMA -> c <> SPACE ->
                            (forall t, In t texts -> ~ In c t) -> ~ In c f).
  { intros c H1 H2 H3 H. destruct (Hin c H) as [? | [? | (t & Ht & Hct)]];
      [congruence | congruence | exact (H3 t Ht Hct)]. }
  assert (Hs : startsNonWs f = true).
  { apply (startsNonWs_join (lit ", ")). apply Htexts. left. reflexivity. }
  assert (He : endsNonWs f = true).
  { apply endsNonWs_join; [exact Hne|]. apply Forall_forall. intros t Ht.
    apply Htexts, Ht. }
  assert (Hcomma : includes (lit ", ") f = true)
    by (rewrite Ef; apply includes_middle).
  repeat split; try assumption.
  - intros E. rewrite E in Hcomma. discriminate Hcomma.
  - apply Hfree; try discriminate. intros t Ht. apply Htexts, Ht.
  - apply Hfree; try discriminate. intros t Ht. apply Htexts, Ht.
  - unfold readValue.
    assert (Hfirst : startsWith [QUOTE] f = isQuoted v0).
    { rewrite Ef.
      destruct (Hgood v0 (or_introl eq_refl)) as [_ T2 _ _ _ _ _ _].
      rewrite startsWith_char_app by (intros E; rewrite E in T2; discriminate T2).
      rewrite Forall_forall in Hitems.
      apply (value_text_marks v0 options Hc), (Hitems v0). left. reflexivity. }
    assert (Hlast : endsWith [QUOTE] f = isQuoted (last (v0 :: v1 :: items) JNull)).
    { unfold f, inlineList. fold texts.
      rewrite (endsWith_join QUOTE (lit ", ") texts
                 (formatPrimitive JNull options false)).
      - subst texts. rewrite (last_of_map (fun v => formatPrimitive v options false)).
        assert (Hl : In (last (v0 :: v1 :: items) JNull) (v0 :: v1 :: items)).
        { destruct (exists_last (l := v0 :: v1 :: items)) as (l' & a & E);
            [discriminate|]. rewrite E, last_last. apply in_app_iff. right.
          left. reflexivity. }
        rewrite Forall_forall in Hitems.
        apply (value_text_marks _ options Hc), (Hitems _ Hl).
      - exact Hne.
      - apply Forall_forall. intros t Ht E.
        destruct (Htexts t Ht) as (T & _). rewrite E in T. discriminate T. }
    cbn [hd] in Hq. rewrite Hfirst, Hlast, Hq.
    rewrite (includes_without (lit " | ") f PIPE);
      [|right; left; reflexivity
       |apply Hfree; try discriminate; intros t Ht; apply Htexts, Ht].
    rewrite Hcomma. unfold primitiveList. f_equal.
    unfold f, inlineList. fold texts.
    change (lit ", ") with (COMMA :: [SPACE]).
    rewrite split_join_sep; [|exact Hne|].
    2:{ apply Forall_forall. intros t Ht. apply Htexts, Ht. }
    subst texts. rewrite map_map.
    rewrite <- (map_id (v0 :: v1 :: items)) at 2.
    apply map_ext_in. intros v Hv.
    destruct (Hgood v Hv) as [T1 T2 T3 _ _ _ _ _].
    rewrite (trim_id _ T2 T3). exact T1.
Qed.

End ValueTexts.

(** ** Table blocks *)

Lemma takeWhile_app_stop {A} (f : A -> bool) (a post : list A) :
  forallb f a = true ->
  match post with [] => True | x :: _ => f x = false end ->
  takeWhile f (a ++ post) = a.
Proof.
  intros Ha Hp. induction a as [|x a IH].
  - destruct post as [|y post]; [reflexivity|]. cbn [app takeWhile]. rewrite Hp.
    reflexivity.
  - cbn [forallb] in Ha. apply andb_true_iff in Ha as [Hx Ha].
    cbn [app takeWhile]. rewrite Hx, (IH Ha). reflexivity.
Qed.

Section TableBlocks.

Context {host : JSHost}.

Lemma exactRow_same headers row :
  NoDup headers -> exactRow headers row -> rowInHeaderOrder headers row = row.
Proof.
  destruct row as [| | | | |fields|]; try contradiction.
  intros Hnd [<- H]. apply rowInHeaderOrder_same; [exact Hnd|].
  revert H. apply Forall_impl. intros kv (_ & _ & H). exact H.
Qed.

(** The lines of a table, and what the table sub-parser reads from them. *)
Lemma tableLines_facts options level first rest :
  is_true (compact options) = false ->
  ObjectKeys first <> [] -> NoDup (ObjectKeys first) ->
  Forall (fun h => tableKey h = true) (ObjectKeys first) ->
  Forall (exactRow (ObjectKeys first)) (first :: rest) ->
  let base := levelIndent options level in
  exists hline rlines,
    tableLines options level (first :: rest) = hline :: rlines /\
    length rlines = S (length rest) /\
    Forall (fun l => ~ In NEWLINE l /\ ~ In CR l) (hline :: rlines) /\
    blankOrComment hline = false /\
    lineIndentOf hline = length base /\
    startsWith (lit "|") (trim hline) = true /\
    map trim (tableCells (trim hline)) = ObjectKeys first /\
    forallb (isTableLine (length base)) rlines = true /\
    flat_map (rowOf (ObjectKeys first)) rlines = first :: rest.
Proof.
  intros Hc Hne Hnd Hkeys Hexact base.
  assert (Hrows := exactRows_tableRows first rest Hnd Hexact).
  set (headers := ObjectKeys first) in *.
  set (arr := first :: rest) in *.
  unfold tableLines. cbn [hd]. fold headers. fold base.
  set (rows := map (cellsOf options headers) arr).
  set (widths := getColumnWidths headers rows).
  set (hline := tableLine base (padCells headers widths)).
  set (rlines := map (fun row => tableLine base (padCells row widths)) rows).
  exists hline, rlines.
  assert (Hproto : ~ In (lit "__proto__") headers).
  { intros H. rewrite Forall_forall in Hkeys.
    destruct (tableKey_facts _ (Hkeys _ H)) as (_ & _ & _ & _ & E).
    apply E; reflexivity. }
  assert (Hb : forallb isWhiteSpace base = true) by apply levelIndent_spaces.
  assert (Hbase : forall x, In x base -> x = SPACE)
    by (intros x; apply levelIndent_In).
  assert (Hhp : Forall (fun c => ~ In PIPE c) headers)
    by (eapply Forall_impl; [|exact Hkeys]; intros h Hh;
        apply (tableKey_facts h Hh)).
  assert (Hht : Forall (fun c => trim c = c) headers)
    by (eapply Forall_impl; [|exact Hkeys]; intros h Hh;
        apply (tableKey_facts h Hh)).
  assert (Hhn : Forall (fun c => ~ In NEWLINE c /\ ~ In CR c) headers)
    by (eapply Forall_impl; [|exact Hkeys]; intros h Hh;
        destruct (tableKey_facts h Hh) as (_ & _ & ? & ? & _); auto).
  assert (Hgood : forall row, In row arr ->
            Forall (fun c => ~ In PIPE c) (cellsOf options headers row) /\
            Forall (fun c => trim c = c) (cellsOf options headers row) /\
            Forall (fun c => ~ In NEWLINE c /\ ~ In CR c) (cellsOf options headers row) /\
            JObj (combine headers (map parsePrimitive (cellsOf options headers row)))
            = rowInHeaderOrder headers row).
  { intros row Hrow. apply cellsOf_good; [exact Hc|].
    rewrite Forall_forall in Hrows. apply Hrows, Hrow. }
  assert (Hcne : forall row, cellsOf options headers row <> []).
  { intros row E. apply Hne. apply length_zero_iff_nil.
    rewrite <- (cellsOf_length options headers row), E. reflexivity. }
  assert (Hline : forall cells,
            Forall (fun c => ~ In NEWLINE c /\ ~ In CR c) cells ->
            ~ In NEWLINE (tableLine base (padCells cells widths))
            /\ ~ In CR (tableLine base (padCells cells widths))).
  { intros cells Hcells.
    assert (F1 : Forall (fun c => ~ In NEWLINE c) (padCells cells widths))
      by (apply padCells_free; [discriminate|];
          eapply Forall_impl; [|exact Hcells]; intros ? [? ?]; assumption).
    assert (F2 : Forall (fun c => ~ In CR c) (padCells cells widths))
      by (apply padCells_free; [discriminate|];
          eapply Forall_impl; [|exact Hcells]; intros ? [? ?]; assumption).
    rewrite Forall_forall in F1, F2.
    split; intros H; apply In_tableLine in H as [H | [H | (c & Hin & H)]];
      try (apply Hbase in H; discriminate H);
      try (destruct H as [H | [H | []]]; discriminate H).
    - exact (F1 c Hin H).
    - exact (F2 c Hin H). }
  destruct (tableLine_shape base (padCells headers widths) Hb)
    as (Htrimh & Hindh & Hpipeh).
  fold hline in Htrimh, Hindh, Hpipeh.
  repeat split.
  - subst rlines rows arr. rewrite !length_map. reflexivity.
  - constructor; [apply Hline, Hhn|].
    subst rlines rows. rewrite map_map. apply Forall_map, Forall_forall.
    intros row Hrow. apply Hline. apply (Hgood row Hrow).
  - unfold blankOrComment. rewrite Htrimh. reflexivity.
  - exact Hindh.
  - exact Hpipeh.
  - apply tableLine_cells; assumption.
  - apply forallb_forall. intros l Hl. subst rlines.
    apply in_map_iff in Hl as (row & <- & _).
    apply isTableLine_tableLine, Hb.
  - subst rlines rows. rewrite map_map.
    assert (G : forall sub, (forall row, In row sub -> In row arr) ->
              flat_map (rowOf headers)
                (map (fun row => tableLine base
                                   (padCells (cellsOf options headers row) widths)) sub)
              = sub).
    { induction sub as [|row sub IH]; intros Hsub; [reflexivity|].
      cbn [map]. rewrite flat_map_step.
      destruct (Hgood row (Hsub row (or_introl eq_refl))) as (G1 & G2 & _ & G4).
      rewrite rowOf_tableLine; try assumption;
        [|apply Hcne | apply cellsOf_length].
      rewrite G4, IH; [|intros r Hr; apply Hsub; right; exact Hr].
      rewrite exactRow_same; [reflexivity | exact Hnd |].
      rewrite Forall_forall in Hexact. apply Hexact, Hsub. left. reflexivity. }
    apply G. auto.
Qed.

Lemma parseTable_block options level first rest pre post :
  is_true (compact options) = false ->
  ObjectKeys first <> [] -> NoDup (ObjectKeys first) ->
  Forall (fun h => tableKey h = true) (ObjectKeys first) ->
  Forall (exactRow (ObjectKeys first)) (first :: rest) ->
  match post with
  | [] => True
  | l :: _ => startsWith (lit "|") (trim l) = false
  end ->
  parseTable (pre ++ tableLines options level (first :: rest) ++ post)
    (length pre) (length (levelIndent options level))
  = Some (first :: rest, length pre + S (length rest)).
Proof.
  intros Hc Hne Hnd Hkeys Hexact Hpost.
  destruct (tableLines_facts options level first rest Hc Hne Hnd Hkeys Hexact)
    as (hline & rlines & -> & Hlen & _ & _ & _ & Hpipe & Hheaders & Hall & Hrows).
  unfold parseTable. cbn [app]. rewrite nth_error_middle, Hpipe. cbn [negb].
  rewrite Hheaders, skipn_middle, parseTable_rows_plain
    by exact (tableKeys_plain _ Hkeys).
  rewrite takeWhile_app_stop; [| exact Hall |].
  - rewrite Hrows, Hlen. cbn [app]. f_equal. f_equal. lia.
  - destruct post as [|l post]; [exact I|]. unfold isTableLine. rewrite Hpost.
    reflexivity.
Qed.

(** The line of a key with nothing on it, and a line below. *)
Lemma parse_bare_key_line fuel pre next post options result base k :
  forallb isWhiteSpace base = true -> plainKey k = true ->
  blankOrComment next = false ->
  let lines := pre ++ (base ++ k ++ [COLON]) :: next :: post in
  parseDocument_loop (S fuel) lines (length pre) (length base) options result =
  if (length base <? lineIndentOf next) && startsWith (lit "|") (trim next)
  then
    match parseTable lines (S (length pre)) (lineIndentOf next) with
    | None => None
    | Some (rows, endIndex) =>
        parseDocument_loop fuel lines (endIndex + 1) (length base) options
          (assigned k (JArr rows) result)
    end
  else if length base <? lineIndentOf next
  then
    match parseDocument_loop fuel lines (S (length pre)) (lineIndentOf next)
            options [] with
    | None => None
    | Some (nested, endIndex) =>
        parseDocument_loop fuel lines endIndex (length base) options
          (assigned k nested result)
    end
  else parseDocument_loop fuel lines (S (length pre)) (length base) options
         (assigned k (JObj []) result).
Proof.
  intros Hb Hk Hnext lines.
  destruct (indented_key_line base k [] Hb Hk (or_introl eq_refl))
    as (Ltrim & Lindent & Lblank & Lpipe & Lindex & Lkey & Lvalue).
  assert (Hnth : nth_error lines (length pre) = Some (base ++ k ++ [COLON]))
    by apply nth_error_middle.
  assert (Hnth' : nth_error lines (S (length pre)) = Some next).
  { subst lines.
    replace (pre ++ (base ++ k ++ [COLON]) :: next :: post)
      with ((pre ++ [base ++ k ++ [COLON]]) ++ next :: post)
      by (rewrite <- app_assoc; reflexivity).
    replace (S (length pre)) with (length (pre ++ [base ++ k ++ [COLON]]))
      by (rewrite length_app; cbn [length]; lia).
    apply nth_error_middle. }
  unfold blankOrComment in Hnext. apply orb_false_iff in Hnext as [Hn1 Hn2].
  cbn [parseDocument_loop]. rewrite Hnth, Lblank, Lindent, Nat.ltb_irrefl.
  rewrite Lpipe, Lindex, Lkey, Lvalue.
  replace (Z.of_nat (length k) =? -1)%Z with false
    by (symmetry; apply Z.eqb_neq; lia).
  change (eqb (trim []) (lit "")) with true. cbn [orb].
  change (eqb (trim []) (lit "[]")) with false. cbv iota.
  assert (Hskip : skipBlank (skipn (S (length pre)) lines) (S (length pre))
                  = S (length pre)).
  { unfold lines. rewrite skipn_middle. cbn [skipBlank]. rewrite Hn1.
    reflexivity. }
  rewrite Hskip, Hnth', Hn1, Hn2. cbn [negb]. rewrite !andb_true_r.
  destruct (length base <? lineIndentOf next); cbn [andb];
    [|rewrite set_property_plain by exact Hk; reflexivity].
  destruct (startsWith (lit "|") (trim next)).
  - destruct (parseTable lines _ _) as [[rows endIndex]|]; [|reflexivity].
    rewrite set_property_plain by exact Hk. reflexivity.
  - destruct (parseDocument_loop fuel lines _ _ options [])
      as [[nested endIndex]|]; [|reflexivity].
    rewrite set_property_plain by exact Hk. reflexivity.
Qed.

End TableBlocks.

(** ** The shape of the lines of a document *)

Section DocumentLines.

Context {host : JSHost}.

Lemma exactRow_object headers row :
  exactRow headers row -> exists fields, row = JObj fields.
Proof. destruct row; try contradiction. intros _. eexists. reflexivity. Qed.

Lemma nested_nonempty (fields : list (jsstring * JsonValue)) :
  (2 <= length fields \/ exists k v, fields = [(k, v)] /\ blockValue v = true) ->
  fields <> [].
Proof.
  intros [H | (k & v & -> & _)]; [|discriminate]. intros ->. cbn in H. lia.
Qed.

(** The first line of the lines of a field is the line of its key. *)
Lemma field_block_head v k options level :
  fieldValue v -> is_true (compact options) = false ->
  exists rest tl,
    docLines options level (JObj [(k, v)])
    = (levelIndent options level ++ k ++ COLON :: rest) :: tl
    /\ (rest = [] \/ endsNonWs rest = true).
Proof.
  intros Hv Hc. destruct Hv as [v Hr Hb| |items Hlen Hitems Hq
                              |first rest Hne Hnd Hkeys Hrows| |fields Hdoc Hm].
  - rewrite docLines_scalar by (apply roundTripPrimitive_isPrimitive, Hr).
    exists (SPACE :: formatPrimitive v options false), []. split; [reflexivity|].
    right. destruct (value_text v options false Hc Hr) as [_ _ T3 _ _ _ _ _].
    apply (endsNonWs_app [SPACE]), T3.
  - exists (lit " []"), []. split; [reflexivity | right; reflexivity].
  - rewrite docLines_inline;
      [|intros ->; cbn in Hlen; lia | apply inlineItems_primitive, Hitems].
    exists (SPACE :: inlineList items options), []. split; [reflexivity|].
    right. destruct (inline_text items options Hc Hlen Hitems Hq) as (_ & He & _).
    apply (endsNonWs_app [SPACE]), He.
  - inversion Hrows as [|? ? Hfirst _]; subst.
    destruct (exactRow_object _ _ Hfirst) as (ffields & ->).
    rewrite docLines_table. eexists [], _. split; [reflexivity | left; reflexivity].
  - exists [], []. split; [reflexivity | left; reflexivity].
  - rewrite docLines_nested by (apply nested_nonempty, Hm).
    eexists [], _. split; [reflexivity | left; reflexivity].
Qed.

(** The lines of a document that is not empty start with a key line. *)
Lemma document_head fields options level :
  document fields -> fields <> [] -> is_true (compact options) = false ->
  exists l tl,
    docLines options level (JObj fields) = l :: tl
    /\ blankOrComment l = false
    /\ lineIndentOf l = length (levelIndent options level)
    /\ startsWith (lit "|") (trim l) = false
    /\ exists k rest, l = levelIndent options level ++ k ++ COLON :: rest
                      /\ hd_error (map fst fields) = Some k
                      /\ plainKey k = true
                      /\ trim l = k ++ COLON :: rest.
Proof.
  intros Hdoc Hne Hc. destruct Hdoc as [|k v rest Hk Hfresh Hv Hrest]; [congruence|].
  destruct (field_block_head v k options level Hv Hc) as (r & tl & E & Hr).
  rewrite docLines_cons, E.
  destruct (indented_key_line (levelIndent options level) k r
              (levelIndent_spaces options level) Hk Hr)
    as (Ltrim & Lindent & Lblank & Lpipe & _).
  eexists _, _. split; [reflexivity|]. repeat split; try assumption.
  exists k, r. repeat split; assumption.
Qed.

Lemma keyLineUpTo_document fields options level post :
  document fields -> is_true (compact options) = false ->
  keyLineBelow (length (levelIndent options level)) post ->
  keyLineUpTo (length (levelIndent options level))
    (docLines options level (JObj fields) ++ post).
Proof.
  intros Hdoc Hc Hpost. destruct fields as [|kv fields].
  - change (docLines options level (JObj [])) with (@nil (list N)). cbn [app].
    destruct post as [|l post]; [exact I|].
    destruct Hpost as (? & ? & ?). repeat split; try assumption. lia.
  - destruct (document_head (kv :: fields) options level Hdoc) as
      (l & tl & E & Lb & Li & Lp & _); [discriminate | exact Hc|].
    rewrite E. cbn [app keyLineUpTo]. repeat split; try assumption. lia.
Qed.

(** The lines of a document have no line break. *)
Lemma docLines_text :
  (forall v, fieldValue v ->
     forall k options level,
       is_true (compact options) = false -> plainKey k = true ->
       Forall (fun l => ~ In NEWLINE l /\ ~ In CR l)
              (docLines options level (JObj [(k, v)]))) /\
  (forall fields, document fields ->
     forall options level,
       is_true (compact options) = false ->
       Forall (fun l => ~ In NEWLINE l /\ ~ In CR l)
              (docLines options level (JObj fields))).
Proof.
  assert (Hkey : forall options level k (f : jsstring),
             plainKey k = true -> ~ In NEWLINE f -> ~ In CR f ->
             ~ In NEWLINE (levelIndent options level ++ k ++ f)
             /\ ~ In CR (levelIndent options level ++ k ++ f)).
  { intros options level k f Hk Hn Hr.
    destruct (plainKey_facts k Hk) as (_ & _ & Hnl & Hcr & _).
    split; intros H; apply in_app_iff in H as [H | H];
      try (apply levelIndent_In in H; discriminate H);
      apply in_app_iff in H as [H | H]; contradiction. }
  assert (Hlit : forall c (f : jsstring), ~ In c f -> forall x, x <> c ->
                                          ~ In c (x :: f)).
  { intros c f Hf x Hx [H | H]; [congruence | contradiction]. }
  apply fieldValue_document_mutind.
  - intros v Hr Hb k options level Hc Hk.
    rewrite docLines_scalar by (apply roundTripPrimitive_isPrimitive, Hr).
    destruct (value_text v options false Hc Hr) as [_ _ _ T4 T5 _ _ _].
    constructor; [|constructor]. change (lit ": ") with [COLON; SPACE].
    apply Hkey; [exact Hk | |]; repeat apply Hlit; (exact T4 || exact T5 || discriminate).
  - intros k options level Hc Hk. cbn [docLines flat_map fst snd app].
    constructor; [|constructor]. apply Hkey; [exact Hk | |];
      intros H; cbn in H; repeat (destruct H as [H | H]; [discriminate H|]); exact H.
  - intros items Hlen Hitems Hq k options level Hc Hk.
    rewrite docLines_inline;
      [|intros ->; cbn in Hlen; lia | apply inlineItems_primitive, Hitems].
    destruct (inline_text items options Hc Hlen Hitems Hq) as (_ & _ & _ & Hn & Hr & _).
    constructor; [|constructor]. change (lit ": ") with [COLON; SPACE].
    apply Hkey; [exact Hk | |]; repeat apply Hlit; (exact Hn || exact Hr || discriminate).
  - intros first rest Hne Hnd Hkeys Hrows k options level Hc Hk.
    inversion Hrows as [|? ? Hfirst _]; subst.
    destruct (exactRow_object _ _ Hfirst) as (ffields & ->).
    rewrite docLines_table.
    destruct (tableLines_facts options (S level) (JObj ffields) rest Hc Hne Hnd Hkeys Hrows)
      as (hline & rlines & -> & _ & Htext & _).
    constructor; [|exact Htext].
    apply Hkey; [exact Hk | |]; intros H; cbn in H;
      repeat (destruct H as [H | H]; [discriminate H|]); exact H.
  - intros k options level Hc Hk. cbn [docLines flat_map fst snd app].
    constructor; [|constructor]. apply Hkey; [exact Hk | |];
      intros H; cbn in H; repeat (destruct H as [H | H]; [discriminate H|]); exact H.
  - intros fields Hdoc IH Hm k options level Hc Hk.
    rewrite docLines_nested by (apply nested_nonempty, Hm).
    constructor; [|apply IH, Hc].
    apply Hkey; [exact Hk | |]; intros H; cbn in H;
      repeat (destruct H as [H | H]; [discriminate H|]); exact H.
  - intros options level Hc. constructor.
  - intros k v rest Hk Hfresh Hv IHv Hrest IHrest options level Hc.
    rewrite docLines_cons. apply Forall_app. split; [apply IHv | apply IHrest];
      assumption.
Qed.

End DocumentLines.

(** ** Documents are read back *)

Section DocumentRoundTrip.

Context {host : JSHost}.

Lemma assigned_plain k v (acc : list (jsstring * JsonValue)) :
  plainKey k = true -> ~ In k (map fst acc) ->
  assigned k v acc = acc ++ [(k, v)].
Proof.
  intros Hk Hin. destruct (plainKey_facts k Hk) as (_ & _ & _ & _ & _ & _ & Hp).
  apply assigned_fresh; assumption.
Qed.

(** The object-block parser on the lines of a field, and on the lines of a
    document. *)
Lemma parse_document_lines :
  (forall v, fieldValue v ->
     forall k options level pre post acc fuel o,
       is_true (compact options) = false -> plainKey k = true ->
       keyLineUpTo (length (levelIndent options level)) post ->
       length (docLines options level (JObj [(k, v)])) + length post <= fuel ->
       parseDocument_loop (S fuel)
         (pre ++ docLines options level (JObj [(k, v)]) ++ post)
         (length pre) (length (levelIndent options level)) o acc
       = parseDocument_loop fuel
           (pre ++ docLines options level (JObj [(k, v)]) ++ post)
           (length pre + length (docLines options level (JObj [(k, v)])))
           (length (levelIndent options level)) o (assigned k v acc)) /\
  (forall fields, document fields ->
     forall options level pre post acc fuel o,
       is_true (compact options) = false ->
       keyLineBelow (length (levelIndent options level)) post ->
       NoDup (map fst acc ++ map fst fields) ->
       length (docLines options level (JObj fields)) + length post < fuel ->
       parseDocument_loop fuel
         (pre ++ docLines options level (JObj fields) ++ post)
         (length pre) (length (levelIndent options level)) o acc
       = Some (JObj (acc ++ fields),
               length pre + length (docLines options level (JObj fields)))).
Proof.
  apply fieldValue_document_mutind.
  - (* a scalar *)
    intros v Hr Hb k options level pre post acc fuel o Hc Hk Hpost Hfuel.
    rewrite docLines_scalar by (apply roundTripPrimitive_isPrimitive, Hr).
    cbn [app length]. rewrite Nat.add_1_r.
    pose proof (value_text v options false Hc Hr) as T.
    rewrite (parse_valued_line fuel _ (length pre) o acc
               (levelIndent options level) k (formatPrimitive v options false)).
    + rewrite (readValue_scalar _ v _ _ T). reflexivity.
    + apply nth_error_middle.
    + apply levelIndent_spaces.
    + exact Hk.
    + apply T.
    + apply T.
    + apply T, Hb.
  - (* an empty array *)
    intros k options level pre post acc fuel o Hc Hk Hpost Hfuel.
    cbn [docLines flat_map fst snd app length]. rewrite Nat.add_1_r.
    exact (parse_empty_line fuel pre post o acc (levelIndent options level) k
             (lit " []") (levelIndent_spaces options level) Hk
             (or_intror eq_refl) Hpost).
  - (* an inline array *)
    intros items Hlen Hitems Hq k options level pre post acc fuel o Hc Hk Hpost Hfuel.
    rewrite docLines_inline;
      [|intros ->; cbn in Hlen; lia | apply inlineItems_primitive, Hitems].
    cbn [app length]. rewrite Nat.add_1_r.
    destruct (inline_text items options Hc Hlen Hitems Hq)
      as (Hs & He & Hbr & _ & _ & Hread).
    rewrite (parse_valued_line fuel _ (length pre) o acc
               (levelIndent options level) k (inlineList items options)).
    + rewrite Hread. reflexivity.
    + apply nth_error_middle.
    + apply levelIndent_spaces.
    + exact Hk.
    + exact Hs.
    + exact He.
    + exact Hbr.
  - (* a table *)
    intros first rest Hne Hnd Hkeys Hrows k options level pre post acc fuel o
      Hc Hk Hpost Hfuel.
    inversion Hrows as [|? ? Hfirst _]; subst.
    destruct (exactRow_object _ _ Hfirst) as (ffields & ->).
    rewrite docLines_table in *.
    destruct (tableLines_facts options (S level) (JObj ffields) rest Hc Hne Hnd Hkeys Hrows)
      as (hline & rlines & E & Hlen & _ & Hblank & Hind & Hpipe & _).
    pose proof (parseTable_block options (S level) (JObj ffields) rest
                  (pre ++ [levelIndent options level ++ k ++ [COLON]]) post
                  Hc Hne Hnd Hkeys Hrows) as Htable.
    rewrite E in *. cbn [app length] in *. change (lit ":") with [COLON] in *.
    rewrite <- app_assoc in Htable. cbn [app] in Htable.
    rewrite length_app in Htable. cbn [length] in Htable.
    rewrite Nat.add_1_r in Htable.
    rewrite (parse_bare_key_line fuel pre hline (rlines ++ post) o acc
               (levelIndent options level) k (levelIndent_spaces options level)
               Hk Hblank).
    rewrite Hind, Hpipe.
    replace (length (levelIndent options level)
             <? length (levelIndent options (S level))) with true
      by (symmetry; apply Nat.ltb_lt, levelIndent_deeper).
    cbn [andb]. rewrite Htable.
    + f_equal. lia.
    + destruct post as [|l post]; [exact I|]. apply Hpost.
  - (* an empty object *)
    intros k options level pre post acc fuel o Hc Hk Hpost Hfuel.
    cbn [docLines flat_map fst snd app length]. rewrite Nat.add_1_r.
    exact (parse_empty_line fuel pre post o acc (levelIndent options level) k
             [] (levelIndent_spaces options level) Hk (or_introl eq_refl) Hpost).
  - (* a nested object *)
    intros fields Hdoc IH Hm k options level pre post acc fuel o Hc Hk Hpost Hfuel.
    assert (Hfields := nested_nonempty fields Hm).
    rewrite docLines_nested in * by exact Hfields.
    destruct (document_head fields options (S level) Hdoc Hfields Hc)
      as (l & tl & E & Lb & Li & Lp & _).
    specialize (IH options (S level)
                  (pre ++ [levelIndent options level ++ k ++ [COLON]]) post []
                  fuel o Hc).
    rewrite E in *. cbn [app length] in *. change (lit ":") with [COLON] in *.
    rewrite <- app_assoc in IH. cbn [app] in IH.
    rewrite length_app in IH. cbn [length] in IH. rewrite Nat.add_1_r in IH.
    rewrite (parse_bare_key_line fuel pre l (tl ++ post) o acc
               (levelIndent options level) k (levelIndent_spaces options level)
               Hk Lb).
    rewrite Li, Lp.
    replace (length (levelIndent options level)
             <? length (levelIndent options (S level))) with true
      by (symmetry; apply Nat.ltb_lt, levelIndent_deeper).
    cbn [andb]. rewrite IH.
    + f_equal. lia.
    + pose proof (levelIndent_deeper options level).
      destruct post as [|p post]; [exact I|].
      destruct Hpost as (? & ? & ?). repeat split; try assumption. lia.
    + apply document_NoDup, Hdoc.
    + lia.
  - (* no field *)
    intros options level pre post acc fuel o Hc Hpost Hnd Hfuel.
    change (docLines options level (JObj [])) with (@nil (list N)).
    cbn [app length]. rewrite app_nil_r, Nat.add_0_r.
    destruct fuel as [|fuel]; [lia|]. cbn [parseDocument_loop].
    destruct post as [|l post].
    + rewrite app_nil_r.
      replace (nth_error pre (length pre)) with (@None (list N))
        by (symmetry; apply nth_error_None; lia).
      reflexivity.
    + destruct Hpost as (Pb & Pi & _). rewrite nth_error_middle, Pb.
      replace (lineIndentOf l <? length (levelIndent options level)) with true
        by (symmetry; apply Nat.ltb_lt; exact Pi).
      reflexivity.
  - (* a field and the others *)
    intros k v rest Hk Hfresh Hv IHv Hrest IHrest options level pre post acc
      fuel o Hc Hpost Hnd Hfuel.
    rewrite docLines_cons in *. rewrite length_app in Hfuel.
    destruct fuel as [|fuel]; [lia|].
    rewrite <- (app_assoc (docLines options level (JObj [(k, v)]))).
    rewrite (IHv k options level pre _ acc fuel o Hc Hk).
    + assert (Hin : ~ In k (map fst acc)).
      { cbn [map fst] in Hnd. apply NoDup_remove_2 in Hnd. intros H. apply Hnd.
        apply in_app_iff. left. exact H. }
      rewrite (assigned_plain k v acc Hk Hin).
      rewrite (app_assoc pre).
      rewrite <- (length_app pre).
      rewrite (IHrest options level _ post (acc ++ [(k, v)]) fuel o Hc Hpost).
      * rewrite <- app_assoc, !length_app. f_equal. f_equal. lia.
      * rewrite map_app, <- app_assoc. exact Hnd.
      * destruct (field_block_head v k options level Hv Hc) as (r & tl & E & _).
        rewrite E in Hfuel. cbn [length] in Hfuel. lia.
    + apply keyLineUpTo_document; assumption.
    + rewrite length_app. lia.
Qed.

(** Decoding the lines of a document whose first key is not [_]. *)
Lemma decode_docLines fields opts options :
  is_true (compact opts) = false -> document fields -> fields <> [] ->
  hd_error (map fst fields) <> Some (lit "_") ->
  decode (join [NEWLINE] (docLines opts 0 (JObj fields))) options
  = Some (JObj fields).
Proof.
  intros Hc' Hdoc Hne Hfirst.
  set (lines := docLines opts 0 (JObj fields)).
  assert (Htext : Forall (fun l => ~ In NEWLINE l /\ ~ In CR l) lines)
    by (apply (proj2 docLines_text fields Hdoc opts 0 Hc')).
  destruct (document_head fields opts 0 Hdoc Hne Hc')
    as (l & tl & E & Lb & Li & Lp & k & r & El & Hk0 & Hk & Lt).
  fold lines in E.
  unfold decode, normalizeNewlines.
  assert (Hcr : ~ In CR (join [NEWLINE] lines)).
  { intros H. apply In_join in H as [[H | []] | (x & Hx & H)]; [discriminate H|].
    rewrite Forall_forall in Htext. exact (proj2 (Htext x Hx) H). }
  rewrite (replaceAll_absent CR [NEWLINE] [NEWLINE] _ Hcr).
  rewrite (replaceAll_absent CR [] [NEWLINE] _ Hcr).
  rewrite split_join; [|rewrite E; discriminate|].
  2:{ eapply Forall_impl; [|exact Htext]. intros x Hx. exact (proj1 Hx). }
  assert (Hparse := proj2 parse_document_lines fields Hdoc opts 0 [] [] []
                      (S (length lines - 0))
                      {| strict := or_default (strict options) true;
                         dec_indent := or_default (dec_indent options) 2 |}
                      Hc' I (document_NoDup fields Hdoc)).
  cbn [app length Nat.add levelIndent repeat_str] in Hparse.
  rewrite app_nil_r in Hparse. fold lines in Hparse.
  assert (Hroot : startsWith (lit "_:") (trim l) = false).
  { rewrite Lt. destruct (plainKey_facts k Hk) as (_ & Hcolon & _).
    change (lit "_:") with [95; 58]%N.
    destruct k as [|c [|d k]]; cbn [app startsWith].
    - reflexivity.
    - destruct (N.eqb_spec 95 c) as [<- | ]; [|reflexivity].
      exfalso. apply Hfirst. exact Hk0.
    - destruct (N.eqb_spec 58 d) as [<- | ]; [|rewrite andb_false_r; reflexivity].
      exfalso; apply Hcolon. right; left; reflexivity. }
  unfold parseDocument. rewrite E in *.
  cbn [forallb skipBlankOrComment nth_error]. rewrite Lb. cbn [andb nth_error].
  rewrite Lp, Hroot, Hparse; [reflexivity|]. cbn [length]. lia.
Qed.

Lemma encode_options_defaults (encodeOptions : EncodeOptions) :
  let opts := {| enc_indent := or_default (enc_indent encodeOptions) 2;
                 compact := or_default (compact encodeOptions) false;
                 sortKeys := or_default (sortKeys encodeOptions) false |} in
  is_true (compact opts) = is_true (compact encodeOptions)
  /\ is_true (sortKeys opts) = is_true (sortKeys encodeOptions)
  /\ indent_unit opts = indent_unit encodeOptions.
Proof.
  cbn [compact sortKeys]. rewrite !is_true_or_default. repeat split.
  unfold indent_unit. cbn [enc_indent].
  destruct (enc_indent encodeOptions) as [[|n]|]; reflexivity.
Qed.

(** X10: with [compact] and [sortKeys] off, [decode (encode obj)] is [obj]
    for every document [obj], nested to any depth, whose first key is not
    [_]. *)
Theorem document_roundtrip fields encodeOptions options :
  is_true (compact encodeOptions) = false ->
  is_true (sortKeys encodeOptions) = false ->
  document fields ->
  hd_error (map fst fields) <> Some (lit "_") ->
  decode (encode (JObj fields) encodeOptions) options = Some (JObj fields).
Proof.
  intros Hc Hsort Hdoc Hfirst.
  destruct (encode_options_defaults encodeOptions) as (Ec & Es & _).
  cbn [encode].
  rewrite encodeValue_document by (exact Hdoc || (rewrite Es; exact Hsort)).
  destruct fields as [|kv fields'] eqn:Ef; [reflexivity|]. rewrite <- Ef in *.
  apply decode_docLines; [rewrite Ec; exact Hc | exact Hdoc | | exact Hfirst].
  rewrite Ef. discriminate.
Qed.

End DocumentRoundTrip.

(** ** The validator on documents *)

Section DocumentValidation.

Context {host : JSHost}.

(** A line of a table, as [validate] looks at it. *)
Lemma tableLine_valid base cells widths :
  forallb isWhiteSpace base = true -> cells <> [] ->
  Forall (fun c => ~ In PIPE c) cells ->
  let l := tableLine base (padCells cells widths) in
  blankOrComment l = false /\ lineIndentOf l = length base
  /\ startsWith (lit "|") (trim l) = true
  /\ endsWith (lit "|") (trim l) = true
  /\ length (split (lit "|") (trim l)) = length cells + 2.
Proof.
  intros Hb Hne Hp l.
  destruct (tableLine_shape base (padCells cells widths) Hb) as (Ht & Hi & Hs).
  fold l in Ht, Hi, Hs.
  assert (Hpad : Forall (fun c => ~ In PIPE c) (padCells cells widths))
    by (apply padCells_free; [discriminate | exact Hp]).
  assert (Hpne : padCells cells widths <> []).
  { intros E. apply Hne, length_zero_iff_nil.
    rewrite <- (padCells_length cells widths), E. reflexivity. }
  repeat split; try assumption.
  - unfold blankOrComment. rewrite Ht. reflexivity.
  - rewrite Ht. change (lit " |") with ([SPACE] ++ [PIPE]).
    rewrite !app_assoc. apply endsWith_last.
  - rewrite Ht.
    change (lit "| " ++ join (lit " | ") (padCells cells widths) ++ lit " |")
      with ([] ++ PIPE :: (SPACE :: join (lit " | ") (padCells cells widths)
                                 ++ [SPACE; PIPE])).
    change (lit "|") with [PIPE].
    rewrite split_first by (intros []).
    rewrite split_wrapped by assumption.
    cbn [length]. rewrite length_app, length_map, padCells_length. cbn [length]. lia.
Qed.

Lemma validate_key_line l rest i inTable tableColumns errs :
  blankOrComment l = false -> lineIndentOf l mod 2 = 0 ->
  startsWith (lit "|") (trim l) = false ->
  validate_loop (l :: rest) i inTable tableColumns errs
  = validate_loop rest (S i) false 0%Z errs.
Proof.
  intros Hb Hi Hp. cbn [validate_loop]. unfold blankOrComment in Hb.
  rewrite Hb, Hi, Hp. reflexivity.
Qed.

Lemma validate_table_line l rest i inTable tableColumns errs :
  blankOrComment l = false -> lineIndentOf l mod 2 = 0 ->
  startsWith (lit "|") (trim l) = true ->
  endsWith (lit "|") (trim l) = true ->
  inTable = false
  \/ tableColumns = (Z.of_nat (length (split (lit "|") (trim l))) - 1)%Z ->
  validate_loop (l :: rest) i inTable tableColumns errs
  = validate_loop rest (S i) true
      (Z.of_nat (length (split (lit "|") (trim l))) - 1)%Z errs.
Proof.
  intros Hb Hi Hp He Hstate. cbn [validate_loop]. unfold blankOrComment in Hb.
  rewrite Hb, Hi, Hp, He. cbn [negb Nat.eqb].
  destruct Hstate as [-> | ->]; [reflexivity|].
  rewrite Z.eqb_refl. destruct inTable; reflexivity.
Qed.

Lemma level_even options level :
  Nat.even (indent_unit options) = true ->
  length (levelIndent options level) mod 2 = 0.
Proof.
  intros H. rewrite levelIndent_length.
  apply Nat.even_spec in H as [m ->].
  replace (level * (2 * m)) with (2 * (level * m)) by lia.
  rewrite Nat.mul_comm. apply Nat.Div0.mod_mul.
Qed.

Lemma validate_table_lines options level first rest more i tableColumns errs :
  is_true (compact options) = false ->
  Nat.even (indent_unit options) = true ->
  ObjectKeys first <> [] -> NoDup (ObjectKeys first) ->
  Forall (fun h => tableKey h = true) (ObjectKeys first) ->
  Forall (exactRow (ObjectKeys first)) (first :: rest) ->
  exists i' columns,
    validate_loop (tableLines options level (first :: rest) ++ more) i false
      tableColumns errs
    = validate_loop more i' true columns errs.
Proof.
  intros Hc Heven Hne Hnd Hkeys Hexact.
  assert (Hrows := exactRows_tableRows first rest Hnd Hexact).
  set (headers := ObjectKeys first) in *.
  set (arr := first :: rest) in *.
  unfold tableLines. cbn [hd]. fold headers.
  set (base := levelIndent options level).
  set (rows := map (cellsOf options headers) arr).
  set (widths := getColumnWidths headers rows).
  assert (Hb : forallb isWhiteSpace base = true) by apply levelIndent_spaces.
  assert (Hev : length base mod 2 = 0) by (apply level_even, Heven).
  assert (Hhp : Forall (fun c => ~ In PIPE c) headers)
    by (eapply Forall_impl; [|exact Hkeys]; intros h Hh;
        apply (tableKey_facts h Hh)).
  assert (Hline : forall cells, cells <> [] -> length cells = length headers ->
            Forall (fun c => ~ In PIPE c) cells ->
            forall more i inT cols errs,
              inT = false \/ cols = (Z.of_nat (length headers + 2) - 1)%Z ->
              validate_loop (tableLine base (padCells cells widths) :: more) i inT
                cols errs
              = validate_loop more (S i) true
                  (Z.of_nat (length headers + 2) - 1)%Z errs).
  { intros cells Hcne Hlen Hcp more' i' inT cols errs' Hstate.
    destruct (tableLine_valid base cells widths Hb Hcne Hcp)
      as (V1 & V2 & V3 & V4 & V5).
    rewrite (validate_table_line _ more' i' inT cols errs' V1);
      [rewrite V5, Hlen; reflexivity | rewrite V2; exact Hev | exact V3 | exact V4 |].
    rewrite V5, Hlen. exact Hstate. }
  cbn [app]. rewrite (Hline headers Hne eq_refl Hhp) by (left; reflexivity).
  assert (G : forall sub, (forall row, In row sub -> In row arr) ->
            forall i,
            exists i',
              validate_loop
                (map (fun row => tableLine base (padCells row widths))
                     (map (cellsOf options headers) sub) ++ more) i true
                (Z.of_nat (length headers + 2) - 1)%Z errs
              = validate_loop more i' true (Z.of_nat (length headers + 2) - 1)%Z errs).
  { induction sub as [|row sub IH]; intros Hsub j.
    - exists j. reflexivity.
    - cbn [map app].
      assert (Hrow : tableRow headers row).
      { rewrite Forall_forall in Hrows. apply Hrows, Hsub. left. reflexivity. }
      destruct (cellsOf_good options headers row Hc Hrow) as (G1 & _).
      rewrite (Hline (cellsOf options headers row)); [| | apply cellsOf_length
                                                      | exact G1 | right; reflexivity].
      + apply IH. intros r Hr. apply Hsub. right. exact Hr.
      + intros E. apply Hne, length_zero_iff_nil.
        rewrite <- (cellsOf_length options headers row), E. reflexivity. }
  destruct (G arr (fun r H => H) (S i)) as (i' & E).
  exists i', (Z.of_nat (length headers + 2) - 1)%Z. exact E.
Qed.

Lemma level_zero_even options : length (levelIndent options 0) mod 2 = 0.
Proof. reflexivity. Qed.

(** [validate] reports nothing on the lines of a document, when the
    indentation unit is even or nothing is nested. *)
Lemma validate_document_lines :
  (forall v, fieldValue v ->
     forall k options level more i inTable tableColumns errs,
       is_true (compact options) = false -> plainKey k = true ->
       Nat.even (indent_unit options) = true
       \/ (level = 0 /\ blockValue v = false) ->
       exists i' inTable' columns,
         validate_loop (docLines options level (JObj [(k, v)]) ++ more) i inTable
           tableColumns errs
         = validate_loop more i' inTable' columns errs) /\
  (forall fields, document fields ->
     forall options level more i inTable tableColumns errs,
       is_true (compact options) = false ->
       Nat.even (indent_unit options) = true
       \/ (level = 0 /\ flatFields fields) ->
       exists i' inTable' columns,
         validate_loop (docLines options level (JObj fields) ++ more) i inTable
           tableColumns errs
         = validate_loop more i' inTable' columns errs).
Proof.
  assert (Even : forall options level (b : Prop),
             Nat.even (indent_unit options) = true \/ (level = 0 /\ b) ->
             length (levelIndent options level) mod 2 = 0).
  { intros options level b [H | [-> _]]; [apply level_even, H | reflexivity]. }
  assert (Key : forall v k options level i inTable tableColumns errs tl,
             fieldValue v -> is_true (compact options) = false ->
             plainKey k = true ->
             length (levelIndent options level) mod 2 = 0 ->
             exists r tl',
               docLines options level (JObj [(k, v)])
               = (levelIndent options level ++ k ++ COLON :: r) :: tl' /\
               validate_loop ((levelIndent options level ++ k ++ COLON :: r) :: tl)
                 i inTable tableColumns errs
               = validate_loop tl (S i) false 0%Z errs).
  { intros v k options level i inT cols errs tl Hv Hc Hk Heven.
    destruct (field_block_head v k options level Hv Hc) as (r & tl' & E & Hr).
    exists r, tl'. split; [exact E|].
    destruct (indented_key_line (levelIndent options level) k r
                (levelIndent_spaces options level) Hk Hr)
      as (_ & Li & Lb & Lp & _).
    apply validate_key_line; [exact Lb | | exact Lp].
    rewrite Li. exact Heven. }
  assert (One : forall v k options level more i inTable tableColumns errs,
             fieldValue v -> is_true (compact options) = false ->
             plainKey k = true ->
             length (levelIndent options level) mod 2 = 0 ->
             (exists l, docLines options level (JObj [(k, v)]) = [l]) ->
             exists i' inTable' columns,
               validate_loop (docLines options level (JObj [(k, v)]) ++ more) i
                 inTable tableColumns errs
               = validate_loop more i' inTable' columns errs).
  { intros v k options level more i inT cols errs Hv Hc Hk Heven (l & El).
    destruct (Key v k options level i inT cols errs more Hv Hc Hk Heven)
      as (r & tl' & E & Hval).
    rewrite E in El. injection El as <- ->. rewrite E. cbn [app].
    rewrite Hval. eexists _, _, _. reflexivity. }
  apply fieldValue_document_mutind.
  - intros v Hr Hb k options level more i inT cols errs Hc Hk Heven.
    apply One; try assumption;
      [apply value_scalar; assumption | apply (Even _ _ _ Heven) |].
    rewrite docLines_scalar by (apply roundTripPrimitive_isPrimitive, Hr).
    eexists. reflexivity.
  - intros k options level more i inT cols errs Hc Hk Heven.
    apply One; try assumption;
      [apply value_empty_array | apply (Even _ _ _ Heven) |].
    eexists. reflexivity.
  - intros items Hlen Hitems Hq k options level more i inT cols errs Hc Hk Heven.
    apply One; try assumption;
      [apply value_inline; assumption | apply (Even _ _ _ Heven) |].
    rewrite docLines_inline;
      [|intros ->; cbn in Hlen; lia | apply inlineItems_primitive, Hitems].
    eexists. reflexivity.
  - intros first rest Hne Hnd Hkeys Hrows k options level more i inT cols errs
      Hc Hk Heven.
    inversion Hrows as [|? ? Hfirst _]; subst.
    destruct (exactRow_object _ _ Hfirst) as (ffields & ->).
    assert (Hunit : Nat.even (indent_unit options) = true)
      by (destruct Heven as [H | [_ H]]; [exact H | discriminate H]).
    destruct (Key (JArr (JObj ffields :: rest)) k options level i inT cols errs
                (tableLines options (S level) (JObj ffields :: rest) ++ more)
                (value_table (JObj ffields) rest Hne Hnd Hkeys Hrows) Hc Hk
                (level_even options level Hunit))
      as (r & tl' & E & Hval).
    assert (E2 : tl' = tableLines options (S level) (JObj ffields :: rest)).
    { pose proof E as E'. rewrite docLines_table in E'.
      apply (f_equal (@tl _)) in E'. symmetry. exact E'. }
    rewrite E, E2. cbn [app]. rewrite Hval.
    destruct (validate_table_lines options (S level) (JObj ffields) rest more
                (S i) 0%Z errs Hc Hunit Hne Hnd Hkeys Hrows) as (i' & columns & Et).
    rewrite Et. eexists _, _, _. reflexivity.
  - intros k options level more i inT cols errs Hc Hk Heven.
    apply One; try assumption;
      [apply value_empty_object | apply (Even _ _ _ Heven) |].
    eexists. reflexivity.
  - intros fields Hdoc IH Hm k options level more i inT cols errs Hc Hk Heven.
    assert (Hfields := nested_nonempty fields Hm).
    assert (Hunit : Nat.even (indent_unit options) = true).
    { destruct Heven as [H | [_ H]]; [exact H|].
      destruct fields; [congruence | discriminate H]. }
    destruct (Key (JObj fields) k options level i inT cols errs
                (docLines options (S level) (JObj fields) ++ more)
                (value_nested fields Hdoc Hm) Hc Hk
                (level_even options level Hunit))
      as (r & tl' & E & Hval).
    assert (E2 : tl' = docLines options (S level) (JObj fields)).
    { pose proof E as E'.
      rewrite docLines_nested in E' by exact Hfields.
      apply (f_equal (@tl _)) in E'. symmetry. exact E'. }
    rewrite E, E2. cbn [app]. rewrite Hval.
    apply IH; [exact Hc | left; exact Hunit].
  - intros options level more i inT cols errs Hc Heven.
    eexists _, _, _. reflexivity.
  - intros k v rest Hk Hfresh Hv IHv Hrest IHrest options level more i inT cols
      errs Hc Heven.
    rewrite docLines_cons, <- app_assoc.
    destruct (IHv k options level (docLines options level (JObj rest) ++ more)
                i inT cols errs Hc Hk) as (i1 & inT1 & c1 & E1).
    { destruct Heven as [H | [H1 H2]]; [left; exact H|]. right. split; [exact H1|].
      inversion H2; assumption. }
    rewrite E1. apply IHrest; [exact Hc|].
    destruct Heven as [H | [H1 H2]]; [left; exact H|]. right. split; [exact H1|].
    inversion H2; assumption.
Qed.

(** One turn of the loop of [validate]: errors are only added, and one is
    added on a line of odd indentation. *)
Lemma validate_loop_step l rest i inTable tableColumns errs :
  exists inTable' columns errs',
    validate_loop (l :: rest) i inTable tableColumns errs
    = validate_loop rest (S i) inTable' columns errs'
    /\ length errs <= length errs'
    /\ (blankOrComment l = false -> lineIndentOf l mod 2 <> 0 ->
        length errs < length errs').
Proof.
  cbn [validate_loop]. unfold blankOrComment.
  destruct (eqb (trim l) (lit "") || startsWith (lit "#") (trim l)).
  { eexists _, _, _. split; [reflexivity|]. split; [lia | discriminate]. }
  set (errs1 := if negb (lineIndentOf l mod 2 =? 0)
                then errs ++ [indentationError (i + 1) (lineIndentOf l) l]
                else errs).
  assert (H1 : length errs <= length errs1
               /\ (lineIndentOf l mod 2 <> 0 -> length errs < length errs1)).
  { subst errs1. destruct (Nat.eqb_spec (lineIndentOf l mod 2) 0) as [E | E];
      cbn [negb]; [split; [lia | congruence]|].
    rewrite length_app. cbn [length]. split; intros; lia. }
  destruct H1 as [H1 H2].
  destruct (startsWith (lit "|") (trim l)).
  2:{ eexists _, _, _. split; [reflexivity|]. split; [exact H1 | intros _; exact H2]. }
  eexists _, _, _. split; [reflexivity|].
  match goal with
  | |- length errs <= length ?e3 /\ _ =>
      assert (H3 : length errs1 <= length e3)
  end.
  { repeat match goal with
           | |- context [if ?b then _ else _] => destruct b
           end; rewrite ?length_app; cbn [length]; lia. }
  split; [lia | intros _ H; specialize (H2 H); lia].
Qed.

Lemma validate_loop_odd_line rest :
  forall l i inTable tableColumns errs,
    In l rest -> blankOrComment l = false -> lineIndentOf l mod 2 <> 0 ->
    length errs < length (validate_loop rest i inTable tableColumns errs).
Proof.
  assert (Grow : forall ls i inTable tableColumns errs,
             length errs <= length (validate_loop ls i inTable tableColumns errs)).
  { induction ls as [|l ls IH]; intros i inT cols errs; [cbn; lia|].
    destruct (validate_loop_step l ls i inT cols errs)
      as (inT' & cols' & errs' & -> & Hle & _).
    specialize (IH (S i) inT' cols' errs'). lia. }
  induction rest as [|l' rest IH]; intros l i inT cols errs Hin Hb Hodd;
    [destruct Hin|].
  destruct (validate_loop_step l' rest i inT cols errs)
    as (inT' & cols' & errs' & -> & Hle & Hlt).
  destruct Hin as [-> | Hin].
  - specialize (Hlt Hb Hodd). specialize (Grow rest (S i) inT' cols' errs'). lia.
  - specialize (IH l (S i) inT' cols' errs' Hin Hb Hodd). lia.
Qed.

Lemma docLines_field_incl options level fields k v :
  In (k, v) fields ->
  incl (docLines options level (JObj [(k, v)])) (docLines options level (JObj fields)).
Proof.
  intros Hin l Hl. cbn [docLines flat_map] in Hl. rewrite app_nil_r in Hl.
  cbn [docLines]. apply in_flat_map. exists (k, v). split; assumption.
Qed.

Lemma document_field fields k v :
  document fields -> In (k, v) fields -> plainKey k = true /\ fieldValue v.
Proof.
  induction 1 as [|k' v' rest Hk Hfresh Hv Hrest IH]; intros Hin; [destruct Hin|].
  destruct Hin as [E | Hin]; [injection E as -> ->; auto | apply IH, Hin].
Qed.

(** A nested value puts a line at the first level of indentation. *)
Lemma block_line options fields k v :
  document fields -> is_true (compact options) = false ->
  In (k, v) fields -> blockValue v = true ->
  exists l, In l (docLines options 0 (JObj fields))
            /\ blankOrComment l = false
            /\ lineIndentOf l = indent_unit options.
Proof.
  intros Hdoc Hc Hin Hb.
  destruct (document_field fields k v Hdoc Hin) as [Hk Hv].
  assert (Hlen : length (levelIndent options 1) = indent_unit options)
    by (rewrite levelIndent_length; lia).
  assert (Hincl := docLines_field_incl options 0 fields k v Hin).
  destruct Hv as [v Hr Hbr| |items Hlen' Hitems Hq
                 |first rest Hne Hnd Hkeys Hrows| |nested Hnested Hm].
  - apply roundTripPrimitive_isPrimitive in Hr. destruct v; discriminate.
  - discriminate Hb.
  - destruct items as [|v0 items]; [discriminate Hb|].
    inversion Hitems as [|? ? (Hr & _) _]; subst.
    apply roundTripPrimitive_isPrimitive in Hr. destruct v0; discriminate.
  - inversion Hrows as [|? ? Hfirst _]; subst.
    destruct (exactRow_object _ _ Hfirst) as (ffields & ->).
    destruct (tableLines_facts options 1 (JObj ffields) rest Hc Hne Hnd Hkeys Hrows)
      as (hline & rlines & E & _ & _ & Hblank & Hind & _).
    exists hline. repeat split; [|exact Hblank | rewrite Hind; exact Hlen].
    apply Hincl. rewrite docLines_table, E. right. left. reflexivity.
  - discriminate Hb.
  - assert (Hne := nested_nonempty nested Hm).
    destruct (document_head nested options 1 Hnested Hne Hc)
      as (l & tl & E & Lb & Li & _).
    exists l. repeat split; [|exact Lb | rewrite Li; exact Hlen].
    apply Hincl. rewrite docLines_nested by exact Hne. rewrite E.
    right. left. reflexivity.
Qed.

(** X11: [validate] accepts the text [encode] writes for a document
    exactly when the indent is even, or no value of the document is written
    on lines of its own. *)
Theorem validate_accepts_documents fields encodeOptions :
  is_true (compact encodeOptions) = false ->
  is_true (sortKeys encodeOptions) = false ->
  document fields ->
  (valid (validate (encode (JObj fields) encodeOptions)) = true <->
   Nat.even (indent_unit encodeOptions) = true \/ flatFields fields).
Proof.
  intros Hc Hsort Hdoc.
  cbn [encode].
  set (opts := {| enc_indent := or_default (enc_indent encodeOptions) 2;
                  compact := or_default (compact encodeOptions) false;
                  sortKeys := or_default (sortKeys encodeOptions) false |}).
  assert (Hc' : is_true (compact opts) = false)
    by (subst opts; cbn [compact]; rewrite is_true_or_default; exact Hc).
  assert (Hsort' : is_true (sortKeys opts) = false)
    by (subst opts; cbn [sortKeys]; rewrite is_true_or_default; exact Hsort).
  assert (Hunit : indent_unit opts = indent_unit encodeOptions).
  { subst opts. unfold indent_unit. cbn [enc_indent].
    destruct (enc_indent encodeOptions) as [[|n]|]; reflexivity. }
  rewrite <- Hunit.
  rewrite (encodeValue_document fields opts 0 Hdoc Hsort').
  destruct fields as [|kv fields'] eqn:Ef.
  { split; [intros _; right; constructor | reflexivity]. }
  rewrite <- Ef in *.
  assert (Hne : fields <> []) by (rewrite Ef; discriminate).
  set (lines := docLines opts 0 (JObj fields)).
  assert (Htext : Forall (fun l => ~ In NEWLINE l /\ ~ In CR l) lines)
    by (apply (proj2 docLines_text fields Hdoc opts 0 Hc')).
  destruct (document_head fields opts 0 Hdoc Hne Hc') as (l & tl & E & _).
  fold lines in E.
  unfold validate, normalizeNewlines.
  assert (Hcr : ~ In CR (join [NEWLINE] lines)).
  { intros H. apply In_join in H as [[H | []] | (x & Hx & H)]; [discriminate H|].
    rewrite Forall_forall in Htext. exact (proj2 (Htext x Hx) H). }
  rewrite (replaceAll_absent CR [NEWLINE] [NEWLINE] _ Hcr).
  rewrite (replaceAll_absent CR [] [NEWLINE] _ Hcr).
  rewrite split_join; [|rewrite E; discriminate|].
  2:{ eapply Forall_impl; [|exact Htext]. intros x Hx. exact (proj1 Hx). }
  cbn [valid]. split.
  - intros Hvalid.
    destruct (Nat.even (indent_unit opts)) eqn:Heven; [left; reflexivity|].
    right. apply Forall_forall. intros [k v] Hin. cbn [snd].
    destruct (blockValue v) eqn:Hb; [exfalso | reflexivity].
    destruct (block_line opts fields k v Hdoc Hc' Hin Hb) as (x & Hx & Xb & Xi).
    assert (Hodd : lineIndentOf x mod 2 <> 0).
    { rewrite Xi. intros H. apply Nat.Div0.mod_divides in H as [m Hm].
      rewrite Hm in Heven. rewrite Nat.even_mul in Heven. discriminate Heven. }
    pose proof (validate_loop_odd_line lines x 0 false 0%Z [] Hx Xb Hodd) as Hlt.
    apply Nat.eqb_eq in Hvalid. cbn [length] in Hlt. lia.
  - intros H.
    destruct (proj2 validate_document_lines fields Hdoc opts 0 [] 0 false 0%Z []
                Hc') as (i' & inT & cols & Ev).
    { destruct H as [H | H]; [left; exact H | right; split; [reflexivity | exact H]]. }
    fold lines in Ev. rewrite app_nil_r in Ev. rewrite Ev. reflexivity.
Qed.

End DocumentValidation.

(** ** Arrays at the root *)

Section RootArrays.

Context {host : JSHost}.

(** The text of a primitive array at the root. *)
Lemma root_inline_text (items : list JsonValue) (options : EncodeOptions) :
  is_true (compact options) = false ->
  items <> [] -> Forall rootItem items ->
  let f := inlineList items options in
  startsNonWs f = true /\ endsNonWs f = true
  /\ ~ In NEWLINE f /\ ~ In CR f
  /\ (if includes (lit ", ") f then primitiveList (lit ", ") f
      else JArr [parsePrimitive f]) = JArr items
  /\ (items <> [JStr (lit "[]")] -> f <> lit "[]").
Proof.
  intros Hc Hne Hitems f.
  set (texts := map (fun v => formatPrimitive v options false) items).
  assert (Hgood : forall v, In v items ->
            goodText (formatPrimitive v options false) v
                     (v <> JStr (lit "[]")) (pipeFree v)).
  { intros v Hv. rewrite Forall_forall in Hitems.
    apply (value_text v options false Hc), (Hitems v Hv). }
  assert (Htexts : forall t, In t texts ->
            startsNonWs t = true /\ endsNonWs t = true
            /\ ~ In NEWLINE t /\ ~ In CR t /\ ~ In COMMA t).
  { intros t Ht. subst texts. apply in_map_iff in Ht as (v & <- & Hv).
    destruct (Hgood v Hv) as [T1 T2 T3 T4 T5 T6 T7 T8].
    rewrite Forall_forall in Hitems. destruct (Hitems v Hv) as (Hr & Hcm).
    destruct (value_text_marks v options Hc Hr) as (M1 & _).
    repeat split; auto. }
  assert (Htne : texts <> []) by (subst texts; destruct items; [congruence|discriminate]).
  assert (Hin : forall c, In c f -> c = COMMA \/ c = SPACE
                                    \/ exists t, In t texts /\ In c t).
  { intros c H. apply In_join in H as [[H | [H | []]] | H]; auto. }
  assert (Hfree : forall c, c <> COMMA -> c <> SPACE ->
                            (forall t, In t texts -> ~ In c t) -> ~ In c f).
  { intros c H1 H2 H3 H. destruct (Hin c H) as [? | [? | (t & Ht & Hct)]];
      [congruence | congruence | exact (H3 t Ht Hct)]. }
  assert (Hback : map (fun v => parsePrimitive (trim v)) texts = items).
  { subst texts. rewrite map_map. rewrite <- (map_id items) at 2.
    apply map_ext_in. intros v Hv.
    destruct (Hgood v Hv) as [T1 T2 T3 _ _ _ _ _].
    rewrite (trim_id _ T2 T3). exact T1. }
  repeat split.
  - destruct items as [|v0 items]; [congruence|].
    apply (startsNonWs_join (lit ", ")), Htexts. left. reflexivity.
  - apply endsNonWs_join; [exact Htne|]. apply Forall_forall. intros t Ht.
    apply Htexts, Ht.
  - apply Hfree; try discriminate. intros t Ht. apply Htexts, Ht.
  - apply Hfree; try discriminate. intros t Ht. apply Htexts, Ht.
  - destruct items as [|v0 [|v1 items]]; [congruence| |].
    + (* one element *)
      assert (Ef : f = formatPrimitive v0 options false) by reflexivity.
      rewrite (includes_without (lit ", ") f COMMA);
        [|left; reflexivity
         |rewrite Ef; apply (Htexts _ (or_introl eq_refl))].
      rewrite Ef. destruct (Hgood v0 (or_introl eq_refl)) as [T1 _ _ _ _ _ _ _].
      rewrite T1. reflexivity.
    + assert (Ef : f = formatPrimitive v0 options false ++ lit ", "
                         ++ join (lit ", ") (map (fun v => formatPrimitive v options false)
                                                 (v1 :: items))) by reflexivity.
      replace (includes (lit ", ") f) with true
        by (symmetry; rewrite Ef; apply includes_middle).
      unfold primitiveList. f_equal. unfold f, inlineList. fold texts.
      change (lit ", ") with (COMMA :: [SPACE]).
      rewrite split_join_sep; [exact Hback | exact Htne |].
      apply Forall_forall. intros t Ht. apply Htexts, Ht.
  - intros Hnb E.
    destruct items as [|v0 [|v1 items]]; [congruence| |].
    + destruct (Hgood v0 (or_introl eq_refl)) as [T1 _ _ _ _ T6 _ _].
      change f with (formatPrimitive v0 options false) in E.
      apply T6; [|exact E]. intros E0. apply Hnb. rewrite E0. reflexivity.
    + assert (Hc' : In COMMA f).
      { unfold f, inlineList. cbn [map].
        rewrite (join_cons (lit ", ")) by discriminate.
        apply in_app_iff. right. left. reflexivity. }
      rewrite E in Hc'. cbn in Hc'.
      repeat (destruct Hc' as [Hc' | Hc']; [discriminate Hc'|]). exact Hc'.
Qed.

Lemma encode_primitive_array items encodeOptions :
  items <> [] -> isPrimitiveArray items = true ->
  encode (JArr items) encodeOptions
  = lit "_: "
      ++ inlineList items
           {| enc_indent := or_default (enc_indent encodeOptions) 2;
              compact := or_default (compact encodeOptions) false;
              sortKeys := or_default (sortKeys encodeOptions) false |}.
Proof.
  destruct items as [|v items]; [congruence|]. intros _ H.
  unfold encode. rewrite H. reflexivity.
Qed.

(** X12: with [compact] off, [decode (encode arr)] is [arr] for every array
    of comma-free round-trip scalars other than the array of the string
    [[]] alone. *)
Theorem root_array_roundtrip items encodeOptions options :
  is_true (compact encodeOptions) = false ->
  Forall rootItem items -> items <> [JStr (lit "[]")] ->
  decode (encode (JArr items) encodeOptions) options = Some (JArr items).
Proof.
  intros Hc Hitems Hnb.
  destruct (encode_options_defaults encodeOptions) as (Ec & _ & _).
  destruct items as [|v0 items'] eqn:Ei; [reflexivity|]. rewrite <- Ei in *.
  assert (Hne : items <> []) by (rewrite Ei; discriminate).
  assert (Hprim : isPrimitiveArray items = true).
  { apply forallb_forall. rewrite Forall_forall in Hitems. intros v Hv.
    apply roundTripPrimitive_isPrimitive, (Hitems v Hv). }
  rewrite (encode_primitive_array items encodeOptions Hne Hprim).
  set (opts := {| enc_indent := _; compact := _; sortKeys := _ |}) in *.
  rewrite <- Ec in Hc.
  destruct (root_inline_text items opts Hc Hne Hitems)
    as (Hs & He & Hnl & Hcr & Hread & Hbr).
  set (f := inlineList items opts) in *.
  set (text := lit "_: " ++ f).
  assert (Tnl : ~ In NEWLINE text).
  { intros H. apply in_app_iff in H as [H | H]; [|contradiction].
    cbn in H. repeat (destruct H as [H | H]; [discriminate H|]). exact H. }
  assert (Tcr : ~ In CR text).
  { intros H. apply in_app_iff in H as [H | H]; [|contradiction].
    cbn in H. repeat (destruct H as [H | H]; [discriminate H|]). exact H. }
  assert (Ttrim : trim text = text).
  { apply trim_id; [reflexivity|]. apply (endsNonWs_app (lit "_: ")), He. }
  assert (Tvalue : trim (slice_from (trim text) 2) = f).
  { rewrite Ttrim. subst text.
    change (lit "_: " ++ f) with (lit "_:" ++ SPACE :: f).
    change 2%Z with (Z.of_nat (length (lit "_:"))).
    rewrite slice_from_suffix.
    rewrite <- (app_nil_r f) at 1.
    apply (trim_padded [SPACE] f []); [reflexivity | reflexivity |].
    apply trim_id; assumption. }
  unfold decode, normalizeNewlines.
  rewrite (replaceAll_absent CR [NEWLINE] [NEWLINE] _ Tcr).
  rewrite (replaceAll_absent CR [] [NEWLINE] _ Tcr).
  rewrite (split_absent NEWLINE [] _ Tnl).
  assert (Tblank : blankOrComment text = false)
    by (unfold blankOrComment; rewrite Ttrim; reflexivity).
  cbn [forallb skipBlankOrComment]. rewrite Tblank. cbn [andb nth_error].
  rewrite Tvalue.
  replace (startsWith (lit "|") (trim text)) with false
    by (rewrite Ttrim; reflexivity).
  replace (startsWith (lit "_:") (trim text)) with true
    by (rewrite Ttrim; reflexivity).
  replace (eqb f (lit "")) with false
    by (symmetry; apply eqb_neq; intros E; rewrite E in Hs; discriminate Hs).
  replace (eqb f (lit "[]")) with false
    by (symmetry; apply eqb_neq; apply Hbr; exact Hnb).
  cbn [orb]. destruct (includes (lit ", ") f); rewrite <- Hread; reflexivity.
Qed.

Lemma isTableLine_shallower (B B' : nat) (l : jsstring) :
  isTableLine B l = true -> B' <= B -> isTableLine B' l = true.
Proof.
  unfold isTableLine. intros H Hle.
  apply andb_true_iff in H as [H1 H2]. rewrite H1. cbn [andb].
  apply negb_true_iff in H2. apply negb_true_iff.
  apply andb_false_iff in H2 as [H2 | H2]; [|rewrite H2; apply andb_false_r].
  apply Nat.ltb_ge in H2.
  replace (lineIndentOf l <? B') with false; [reflexivity|].
  symmetry. apply Nat.ltb_ge. lia.
Qed.

Lemma tableLines_row_indent options level arr l :
  In l (tableLines options level arr) ->
  lineIndentOf l = length (levelIndent options level).
Proof.
  unfold tableLines. intros [<- | H].
  - apply tableLine_shape, levelIndent_spaces.
  - apply in_map_iff in H as (row & <- & _).
    apply tableLine_shape, levelIndent_spaces.
Qed.

(** X13: a table at the root is decoded to the array it was written from
    when the indent is two or more, and to the empty array when the indent is
    one. *)
Theorem root_table_roundtrip first rest encodeOptions options :
  is_true (compact encodeOptions) = false ->
  ObjectKeys first <> [] -> NoDup (ObjectKeys first) ->
  Forall (fun h => tableKey h = true) (ObjectKeys first) ->
  Forall (exactRow (ObjectKeys first)) (first :: rest) ->
  decode (encode (JArr (first :: rest)) encodeOptions) options
  = Some (JArr (if 2 <=? indent_unit encodeOptions then first :: rest else [])).
Proof.
  intros Hc Hne Hnd Hkeys Hrows.
  destruct (encode_options_defaults encodeOptions) as (Ec & _ & Eu).
  destruct (isTableArray_rows first rest (exactRows_tableRows first rest Hnd Hrows))
    as [Ht Hp].
  unfold encode. rewrite Hp, Ht.
  set (opts := {| enc_indent := _; compact := _; sortKeys := _ |}) in *.
  rewrite <- Ec in Hc. rewrite <- Eu.
  rewrite encodeTable_lines.
  destruct (tableLines_facts opts 1 first rest Hc Hne Hnd Hkeys Hrows)
    as (hline & rlines & E & Hlen & Htext & Hblank & Hind & Hpipe & Hheaders
        & Hall & Hparsed).
  assert (Hrind : forall l, In l rlines -> lineIndentOf l = indent_unit opts).
  { intros l Hl.
    rewrite (tableLines_row_indent opts 1 (first :: rest) l)
      by (rewrite E; right; exact Hl).
    rewrite levelIndent_length. lia. }
  rewrite E.
  set (lines := lit "_:" :: hline :: rlines).
  assert (Ejoin : lit "_:" ++ [NEWLINE] ++ join [NEWLINE] (hline :: rlines)
                  = join [NEWLINE] lines) by reflexivity.
  rewrite Ejoin.
  assert (Hlines : Forall (fun l => ~ In NEWLINE l /\ ~ In CR l) lines).
  { constructor; [|exact Htext].
    split; intros H; cbn in H;
      repeat (destruct H as [H | H]; [discriminate H|]); exact H. }
  unfold decode, normalizeNewlines.
  assert (Hcr : ~ In CR (join [NEWLINE] lines)).
  { intros H. apply In_join in H as [[H | []] | (x & Hx & H)]; [discriminate H|].
    rewrite Forall_forall in Hlines. exact (proj2 (Hlines x Hx) H). }
  rewrite (replaceAll_absent CR [NEWLINE] [NEWLINE] _ Hcr).
  rewrite (replaceAll_absent CR [] [NEWLINE] _ Hcr).
  rewrite split_join; [|discriminate|].
  2:{ eapply Forall_impl; [|exact Hlines]. intros x Hx. exact (proj1 Hx). }
  subst lines.
  change (forallb blankOrComment (lit "_:" :: hline :: rlines)) with false.
  change (skipBlankOrComment (lit "_:" :: hline :: rlines) 0) with 0.
  cbn [nth_error Nat.add].
  change (startsWith (lit "|") (trim (lit "_:"))) with false.
  change (startsWith (lit "_:") (trim (lit "_:"))) with true.
  change (eqb (trim (slice_from (trim (lit "_:")) 2)) (lit "")) with true.
  cbn [orb]. cbv iota.
  replace (eqb hline (lit "")) with false.
  2:{ symmetry. apply eqb_neq. intros Eh. rewrite Eh in Hpipe. discriminate Hpipe. }
  rewrite Hpipe. cbn [negb andb].
  unfold parseTable. cbn [nth_error skipn]. rewrite Hpipe. cbn [negb].
  rewrite Hheaders, parseTable_rows_plain by exact (tableKeys_plain _ Hkeys).
  cbn [option_map fst app].
  rewrite levelIndent_length, Nat.mul_1_l in *.
  destruct (Nat.leb_spec 2 (indent_unit opts)) as [Hge | Hlt].
  - rewrite takeWhile_all, Hparsed; [reflexivity|].
    apply forallb_forall. intros l Hl. rewrite forallb_forall in Hall.
    apply (isTableLine_shallower (indent_unit opts)); [apply Hall, Hl | exact Hge].
  - destruct rlines as [|r rlines]; [discriminate Hlen|].
    cbn [forallb] in Hall. apply andb_true_iff in Hall as [Hr _].
    unfold isTableLine in Hr. apply andb_true_iff in Hr as [Hr1 Hr2].
    apply negb_true_iff, andb_false_iff in Hr2 as [Hr2 | Hr2].
    + cbn [takeWhile]. unfold isTableLine at 1. rewrite Hr1.
      replace (lineIndentOf r <? 2) with true
        by (symmetry; apply Nat.ltb_lt;
            rewrite (Hrind r (or_introl eq_refl)); exact Hlt).
      replace (eqb (trim r) (lit "")) with false; [reflexivity|].
      symmetry. apply eqb_neq. intros Er. rewrite Er in Hr1. discriminate Hr1.
    + apply negb_false_iff, eqb_eq in Hr2. rewrite Hr2 in Hr1. discriminate Hr1.
Qed.

End RootArrays.

(** ** Values that are written alike *)

Section Collisions.

Context {host : JSHost}.

(** A one-element array of a primitive is written as the primitive. *)
Lemma fieldLines_single enc options level k v :
  isPrimitive v = true ->
  fieldLines enc options level k (JArr [v]) = fieldLines enc options level k v.
Proof.
  intros Hv. unfold fieldLines. cbn [isPrimitiveArray forallb].
  rewrite Hv. cbn [andb]. unfold inlineList. cbn [map join].
  destruct v; try discriminate Hv; reflexivity.
Qed.

(** The string [[]] is written as the empty array. *)
Lemma fieldLines_brackets enc options level k :
  fieldLines enc options level k (JStr (lit "[]"))
  = fieldLines enc options level k (JArr []).
Proof.
  unfold fieldLines. cbn [notObjectType formatPrimitive].
  destruct (is_true (compact options)); reflexivity.
Qed.

(** The text of an object depends on a value through its lines only. *)
Lemma encodeValue_same_lines pre k v w post options level :
  (forall enc, fieldLines enc options level k v = fieldLines enc options level k w) ->
  encodeValue (JObj (pre ++ (k, v) :: post)) options level
  = encodeValue (JObj (pre ++ (k, w) :: post)) options level.
Proof.
  intros H. cbn [encodeValue].
  rewrite !map_app. cbn [map fst snd]. rewrite H. reflexivity.
Qed.

(** X14: [encode] writes the same text for a key with the array of one
    primitive and for the key with the primitive, and for a key with the
    string [[]] and for the key with the empty array. *)
Theorem field_values_written_alike pre k post encodeOptions :
  (forall v, isPrimitive v = true ->
     encode (JObj (pre ++ (k, JArr [v]) :: post)) encodeOptions
     = encode (JObj (pre ++ (k, v) :: post)) encodeOptions)
  /\ encode (JObj (pre ++ (k, JStr (lit "[]")) :: post)) encodeOptions
     = encode (JObj (pre ++ (k, JArr []) :: post)) encodeOptions.
Proof.
  split.
  - intros v Hv. cbn [encode]. apply encodeValue_same_lines.
    intros enc. apply fieldLines_single, Hv.
  - cbn [encode]. apply encodeValue_same_lines.
    intros enc. apply fieldLines_brackets.
Qed.

(** X15: in a document, a key with the array of one primitive is read back
    with the primitive as its value, and a key with the string [[]] with
    the empty array. *)
Theorem collapsed_values_read_back pre k v post encodeOptions options :
  is_true (compact encodeOptions) = false ->
  is_true (sortKeys encodeOptions) = false ->
  document (pre ++ (k, v) :: post) ->
  hd_error (map fst (pre ++ (k, v) :: post)) <> Some (lit "_") ->
  (isPrimitive v = true ->
   decode (encode (JObj (pre ++ (k, JArr [v]) :: post)) encodeOptions) options
   = Some (JObj (pre ++ (k, v) :: post)))
  /\ (v = JArr [] ->
      decode (encode (JObj (pre ++ (k, JStr (lit "[]")) :: post)) encodeOptions)
             options
      = Some (JObj (pre ++ (k, JArr []) :: post))).
Proof.
  intros Hc Hsort Hdoc Hfirst.
  destruct (encode_options_defaults encodeOptions) as (Ec & Es & _).
  assert (Hback : decode (encode (JObj (pre ++ (k, v) :: post)) encodeOptions)
                         options
                  = Some (JObj (pre ++ (k, v) :: post))).
  { cbn [encode].
    rewrite encodeValue_document by (exact Hdoc || (rewrite Es; exact Hsort)).
    apply decode_docLines; [rewrite Ec; exact Hc | exact Hdoc | | exact Hfirst].
    destruct pre; discriminate. }
  split.
  - intros Hv. rewrite <- Hback. f_equal. cbn [encode].
    apply encodeValue_same_lines. intros enc. apply fieldLines_single, Hv.
  - intros ->. rewrite <- Hback. f_equal. cbn [encode].
    apply encodeValue_same_lines. intros enc. apply fieldLines_brackets.
Qed.

End Collisions.

(** ** The marker of a root array as a key *)

Lemma replaceAll_app_absent (c : char) (p rep a b : jsstring) :
  ~ In c a -> replaceAll (c :: p) rep (a ++ b) = a ++ replaceAll (c :: p) rep b.
Proof.
  unfold replaceAll. induction a as [|x a IH]; intros H; [reflexivity|].
  cbn [app replaceAll_aux startsWith].
  destruct (N.eqb_spec c x) as [-> | _]; [exfalso; apply H; left; reflexivity|].
  cbn [andb]. rewrite IH; [reflexivity | intros Hc; apply H; right; exact Hc].
Qed.

(** The first line of a text is the text up to its first line feed when
    there is no carriage return before it. *)
Lemma first_line (l0 more : jsstring) :
  ~ In NEWLINE l0 -> ~ In CR l0 ->
  exists ls, split [NEWLINE] (normalizeNewlines (l0 ++ NEWLINE :: more)) = l0 :: ls.
Proof.
  intros Hnl Hcr. unfold normalizeNewlines.
  rewrite (replaceAll_app_absent CR [NEWLINE] [NEWLINE] l0 _ Hcr).
  replace (replaceAll [CR; NEWLINE] [NEWLINE] (NEWLINE :: more))
    with (NEWLINE :: replaceAll [CR; NEWLINE] [NEWLINE] more) by reflexivity.
  rewrite (replaceAll_app_absent CR [] [NEWLINE] l0 _ Hcr).
  match goal with
  | |- context [replaceAll [CR] [NEWLINE] (NEWLINE :: ?m)] =>
      replace (replaceAll [CR] [NEWLINE] (NEWLINE :: m))
        with (NEWLINE :: replaceAll [CR] [NEWLINE] m) by reflexivity
  end.
  rewrite split_first by exact Hnl. eexists. reflexivity.
Qed.

Section RootMarker.

Context {host : JSHost}.

(** X16: an object whose first key is [_], with a scalar value, is read
    back as the array of that value; its other keys are lost. *)
Theorem underscore_key_read_as_array v rest encodeOptions options :
  is_true (compact encodeOptions) = false ->
  is_true (sortKeys encodeOptions) = false ->
  rootItem v -> v <> JStr (lit "[]") ->
  decode (encode (JObj ((lit "_", v) :: rest)) encodeOptions) options
  = Some (JArr [v]).
Proof.
  intros Hc Hsort Hv Hnb.
  destruct (encode_options_defaults encodeOptions) as (Ec & Es & _).
  cbn [encode].
  set (opts := {| enc_indent := _; compact := _; sortKeys := _ |}) in *.
  rewrite <- Ec in Hc. rewrite <- Es in Hsort.
  assert (Hprim : isPrimitive v = true)
    by (apply roundTripPrimitive_isPrimitive, Hv).
  destruct (root_inline_text [v] opts Hc) as (Hs & He & Hnl & Hcr & Hread & Hbr);
    [discriminate | constructor; [exact Hv | constructor] |].
  unfold inlineList in *. cbn [map join] in *.
  set (f := formatPrimitive v opts false) in *.
  set (l0 := lit "_: " ++ f).
  assert (Tnl : ~ In NEWLINE l0).
  { intros H. apply in_app_iff in H as [H | H]; [|contradiction].
    cbn in H. repeat (destruct H as [H | H]; [discriminate H|]). exact H. }
  assert (Tcr : ~ In CR l0).
  { intros H. apply in_app_iff in H as [H | H]; [|contradiction].
    cbn in H. repeat (destruct H as [H | H]; [discriminate H|]). exact H. }
  assert (Ttrim : trim l0 = l0).
  { apply trim_id; [reflexivity|]. apply (endsNonWs_app (lit "_: ")), He. }
  assert (Tvalue : trim (slice_from (trim l0) 2) = f).
  { rewrite Ttrim. subst l0.
    change (lit "_: " ++ f) with (lit "_:" ++ SPACE :: f).
    change 2%Z with (Z.of_nat (length (lit "_:"))).
    rewrite slice_from_suffix.
    rewrite <- (app_nil_r f) at 1.
    apply (trim_padded [SPACE] f []); [reflexivity | reflexivity |].
    apply trim_id; assumption. }
  assert (Tblank : blankOrComment l0 = false)
    by (unfold blankOrComment; rewrite Ttrim; reflexivity).
  assert (Htext : exists ls,
            split [NEWLINE]
              (normalizeNewlines (encodeValue (JObj ((lit "_", v) :: rest)) opts 0))
            = l0 :: ls).
  { cbn [encodeValue]. rewrite Hsort. cbn [map fst snd flat_map].
    unfold lines_of at 1. cbn [find fst snd]. rewrite eqb_refl.
    rewrite fieldLines_primitive by exact Hprim.
    unfold fieldLine. cbn [fst snd app]. fold f.
    change (lit "_" ++ lit ": " ++ f) with l0.
    match goal with
    | |- context [join _ (l0 :: ?o)] => destruct o as [|y others]
    end.
    - cbn [join]. unfold normalizeNewlines.
      rewrite (replaceAll_absent CR [NEWLINE] [NEWLINE] _ Tcr).
      rewrite (replaceAll_absent CR [] [NEWLINE] _ Tcr).
      rewrite (split_absent NEWLINE [] _ Tnl). eexists; reflexivity.
    - change (join [NEWLINE] (l0 :: y :: others))
        with (l0 ++ NEWLINE :: join [NEWLINE] (y :: others)).
      apply first_line; assumption. }
  destruct Htext as (ls & Htext).
  unfold decode. rewrite Htext.
  cbn [forallb skipBlankOrComment]. rewrite Tblank. cbn [andb nth_error].
  rewrite Tvalue.
  replace (startsWith (lit "|") (trim l0)) with false
    by (rewrite Ttrim; reflexivity).
  replace (startsWith (lit "_:") (trim l0)) with true
    by (rewrite Ttrim; reflexivity).
  replace (eqb f (lit "")) with false
    by (symmetry; apply eqb_neq; intros E; rewrite E in Hs; discriminate Hs).
  replace (eqb f (lit "[]")) with false.
  2:{ symmetry; apply eqb_neq; apply Hbr. intros E. apply Hnb. congruence. }
  cbn [orb]. destruct (includes (lit ", ") f); rewrite <- Hread; reflexivity.
Qed.

End RootMarker.

(** ** The values the decoder returns *)

(** *** What [trim] leaves *)

Lemma trimStart_result (s : jsstring) :
  trimStart s = [] \/ startsNonWs (trimStart s) = true.
Proof.
  induction s as [|c s IH]; [left; reflexivity|]. cbn [trimStart].
  destruct (isWhiteSpace c) eqn:E; [exact IH|].
  right. cbn [startsNonWs]. rewrite E. reflexivity.
Qed.

Lemma trimStart_split (s : jsstring) :
  exists w, s = w ++ trimStart s.
Proof.
  induction s as [|c s (w & IH)]; [exists []; reflexivity|]. cbn [trimStart].
  destruct (isWhiteSpace c); [|exists []; reflexivity].
  exists (c :: w). cbn [app]. rewrite <- IH. reflexivity.
Qed.

Lemma trim_idempotent (s : jsstring) : trim (trim s) = trim s.
Proof.
  unfold trim at 2 3. set (t := trimStart s).
  assert (Ht : t = [] \/ startsNonWs t = true) by apply trimStart_result.
  destruct Ht as [-> | Ht]; [reflexivity|].
  unfold trimEnd. set (u := trimStart (rev t)).
  destruct (trimStart_result (rev t)) as [E | E]; fold u in E.
  - rewrite E. reflexivity.
  - destruct (trimStart_split (rev t)) as (w & Hw). fold u in Hw.
    assert (Et : t = rev u ++ rev w).
    { rewrite <- (rev_involutive t), Hw, rev_app_distr. reflexivity. }
    apply trim_id.
    + destruct (rev u) as [|c r] eqn:Er.
      * apply (f_equal (@rev _)) in Er. rewrite rev_involutive in Er.
        rewrite Er in E. discriminate E.
      * rewrite Et in Ht. exact Ht.
    + unfold endsNonWs. rewrite rev_involutive. exact E.
Qed.

(** *** The pieces of [split] and the first occurrence of [indexOf] *)

Lemma split_aux_pieces (c : char) (s : jsstring) :
  ~ In c (fst (split_aux [c] 0 s))
  /\ Forall (fun p => ~ In c p) (snd (split_aux [c] 0 s)).
Proof.
  induction s as [|x s (IH1 & IH2)]; [split; [intros [] | constructor]|].
  cbn [split_aux startsWith length Nat.sub].
  destruct (N.eqb_spec c x) as [-> | Hx]; cbn [andb].
  - destruct (split_aux [x] 0 s) as [p ps]. cbn [fst snd] in *.
    split; [intros [] | constructor; assumption].
  - destruct (split_aux [c] 0 s) as [p ps]. cbn [fst snd] in *.
    split; [|exact IH2]. intros [E | H]; [apply Hx; symmetry; exact E | exact (IH1 H)].
Qed.

Lemma split_pieces (c : char) (s : jsstring) :
  Forall (fun p => ~ In c p) (split [c] s).
Proof.
  unfold split. destruct (split_aux_pieces c s) as (H1 & H2).
  destruct (split_aux [c] 0 s) as [p ps]. constructor; assumption.
Qed.

Lemma In_slice {A} (x : A) (l : list A) (b e : Z) : In x (slice l b e) -> In x l.
Proof.
  unfold slice. intros H.
  set (n := Z.to_nat (slice_index (Z.of_nat (length l)) b)) in *.
  rewrite <- (firstn_skipn n l). apply in_or_app. right.
  set (r := skipn n l) in *.
  rewrite <- (firstn_skipn (Z.to_nat (slice_index (Z.of_nat (length l)) e
                                      - slice_index (Z.of_nat (length l)) b)) r).
  apply in_or_app. left. exact H.
Qed.

Lemma indexOf_from_found (c : char) (s : jsstring) (i : Z) :
  indexOf_from [c] s i <> (-1)%Z ->
  exists a b, s = a ++ c :: b /\ ~ In c a.
Proof.
  revert i; induction s as [|x s IH]; intros i H; [contradiction H; reflexivity|].
  cbn [indexOf_from startsWith] in H.
  destruct (N.eqb_spec c x) as [-> | Hx]; cbn [andb] in H.
  - exists [], s. split; [reflexivity | intros []].
  - destruct (IH _ H) as (a & b & -> & Ha). exists (x :: a), b.
    split; [reflexivity|]. intros [E | Hin]; [apply Hx; symmetry; exact E | exact (Ha Hin)].
Qed.

(** The text before the first occurrence of [c] does not contain [c]. *)
Lemma slice_before_first (c : char) (s : jsstring) :
  indexOf [c] s <> (-1)%Z -> ~ In c (slice s 0 (indexOf [c] s)).
Proof.
  intros H. destruct (indexOf_from_found c s 0 H) as (a & b & -> & Ha).
  rewrite indexOf_first by exact Ha. rewrite slice_prefix. exact Ha.
Qed.

Section DecodedShape.

Context {host : JSHost}.

Lemma parsePrimitive_scalar (s : jsstring) :
  isContainer (parsePrimitive s) = false.
Proof.
  unfold parsePrimitive.
  destruct (eqb (trim s) (lit "null") || eqb (trim s) (lit "-")
            || eqb (trim s) (lit "")); [reflexivity|].
  destruct (eqb (trim s) (lit "true")); [reflexivity|].
  destruct (eqb (trim s) (lit "false")); [reflexivity|].
  unfold get_property.
  destruct (own_property REVERSE_SYMBOLS (trim s)) as [v|] eqn:E.
  - revert E. cbn [own_property REVERSE_SYMBOLS].
    repeat match goal with
           | |- context [eqb ?a ?b] => destruct (eqb a b)
           end; intros E; inversion E; reflexivity.
  - destruct (existsb (eqb (trim s)) prototype_members); [reflexivity|].
    destruct (startsWith [QUOTE] (trim s) && endsWith [QUOTE] (trim s));
      [reflexivity|].
    destruct (number_re (trim s) && Number_isFinite (Number_ofString (trim s)));
      reflexivity.
Qed.

Lemma parsePrimitive_leaf (s : jsstring) : decodedLeaf (parsePrimitive s).
Proof.
  unfold parsePrimitive, decodedLeaf.
  destruct (eqb (trim s) (lit "null") || eqb (trim s) (lit "-")
            || eqb (trim s) (lit "")); [left; reflexivity|].
  destruct (eqb (trim s) (lit "true")); [left; reflexivity|].
  destruct (eqb (trim s) (lit "false")); [left; reflexivity|].
  unfold get_property.
  destruct (own_property REVERSE_SYMBOLS (trim s)) as [v|] eqn:E.
  - left. revert E. cbn [own_property REVERSE_SYMBOLS].
    repeat match goal with
           | |- context [eqb ?a ?b] => destruct (eqb a b)
           end; intros E; inversion E; reflexivity.
  - destruct (existsb (eqb (trim s)) prototype_members) eqn:M.
    + right. exists (trim s). split; [|reflexivity].
      apply existsb_exists in M as (m & Hm & Em).
      apply eqb_eq in Em. subst m. exact Hm.
    + left.
      destruct (startsWith [QUOTE] (trim s) && endsWith [QUOTE] (trim s));
        [reflexivity|].
      destruct (number_re (trim s)
                && Number_isFinite (Number_ofString (trim s))); reflexivity.
Qed.

Lemma primitiveList_decoded (sep s : jsstring) : decoded (primitiveList sep s).
Proof.
  unfold primitiveList. apply decoded_list. apply Forall_map, Forall_forall.
  intros x _. apply parsePrimitive_leaf.
Qed.

(** *** Assignments keep what holds of every field *)

Lemma set_own_property_Forall (P : jsstring * JsonValue -> Prop) key v fields :
  P (key, v) -> Forall P fields -> Forall P (set_own_property key v fields).
Proof.
  intros Hv. induction fields as [|[k w] r IH]; intros H; cbn [set_own_property].
  - constructor; [exact Hv | constructor].
  - inversion H as [|? ? Hk Hr]; subst.
    destruct (eqb k key) eqn:E.
    + apply eqb_eq in E. subst k. constructor; assumption.
    + constructor; [exact Hk | apply IH, Hr].
Qed.

Lemma assigned_Forall (P : jsstring * JsonValue -> Prop) key v fields :
  (key <> lit "__proto__" -> P (key, v)) ->
  Forall P fields -> Forall P (assigned key v fields).
Proof.
  intros Hv H. unfold assigned.
  destruct (eqb key (lit "__proto__")) eqn:E; [exact H|].
  apply set_own_property_Forall; [apply Hv, eqb_neq, E | exact H].
Qed.

Lemma set_own_property_same_keys key (v w : JsonValue) fields fields' :
  map fst fields = map fst fields' ->
  map fst (set_own_property key v fields)
  = map fst (set_own_property key w fields').
Proof.
  revert fields'. induction fields as [|[k x] r IH]; intros [|[k' x'] r'] H;
    try discriminate H; [reflexivity|].
  cbn [map fst] in H. injection H as -> H. cbn [set_own_property].
  destruct (eqb k' key); cbn [map fst]; f_equal; [exact H | apply IH, H].
Qed.

(** The keys of a row depend on the column names only. *)
Lemma assign_all_same_keys headers : forall (cells cells' : list JsonValue) acc acc',
  length cells = length headers -> length cells' = length headers ->
  map fst acc = map fst acc' ->
  map fst (fold_left assign (combine headers cells) acc)
  = map fst (fold_left assign (combine headers cells') acc').
Proof.
  induction headers as [|h headers IH]; intros cells cells' acc acc' H H' Hacc.
  - exact Hacc.
  - destruct cells as [|c cells]; [discriminate H|].
    destruct cells' as [|c' cells']; [discriminate H'|].
    cbn [combine fold_left]. apply IH; [cbn in H; lia | cbn in H'; lia|].
    unfold assign, assigned. cbn [fst snd].
    destruct (eqb h (lit "__proto__")); [exact Hacc|].
    apply set_own_property_same_keys, Hacc.
Qed.

Lemma rowFields_values (P : JsonValue -> Prop) headers cells :
  Forall P cells ->
  Forall (fun kv => P (snd kv)) (rowFields headers cells).
Proof.
  intros Hc. unfold rowFields. fold assign.
  assert (G : forall l acc,
            Forall (fun kv : jsstring * JsonValue => P (snd kv)) l ->
            Forall (fun kv => P (snd kv)) acc ->
            Forall (fun kv => P (snd kv)) (fold_left assign l acc)).
  { induction l as [|[h c] l IH]; intros acc Hl Hacc; [exact Hacc|].
    inversion Hl as [|? ? Hh Hl']; subst. cbn [fold_left]. apply IH; [exact Hl'|].
    unfold assign. apply assigned_Forall; [intros _; exact Hh | exact Hacc]. }
  apply G; [|constructor].
  apply Forall_forall. intros [h c] Hin. apply in_combine_r in Hin.
  rewrite Forall_forall in Hc. exact (Hc c Hin).
Qed.

Lemma rowCells_leaves (l : jsstring) : Forall decodedLeaf (rowCells l).
Proof.
  unfold rowCells. apply Forall_map, Forall_forall.
  intros x _. apply parsePrimitive_leaf.
Qed.

(** The rows of a table: objects with the same keys, in the same order,
    whose values are what [parsePrimitive] returns. *)
Lemma parseTable_decoded lines startIndex indent rows endIndex :
  parseTable lines startIndex indent = Some (rows, endIndex) ->
  decoded (JArr rows).
Proof.
  unfold parseTable. destruct (nth_error lines startIndex) as [l|]; [|discriminate].
  destruct (negb (startsWith (lit "|") (trim l))).
  { intros E. inversion E; subst. apply decoded_list. constructor. }
  set (headers := map trim (tableCells (trim l))).
  intros E. apply parseTable_rows_value in E. subst rows. cbn [app].
  set (keys := map fst (rowFields headers (map (fun _ => JNull) headers))).
  assert (Hlen : length (map (fun _ : jsstring => @JNull host) headers) = length headers)
    by apply length_map.
  destruct (rowFields_keys headers _ Hlen) as (Hkeys & Hnd). fold keys in Hkeys, Hnd.
  apply (decoded_table keys); [exact Hnd | |].
  - apply Forall_forall. intros k Hk. apply Hkeys in Hk as (Hk & Hp).
    unfold headers in Hk. apply in_map_iff in Hk as (c & <- & Hc).
    split; [apply trim_idempotent|]. split; [|exact Hp].
    intros H. apply In_trim in H. unfold tableCells in Hc. apply In_slice in Hc.
    pose proof (split_pieces PIPE (trim l)) as Hs. rewrite Forall_forall in Hs.
    exact (Hs c Hc H).
  - apply Forall_forall. intros row Hrow.
    apply in_flat_map in Hrow as (x & _ & Hrow).
    apply rowOf_shape in Hrow as (Hl & ->). cbn [decodedRow]. split.
    + unfold keys, rowFields. fold assign.
      apply assign_all_same_keys; [exact Hl | exact Hlen | reflexivity].
    + apply rowFields_values, rowCells_leaves.
Qed.

Lemma assigned_decoded key v fields :
  trim key = key -> ~ In COLON key -> decoded v ->
  decodedFields fields -> decodedFields (assigned key v fields).
Proof.
  intros Ht Hc Hv (Hnd & Hk & Hd). split; [apply assigned_NoDup, Hnd|]. split.
  - apply assigned_Forall; [|exact Hk]. intros Hp. repeat split; assumption.
  - apply assigned_Forall; [|exact Hd]. intros _. exact Hv.
Qed.

Lemma parseDocument_loop_decoded (options : DecodeOptions) :
  forall fuel lines i baseIndent result r endIndex,
    parseDocument_loop fuel lines i baseIndent options result = Some (r, endIndex) ->
    decodedFields result ->
    exists fields, r = JObj fields /\ decodedFields fields.
Proof.
  induction fuel as [|fuel IH]; intros lines i baseIndent result r endIndex;
    cbn [parseDocument_loop]; [discriminate|].
  intros E Hres.
  assert (Done : forall j, Some (JObj result, j) = Some (r, endIndex) ->
                   exists fields, r = JObj fields /\ decodedFields fields).
  { intros j H. inversion H; subst. exists result. split; [reflexivity | exact Hres]. }
  destruct (nth_error lines i) as [l|]; [|exact (Done _ E)].
  destruct (blankOrComment l); [exact (IH _ _ _ _ _ _ E Hres)|].
  destruct (lineIndentOf l <? baseIndent); [exact (Done _ E)|].
  destruct (baseIndent <? lineIndentOf l); [exact (IH _ _ _ _ _ _ E Hres)|].
  destruct (startsWith (lit "|") (trim l)); [exact (IH _ _ _ _ _ _ E Hres)|].
  destruct (indexOf (lit ":") (trim l) =? -1)%Z eqn:Ecolon;
    [exact (IH _ _ _ _ _ _ E Hres)|].
  apply Z.eqb_neq in Ecolon.
  set (key := trim (slice (trim l) 0 (indexOf (lit ":") (trim l)))) in *.
  set (valueStr := trim (slice_from (trim l) (indexOf (lit ":") (trim l) + 1))) in *.
  assert (Kt : trim key = key) by apply trim_idempotent.
  assert (Kc : ~ In COLON key).
  { intros H. apply In_trim in H. exact (slice_before_first COLON (trim l) Ecolon H). }
  assert (Put : forall v, decoded v -> decodedFields (assigned key v result))
    by (intros v Hv; apply assigned_decoded; assumption).
  assert (Empty : decoded (if eqb valueStr (lit "[]") then JArr [] else JObj [])).
  { destruct (eqb valueStr (lit "[]")).
    - apply decoded_list. constructor.
    - apply decoded_object; constructor. }
  assert (Prim : forall s, decoded (parsePrimitive s))
    by (intros s; apply decoded_scalar, parsePrimitive_leaf).
  assert (Next : forall v j b,
             decoded v ->
             match set_property key v result with
             | Some result' =>
                 parseDocument_loop fuel lines j b options result'
             | None => None
             end = Some (r, endIndex) ->
             exists fields, r = JObj fields /\ decodedFields fields).
  { intros v j b Hv H.
    destruct (set_property key v result) as [result'|] eqn:Es; [|discriminate].
    apply set_property_assigned in Es. subst result'.
    exact (IH _ _ _ _ _ _ H (Put _ Hv)). }
  destruct (eqb valueStr (lit "") || eqb valueStr (lit "[]")).
  - destruct (nth_error lines (skipBlank (skipn (S i) lines) (S i))) as [nextLine|];
      [|exact (Next _ _ _ Empty E)].
    destruct ((baseIndent <? lineIndentOf nextLine)
              && startsWith (lit "|") (trim nextLine)).
    + destruct (parseTable lines _ _) as [[rows e]|] eqn:Et; [|discriminate].
      apply parseTable_decoded in Et. exact (Next _ _ _ Et E).
    + destruct ((baseIndent <? lineIndentOf nextLine)
                && negb (eqb (trim nextLine) (lit ""))
                && negb (startsWith (lit "#") (trim nextLine)));
        [|exact (Next _ _ _ Empty E)].
      destruct (parseDocument_loop fuel lines _ (lineIndentOf nextLine) options [])
        as [[nested e]|] eqn:En; [|discriminate].
      destruct (IH _ _ _ _ _ _ En) as (nf & -> & Hn1 & Hn2 & Hn3).
      { repeat split; constructor. }
      apply (Next _ _ _ (decoded_object _ Hn1 Hn2 Hn3) E).
  - refine (Next _ _ _ _ E).
    destruct (startsWith [QUOTE] valueStr && endsWith [QUOTE] valueStr);
      [apply Prim|].
    destruct (includes (lit " | ") valueStr);
      [apply primitiveList_decoded|].
    destruct (includes (lit ", ") valueStr);
      [apply primitiveList_decoded | apply Prim].
Qed.

Lemma decode_decoded (text : jsstring) (options : DecodeOptions) (v : JsonValue) :
  decode text options = Some v -> decoded v.
Proof.
  unfold decode.
  destruct (forallb blankOrComment _).
  { intros E; inversion E. apply decoded_object; constructor. }
  destruct (nth_error _ _) as [first|].
  2:{ intros E; inversion E. apply decoded_object; constructor. }
  destruct (startsWith (lit "|") (trim first)).
  { destruct (parseTable _ _ 0) as [[rows e]|] eqn:Et; [|discriminate].
    intros E; inversion E. apply (parseTable_decoded _ _ _ _ _ Et). }
  destruct (startsWith (lit "_:") (trim first)).
  { destruct (eqb _ (lit "") || eqb _ (lit "[]")).
    - destruct (nth_error _ (_ + 1)) as [nextLine|].
      2:{ intros E; inversion E. apply decoded_list. constructor. }
      destruct (negb (eqb nextLine (lit ""))
                && startsWith (lit "|") (trim nextLine)).
      2:{ intros E; inversion E. apply decoded_list. constructor. }
      destruct (parseTable _ _ 2) as [[rows e]|] eqn:Et; [|discriminate].
      intros E; inversion E. apply (parseTable_decoded _ _ _ _ _ Et).
    - destruct (includes (lit ", ") _); intros E; inversion E.
      + apply primitiveList_decoded.
      + apply decoded_list. constructor; [apply parsePrimitive_leaf | constructor]. }
  unfold parseDocument.
  destruct (parseDocument_loop _ _ _ _ _ _) as [[r e]|] eqn:Ed; [|discriminate].
  intros E; inversion E; subst. cbn [fst].
  destruct (parseDocument_loop_decoded _ _ _ _ _ _ _ _ Ed) as (f & -> & H1 & H2 & H3).
  { repeat split; constructor. }
  apply decoded_object; assumption.
Qed.


(** X17: a value [decode] returns for a text is an object or an array, built
    from the values [parsePrimitive] returns (primitives, and the members of
    [Object.prototype] it finds for their names), arrays of such values,
    tables whose rows have the same keys and such values, and objects of all
    these with trimmed keys without a colon; and [decode] returns for every
    text in which no table line has a cell [__proto__] and no other line the
    key [__proto__]. *)
Theorem decode_result_shape (text : jsstring) (options : DecodeOptions) :
  (forall v, decode text options = Some v ->
             decoded v /\ isContainer v = true) /\
  (protoFree text = true -> exists v, decode text options = Some v).
Proof.
  split.
  - intros v E. split; [exact (decode_decoded text options v E)|].
    exact (decode_container text options v E).
  - apply decode_total.
Qed.


End DecodedShape.

(** ** Objects with one key *)

Section Flattening.

Context {host : JSHost}.

Lemma fieldLines_scalar enc options level key v :
  isPrimitive v = true ->
  fieldLines enc options level key v
  = [levelIndent options level ++ key ++ lit ": " ++ formatPrimitive v options false].
Proof. destruct v; try discriminate; intros _; reflexivity. Qed.

Lemma readValue_not_object (s : jsstring) fields : readValue s <> JObj fields.
Proof.
  unfold readValue.
  assert (P : forall t, parsePrimitive t <> JObj fields).
  { intros t E. pose proof (parsePrimitive_scalar t) as H. rewrite E in H.
    discriminate H. }
  destruct (startsWith [QUOTE] s && endsWith [QUOTE] s); [apply P|].
  destruct (includes (lit " | ") s); [discriminate|].
  destruct (includes (lit ", ") s); [discriminate | apply P].
Qed.

(** A key line whose value has more white space before it. *)
Lemma parse_spaced_line fuel lines i options result base k rest f :
  nth_error lines i = Some (base ++ k ++ COLON :: rest) ->
  forallb isWhiteSpace base = true -> plainKey k = true ->
  endsNonWs rest = true -> trim rest = f -> startsNonWs f = true ->
  f <> lit "[]" ->
  parseDocument_loop (S fuel) lines i (length base) options result =
  parseDocument_loop fuel lines (S i) (length base) options
    (assigned k (readValue f) result).
Proof.
  intros Hnth Hb Hk He Hf Hs Hbr.
  destruct (indented_key_line base k rest Hb Hk (or_intror He))
    as (Ltrim & Lindent & Lblank & Lpipe & Lindex & Lkey & Lvalue).
  rewrite Hf in Lvalue.
  assert (Hne : f <> lit "") by (intros E; rewrite E in Hs; discriminate Hs).
  cbn [parseDocument_loop]. rewrite Hnth, Lblank, Lindent, Nat.ltb_irrefl.
  rewrite Lpipe, Lindex, Lkey, Lvalue.
  replace (Z.of_nat (length k) =? -1)%Z with false
    by (symmetry; apply Z.eqb_neq; lia).
  replace (eqb f (lit "")) with false
    by (symmetry; apply eqb_neq; exact Hne).
  replace (eqb f (lit "[]")) with false
    by (symmetry; apply eqb_neq; auto).
  cbn [orb]. unfold readValue.
  rewrite set_property_plain by exact Hk. reflexivity.
Qed.

(** X18: an object with one key whose value is an object with one key and
    a scalar value is written on one line, and read back with the text of
    the inner key and value as the value of the outer key. *)
Theorem single_field_object_is_flattened k k2 v encodeOptions options :
  is_true (compact encodeOptions) = false ->
  is_true (sortKeys encodeOptions) = false ->
  plainKey k = true -> k <> lit "_" -> plainKey k2 = true ->
  roundTripPrimitive v ->
  exists w,
    decode (encode (JObj [(k, JObj [(k2, v)])]) encodeOptions) options
    = Some (JObj [(k, w)])
    /\ w = readValue (k2 ++ lit ": " ++ formatPrimitive v encodeOptions false)
    /\ w <> JObj [(k2, v)].
Proof.
  intros Hc Hsort Hk Hu Hk2 Hv.
  destruct (encode_options_defaults encodeOptions) as (Ec & Es & _).
  cbn [encode].
  set (opts := {| enc_indent := _; compact := _; sortKeys := _ |}) in *.
  rewrite <- Ec in Hc. rewrite <- Es in Hsort.
  assert (Etext : formatPrimitive v encodeOptions false = formatPrimitive v opts false).
  { unfold formatPrimitive. rewrite <- Ec, Hc. reflexivity. }
  rewrite Etext.
  set (text := formatPrimitive v opts false).
  destruct (value_text v opts false Hc Hv) as [_ Ts Te Tnl Tcr _ _ _]. fold text in Ts, Te, Tnl, Tcr.
  destruct (plainKey_facts k Hk) as (Kt & Kcolon & Knl & Kcr & _ & _ & Kp).
  destruct (plainKey_facts k2 Hk2) as (K2t & K2colon & K2nl & K2cr & _ & _ & _).
  set (f := k2 ++ lit ": " ++ text).
  set (ind := levelIndent opts 1).
  assert (Fs : startsNonWs f = true).
  { subst f. destruct k2 as [|c k2']; [reflexivity|].
    apply startsNonWs_app. apply (trim_fixed (c :: k2') K2t). discriminate. }
  assert (Fe : endsNonWs f = true).
  { subst f. apply endsNonWs_app, (endsNonWs_app (lit ": ")), Te. }
  assert (Fcolon : In COLON f).
  { subst f. apply in_or_app. right. left. reflexivity. }
  assert (Fnl : forall c, c = NEWLINE \/ c = CR -> ~ In c (ind ++ f)).
  { intros c Hcases H. apply in_app_iff in H as [H | H].
    - apply levelIndent_In in H. rewrite H in Hcases.
      destruct Hcases as [E | E]; cbv in E; discriminate E.
    - subst f. apply in_app_iff in H as [H | H];
        [destruct Hcases; subst c; contradiction|].
      apply in_app_iff in H as [H | H].
      + destruct Hcases; subst c; vm_compute in H; intuition discriminate.
      + destruct Hcases; subst c; contradiction. }
  assert (Enested : encodeValue (JObj [(k2, v)]) opts (0 + 1) = ind ++ f).
  { cbn [encodeValue]. rewrite Hsort. cbn [map fst snd flat_map].
    unfold lines_of. cbn [find fst snd]. rewrite eqb_refl.
    rewrite fieldLines_scalar by (apply roundTripPrimitive_isPrimitive, Hv).
    cbn [app join Nat.add]. rewrite app_nil_r. reflexivity. }
  set (l := k ++ COLON :: SPACE :: ind ++ f).
  assert (Eline : encodeValue (JObj [(k, JObj [(k2, v)])]) opts 0 = l).
  { cbn [encodeValue]. rewrite Hsort. cbn [map fst snd flat_map].
    unfold lines_of at 1. cbn [find fst snd]. rewrite eqb_refl.
    unfold fieldLines at 1. cbn [notObjectType].
    change (encodeValue (JObj [(k2, v)]) opts (0 + 1))
      with (encodeValue (JObj [(k2, v)]) opts (0 + 1)).
    fold (encodeValue (JObj [(k2, v)]) opts (0 + 1)).
    rewrite Enested.
    replace (eqb (ind ++ f) (lit "")) with false.
    2:{ symmetry. apply eqb_neq. intros E. apply app_eq_nil in E as [_ E].
        rewrite E in Fs. discriminate Fs. }
    replace (includes [NEWLINE] (ind ++ f)) with false
      by (symmetry; apply includes_char_false, Fnl; left; reflexivity).
    cbn [repeat_str app join]. rewrite app_nil_r. reflexivity. }
  rewrite Eline.
  assert (Lnl : forall c, c = NEWLINE \/ c = CR -> ~ In c l).
  { intros c Hcases H. subst l. apply in_app_iff in H as [H | H];
      [destruct Hcases; subst c; contradiction|].
    destruct H as [H | [H | H]];
      [destruct Hcases; subst c; cbv in H; discriminate H
      | destruct Hcases; subst c; cbv in H; discriminate H |].
    exact (Fnl c Hcases H). }
  destruct (indented_key_line [] k (SPACE :: ind ++ f) eq_refl Hk)
    as (Ltrim & Lindent & Lblank & Lpipe & Lindex & Lkey & Lvalue).
  { right. apply (endsNonWs_app [SPACE]), endsNonWs_app, Fe. }
  cbn [app length] in Ltrim, Lindent, Lblank, Lpipe, Lindex, Lkey, Lvalue.
  fold l in Ltrim, Lindent, Lblank, Lpipe, Lindex, Lkey, Lvalue.
  assert (Hvalue : trim (SPACE :: ind ++ f) = f).
  { change (SPACE :: ind ++ f) with ((SPACE :: ind) ++ f).
    rewrite <- (app_nil_r f) at 1.
    apply (trim_padded (SPACE :: ind) f []);
      [apply (levelIndent_spaces opts 1) | reflexivity | apply trim_id; assumption]. }
  rewrite Hvalue in Lvalue.
  assert (Hroot : startsWith (lit "_:") (trim l) = false).
  { rewrite Ltrim. change (lit "_:") with [95; 58]%N. unfold l.
    destruct k as [|c [|d k']]; cbn [app startsWith].
    - reflexivity.
    - destruct (N.eqb_spec 95 c) as [<- | ]; [|reflexivity].
      exfalso. apply Hu. reflexivity.
    - destruct (N.eqb_spec 58 d) as [<- | ]; [|rewrite andb_false_r; reflexivity].
      exfalso; apply Kcolon. right; left; reflexivity. }
  exists (readValue f). split; [|split; [reflexivity | apply readValue_not_object]].
  unfold decode, normalizeNewlines.
  rewrite (replaceAll_absent CR [NEWLINE] [NEWLINE] l) by (apply Lnl; right; reflexivity).
  rewrite (replaceAll_absent CR [] [NEWLINE] l) by (apply Lnl; right; reflexivity).
  rewrite (split_absent NEWLINE [] l) by (apply Lnl; left; reflexivity).
  cbn [forallb skipBlankOrComment]. rewrite Lblank. cbn [andb nth_error].
  rewrite Lpipe, Hroot.
  assert (Ebr : f <> lit "[]").
  { intros E. rewrite E in Fcolon. vm_compute in Fcolon. intuition discriminate. }
  unfold parseDocument. cbn [length Nat.sub].
  rewrite (parse_spaced_line 1 [l] 0 _ [] [] k (SPACE :: ind ++ f) f
             eq_refl eq_refl Hk
             (endsNonWs_app [SPACE] _ (endsNonWs_app ind f Fe)) Hvalue Fs Ebr).
  cbn [parseDocument_loop nth_error option_map fst].
  unfold assigned. apply eqb_neq in Kp. rewrite Kp. reflexivity.
Qed.

End Flattening.

(** ** Lines before the text *)

(** *** Lines before the lines that are parsed *)

Lemma nth_error_shift {A} (pre l : list A) (j : nat) :
  nth_error (pre ++ l) (length pre + j) = nth_error l j.
Proof. rewrite nth_error_app2 by lia. f_equal. lia. Qed.

Lemma skipn_shift {A} (pre l : list A) (j : nat) :
  skipn (length pre + j) (pre ++ l) = skipn j l.
Proof.
  rewrite skipn_app. rewrite skipn_all2 by lia. cbn [app]. f_equal. lia.
Qed.

Lemma skipBlank_shift (rest : list jsstring) (n idx : nat) :
  skipBlank rest (n + idx) = n + skipBlank rest idx.
Proof.
  revert idx. induction rest as [|l rest IH]; intros idx; cbn [skipBlank];
    [reflexivity|].
  destruct (eqb (trim l) (lit "")); [|reflexivity].
  rewrite <- IH. f_equal. lia.
Qed.

Lemma skipBlankOrComment_shift (rest : list jsstring) (n idx : nat) :
  skipBlankOrComment rest (n + idx) = n + skipBlankOrComment rest idx.
Proof.
  revert idx. induction rest as [|l rest IH]; intros idx;
    cbn [skipBlankOrComment]; [reflexivity|].
  destruct (blankOrComment l); [|reflexivity].
  rewrite <- IH. f_equal. lia.
Qed.

Lemma skipBlankOrComment_leading (pre lines : list jsstring) :
  forallb blankOrComment pre = true ->
  skipBlankOrComment (pre ++ lines) 0
  = length pre + skipBlankOrComment lines 0.
Proof.
  intros H.
  assert (G : forall idx, skipBlankOrComment (pre ++ lines) idx
                          = skipBlankOrComment lines (length pre + idx)).
  { induction pre as [|l pre IH]; intros idx; [reflexivity|].
    cbn [forallb] in H. apply andb_true_iff in H as (Hl & Hpre).
    cbn [app skipBlankOrComment length]. rewrite Hl, (IH Hpre). f_equal. lia. }
  rewrite G. apply skipBlankOrComment_shift.
Qed.

Section LeadingLines.

Context {host : JSHost}.

Lemma parseTable_rows_shift headers indent rest n : forall i result,
  1 <= i ->
  parseTable_rows headers indent rest (n + i) result
  = option_map (fun r => (fst r, n + snd r))
      (parseTable_rows headers indent rest i result).
Proof.
  induction rest as [|l rest IH]; intros i result Hi; cbn [parseTable_rows].
  - cbn [option_map fst snd]. do 2 f_equal. lia.
  - destruct (negb (startsWith (lit "|") (trim l)));
      [cbn [option_map fst snd]; do 2 f_equal; lia|].
    destruct ((lineIndentOf l <? indent) && negb (eqb (trim l) (lit "")));
      [cbn [option_map fst snd]; do 2 f_equal; lia|].
    replace (S (n + i)) with (n + S i) by lia.
    destruct (length _ =? length headers); [|apply IH; lia].
    destruct (makeRow headers _) as [row|]; [apply IH; lia | reflexivity].
Qed.

Lemma parseTable_shift pre lines j indent :
  parseTable (pre ++ lines) (length pre + j) indent
  = option_map (fun r => (fst r, length pre + snd r)) (parseTable lines j indent).
Proof.
  unfold parseTable. rewrite nth_error_shift.
  destruct (nth_error lines j) as [l|]; [|reflexivity].
  destruct (negb (startsWith (lit "|") (trim l))); [reflexivity|].
  replace (S (length pre + j)) with (length pre + S j) by lia.
  rewrite skipn_shift, parseTable_rows_shift by lia. reflexivity.
Qed.

Lemma parseDocument_loop_shift pre options :
  forall fuel lines i baseIndent result,
    parseDocument_loop fuel (pre ++ lines) (length pre + i) baseIndent options result
    = option_map (fun r => (fst r, length pre + snd r))
        (parseDocument_loop fuel lines i baseIndent options result).
Proof.
  induction fuel as [|fuel IH]; intros lines i baseIndent result;
    cbn [parseDocument_loop]; [reflexivity|].
  rewrite nth_error_shift.
  destruct (nth_error lines i) as [l|]; [|reflexivity].
  replace (S (length pre + i)) with (length pre + S i) by lia.
  rewrite ?IH, skipn_shift, skipBlank_shift, nth_error_shift.
  assert (P : forall k v j b,
             match set_property k v result with
             | Some result' =>
                 parseDocument_loop fuel (pre ++ lines) (length pre + j) b
                   options result'
             | None => None
             end
             = option_map (fun r => (fst r, length pre + snd r))
                 match set_property k v result with
                 | Some result' =>
                     parseDocument_loop fuel lines j b options result'
                 | None => None
                 end).
  { intros k v j b.
    destruct (set_property k v result); [apply IH | reflexivity]. }
  destruct (blankOrComment l); [reflexivity|].
  destruct (lineIndentOf l <? baseIndent); [reflexivity|].
  destruct (baseIndent <? lineIndentOf l); [reflexivity|].
  destruct (startsWith (lit "|") (trim l)); [reflexivity|].
  destruct (indexOf (lit ":") (trim l) =? -1)%Z; [reflexivity|].
  destruct (eqb _ (lit "") || eqb _ (lit "[]")).
  - destruct (nth_error lines (skipBlank (skipn (S i) lines) (S i)))
      as [nextLine|]; [|apply P].
    destruct ((baseIndent <? lineIndentOf nextLine)
              && startsWith (lit "|") (trim nextLine)).
    + rewrite parseTable_shift.
      destruct (parseTable lines _ _) as [[rows e]|]; [|reflexivity].
      cbn [option_map fst snd].
      replace (length pre + e + 1) with (length pre + (e + 1)) by lia.
      apply P.
    + destruct ((baseIndent <? lineIndentOf nextLine)
                && negb (eqb (trim nextLine) (lit ""))
                && negb (startsWith (lit "#") (trim nextLine)));
        [|apply P].
      rewrite IH.
      destruct (parseDocument_loop fuel lines _ (lineIndentOf nextLine) options [])
        as [[nested e]|]; [|reflexivity].
      cbn [option_map fst snd]. apply P.
  - apply P.
Qed.

(** X19: blank lines and comment lines put before a text do not change
    what [decode] returns. *)
Theorem leading_comments_are_ignored pre lines options :
  Forall (fun l => blankOrComment l = true /\ ~ In NEWLINE l /\ ~ In CR l) pre ->
  Forall (fun l => ~ In NEWLINE l /\ ~ In CR l) lines ->
  lines <> [] ->
  decode (join [NEWLINE] (pre ++ lines)) options
  = decode (join [NEWLINE] lines) options.
Proof.
  intros Hpre Hlines Hne.
  assert (Hall : Forall (fun l => ~ In NEWLINE l /\ ~ In CR l) (pre ++ lines)).
  { apply Forall_app. split; [|exact Hlines].
    eapply Forall_impl; [|exact Hpre]. intros l H. exact (proj2 H). }
  assert (Hblank : forallb blankOrComment pre = true).
  { apply forallb_forall. rewrite Forall_forall in Hpre.
    intros l Hl. exact (proj1 (Hpre l Hl)). }
  assert (Split : forall ls, ls <> [] ->
            Forall (fun l => ~ In NEWLINE l /\ ~ In CR l) ls ->
            split [NEWLINE] (normalizeNewlines (join [NEWLINE] ls)) = ls).
  { intros ls Hls H. unfold normalizeNewlines.
    assert (Hcr : ~ In CR (join [NEWLINE] ls)).
    { intros Hin. apply In_join in Hin as [[Hin | []] | (x & Hx & Hin)];
        [discriminate Hin|].
      rewrite Forall_forall in H. exact (proj2 (H x Hx) Hin). }
    rewrite (replaceAll_absent CR [NEWLINE] [NEWLINE] _ Hcr).
    rewrite (replaceAll_absent CR [] [NEWLINE] _ Hcr).
    apply split_join; [exact Hls|].
    eapply Forall_impl; [|exact H]. intros l Hl. exact (proj1 Hl). }
  unfold decode.
  rewrite (Split (pre ++ lines)), (Split lines); try assumption.
  2:{ intros E. apply app_eq_nil in E as [_ E]. contradiction. }
  rewrite forallb_app, Hblank. cbn [andb].
  destruct (forallb blankOrComment lines); [reflexivity|].
  rewrite (skipBlankOrComment_leading pre lines Hblank).
  set (s := skipBlankOrComment lines 0).
  rewrite nth_error_shift.
  destruct (nth_error lines s) as [first|]; [|reflexivity].
  destruct (startsWith (lit "|") (trim first)).
  { rewrite parseTable_shift. destruct (parseTable lines s 0) as [[rows e]|];
      reflexivity. }
  destruct (startsWith (lit "_:") (trim first)).
  { destruct (eqb _ (lit "") || eqb _ (lit "[]")); [|reflexivity].
    replace (length pre + s + 1) with (length pre + (s + 1)) by lia.
    rewrite nth_error_shift.
    destruct (nth_error lines (s + 1)) as [nextLine|]; [|reflexivity].
    destruct (negb (eqb nextLine (lit "")) && startsWith (lit "|") (trim nextLine));
      [|reflexivity].
    rewrite parseTable_shift. destruct (parseTable lines (s + 1) 2) as [[rows e]|];
      reflexivity. }
  unfold parseDocument. rewrite length_app.
  replace (length pre + length lines - (length pre + s)) with (length lines - s)
    by lia.
  rewrite parseDocument_loop_shift.
  destruct (parseDocument_loop _ lines s 0 _ []) as [[r e]|]; reflexivity.
Qed.

End LeadingLines.

(** ** The command line *)

Section CommandLine.

Import Cli.

Context {host : JSHost}.

Variable parseInt : option jsstring -> number.

Variable extname : jsstring -> jsstring.

Lemma parseArgs_loop_input args : forall options p,
  input (parseArgs_loop parseInt args options) = Some p ->
  input options = Some p \/ (In p args /\ startsWith (lit "-") p = false).
Proof.
  induction args as [args IH] using list_length_ind.
  intros options p. destruct args as [|arg rest]; [left; assumption|].
  assert (Step : forall rest' o,
            length rest' < length (arg :: rest) ->
            (forall x, In x rest' -> In x (arg :: rest)) ->
            input o = input options ->
            input (parseArgs_loop parseInt rest' o) = Some p ->
            input options = Some p
            \/ (In p (arg :: rest) /\ startsWith (lit "-") p = false)).
  { intros rest' o Hlen Hin Ho H. destruct (IH rest' Hlen o p H) as [E | (E1 & E2)].
    - left. rewrite <- Ho. exact E.
    - right. split; [apply Hin, E1 | exact E2]. }
  assert (Tail : forall x, In x rest -> In x (arg :: rest)) by (intros x Hx; right; exact Hx).
  assert (Len : length rest < length (arg :: rest)) by (cbn [length]; lia).
  cbn [parseArgs_loop].
  destruct (eqb arg (lit "-o") || eqb arg (lit "--output")).
  { destruct rest as [|v rest']; [intros H; left; exact H|].
    apply Step; [cbn [length]; lia | intros x Hx; right; right; exact Hx | reflexivity]. }
  destruct (eqb arg (lit "-e") || eqb arg (lit "--encode"));
    [apply Step; [exact Len | exact Tail | reflexivity]|].
  destruct (eqb arg (lit "-d") || eqb arg (lit "--decode"));
    [apply Step; [exact Len | exact Tail | reflexivity]|].
  destruct (eqb arg (lit "--compact"));
    [apply Step; [exact Len | exact Tail | reflexivity]|].
  destruct (eqb arg (lit "--indent")).
  { destruct rest as [|v rest']; [intros H; left; exact H|].
    apply Step; [cbn [length]; lia | intros x Hx; right; right; exact Hx | reflexivity]. }
  destruct (eqb arg (lit "--stats"));
    [apply Step; [exact Len | exact Tail | reflexivity]|].
  destruct (eqb arg (lit "--strict"));
    [apply Step; [exact Len | exact Tail | reflexivity]|].
  destruct (eqb arg (lit "--validate"));
    [apply Step; [exact Len | exact Tail | reflexivity]|].
  destruct (eqb arg (lit "-h") || eqb arg (lit "--help"));
    [apply Step; [exact Len | exact Tail | reflexivity]|].
  destruct (eqb arg (lit "-v") || eqb arg (lit "--version"));
    [apply Step; [exact Len | exact Tail | reflexivity]|].
  destruct (startsWith (lit "-") arg) eqn:Hdash; cbn [negb];
    [apply Step; [exact Len | exact Tail | reflexivity]|].
  intros H. destruct (IH rest Len _ p H) as [E | (E1 & E2)].
  - cbn [set_input input] in E. injection E as <-. right. split; [left; reflexivity | exact Hdash].
  - right. split; [right; exact E1 | exact E2].
Qed.

(** X20: the input path [parseArgs] returns is one of the arguments and
    does not start with a dash; it is never the [-] that stands for the
    standard input. *)
Theorem parseArgs_input (args : list jsstring) (p : jsstring) :
  input (parseArgs parseInt args) = Some p ->
  In p args /\ startsWith (lit "-") p = false /\ p <> lit "-".
Proof.
  intros H. apply parseArgs_loop_input in H as [H | (H1 & H2)]; [discriminate H|].
  split; [exact H1|]. split; [exact H2|].
  intros ->. discriminate H2.
Qed.

Lemma parseArgs_loop_flags args : forall options,
  Forall (fun a => takesValue a = false) args ->
  is_true (encode (parseArgs_loop parseInt args options))
  = is_true (encode options) || existsb encodeFlag args
  /\ is_true (decode (parseArgs_loop parseInt args options))
     = is_true (decode options) || existsb decodeFlag args.
Proof.
  induction args as [|arg rest IH]; intros options Hv.
  - cbn [parseArgs_loop existsb]. rewrite !orb_false_r. split; reflexivity.
  - inversion Hv as [|? ? Ha Hrest]; subst.
    unfold takesValue in Ha. apply orb_false_iff in Ha as (Ha & Hi).
    cbn [parseArgs_loop existsb]. rewrite Ha, Hi. unfold encodeFlag at 1, decodeFlag at 1.
    destruct (eqb arg (lit "-e") || eqb arg (lit "--encode")) eqn:Ee.
    { destruct (IH (set_encode options) Hrest) as (-> & ->).
      cbn [set_encode encode decode is_true].
      assert (Ed : eqb arg (lit "-d") || eqb arg (lit "--decode") = false).
      { apply orb_true_iff in Ee as [E | E]; apply eqb_eq in E; subst arg; reflexivity. }
      rewrite Ed. cbn [orb]. rewrite orb_true_r. split; reflexivity. }
    destruct (eqb arg (lit "-d") || eqb arg (lit "--decode")) eqn:Ed.
    { destruct (IH (set_decode options) Hrest) as (-> & ->).
      cbn [set_decode encode decode is_true orb]. rewrite orb_true_r.
      split; reflexivity. }
    cbn [orb].
    repeat match goal with
           | |- context [if ?b then _ else _] => destruct b
           end;
      match goal with
      | |- context [parseArgs_loop parseInt rest ?o] =>
          destruct (IH o Hrest) as (-> & ->); split; reflexivity
      end.
Qed.

(** X21: when no argument takes a value, the mode is [encode] if an encode
    flag is among the arguments, and [decode] if a decode flag and no encode
    flag is among them, whatever the extensions of the paths are. *)
Theorem flags_force_the_mode (args : list jsstring) :
  Forall (fun a => takesValue a = false) args ->
  let options := parseArgs parseInt args in
  (existsb encodeFlag args = true ->
   detectMode extname (input options) options = EncodeMode)
  /\ (existsb encodeFlag args = false -> existsb decodeFlag args = true ->
      detectMode extname (input options) options = DecodeMode).
Proof.
  intros Hv options.
  destruct (parseArgs_loop_flags args no_options Hv) as (He & Hd).
  fold (parseArgs parseInt args) in He, Hd. fold options in He, Hd.
  cbn [no_options encode decode is_true orb] in He, Hd.
  unfold detectMode. rewrite He, Hd. split.
  - intros ->. reflexivity.
  - intros -> ->. reflexivity.
Qed.

End CommandLine.

(** * The statements on concrete inputs *)

(** C3, counterexample: the string ["-"] is no compact-mode keyword, is not
    [true], [false] or [null] in any case, and has no numeric shape; it is
    formatted as it is and parsed to [null]. *)
Lemma dash_string_parses_to_null :
  compactKeyword (lit "-") = false /\
  existsb (eqb (toLowerCase (lit "-"))) [lit "true"; lit "false"; lit "null"]
  = false /\
  plain_number_re (lit "-") = false /\
  number_re (lit "-") = false /\
  formatPrimitive (JStr (lit "-")) no_encode_options false = lit "-" /\
  parsePrimitive (formatPrimitive (JStr (lit "-")) no_encode_options false)
  = JNull.
Proof. repeat split; reflexivity. Qed.

Lemma format_then_parse_string_witness :
  parsePrimitive
    (formatPrimitive (JStr (lit "Hello, World!")) no_encode_options false)
  = JStr (lit "Hello, World!") /\
  parsePrimitive
    (formatPrimitive (JStr (lit "C:\Users")) no_encode_options false)
  = JStr (lit "C:\Users").
Proof.
  split;
    (apply format_then_parse_string; [intros H; discriminate H | reflexivity]).
Defined.

(** C3, a string left out: in ["C:\new"] the backslash is directly before
    the letter [n]; the string is written in quotes, with the backslash
    doubled, and read back with a line break in place of the letter. *)
Lemma backslash_before_n_is_read_as_newline :
  roundTripString (lit "C:\new") = false /\
  parsePrimitive
    (formatPrimitive (JStr (lit "C:\new")) no_encode_options false)
  = JStr (lit "C:" ++ [BACKSLASH; NEWLINE] ++ lit "ew").
Proof. split; reflexivity. Qed.


(** C5: in the document
<<
k:
  | a |
  | x |

  | y |
>>
    the table ends at the blank line: the row [y] after it is not in the
    array, and the object-block parser then skips it as a more indented
    line. *)
Theorem blank_line_ends_table :
  decode
    (join [NEWLINE]
       [lit "k:"; lit "  | a |"; lit "  | x |"; lit ""; lit "  | y |"])
    no_decode_options
  = Some (JObj [(lit "k", JArr [JObj [(lit "a", JStr (lit "x"))]])]).
Proof. vm_compute. reflexivity. Qed.



(** C7, counterexample: in ["a:b://c"] the first colon is not part of a
    [://], and the string is not quoted. *)
Lemma colon_beside_url_not_quoted :
  has_free_colon (lit "a:b://c") = true /\
  needsQuoting (lit "a:b://c") = false.
Proof. split; reflexivity. Qed.

Lemma table_columns_aligned_witness :
  encodeTable user_rows no_encode_options 1
  = join [NEWLINE]
      [lit "  | id | name  |"; lit "  | 1  | Alice |"; lit "  | 2  | Bob   |"]
  /\
  exists (base : jsstring) (widths : list nat) (rows : list (list jsstring)),
    encodeTable user_rows no_encode_options 1
    = join [NEWLINE] (map (tableLine base) rows) /\
    length rows = 3 /\
    Forall (fun cells => map (@length char) cells = widths) rows /\
    (forall r1 r2, In r1 rows -> In r2 rows ->
                   length (tableLine base r1) = length (tableLine base r2)).
Proof.
  split; [reflexivity|].
  apply (table_columns_aligned
           (JObj [(lit "id", num 1); (lit "name", JStr (lit "Alice"))])
           [JObj [(lit "id", num 2); (lit "name", JStr (lit "Bob"))]]
           no_encode_options 1); reflexivity.
Defined.

Lemma needsQuoting_triggers_iff_witness : needsQuoting (lit "a:b") = true.
Proof.
  apply (proj2 (needsQuoting_triggers_iff (lit "a:b")));
    [right; left; reflexivity | reflexivity].
Defined.


(** The key [__proto__] in a text.  With a primitive value the assignment
    does nothing, and the key is not in the result.  With the name of a
    function of [Object.prototype], with [null] or with an array as its
    value, the assignment replaces the prototype of the object and the
    result is [None]: on the first text below the source then throws a
    [TypeError] at [name], which is read-only in the function [Object]; in
    the table, it creates an own key [__proto__] in the second column. *)
Lemma prototype_key_examples :
  decode (join [NEWLINE] [lit "__proto__: 5"; lit "name: x"]) no_decode_options
  = Some (JObj [(lit "name", JStr (lit "x"))]) /\
  decode (join [NEWLINE] [lit "__proto__: constructor"; lit "name: x"])
    no_decode_options
  = None /\
  protoFree (join [NEWLINE] [lit "__proto__: constructor"; lit "name: x"])
  = false /\
  parseTable [lit "| __proto__ | __proto__ |"; lit "| - | x |"] 0 0 = None /\
  parseTable [lit "| __proto__ | a |"; lit "| 1 | x |"] 0 0
  = Some ([JObj [(lit "a", JStr (lit "x"))]], 1).
Proof. repeat split; reflexivity. Qed.

Lemma decode_result_shape_witness :
  decoded (JObj [(lit "a", num 1); (lit "b", JInherited (lit "toString"))]) /\
  exists v, decode (join [NEWLINE] [lit "a: 1"; lit "b: toString"])
              no_decode_options = Some v.
Proof.
  split.
  - apply (proj1 (decode_result_shape
                    (join [NEWLINE] [lit "a: 1"; lit "b: toString"])
                    no_decode_options)).
    reflexivity.
  - apply (proj2 (decode_result_shape
                    (join [NEWLINE] [lit "a: 1"; lit "b: toString"])
                    no_decode_options)).
    reflexivity.
Defined.

(** C1, counterexample: the object [{a: "-"}] is written as [a: -] and
    decoded to [{a: null}]. *)
Lemma dash_value_decodes_to_null :
  encode (JObj [(lit "a", JStr (lit "-"))]) no_encode_options = lit "a: -" /\
  decode (encode (JObj [(lit "a", JStr (lit "-"))]) no_encode_options)
    no_decode_options
  = Some (JObj [(lit "a", JNull)]).
Proof. split; reflexivity. Qed.

Lemma scalar_object_roundtrip_witness :
  decode
    (encode
       (JObj [(lit "name", JStr (lit "Alice")); (lit "age", num 30);
              (lit "active", JBool true); (lit "msg", JStr (lit "Hello, World!"));
              (lit "home", JStr (lit "C:\Users")); (lit "none", JNull)])
       no_encode_options)
    no_decode_options
  = Some (JObj [(lit "name", JStr (lit "Alice")); (lit "age", num 30);
                (lit "active", JBool true);
                (lit "msg", JStr (lit "Hello, World!"));
                (lit "home", JStr (lit "C:\Users")); (lit "none", JNull)]).
Proof.
  apply scalar_object_roundtrip.
  - reflexivity.
  - reflexivity.
  - repeat constructor; simpl; intuition discriminate.
  - repeat constructor; discriminate.
  - discriminate.
Defined.

(** C2, counterexample: the array [[{a: ""}]] under the key [k] is written
    as a table with the cell [-] and decoded to [[{a: null}]]. *)
Lemma empty_string_cell_decodes_to_null :
  decode
    (encode (JObj [(lit "k", JArr [JObj [(lit "a", JStr (lit ""))]])])
       no_encode_options)
    no_decode_options
  = Some (JObj [(lit "k", JArr [JObj [(lit "a", JNull)]])]).
Proof. reflexivity. Qed.

Lemma table_roundtrip_witness :
  decode
    (encode
       (JObj [(lit "users",
               JArr [JObj [(lit "id", num 1); (lit "name", JStr (lit "Alice"))];
                     JObj [(lit "name", JStr (lit "")); (lit "id", num 2)];
                     JObj [(lit "id", num 3);
                           (lit "name", JStr (lit "C:\Users"))]])])
       no_encode_options)
    no_decode_options
  = Some
      (JObj [(lit "users",
              JArr [JObj [(lit "id", num 1); (lit "name", JStr (lit "Alice"))];
                    JObj [(lit "id", num 2); (lit "name", JNull)];
                    JObj [(lit "id", num 3);
                          (lit "name", JStr (lit "C:\Users"))]])]).
Proof.
  apply (table_roundtrip (lit "users")
           (JObj [(lit "id", num 1); (lit "name", JStr (lit "Alice"))])
           [JObj [(lit "name", JStr (lit "")); (lit "id", num 2)];
            JObj [(lit "id", num 3); (lit "name", JStr (lit "C:\Users"))]]
           no_encode_options no_decode_options).
  - reflexivity.
  - reflexivity.
  - discriminate.
  - discriminate.
  - repeat constructor.
  - constructor; [|constructor; [|constructor; [|constructor]]].
    + split; [repeat constructor; simpl; intuition discriminate|].
      split; [apply Permutation_refl|].
      repeat constructor; simpl; intuition discriminate.
    + split; [repeat constructor; simpl; intuition discriminate|].
      split; [apply perm_swap|].
      repeat constructor; simpl; intuition discriminate.
    + split; [repeat constructor; simpl; intuition discriminate|].
      split; [apply Permutation_refl|].
      repeat constructor; simpl; intuition discriminate.
Defined.

(** ** The further properties on concrete inputs *)

Lemma workflow_is_document : document workflow_document.
Proof.
  unfold workflow_document.
  apply document_cons; [reflexivity | absent | | ].
  { apply value_nested; [|left; cbn; lia].
    repeat (apply document_cons; [reflexivity | absent | scalar_value |]).
    apply document_nil. }
  apply document_cons; [reflexivity | absent | | ].
  { apply value_table.
    - discriminate.
    - repeat constructor; absent.
    - repeat constructor.
    - exact_rows. }
  apply document_cons; [reflexivity | absent | | apply document_nil].
  apply value_inline; [cbn; lia | each_of scalar_facts | reflexivity].
Qed.

Lemma document_roundtrip_witness :
  decode (encode (JObj workflow_document) no_encode_options) no_decode_options
  = Some (JObj workflow_document).
Proof.
  apply document_roundtrip;
    [reflexivity | reflexivity | exact workflow_is_document | discriminate].
Defined.

Lemma validate_accepts_documents_witness :
  valid (validate (encode (JObj workflow_document) no_encode_options)) = true
  /\ valid (validate (encode (JObj workflow_document) narrow_options)) = false.
Proof.
  split.
  - apply (proj2 (validate_accepts_documents workflow_document no_encode_options
                    eq_refl eq_refl workflow_is_document)).
    left. reflexivity.
  - destruct (valid (validate (encode (JObj workflow_document) narrow_options)))
      eqn:E; [|reflexivity].
    apply (proj1 (validate_accepts_documents workflow_document narrow_options
                    eq_refl eq_refl workflow_is_document)) in E.
    destruct E as [E | E]; [discriminate E|].
    inversion E as [|? ? H _]. discriminate H.
Defined.


Lemma line_endings_do_not_matter_witness :
  let text := join [NEWLINE] [lit "user:"; lit "  id: 1"; lit "  name: Alice"] in
  decode (replaceAll [NEWLINE] [CR; NEWLINE] text) no_decode_options
  = decode text no_decode_options
  /\ decode (replaceAll [NEWLINE] [CR] text) no_decode_options
     = decode text no_decode_options
  /\ validate (replaceAll [NEWLINE] [CR; NEWLINE] text) = validate text
  /\ validate (replaceAll [NEWLINE] [CR] text) = validate text.
Proof.
  apply line_endings_do_not_matter. vm_compute. intuition discriminate.
Defined.

Lemma isTableArray_iff_witness :
  isTableArray
    [JObj [(lit "id", num 1); (lit "name", JStr (lit "Alice"))];
     JObj [(lit "name", JStr (lit "Bob")); (lit "id", num 2)]] = true.
Proof.
  apply isTableArray_iff.
  - each_of ltac:(unfold commaFreeKeys; cbn [ObjectKeys map fst];
                   each_of scalar_facts).
  - split; [discriminate|].
    constructor; [|constructor; [|constructor]].
    + split; [reflexivity|]. split; [apply Permutation_refl | repeat constructor].
    + split; [reflexivity|]. split; [apply perm_swap | repeat constructor].
Defined.

Lemma sortKeys_ignores_key_order_witness :
  encode (JObj [(lit "b", num 1); (lit "a", JArr [num 2; num 3])]) sorting_options
  = encode (JObj [(lit "a", JArr [num 2; num 3]); (lit "b", num 1)]) sorting_options.
Proof.
  apply (sortKeys_ignores_key_order
           [(lit "b", num 1); (lit "a", JArr [num 2; num 3])]
           [(lit "a", JArr [num 2; num 3]); (lit "b", num 1)]
           sorting_options 0).
  - reflexivity.
  - repeat constructor; absent.
  - apply perm_swap.
Defined.

Lemma root_array_roundtrip_witness :
  decode (encode (JArr [JStr (lit "a"); num 1; JBool true; JNull]) no_encode_options)
         no_decode_options
  = Some (JArr [JStr (lit "a"); num 1; JBool true; JNull]).
Proof.
  apply root_array_roundtrip;
    [reflexivity | each_of scalar_facts | discriminate].
Defined.

Lemma root_table_roundtrip_witness :
  decode (encode (JArr user_rows) no_encode_options) no_decode_options
  = Some (JArr user_rows)
  /\ decode (encode (JArr user_rows) narrow_options) no_decode_options
     = Some (JArr []).
Proof.
  assert (H : Forall (exactRow [lit "id"; lit "name"]) user_rows)
    by (unfold user_rows; exact_rows).
  split.
  - apply (root_table_roundtrip
             (JObj [(lit "id", num 1); (lit "name", JStr (lit "Alice"))])
             [JObj [(lit "id", num 2); (lit "name", JStr (lit "Bob"))]]
             no_encode_options no_decode_options);
      [reflexivity | discriminate | repeat constructor; absent
       | repeat constructor | exact H].
  - apply (root_table_roundtrip
             (JObj [(lit "id", num 1); (lit "name", JStr (lit "Alice"))])
             [JObj [(lit "id", num 2); (lit "name", JStr (lit "Bob"))]]
             narrow_options no_decode_options);
      [reflexivity | discriminate | repeat constructor; absent
       | repeat constructor | exact H].
Defined.

Lemma collapsed_values_read_back_witness :
  decode (encode (JObj [(lit "tags", JArr [JStr (lit "x")]); (lit "n", num 1)])
            no_encode_options) no_decode_options
  = Some (JObj [(lit "tags", JStr (lit "x")); (lit "n", num 1)])
  /\ decode (encode (JObj [(lit "tags", JStr (lit "[]")); (lit "n", num 1)])
               no_encode_options) no_decode_options
     = Some (JObj [(lit "tags", JArr []); (lit "n", num 1)]).
Proof.
  assert (Hn : document [(lit "n", num 1)]).
  { apply document_cons; [reflexivity | absent | scalar_value | apply document_nil]. }
  assert (H1 : document [(lit "tags", JStr (lit "x")); (lit "n", num 1)]).
  { apply document_cons; [reflexivity | absent | scalar_value | exact Hn]. }
  assert (H2 : document [(lit "tags", JArr []); (lit "n", num 1)]).
  { apply document_cons; [reflexivity | absent | apply value_empty_array | exact Hn]. }
  split.
  - apply (proj1 (collapsed_values_read_back [] (lit "tags") (JStr (lit "x"))
                    [(lit "n", num 1)] no_encode_options no_decode_options
                    eq_refl eq_refl H1 ltac:(discriminate))).
    reflexivity.
  - apply (proj2 (collapsed_values_read_back [] (lit "tags") (JArr [])
                    [(lit "n", num 1)] no_encode_options no_decode_options
                    eq_refl eq_refl H2 ltac:(discriminate))).
    reflexivity.
Defined.

Lemma underscore_key_read_as_array_witness :
  decode (encode (JObj [(lit "_", JStr (lit "x")); (lit "n", num 1)])
            no_encode_options) no_decode_options
  = Some (JArr [JStr (lit "x")]).
Proof.
  apply underscore_key_read_as_array;
    [reflexivity | reflexivity | scalar_facts | discriminate].
Defined.

Lemma parseArgs_input_witness :
  let args := [lit "data.json"; lit "-o"; lit "out.mint"] in
  In (lit "data.json") args /\ startsWith (lit "-") (lit "data.json") = false
  /\ lit "data.json" <> lit "-".
Proof.
  apply (parseArgs_input no_parseInt). reflexivity.
Defined.

Lemma flags_force_the_mode_witness :
  let extname := fun _ : jsstring => lit ".mint" in
  let options := Cli.parseArgs no_parseInt [lit "in.mint"; lit "-d"; lit "-e"] in
  Cli.detectMode extname (Cli.input options) options = Cli.EncodeMode.
Proof.
  intros extname.
  apply (proj1 (flags_force_the_mode no_parseInt extname
                  [lit "in.mint"; lit "-d"; lit "-e"]
                  ltac:(repeat constructor))).
  reflexivity.
Defined.

Lemma single_field_object_is_flattened_witness :
  exists w,
    decode (encode (JObj [(lit "user", JObj [(lit "id", num 1)])]) no_encode_options)
           no_decode_options
    = Some (JObj [(lit "user", w)])
    /\ w = readValue (lit "id" ++ lit ": "
                        ++ formatPrimitive (num 1) no_encode_options false)
    /\ w <> JObj [(lit "id", num 1)].
Proof.
  apply single_field_object_is_flattened;
    [reflexivity | reflexivity | reflexivity | absent | reflexivity | scalar_facts].
Defined.

Lemma leading_comments_are_ignored_witness :
  decode (join [NEWLINE] [lit "# users"; lit ""; lit "name: Alice"])
         no_decode_options
  = decode (join [NEWLINE] [lit "name: Alice"]) no_decode_options.
Proof.
  apply (leading_comments_are_ignored [lit "# users"; lit ""] [lit "name: Alice"]);
    [each_of scalar_facts | each_of scalar_facts | discriminate].
Defined.
